(** * Coal: an in-process optimistic transaction engine (src/lib/core.ts)

    Shallow embedding of the engine and the properties of its version
    chains, visibility resolution, copy-on-write mutation, commit and
    pause/restore.

    JavaScript objects live in explicit stores: snapshots ([StateObj]),
    entities ([EntityObj]) and frames ([Frame]) are addressed by their index
    in a list, so that aliasing (a snapshot reached from two places, a frame
    kept by the caller) is modelled as in the source.  Loops over [_previous]
    links take a fuel argument; [None] means that the fuel ran out.

    The callers of src/test/coal.spec.ts ([transaction], [paused],
    [continued], [unpaused], [abortPaused], [model], the [entity] and
    [state] decorators) are embedded in the module [Callers]. *)

From stdpp Require Import base option list gmap fin_maps sorting.
From Stdlib Require Import ZArith Lia.

Open Scope Z_scope.

(** * Definitions *)

(** ** Data model *)
Abbreviation ref := nat (only parsing).       (* address of a snapshot *)
Abbreviation eref := nat (only parsing).      (* address of an entity *)
Abbreviation fref := nat (only parsing).      (* address of a frame *)
Abbreviation callback := nat (only parsing).  (* identity of a caller function *)
Abbreviation PauseId := nat (only parsing).

(** The enumerable, non-underscore properties of a snapshot. *)
Definition Fields := list (nat * Z).

(** [type FrameState = "open" | "paused" | "aborted" | "committed"] *)
Inductive FrameState := FsOpen | FsPaused | FsAborted | FsCommitted.

Global Instance FrameState_eq_dec : EqDecision FrameState.
Proof. solve_decision. Defined.

(** [interface Frame] *)
Record Frame := mkFrame {
  f_state : FrameState;
  f_onabort : option callback;
  f_oncommit : option callback }.

(** [interface TransactionSet]: an array used as a set, only [true] is
    ever stored. *)
Abbreviation TransactionSet := (gmap Z bool) (only parsing).

(** [interface Transaction].  [emptyObject] is [None] at the place that
    holds the transaction. *)
Record Transaction := mkTransaction {
  t_number : Z;
  t_mutated : list ref;
  t_invalid : TransactionSet;
  t_frame : fref }.

(** [interface State], with the [_object] back-reference [bindState]
    writes.  No snapshot of the model carries a [clone] hook. *)
Record StateObj := mkState {
  s_min : option Z;
  s_max : option Z;
  s_previous : option ref;
  s_entity : option eref;
  s_object : option eref;
  s_fields : Fields }.

(** [interface Entity]; every property is absent on a fresh object. *)
Record EntityObj := mkEntity {
  e_transaction : option Z;
  e_previous : option ref;
  e_state : option ref }.

(** [interface WithPredicessor]: the owner of a [_previous] link is the
    entity itself or one of its snapshots. *)
Inductive WithPredicessor := OfEntity (e : eref) | OfState (r : ref).

(** What the caller's hooks were called with. *)
Inductive Notification :=
  | CommitNotified (cb : callback) (changed : list ref)
  | AbortNotified (cb : callback).

(** The module's variables and the three object stores. *)
Record Engine := mkEngine {
  highestTransaction : Z;
  highestCommittedTransaction : Z;
  currentTransactionNumber : Z;
  currentTransaction : option Transaction;
  openTransactions : gmap Z FrameState;
  stateObjectsWithPredecessors : list ref;
  pausedTransactions : list (option Transaction);
  states : list StateObj;
  entities : list EntityObj;
  frames : list Frame;
  notified : list Notification }.

Definition initial : Engine :=
  mkEngine 0 0 0 None ∅ [] [] [] [] [] [].

Definition set_highestTransaction v (σ : Engine) :=
  mkEngine v (highestCommittedTransaction σ) (currentTransactionNumber σ)
    (currentTransaction σ) (openTransactions σ) (stateObjectsWithPredecessors σ)
    (pausedTransactions σ) (states σ) (entities σ) (frames σ) (notified σ).
Definition set_highestCommittedTransaction v (σ : Engine) :=
  mkEngine (highestTransaction σ) v (currentTransactionNumber σ)
    (currentTransaction σ) (openTransactions σ) (stateObjectsWithPredecessors σ)
    (pausedTransactions σ) (states σ) (entities σ) (frames σ) (notified σ).
Definition set_currentTransactionNumber v (σ : Engine) :=
  mkEngine (highestTransaction σ) (highestCommittedTransaction σ) v
    (currentTransaction σ) (openTransactions σ) (stateObjectsWithPredecessors σ)
    (pausedTransactions σ) (states σ) (entities σ) (frames σ) (notified σ).
Definition set_currentTransaction v (σ : Engine) :=
  mkEngine (highestTransaction σ) (highestCommittedTransaction σ)
    (currentTransactionNumber σ) v (openTransactions σ)
    (stateObjectsWithPredecessors σ) (pausedTransactions σ) (states σ)
    (entities σ) (frames σ) (notified σ).
Definition set_openTransactions v (σ : Engine) :=
  mkEngine (highestTransaction σ) (highestCommittedTransaction σ)
    (currentTransactionNumber σ) (currentTransaction σ) v
    (stateObjectsWithPredecessors σ) (pausedTransactions σ) (states σ)
    (entities σ) (frames σ) (notified σ).
Definition set_stateObjectsWithPredecessors v (σ : Engine) :=
  mkEngine (highestTransaction σ) (highestCommittedTransaction σ)
    (currentTransactionNumber σ) (currentTransaction σ) (openTransactions σ) v
    (pausedTransactions σ) (states σ) (entities σ) (frames σ) (notified σ).
Definition set_pausedTransactions v (σ : Engine) :=
  mkEngine (highestTransaction σ) (highestCommittedTransaction σ)
    (currentTransactionNumber σ) (currentTransaction σ) (openTransactions σ)
    (stateObjectsWithPredecessors σ) v (states σ) (entities σ) (frames σ)
    (notified σ).
Definition set_states v (σ : Engine) :=
  mkEngine (highestTransaction σ) (highestCommittedTransaction σ)
    (currentTransactionNumber σ) (currentTransaction σ) (openTransactions σ)
    (stateObjectsWithPredecessors σ) (pausedTransactions σ) v (entities σ)
    (frames σ) (notified σ).
Definition set_entities v (σ : Engine) :=
  mkEngine (highestTransaction σ) (highestCommittedTransaction σ)
    (currentTransactionNumber σ) (currentTransaction σ) (openTransactions σ)
    (stateObjectsWithPredecessors σ) (pausedTransactions σ) (states σ) v
    (frames σ) (notified σ).
Definition set_frames v (σ : Engine) :=
  mkEngine (highestTransaction σ) (highestCommittedTransaction σ)
    (currentTransactionNumber σ) (currentTransaction σ) (openTransactions σ)
    (stateObjectsWithPredecessors σ) (pausedTransactions σ) (states σ)
    (entities σ) v (notified σ).
Definition set_notified v (σ : Engine) :=
  mkEngine (highestTransaction σ) (highestCommittedTransaction σ)
    (currentTransactionNumber σ) (currentTransaction σ) (openTransactions σ)
    (stateObjectsWithPredecessors σ) (pausedTransactions σ) (states σ)
    (entities σ) (frames σ) v.

Definition with_min v (s : StateObj) :=
  mkState v (s_max s) (s_previous s) (s_entity s) (s_object s) (s_fields s).
Definition with_max v (s : StateObj) :=
  mkState (s_min s) v (s_previous s) (s_entity s) (s_object s) (s_fields s).
Definition with_previous v (s : StateObj) :=
  mkState (s_min s) (s_max s) v (s_entity s) (s_object s) (s_fields s).
Definition with_entity v (s : StateObj) :=
  mkState (s_min s) (s_max s) (s_previous s) v (s_object s) (s_fields s).
Definition with_object v (s : StateObj) :=
  mkState (s_min s) (s_max s) (s_previous s) (s_entity s) v (s_fields s).

Definition with_frame_state v (f : Frame) :=
  mkFrame v (f_onabort f) (f_oncommit f).

(** ** Errors and the engine monad *)
Inductive error :=
  | NoOpenTransaction          (* Error("No open transaction") *)
  | AlreadyInTransaction       (* Error("Already in a transaction") *)
  | InvalidPausedTransaction   (* Error("Invalid paused transaction") *)
  | MergeError                 (* Error("Merge error") *)
  | InvalidInternalState       (* Error("Invalid internal transaction state") *)
  | TypeError.                 (* a property of [undefined] was used *)

Inductive outcome (A : Type) :=
  | Ret (a : A)
  | Throw (e : error).
Arguments Ret {A} a.
Arguments Throw {A} e.

(** A call runs on the engine and either returns or throws; the stores keep
    whatever was written before a throw.  [None]: out of fuel. *)
Definition M (A : Type) := Engine → option (outcome A * Engine).

Definition ret {A} (a : A) : M A := λ σ, Some (Ret a, σ).
Definition throw {A} (e : error) : M A := λ σ, Some (Throw e, σ).
Definition bind {A B} (m : M A) (k : A → M B) : M B :=
  λ σ, match m σ with
       | None => None
       | Some (Ret a, σ') => k a σ'
       | Some (Throw e, σ') => Some (Throw e, σ')
       end.
Definition get : M Engine := λ σ, Some (Ret σ, σ).
Definition modify (f : Engine → Engine) : M unit := λ σ, Some (Ret tt, f σ).

(** [try { m } catch (e) { h(e) }] *)
Definition catch {A} (m : M A) (h : error → M A) : M A :=
  λ σ, match m σ with
       | None => None
       | Some (Ret a, σ') => Some (Ret a, σ')
       | Some (Throw e, σ') => h e σ'
       end.

(** [try { m } finally { f }]: a throw of [f] replaces the result of [m]. *)
Definition finally {A} (m : M A) (f : M unit) : M A :=
  λ σ, match m σ with
       | None => None
       | Some (r, σ') =>
           match f σ' with
           | None => None
           | Some (Ret _, σ'') => Some (r, σ'')
           | Some (Throw e, σ'') => Some (Throw e, σ'')
           end
       end.

(** A pure computation that may throw or run out of fuel. *)
Definition liftP {A} (x : option (outcome A)) : M A :=
  λ σ, match x with
       | None => None
       | Some r => Some (r, σ)
       end.

Notation "x <- c1 ;; c2" := (bind c1 (λ x, c2))
  (at level 20, c1 at level 99, c2 at level 200, only parsing).
Notation "c1 ;; c2" := (bind c1 (λ _, c2))
  (at level 100, c2 at level 200, right associativity, only parsing).

(** Property reads and writes through a reference; a reference that names
    no object behaves as [undefined]. *)
Definition readState (r : ref) : M StateObj :=
  λ σ, match states σ !! r with
       | Some s => Some (Ret s, σ)
       | None => Some (Throw TypeError, σ)
       end.
Definition readEntity (e : eref) : M EntityObj :=
  λ σ, match entities σ !! e with
       | Some eo => Some (Ret eo, σ)
       | None => Some (Throw TypeError, σ)
       end.
Definition readFrame (f : fref) : M Frame :=
  λ σ, match frames σ !! f with
       | Some fo => Some (Ret fo, σ)
       | None => Some (Throw TypeError, σ)
       end.
Definition updState (r : ref) (f : StateObj → StateObj) : M unit :=
  readState r ;; modify (λ σ, set_states (alter f r (states σ)) σ).
Definition updEntity (e : eref) (f : EntityObj → EntityObj) : M unit :=
  readEntity e ;; modify (λ σ, set_entities (alter f e (entities σ)) σ).
Definition updFrame (fr : fref) (f : Frame → Frame) : M unit :=
  readFrame fr ;; modify (λ σ, set_frames (alter f fr (frames σ)) σ).

Definition with_e_transaction v (eo : EntityObj) :=
  mkEntity v (e_previous eo) (e_state eo).
Definition with_e_previous v (eo : EntityObj) :=
  mkEntity (e_transaction eo) v (e_state eo).
Definition with_e_state v (eo : EntityObj) :=
  mkEntity (e_transaction eo) (e_previous eo) v.

(** Object creation by the caller ([{}], [Object.create]). *)
Definition allocState (s : StateObj) : M ref :=
  λ σ, Some (Ret (length (states σ)), set_states (states σ ++ [s]) σ).
Definition allocEntity (eo : EntityObj) : M eref :=
  λ σ, Some (Ret (length (entities σ)), set_entities (entities σ ++ [eo]) σ).
Definition allocFrame (fo : Frame) : M fref :=
  λ σ, Some (Ret (length (frames σ)), set_frames (frames σ ++ [fo]) σ).

Fixpoint forEach {A} (f : A → M unit) (l : list A) : M unit :=
  match l with
  | [] => ret tt
  | x :: l' => f x ;; forEach f l'
  end.

(** ** The engine *)
Definition bindState (object : eref) (state : ref) : M unit :=
  updEntity object (with_e_state (Some state)) ;;
  updEntity object (with_e_previous (Some state)) ;;
  σ <- get ;;
  updEntity object (with_e_transaction (Some (currentTransactionNumber σ))) ;;
  updState state (with_object (Some object)) ;;
  updState state (with_min (Some (currentTransactionNumber σ))).

Definition assert (value : bool) : M unit :=
  if value then ret tt else throw InvalidInternalState.

Definition inTransaction (σ : Engine) : bool :=
  match currentTransaction σ with
  | Some _ => true
  | None => false
  end.

Definition validateInTransaction : M unit :=
  σ <- get ;; if inTransaction σ then ret tt else throw NoOpenTransaction.

Definition validateNotInTransaction : M unit :=
  σ <- get ;; if inTransaction σ then throw AlreadyInTransaction else ret tt.

Definition assertInTransaction : M unit :=
  σ <- get ;; assert (inTransaction σ).

Definition assertNotInTransaction : M unit :=
  σ <- get ;; assert (negb (inTransaction σ)).

(** [currentTransaction.x!] for a property [x] of the transaction. *)
Definition theTransaction : M Transaction :=
  σ <- get ;;
  match currentTransaction σ with
  | Some t => ret t
  | None => throw TypeError
  end.

Definition isValid (id : option Z) (current : Z) (invalid : TransactionSet) : bool :=
  match id with
  | None => false
  | Some i =>
      if i <=? current
      then negb (default false (invalid !! i))
      else false
  end.

(** The condition under which [findVisible] moves on from a snapshot. *)
Definition skipped (s : StateObj) (transactionId : Z) (invalid : TransactionSet) : bool :=
  negb (isValid (s_min s) transactionId invalid)
  || isValid (s_max s) transactionId invalid.

(** The [while] loop of [findVisible]. *)
Fixpoint findVisible_loop (fuel : nat) (h : list StateObj) (state : option ref)
    (transactionId : Z) (invalid : TransactionSet) : option (outcome (option ref)) :=
  match fuel with
  | O => None
  | S fuel' =>
      match state with
      | None => Some (Ret None)
      | Some r =>
          match h !! r with
          | None => Some (Throw TypeError)
          | Some s =>
              if skipped s transactionId invalid
              then findVisible_loop fuel' h (s_previous s) transactionId invalid
              else Some (Ret (Some r))
          end
      end
  end.

Definition findVisible (fuel : nat) (h : list StateObj) (state : option ref)
    (transactionId : Z) (invalid : TransactionSet) : option (outcome (option ref)) :=
  match state with
  | None => Some (Throw TypeError)
  | Some r =>
      match h !! r with
      | None => Some (Throw TypeError)
      | Some s =>
          if skipped s transactionId invalid
          then findVisible_loop fuel h (s_previous s) transactionId invalid
          else Some (Ret (Some r))
      end
  end.

(** [currentTransaction.invalid || []] *)
Definition invalidOf (t : option Transaction) : TransactionSet :=
  match t with
  | Some t => t_invalid t
  | None => ∅
  end.

Definition makeReadable (fuel : nat) (entity : eref) : M unit :=
  eo <- readEntity entity ;;
  σ <- get ;;
  readableState <- liftP (findVisible fuel (states σ) (e_previous eo)
                            (currentTransactionNumber σ)
                            (invalidOf (currentTransaction σ))) ;;
  updEntity entity (with_e_state readableState) ;;
  updEntity entity (with_e_transaction (Some (currentTransactionNumber σ))).

Definition ensureReadable (fuel : nat) (entity : eref) : M unit :=
  eo <- readEntity entity ;;
  σ <- get ;;
  if bool_decide (e_transaction eo ≠ Some (currentTransactionNumber σ))
  then makeReadable fuel entity
  else ret tt.

(** The default [clone]: own properties whose name does not start with an
    underscore. *)
Definition clone (state : StateObj) : StateObj :=
  mkState None None None None None (s_fields state).

Definition currentInvalid (σ : Engine) : TransactionSet :=
  (λ _, true) <$>
    filter (λ kv : Z * FrameState, kv.2 = FsOpen ∨ kv.2 = FsAborted)
           (openTransactions σ).

(** The [while] loop of [makeWritable]: the place of the new snapshot. *)
Fixpoint spliceWalk (fuel : nat) (h : list StateObj) (previous : option ref)
    (next : WithPredicessor) (current : Z)
    : option (outcome (option ref * WithPredicessor)) :=
  match fuel with
  | O => None
  | S fuel' =>
      match previous with
      | None => Some (Ret (previous, next))
      | Some p =>
          match h !! p with
          | None => Some (Throw TypeError)
          | Some ps =>
              if default 0 (s_min ps) >? current
              then spliceWalk fuel' h (s_previous ps) (OfState p) current
              else Some (Ret (previous, next))
          end
      end
  end.

(** [next._previous = newState] *)
Definition setPrevious (next : WithPredicessor) (newState : ref) : M unit :=
  match next with
  | OfEntity e => updEntity e (with_e_previous (Some newState))
  | OfState r => updState r (with_previous (Some newState))
  end.

(** [currentTransaction.mutated!.push(newState)] *)
Definition pushMutated (newState : ref) : M unit :=
  t <- theTransaction ;;
  modify (set_currentTransaction
            (Some (mkTransaction (t_number t) (t_mutated t ++ [newState])
                                 (t_invalid t) (t_frame t)))).

Definition makeWritable (fuel : nat) (entity : eref) : M unit :=
  validateInTransaction ;;
  ensureReadable fuel entity ;;
  eo <- readEntity entity ;;
  match e_state eo with
  | None => throw TypeError
  | Some state =>
      s <- readState state ;;
      newState <- allocState (clone s) ;;
      σ <- get ;;
      let current := currentTransactionNumber σ in
      updState newState (with_min (Some current)) ;;
      updState newState (with_entity (Some entity)) ;;
      σ <- get ;;
      pn <- liftP (spliceWalk fuel (states σ) (e_previous eo) (OfEntity entity) current) ;;
      updState newState (with_previous pn.1) ;;
      setPrevious pn.2 newState ;;
      updState state (with_max (Some current)) ;;
      updEntity entity (with_e_state (Some newState)) ;;
      pushMutated newState ;;
      modify (λ σ, set_stateObjectsWithPredecessors
                     (stateObjectsWithPredecessors σ ++ [newState]) σ)
  end.

Definition ensureWritable (fuel : nat) (entity : eref) : M unit :=
  eo <- readEntity entity ;;
  σ <- get ;;
  if bool_decide (e_transaction eo ≠ Some (currentTransactionNumber σ))
  then makeWritable fuel entity
  else
    match e_state eo with
    | None => throw TypeError
    | Some r =>
        s <- readState r ;;
        if bool_decide (s_min s ≠ Some (currentTransactionNumber σ))
        then makeWritable fuel entity
        else ret tt
    end.

Definition scheduleCleanup : M unit := ret tt.

Definition beginTransaction (oncommit onabort : option callback) : M fref :=
  validateNotInTransaction ;;
  modify (λ σ, set_highestTransaction (highestTransaction σ + 1) σ) ;;
  modify (λ σ, set_currentTransactionNumber (highestTransaction σ) σ) ;;
  σ <- get ;;
  let invalid := currentInvalid σ in
  frame <- allocFrame (mkFrame FsOpen onabort oncommit) ;;
  modify (set_currentTransaction
            (Some (mkTransaction (currentTransactionNumber σ) [] invalid frame))) ;;
  modify (λ σ, set_openTransactions
                 (<[currentTransactionNumber σ := FsOpen]> (openTransactions σ)) σ) ;;
  assertInTransaction ;;
  ret frame.

Definition pauseTransaction : M PauseId :=
  validateInTransaction ;;
  σ <- get ;;
  let pausedId := length (pausedTransactions σ) in
  modify (λ σ, set_pausedTransactions
                 (pausedTransactions σ ++ [currentTransaction σ]) σ) ;;
  t <- theTransaction ;;
  updFrame (t_frame t) (with_frame_state FsPaused) ;;
  modify (set_currentTransaction None) ;;
  modify (λ σ, set_currentTransactionNumber (highestCommittedTransaction σ) σ) ;;
  assertNotInTransaction ;;
  ret pausedId.

Definition restoreTransaction (pausedId : PauseId) : M unit :=
  assertNotInTransaction ;;
  σ <- get ;;
  match pausedTransactions σ !! pausedId with
  | Some (Some pausedTransaction) =>
      if bool_decide (openTransactions σ !! t_number pausedTransaction ≠ Some FsOpen)
      then throw InvalidPausedTransaction
      else
        modify (set_currentTransaction (Some pausedTransaction)) ;;
        updFrame (t_frame pausedTransaction) (with_frame_state FsOpen) ;;
        modify (set_currentTransactionNumber (t_number pausedTransaction)) ;;
        modify (λ σ, set_pausedTransactions
                       (<[pausedId := None]> (pausedTransactions σ)) σ) ;;
        assertInTransaction
  | _ => throw InvalidPausedTransaction
  end.

Definition abortTransaction : M unit :=
  validateInTransaction ;;
  modify (λ σ, set_openTransactions
                 (<[currentTransactionNumber σ := FsAborted]> (openTransactions σ)) σ) ;;
  t <- theTransaction ;;
  let frame := t_frame t in
  updFrame frame (with_frame_state FsAborted) ;;
  modify (λ σ, set_currentTransactionNumber (highestCommittedTransaction σ) σ) ;;
  modify (set_currentTransaction None) ;;
  scheduleCleanup ;;
  assertNotInTransaction ;;
  fo <- readFrame frame ;;
  (* [if (frame.onabort) frame.onabort;]: the property is read, not called *)
  match f_onabort fo with
  | Some _ => ret tt
  | None => ret tt
  end.

(** The body of [mutated.forEach] in [commitTransaction]. *)
Definition checkCollision (fuel : nat) (baseTransaction : Z)
    (baseInvalid invalid : TransactionSet) (state : ref) : M unit :=
  s <- readState state ;;
  match s_entity s with
  | None => throw TypeError
  | Some e =>
      eo <- readEntity e ;;
      let first := e_previous eo in
      σ <- get ;;
      baseState <- liftP (findVisible fuel (states σ) first baseTransaction baseInvalid) ;;
      current <- liftP (findVisible fuel (states σ) first
                          (highestCommittedTransaction σ) invalid) ;;
      if bool_decide (baseState ≠ current) then throw MergeError else ret tt
  end.

(** The watermark step of [commitTransaction]. *)
Definition advanceWatermark : M unit :=
  σ <- get ;;
  if currentTransactionNumber σ >? highestCommittedTransaction σ
  then modify (set_highestCommittedTransaction (currentTransactionNumber σ))
  else modify (set_currentTransactionNumber (highestCommittedTransaction σ)).

Definition commitTransaction (fuel : nat) : M (list ref) :=
  σ0 <- get ;;
  let frame := t_frame <$> currentTransaction σ0 in
  mutated <- finally
    (validateInTransaction ;;
     σ <- get ;;
     t <- theTransaction ;;
     let baseTransaction := currentTransactionNumber σ - 1 in
     let baseInvalid := t_invalid t in
     mutated <- catch
       (let mutated := t_mutated t in
        let invalid := currentInvalid σ in
        forEach (checkCollision fuel baseTransaction baseInvalid invalid) mutated ;;
        ret mutated)
       (λ e, abortTransaction ;; throw e) ;;
     modify (λ σ, set_openTransactions
                    (delete (currentTransactionNumber σ) (openTransactions σ)) σ) ;;
     advanceWatermark ;;
     match frame with
     | None => throw TypeError
     | Some fr => updFrame fr (with_frame_state FsCommitted)
     end ;;
     modify (set_currentTransaction None) ;;
     scheduleCleanup ;;
     ret mutated)
    assertNotInTransaction ;;
  match frame with
  | None => throw TypeError
  | Some fr =>
      fo <- readFrame fr ;;
      match f_oncommit fo with
      | Some cb => modify (λ σ, set_notified (notified σ ++ [CommitNotified cb mutated]) σ)
      | None => ret tt
      end
  end ;;
  ret mutated.

(** ** Calls of the exported interface *)
Inductive call :=
  | BeginTransaction (oncommit onabort : option callback)
  | PauseTransaction
  | RestoreTransaction (pausedId : PauseId)
  | AbortTransaction
  | CommitTransaction
  | EnsureReadable (entity : eref)
  | EnsureWritable (entity : eref)
  | BindState (fields : Fields).

Inductive value :=
  | VUndefined
  | VFrame (f : fref)
  | VPauseId (id : PauseId)
  | VChanged (l : list ref)
  | VEntity (e : eref).

(** [BindState fields] is the constructor pattern of the callers:
    [bindState(m, s)] on a new object [m] and a new state [s] that holds
    [fields]. *)
Definition exec (fuel : nat) (c : call) : M value :=
  match c with
  | BeginTransaction oncommit onabort =>
      f <- beginTransaction oncommit onabort ;; ret (VFrame f)
  | PauseTransaction => id <- pauseTransaction ;; ret (VPauseId id)
  | RestoreTransaction id => restoreTransaction id ;; ret VUndefined
  | AbortTransaction => abortTransaction ;; ret VUndefined
  | CommitTransaction => l <- commitTransaction fuel ;; ret (VChanged l)
  | EnsureReadable e => ensureReadable fuel e ;; ret VUndefined
  | EnsureWritable e => ensureWritable fuel e ;; ret VUndefined
  | BindState fields =>
      m <- allocEntity (mkEntity None None None) ;;
      s <- allocState (mkState None None None None None fields) ;;
      bindState m s ;;
      ret (VEntity m)
  end.

(** A sequence of calls; a call that throws leaves the engine as it was
    at the throw and the caller goes on.  The results are listed in call
    order. *)
Fixpoint run (fuel : nat) (cs : list call) (σ : Engine)
    : option (list (outcome value) * Engine) :=
  match cs with
  | [] => Some ([], σ)
  | c :: cs' =>
      match exec fuel c σ with
      | None => None
      | Some (r, σ') =>
          match run fuel cs' σ' with
          | None => None
          | Some (rs, σ'') => Some (r :: rs, σ'')
          end
      end
  end.

(** ** Version chains *)
(** [chain h o l]: following [_previous] from [o] visits exactly the
    snapshots [l], newest first, and ends at an unset link. *)
Fixpoint chain (h : list StateObj) (o : option ref) (l : list ref) : Prop :=
  match l with
  | [] => o = None
  | r :: l' =>
      o = Some r ∧
      match h !! r with
      | Some s => chain h (s_previous s) l'
      | None => False
      end
  end.

(** The visibility rule in the words of the specification. *)
Definition isVisible (id : option Z) (asOf : Z) (invalid : TransactionSet) : Prop :=
  ∃ i, id = Some i ∧ i ≤ asOf ∧ invalid !! i ≠ Some true.

(** Created-at is visible and retired-at is unset or not visible. *)
Definition visibleSnapshot (s : StateObj) (asOf : Z) (invalid : TransactionSet) : Prop :=
  isVisible (s_min s) asOf invalid ∧
  (s_max s = None ∨ ¬ isVisible (s_max s) asOf invalid).

Definition visibleAt (h : list StateObj) (asOf : Z) (invalid : TransactionSet)
    (r : ref) : Prop :=
  ∃ s, h !! r = Some s ∧ visibleSnapshot s asOf invalid.

(** What [findVisible] is specified to return on the chain [l]: the first
    snapshot that is visible, or [undefined] when none is. *)
Definition firstVisibleOf (h : list StateObj) (asOf : Z) (invalid : TransactionSet)
    (l : list ref) (res : option ref) : Prop :=
  match res with
  | Some v =>
      ∃ l1 l2, l = l1 ++ v :: l2 ∧ visibleAt h asOf invalid v ∧
               Forall (λ x, ¬ visibleAt h asOf invalid x) l1
  | None => Forall (λ x, ¬ visibleAt h asOf invalid x) l
  end.

(** ** Relations and invariants *)
Definition preserves {A} (R : relation Engine) (m : M A) : Prop :=
  ∀ σ r σ', m σ = Some (r, σ') → R σ σ'.

(** An invariant as a relation: it holds after if it held before. *)
Definition keeps (I : Engine → Prop) : relation Engine := λ σ σ', I σ → I σ'.

(** *** The commit watermark *)
Definition watermark_le : relation Engine :=
  λ σ σ', highestCommittedTransaction σ ≤ highestCommittedTransaction σ'.

(** *** The transaction manager's variables under the entity calls *)
Definition same_manager : relation Engine :=
  λ σ σ',
    highestTransaction σ' = highestTransaction σ ∧
    highestCommittedTransaction σ' = highestCommittedTransaction σ ∧
    currentTransactionNumber σ' = currentTransactionNumber σ ∧
    openTransactions σ' = openTransactions σ ∧
    pausedTransactions σ' = pausedTransactions σ ∧
    frames σ' = frames σ ∧
    notified σ' = notified σ ∧
    t_number <$> currentTransaction σ' = t_number <$> currentTransaction σ ∧
    t_invalid <$> currentTransaction σ' = t_invalid <$> currentTransaction σ ∧
    t_frame <$> currentTransaction σ' = t_frame <$> currentTransaction σ.

(** The calls that work on entities and leave the transaction manager. *)
Definition entity_call (c : call) : Prop :=
  match c with
  | EnsureReadable _ | EnsureWritable _ | BindState _ => True
  | _ => False
  end.

(** *** The active transaction and its number *)
(** The active transaction carries the current number, and the frame of
    every active or paused transaction is in the frame store. *)
Definition wf_manager (σ : Engine) : Prop :=
  (∀ t, currentTransaction σ = Some t →
        currentTransactionNumber σ = t_number t ∧
        (t_frame t < length (frames σ))%nat) ∧
  (∀ i t, pausedTransactions σ !! i = Some (Some t) →
          (t_frame t < length (frames σ))%nat).

(** ** The commit check *)
Definition committed (σ : Engine) (t : Transaction) (fo : Frame) : Engine :=
  let n := currentTransactionNumber σ in
  let w := if n >? highestCommittedTransaction σ then n
           else highestCommittedTransaction σ in
  mkEngine (highestTransaction σ) w w None
    (delete n (openTransactions σ)) (stateObjectsWithPredecessors σ)
    (pausedTransactions σ) (states σ) (entities σ)
    (alter (with_frame_state FsCommitted) (t_frame t) (frames σ))
    (notified σ ++ match f_oncommit fo with
                   | Some cb => [CommitNotified cb (t_mutated t)]
                   | None => []
                   end).

(** The snapshot of the entity of [state] that a viewpoint resolves to:
    [findVisible(state._entity._previous, asOf, invalid)]. *)
Definition visibleFor (fuel : nat) (σ : Engine) (state : ref) (asOf : Z)
    (invalid : TransactionSet) : option (outcome (option ref)) :=
  match states σ !! state with
  | None => Some (Throw TypeError)
  | Some s =>
      match s_entity s with
      | None => Some (Throw TypeError)
      | Some e =>
          match entities σ !! e with
          | None => Some (Throw TypeError)
          | Some eo => findVisible fuel (states σ) (e_previous eo) asOf invalid
          end
      end
  end.

(** Both viewpoints of the commit check resolve for [state]. *)
Definition resolves (fuel : nat) (σ : Engine) (t : Transaction) (state : ref)
    (base now : option ref) : Prop :=
  visibleFor fuel σ state (t_number t - 1) (t_invalid t) = Some (Ret base) ∧
  visibleFor fuel σ state (highestCommittedTransaction σ) (currentInvalid σ)
    = Some (Ret now).

(** ** Pause and restore *)
(** The registry of paused transactions only grows, and a freed slot
    stays a hole. *)
Definition slots_le : relation Engine :=
  λ σ σ',
    (length (pausedTransactions σ) ≤ length (pausedTransactions σ'))%nat ∧
    ∀ id, pausedTransactions σ !! id = Some None →
          pausedTransactions σ' !! id = Some None.

(** ** Chains in the store *)
(** [segment h o l o']: following [_previous] from [o] visits [l] and the
    link of the last one is [o']. *)
Fixpoint segment (h : list StateObj) (o : option ref) (l : list ref)
    (o' : option ref) : Prop :=
  match l with
  | [] => o = o'
  | r :: l' =>
      o = Some r ∧
      match h !! r with
      | Some s => segment h (s_previous s) l' o'
      | None => False
      end
  end.

(** The sort key of the splice: [previous._min || 0]. *)
Definition key (h : list StateObj) (r : ref) : Z :=
  default 0 (h !! r ≫= s_min).

(** Ordered by creation point, newest first. *)
Definition descending (h : list StateObj) (l : list ref) : Prop :=
  StronglySorted (λ a b, b ≤ a) (key h <$> l).

Definition lastOr (next : WithPredicessor) (l : list ref) : WithPredicessor :=
  match last l with
  | Some r => OfState r
  | None => next
  end.

(** ** Copy on write *)
(** Reads leave the snapshots and every [_previous] of an entity alone. *)
Definition same_chains : relation Engine :=
  λ σ σ',
    states σ' = states σ ∧
    ∀ e, e_previous <$> entities σ' !! e = e_previous <$> entities σ !! e.

(** The snapshot [makeWritable] creates from [s]. *)
Definition newSnapshot (current : Z) (entity : eref) (previous : option ref)
    (s : StateObj) : StateObj :=
  mkState (Some current) None previous (Some entity) None (s_fields s).

Definition linkState (next : WithPredicessor) (n : ref) (h : list StateObj) :=
  match next with
  | OfState r => alter (with_previous (Some n)) r h
  | OfEntity _ => h
  end.

Definition linkEntity (next : WithPredicessor) (n : ref) (es : list EntityObj) :=
  match next with
  | OfState _ => es
  | OfEntity e => alter (with_e_previous (Some n)) e es
  end.

(** ** Retirement points *)
(** Every snapshot stays in the store with the same [_max]. *)
Definition max_same : relation Engine :=
  λ σ σ', ∀ r s, states σ !! r = Some s →
                 ∃ s', states σ' !! r = Some s' ∧ s_max s' = s_max s.

(** Every snapshot stays in the store, and a [_max] that is set stays set. *)
Definition max_kept : relation Engine :=
  λ σ σ', ∀ r s, states σ !! r = Some s →
                 ∃ s', states σ' !! r = Some s' ∧
                       (is_Some (s_max s) → is_Some (s_max s')).

(** The state of test "two paused transactions write the same entity"
    before the second write: snapshot 0 was retired by transaction 1, which
    is paused, and transaction 2 is active. *)
Definition second_writer : Engine :=
  default initial
    (snd <$> run 2 [BindState [(0%nat, 499)];
                    BeginTransaction None None; EnsureWritable 0%nat;
                    PauseTransaction; BeginTransaction None None] initial).

(** ** The lifecycle table *)
(** The entry of the active transaction is [open], and no entry has a
    number above [highestTransaction]. *)
Definition wf_lifecycle (σ : Engine) : Prop :=
  wf_manager σ ∧
  (∀ t, currentTransaction σ = Some t →
        openTransactions σ !! t_number t = Some FsOpen) ∧
  (∀ n, is_Some (openTransactions σ !! n) → n ≤ highestTransaction σ).

(** Aborted entries stay aborted. *)
Definition aborted_kept (σ σ' : Engine) : Prop :=
  ∀ n, openTransactions σ !! n = Some FsAborted →
       openTransactions σ' !! n = Some FsAborted.

(** ** Resolution on a chain *)
Definition skippedAt (h : list StateObj) (asOf : Z) (invalid : TransactionSet)
    (r : ref) : bool :=
  match h !! r with
  | Some s => skipped s asOf invalid
  | None => true
  end.

(** The first snapshot of [l] that [findVisible] does not move on from. *)
Fixpoint firstVisible (h : list StateObj) (asOf : Z) (invalid : TransactionSet)
    (l : list ref) : option ref :=
  match l with
  | [] => None
  | r :: l' =>
      if skippedAt h asOf invalid r
      then firstVisible h asOf invalid l'
      else Some r
  end.

(** ** Worked runs *)
Definition engine_after (fuel : nat) (cs : list call) : Engine :=
  default initial (snd <$> run fuel cs initial).




(** Two paused writers of one entity: snapshots 1 and 2 both have [_max]
    unset. *)
Definition two_writers : Engine :=
  engine_after 2 [BindState [(0%nat, 499)];
                  BeginTransaction None None; EnsureWritable 0%nat;
                  PauseTransaction;
                  BeginTransaction None None; EnsureWritable 0%nat;
                  PauseTransaction].

(** The snapshots of [two_writers]: 2 (by transaction 2), 1 (by
    transaction 1) and 0, retired by transaction 2. *)
Definition three_snapshots : list StateObj := states two_writers.



(** Transaction 1 was paused before transaction 2 wrote entity 0 and
    committed; transaction 1 is active again.  The chain of the entity is
    snapshot 1 (created by 2) and snapshot 0 (created outside). *)
Definition late_writer : Engine :=
  engine_after 3 [BindState [(0%nat, 499)];
                  BeginTransaction None None; PauseTransaction;
                  BeginTransaction None None; EnsureWritable 0%nat;
                  CommitTransaction; RestoreTransaction 0%nat].

(** ** Snapshots without a retirement point *)
(** The entity a snapshot belongs to: [_entity] for a clone, [_object] for
    the state [bindState] was called with. *)
Definition owner (s : StateObj) : option eref :=
  match s_entity s with
  | Some e => Some e
  | None => s_object s
  end.

(** Every entity has a chain; its cached [_state], when set, is on the
    chain; some snapshot of the chain has [_max] unset; and the snapshots
    of the chain belong to the entity. *)
Definition chain_inv (σ : Engine) : Prop :=
  ∀ e eo, entities σ !! e = Some eo →
    ∃ l, chain (states σ) (e_previous eo) l ∧
         (∀ st, e_state eo = Some st → st ∈ l) ∧
         (∃ r s, r ∈ l ∧ states σ !! r = Some s ∧ s_max s = None) ∧
         (∀ r s, r ∈ l → states σ !! r = Some s → owner s = Some e).

(** The calls of the transaction manager leave the objects alone. *)
Definition same_objects : relation Engine :=
  λ σ σ', states σ' = states σ ∧ entities σ' = entities σ.

(** ** The engine after a call of the transaction manager *)
(** The engine [beginTransaction] leaves when it returns. *)
Definition begun (oncommit onabort : option callback) (σ : Engine) : Engine :=
  let n := highestTransaction σ + 1 in
  mkEngine n (highestCommittedTransaction σ) n
    (Some (mkTransaction n [] (currentInvalid σ) (length (frames σ))))
    (<[n := FsOpen]> (openTransactions σ)) (stateObjectsWithPredecessors σ)
    (pausedTransactions σ) (states σ) (entities σ)
    (frames σ ++ [mkFrame FsOpen onabort oncommit]) (notified σ).

(** The engine [pauseTransaction] leaves when it pauses [t]. *)
Definition suspended (t : Transaction) (σ : Engine) : Engine :=
  mkEngine (highestTransaction σ) (highestCommittedTransaction σ)
    (highestCommittedTransaction σ) None
    (openTransactions σ) (stateObjectsWithPredecessors σ)
    (pausedTransactions σ ++ [Some t]) (states σ) (entities σ)
    (alter (with_frame_state FsPaused) (t_frame t) (frames σ)) (notified σ).

(** The engine [restoreTransaction id] leaves when slot [id] holds [t]. *)
Definition resumed (id : PauseId) (t : Transaction) (σ : Engine) : Engine :=
  mkEngine (highestTransaction σ) (highestCommittedTransaction σ)
    (t_number t) (Some t)
    (openTransactions σ) (stateObjectsWithPredecessors σ)
    (<[id := None]> (pausedTransactions σ)) (states σ) (entities σ)
    (alter (with_frame_state FsOpen) (t_frame t) (frames σ)) (notified σ).

(** The engine [abortTransaction] leaves when it aborts [t]. *)
Definition aborted (t : Transaction) (σ : Engine) : Engine :=
  mkEngine (highestTransaction σ) (highestCommittedTransaction σ)
    (highestCommittedTransaction σ) None
    (<[currentTransactionNumber σ := FsAborted]> (openTransactions σ))
    (stateObjectsWithPredecessors σ)
    (pausedTransactions σ) (states σ) (entities σ)
    (alter (with_frame_state FsAborted) (t_frame t) (frames σ)) (notified σ).

(** What a call of the transaction manager can do to the engine. *)
Inductive manager_step (σ : Engine) : call → Engine → Prop :=
  | ms_none c : manager_step σ c σ
  | ms_begin oncommit onabort :
      currentTransaction σ = None →
      manager_step σ (BeginTransaction oncommit onabort) (begun oncommit onabort σ)
  | ms_pause t :
      currentTransaction σ = Some t →
      manager_step σ PauseTransaction (suspended t σ)
  | ms_restore id t :
      currentTransaction σ = None →
      pausedTransactions σ !! id = Some (Some t) →
      openTransactions σ !! t_number t = Some FsOpen →
      manager_step σ (RestoreTransaction id) (resumed id t σ)
  | ms_abort c t :
      c = AbortTransaction ∨ c = CommitTransaction →
      currentTransaction σ = Some t →
      manager_step σ c (aborted t σ)
  | ms_commit t fo :
      currentTransaction σ = Some t →
      frames σ !! t_frame t = Some fo →
      manager_step σ CommitTransaction (committed σ t fo).

(** ** Numbers *)
(** The lifecycle table holds [open] and [aborted] only. *)
Definition table_inv (σ : Engine) : Prop :=
  ∀ m st, openTransactions σ !! m = Some st → st = FsOpen ∨ st = FsAborted.

(** The watermark is a number that was handed out, and outside a
    transaction the current number is the watermark. *)
Definition numbers_inv (σ : Engine) : Prop :=
  0 ≤ highestCommittedTransaction σ ∧
  highestCommittedTransaction σ ≤ highestTransaction σ ∧
  (currentTransaction σ = None →
   currentTransactionNumber σ = highestCommittedTransaction σ).

(** ** Paused transactions *)
(** The frame of the active transaction is [open]; a paused transaction is
    [open] in the lifecycle table and its frame is [paused]; the active and
    the paused transactions have numbers and frames of their own. *)
Definition paused_inv (σ : Engine) : Prop :=
  (∀ t, currentTransaction σ = Some t →
        f_state <$> frames σ !! t_frame t = Some FsOpen) ∧
  (∀ id t, pausedTransactions σ !! id = Some (Some t) →
        openTransactions σ !! t_number t = Some FsOpen ∧
        f_state <$> frames σ !! t_frame t = Some FsPaused ∧
        (∀ t', currentTransaction σ = Some t' → t_number t' ≠ t_number t)) ∧
  (∀ i j ti tj,
        pausedTransactions σ !! i = Some (Some ti) →
        pausedTransactions σ !! j = Some (Some tj) →
        t_number ti = t_number tj ∨ t_frame ti = t_frame tj → i = j).

(** A transaction that is active or paused. *)
Definition live (σ : Engine) (t : Transaction) : Prop :=
  currentTransaction σ = Some t ∨
  ∃ id, pausedTransactions σ !! id = Some (Some t).

(** The invalid set of a live transaction holds numbers below its own
    only, and it holds every number below its own that is still in the
    lifecycle table. *)
Definition invalid_inv (σ : Engine) : Prop :=
  ∀ t, live σ t →
    (∀ m b, t_invalid t !! m = Some b → b = true ∧ m < t_number t) ∧
    (∀ m, m < t_number t → is_Some (openTransactions σ !! m) →
          t_invalid t !! m = Some true).

(** The invariant of the transaction manager. *)
Definition manager_inv (σ : Engine) : Prop :=
  wf_lifecycle σ ∧ table_inv σ ∧ numbers_inv σ ∧ paused_inv σ ∧ invalid_inv σ.

(** ** Snapshots and the transactions that made them *)
(** Every snapshot in the mutation log of a live transaction is a clone
    stamped with the number of that transaction, and its entity exists. *)
Definition mutated_inv (σ : Engine) : Prop :=
  ∀ t, live σ t → ∀ r, r ∈ t_mutated t →
    ∃ s e, states σ !! r = Some s ∧ s_entity s = Some e ∧
           s_min s = Some (t_number t) ∧ is_Some (entities σ !! e).

(** Every [_min] and [_max] in the store is at most the watermark or the
    number of a transaction that is still in the lifecycle table. *)
Definition stamps_inv (σ : Engine) : Prop :=
  ∀ r s m, states σ !! r = Some s →
    s_min s = Some m ∨ s_max s = Some m →
    m ≤ highestCommittedTransaction σ ∨ is_Some (openTransactions σ !! m).

(** The engine [ensureReadable] leaves when it refreshes the cache. *)
Definition refreshed (e : eref) (res : option ref) (σ : Engine) : Engine :=
  set_entities
    (alter (with_e_transaction (Some (currentTransactionNumber σ))) e
       (alter (with_e_state res) e (entities σ))) σ.

(** The engine after [bindState] on a new object and a new state. *)
Definition bound (fields : Fields) (σ : Engine) : Engine :=
  set_states
    (states σ ++ [mkState (Some (currentTransactionNumber σ)) None None None
                    (Some (length (entities σ))) fields])
    (set_entities
       (entities σ ++ [mkEntity (Some (currentTransactionNumber σ))
                         (Some (length (states σ))) (Some (length (states σ)))])
       σ).

(** What an entity call can do to the engine. *)
Inductive entity_step (fuel : nat) (σ : Engine) : Engine → Prop :=
  | es_none : entity_step fuel σ σ
  | es_read e eo res :
      entities σ !! e = Some eo →
      findVisible fuel (states σ) (e_previous eo) (currentTransactionNumber σ)
        (invalidOf (currentTransaction σ)) = Some (Ret res) →
      entity_step fuel σ (refreshed e res σ)
  | es_write e σ' :
      makeWritable fuel e σ = Some (Ret tt, σ') →
      entity_step fuel σ σ'
  | es_bind fields : entity_step fuel σ (bound fields σ).

(** The invariant of the engine: the transaction manager, the chains, the
    mutation logs and the stamps. *)
Definition engine_inv (σ : Engine) : Prop :=
  manager_inv σ ∧ chain_inv σ ∧ mutated_inv σ ∧ stamps_inv σ.

(** ** Order and retirement on a chain *)
(** On the chain of every entity: the snapshots are ordered by [_min],
    newest first, and each has one; a snapshot retired by [k] stands
    behind a snapshot created by [k]; and the snapshot an entity caches
    for the number [c] was created at or before [c]. *)
Definition order_inv (σ : Engine) : Prop :=
  ∀ e eo l, entities σ !! e = Some eo → chain (states σ) (e_previous eo) l →
    descending (states σ) l ∧
    (∀ r, r ∈ l → ∃ s m, states σ !! r = Some s ∧ s_min s = Some m) ∧
    (∀ j x s k, l !! j = Some x → states σ !! x = Some s → s_max s = Some k →
       ∃ i y sy, (i < j)%nat ∧ l !! i = Some y ∧
                 states σ !! y = Some sy ∧ s_min sy = Some k) ∧
    (∀ c st s, e_transaction eo = Some c → e_state eo = Some st →
       states σ !! st = Some s → ∃ m, s_min s = Some m ∧ m ≤ c).

(** The first snapshot of [l] whose [_min] the viewpoint accepts. *)
Fixpoint firstValid (h : list StateObj) (asOf : Z) (invalid : TransactionSet)
    (l : list ref) : option ref :=
  match l with
  | [] => None
  | r :: l' =>
      if isValid (h !! r ≫= s_min) asOf invalid
      then Some r
      else firstValid h asOf invalid l'
  end.

(** The number an entity's cache is for was handed out. *)
Definition cache_inv (σ : Engine) : Prop :=
  ∀ e eo c, entities σ !! e = Some eo → e_transaction eo = Some c →
            c ≤ highestTransaction σ.

(** The watermark is not the number of a pending transaction. *)
Definition watermark_free (σ : Engine) : Prop :=
  openTransactions σ !! highestCommittedTransaction σ = None.

(** What an entity caches for a live transaction is what that transaction
    resolves the entity to. *)
Definition coherent (σ : Engine) : Prop :=
  ∀ t e eo l, live σ t → entities σ !! e = Some eo →
    e_transaction eo = Some (t_number t) →
    chain (states σ) (e_previous eo) l →
    e_state eo = firstValid (states σ) (t_number t) (t_invalid t) l.

(** Everything that holds of an engine a sequence of calls can reach. *)
Definition sound (σ : Engine) : Prop :=
  engine_inv σ ∧ order_inv σ ∧ cache_inv σ ∧ watermark_free σ ∧ coherent σ.

(** ** What no call changes *)
(** Every snapshot stays in the store with its [_min], its back-references
    and its fields; every entity stays in its store. *)
Definition snapshots_kept : relation Engine :=
  λ σ σ',
    (∀ r s, states σ !! r = Some s →
       ∃ s', states σ' !! r = Some s' ∧
             s_min s' = s_min s ∧ s_fields s' = s_fields s ∧
             s_entity s' = s_entity s ∧ s_object s' = s_object s) ∧
    (∀ e, is_Some (entities σ !! e) → is_Some (entities σ' !! e)).

(** The viewpoint [(asOf, invalid)] resolves the entity [e] to the same
    snapshot in [σ'] as in [σ]. *)
Definition view_kept (asOf : Z) (invalid : TransactionSet) (e : eref)
    : relation Engine :=
  λ σ σ',
    ∀ eo l, entities σ !! e = Some eo → chain (states σ) (e_previous eo) l →
      ∃ eo' l', entities σ' !! e = Some eo' ∧
                chain (states σ') (e_previous eo') l' ∧
                firstValid (states σ') asOf invalid l'
                = firstValid (states σ) asOf invalid l.

(** ** The callers (src/test/coal.spec.ts) *)
Module Callers.

Definition with_fields (f : Fields → Fields) (s : StateObj) : StateObj :=
  mkState (s_min s) (s_max s) (s_previous s) (s_entity s) (s_object s)
    (f (s_fields s)).

(** [o[name]] on the fields of a snapshot. *)
Fixpoint getProp (name : nat) (fields : Fields) : option Z :=
  match fields with
  | [] => None
  | (n, v) :: fs => if decide (n = name) then Some v else getProp name fs
  end.

(** [o[name] = value]: an existing property keeps its place. *)
Fixpoint setProp (name : nat) (value : Z) (fields : Fields) : Fields :=
  match fields with
  | [] => [(name, value)]
  | (n, v) :: fs =>
      if decide (n = name) then (name, value) :: fs
      else (n, v) :: setProp name value fs
  end.

(** The getter that [model] and the [state] decorator define:
    [ensureReadable(this); return this._state[name]]. *)
Definition property_get (fuel : nat) (this : eref) (name : nat) : M (option Z) :=
  ensureReadable fuel this ;;
  eo <- readEntity this ;;
  match e_state eo with
  | None => throw TypeError
  | Some r => s <- readState r ;; ret (getProp name (s_fields s))
  end.

(** The setter: [ensureWritable(this); this._state[name] = value]. *)
Definition property_set (fuel : nat) (this : eref) (name : nat) (value : Z)
    : M unit :=
  ensureWritable fuel this ;;
  eo <- readEntity this ;;
  match e_state eo with
  | None => throw TypeError
  | Some r => updState r (with_fields (setProp name value))
  end.

(** [model(object)]: a new state and a new object are bound, then every
    property of [object] is copied into the state. *)
Definition model (object : Fields) : M eref :=
  s <- allocState (mkState None None None None None []) ;;
  m <- allocEntity (mkEntity None None None) ;;
  bindState m s ;;
  forEach (λ kv : nat * Z, updState s (with_fields (setProp kv.1 kv.2))) object ;;
  ret m.

(** The constructor the [entity] decorator makes:
    [bindState(this, {}); target.apply(this, arguments)]. *)
Definition entity (this_target : eref → M unit) : M eref :=
  this <- allocEntity (mkEntity None None None) ;;
  s <- allocState (mkState None None None None None []) ;;
  bindState this s ;;
  this_target this ;;
  ret this.

(** [transaction(f)]: run [f] in a transaction, abort if it throws,
    otherwise commit. *)
Definition transaction (fuel : nat) (f : M unit) : M (list ref) :=
  beginTransaction None None ;;
  catch f (λ e, abortTransaction ;; throw e) ;;
  commitTransaction fuel.

(** [paused(f)]: run [f] in a transaction, then pause it. *)
Definition paused (f : M unit) : M PauseId :=
  beginTransaction None None ;;
  catch f (λ e, abortTransaction ;; throw e) ;;
  pauseTransaction.

(** [continued(pauseId, f)] *)
Definition continued (pauseId : PauseId) (f : M unit) : M PauseId :=
  restoreTransaction pauseId ;;
  catch f (λ e, abortTransaction ;; throw e) ;;
  pauseTransaction.

(** [unpaused(pauseId, f)], [f] optional. *)
Definition unpaused (fuel : nat) (pauseId : PauseId) (f : option (M unit))
    : M (list ref) :=
  restoreTransaction pauseId ;;
  match f with
  | Some f => catch f (λ e, abortTransaction ;; throw e)
  | None => ret tt
  end ;;
  commitTransaction fuel.

(** [abortPaused(pauseId)] *)
Definition abortPaused (pauseId : PauseId) : M unit :=
  restoreTransaction pauseId ;;
  abortTransaction.

(** What the callback of a test is made of: property reads and writes,
    new models, plain values and exceptions, in sequence. *)
Inductive entity_code (fuel : nat) : ∀ A : Type, M A → Prop :=
  | ec_ret A (a : A) : entity_code fuel A (ret a)
  | ec_throw A (err : error) : entity_code fuel A (throw err)
  | ec_bind A B (m : M A) (k : A → M B) :
      entity_code fuel A m → (∀ a, entity_code fuel B (k a)) →
      entity_code fuel B (bind m k)
  | ec_get this name : entity_code fuel (option Z) (property_get fuel this name)
  | ec_set this name value : entity_code fuel unit (property_set fuel this name value)
  | ec_model object : entity_code fuel eref (model object)
  | ec_entity target :
      (∀ this, entity_code fuel unit (target this)) →
      entity_code fuel eref (entity target).

(** What a test does, step by step: a call of the engine, a property read
    or write, a new model. *)
Inductive action :=
  | Call (c : call)
  | Read (this : eref) (name : nat)
  | Write (this : eref) (name : nat) (value : Z)
  | Model (object : Fields).

Definition perform (fuel : nat) (a : action) : M unit :=
  match a with
  | Call c => exec fuel c ;; ret tt
  | Read this name => property_get fuel this name ;; ret tt
  | Write this name value => property_set fuel this name value
  | Model object => model object ;; ret tt
  end.

(** The engine after a sequence of actions; as in [run], an action that
    throws leaves the engine as it was at the throw and the next one goes
    on from there. *)
Fixpoint session (fuel : nat) (l : list action) (σ : Engine) : option Engine :=
  match l with
  | [] => Some σ
  | a :: l' =>
      match perform fuel a σ with
      | None => None
      | Some (_, σ') => session fuel l' σ'
      end
  end.

(** Two stores that differ in the fields of their snapshots only. *)
Definition same_shape (h h' : list StateObj) : Prop :=
  Forall2 (λ s s', s_min s' = s_min s ∧ s_max s' = s_max s ∧
                   s_previous s' = s_previous s ∧ s_entity s' = s_entity s ∧
                   s_object s' = s_object s) h h'.

(** [state[name]] for the snapshot [st] an entity points to; a property of
    [undefined] cannot be read. *)
Definition reads (h : list StateObj) (st : option ref) (name : nat)
    : outcome (option Z) :=
  match st with
  | None => Throw TypeError
  | Some r =>
      match h !! r with
      | None => Throw TypeError
      | Some s => Ret (getProp name (s_fields s))
      end
  end.

(** A callback run under the number [n] leaves every other viewpoint as
    it was: each entity resolves to the same snapshot, and the snapshots
    not stamped [n] keep their fields. *)
Definition others_kept (asOf : Z) (invalid : TransactionSet) : relation Engine :=
  λ σ σ',
    (∀ e, view_kept asOf invalid e σ σ') ∧
    (∀ r s, states σ !! r = Some s →
       s_min s ≠ Some (currentTransactionNumber σ) →
       ∃ s', states σ' !! r = Some s' ∧
             s_fields s' = s_fields s ∧ s_min s' = s_min s).

(** The engine a session leaves, started on the engine of a fresh module. *)
Definition session_after (fuel : nat) (l : list action) : Engine :=
  default initial (session fuel l initial).

(** One model whose property 0 a paused transaction has written. *)
Definition one_paused_writer : Engine :=
  session_after 2 [Model [(0%nat, 499)]; Call (BeginTransaction None None);
                   Write 0%nat 0%nat 500; Call PauseTransaction].

(** The fields after [s[name] = object[name]] for every property of
    [object], in order. *)
Definition copied (object : Fields) (fields : Fields) : Fields :=
  foldl (λ fs (kv : nat * Z), setProp kv.1 kv.2 fs) fields object.

(** The engine after a new object was bound to a new state that holds the
    properties of [object]. *)
Definition written (object : Fields) (σ : Engine) : Engine :=
  set_states
    (alter (with_fields (copied object)) (length (states σ))
       (states (bound [] σ)))
    (bound [] σ).

End Callers.

(** ** What a callback preserves *)
(** [m] leaves a sound engine sound and the transaction manager alone. *)
Definition entity_safe {A} (m : M A) : Prop :=
  ∀ σ r σ', m σ = Some (r, σ') → sound σ → sound σ' ∧ same_manager σ σ'.

(** ** Writers of one entity *)
(** Every clone stamped with the number of a live transaction is in the
    mutation log of that transaction. *)
Definition logged_inv (σ : Engine) : Prop :=
  ∀ t r s e, live σ t → states σ !! r = Some s → s_entity s = Some e →
    s_min s = Some (t_number t) → r ∈ t_mutated t.

(** On the chain of an entity, a clone stamped [a] that a live transaction
    holds invalid and a later snapshot stamped [b] that it does not are
    not both committed: the writer of one of them is still in the
    lifecycle table. *)
Definition serial_inv (σ : Engine) : Prop :=
  ∀ t e eo l ra sa a rb sb b,
    live σ t → entities σ !! e = Some eo →
    chain (states σ) (e_previous eo) l →
    ra ∈ l → states σ !! ra = Some sa → s_entity sa = Some e →
    s_min sa = Some a →
    rb ∈ l → states σ !! rb = Some sb → s_min sb = Some b →
    a < b < t_number t →
    t_invalid t !! a = Some true → t_invalid t !! b = None →
    is_Some (openTransactions σ !! a) ∨ is_Some (openTransactions σ !! b).

Definition serial (σ : Engine) : Prop :=
  sound σ ∧ logged_inv σ ∧ serial_inv σ.

(** The commit check of [t] passes: for every entity [t] wrote, the
    baseline and the present viewpoint resolve to the same snapshot. *)
Definition unopposed (σ : Engine) (t : Transaction) : Prop :=
  ∀ r s e eo l, r ∈ t_mutated t → states σ !! r = Some s →
    s_entity s = Some e → entities σ !! e = Some eo →
    chain (states σ) (e_previous eo) l →
    firstValid (states σ) (t_number t - 1) (t_invalid t) l
    = firstValid (states σ) (highestCommittedTransaction σ) (currentInvalid σ) l.

(** Every clone stands on the chain of its entity. *)
Definition clones_inv (σ : Engine) : Prop :=
  ∀ r s e, states σ !! r = Some s → s_entity s = Some e →
    ∃ eo l, entities σ !! e = Some eo ∧
            chain (states σ) (e_previous eo) l ∧ r ∈ l.

(** * Properties *)

(** ** Visibility resolution *)
Lemma isValid_isVisible id asOf invalid :
  isValid id asOf invalid = true ↔ isVisible id asOf invalid.
Proof.
  unfold isValid, isVisible. destruct id as [i|].
  - destruct (Z.leb_spec i asOf) as [Hle|Hgt].
    + destruct (invalid !! i) as [[]|] eqn:E; simpl; split; try done.
      * intros (j & [= <-] & _ & Hn). by rewrite E in Hn.
      * intros _. exists i. rewrite E. done.
      * intros _. exists i. rewrite E. done.
    + split; [done|]. intros (j & [= <-] & Hle & _). lia.
  - split; [done|]. by intros (j & ? & _).
Qed.

Lemma skipped_false s asOf invalid :
  skipped s asOf invalid = false ↔ visibleSnapshot s asOf invalid.
Proof.
  unfold skipped, visibleSnapshot.
  rewrite orb_false_iff, negb_false_iff, isValid_isVisible.
  split; intros [Hmin Hmax]; split; try done.
  - right. rewrite <- isValid_isVisible. by rewrite Hmax.
  - destruct Hmax as [Hmax|Hmax].
    + by rewrite Hmax.
    + apply not_true_is_false. by rewrite isValid_isVisible.
Qed.

Lemma skipped_true s asOf invalid :
  skipped s asOf invalid = true ↔ ¬ visibleSnapshot s asOf invalid.
Proof.
  rewrite <- skipped_false. destruct (skipped s asOf invalid); naive_solver.
Qed.

Lemma findVisible_loop_spec h asOf invalid l :
  ∀ o fuel, chain h o l → (length l < fuel)%nat →
    ∃ res, findVisible_loop fuel h o asOf invalid = Some (Ret res) ∧
           firstVisibleOf h asOf invalid l res.
Proof.
  induction l as [|r l IH]; intros o fuel Hc Hf; simpl in *.
  - subst o. destruct fuel; [lia|]. exists None. split; [done|]. constructor.
  - destruct Hc as [-> Hc]. destruct fuel as [|fuel]; [lia|]. simpl.
    destruct (h !! r) as [s|] eqn:Hr; [|done].
    destruct (skipped s asOf invalid) eqn:Hs.
    + destruct (IH _ fuel Hc) as (res & Hres & Hspec); [lia|].
      exists res. split; [done|].
      assert (Hn : ¬ visibleAt h asOf invalid r).
      { intros (s' & Hs' & Hv). rewrite Hr in Hs'. injection Hs' as <-.
        by apply skipped_true in Hs. }
      destruct res as [v|]; simpl in *.
      * destruct Hspec as (l1 & l2 & -> & Hv & Hall).
        exists (r :: l1), l2. split; [done|]. split; [done|].
        by constructor.
      * by constructor.
    + exists (Some r). split; [done|]. exists [], l. split; [done|].
      split; [|constructor]. exists s. split; [done|]. by apply skipped_false.
Qed.

Lemma findVisible_spec h asOf invalid l r fuel :
  chain h (Some r) l → (length l ≤ fuel)%nat →
  ∃ res, findVisible fuel h (Some r) asOf invalid = Some (Ret res) ∧
         firstVisibleOf h asOf invalid l res.
Proof.
  intros Hc Hf. destruct l as [|r' l]; [done|].
  simpl in Hc. destruct Hc as [[= <-] Hc]. unfold findVisible.
  destruct (h !! r) as [s|] eqn:Hr; [|done].
  destruct (skipped s asOf invalid) eqn:Hs.
  - destruct (findVisible_loop_spec h asOf invalid l _ fuel Hc) as (res & Hres & Hspec).
    { simpl in Hf. lia. }
    exists res. split; [done|].
    assert (Hn : ¬ visibleAt h asOf invalid r).
    { intros (s' & Hs' & Hv). rewrite Hr in Hs'. injection Hs' as <-.
      by apply skipped_true in Hs. }
    destruct res as [v|]; simpl in *.
    + destruct Hspec as (l1 & l2 & -> & Hv & Hall).
      exists (r :: l1), l2. split; [done|]. split; [done|]. by constructor.
    + by constructor.
  - exists (Some r). split; [done|]. exists [], l. split; [done|].
    split; [|constructor]. exists s. split; [done|]. by apply skipped_false.
Qed.

(** C1.  On a chain (the snapshots reached from a node through [_previous],
    ending at an unset link), [findVisible] returns, given fuel for the
    length of the chain, the first snapshot whose [_min] is visible and
    whose [_max] is unset or not visible, where a number is visible iff it
    is defined, at most [asOf] and not in the invalid set; it returns
    [undefined] when the chain has no such snapshot. *)
Theorem findVisible_first_visible (h : list StateObj) (state : ref)
    (asOf : Z) (invalid : TransactionSet) (l : list ref) (fuel : nat) :
  chain h (Some state) l → (length l ≤ fuel)%nat →
  ∃ res, findVisible fuel h (Some state) asOf invalid = Some (Ret res) ∧
    match res with
    | Some v =>
        ∃ l1 l2, l = l1 ++ v :: l2 ∧ visibleAt h asOf invalid v ∧
                 Forall (λ x, ¬ visibleAt h asOf invalid x) l1
    | None => Forall (λ x, ¬ visibleAt h asOf invalid x) l
    end.
Proof. apply findVisible_spec. Qed.

(** ** Relations kept by every call
    [preserves R m]: whenever [m] finishes (by returning or by throwing),
    the engine before and after is related by [R].  For a preorder [R]
    this composes along [bind], [catch] and [finally]. *)

Section preserves.
Context (R : relation Engine) `{!PreOrder R}.

Lemma preserves_ret {A} (a : A) : preserves R (ret a).
Proof. intros σ r σ' [= <- <-]. reflexivity. Qed.

Lemma preserves_throw {A} (e : error) : preserves R (@throw A e).
Proof. intros σ r σ' [= <- <-]. reflexivity. Qed.

Lemma preserves_get : preserves R get.
Proof. intros σ r σ' [= <- <-]. reflexivity. Qed.

Lemma preserves_liftP {A} (x : option (outcome A)) : preserves R (liftP x).
Proof. intros σ r σ'. unfold liftP. destruct x; intros [= <- <-]. reflexivity. Qed.

Lemma preserves_modify f : (∀ σ, R σ (f σ)) → preserves R (modify f).
Proof. intros Hf σ r σ' [= <- <-]. apply Hf. Qed.

Lemma preserves_bind {A B} (m : M A) (k : A → M B) :
  preserves R m → (∀ a, preserves R (k a)) → preserves R (bind m k).
Proof.
  intros Hm Hk σ r σ'. unfold bind.
  destruct (m σ) as [[[a|e] σ1]|] eqn:E; [| |done].
  - intros Hka. transitivity σ1; [by eapply Hm|by eapply Hk].
  - intros [= <- <-]. by eapply Hm.
Qed.

Lemma preserves_catch {A} (m : M A) (h : error → M A) :
  preserves R m → (∀ e, preserves R (h e)) → preserves R (catch m h).
Proof.
  intros Hm Hh σ r σ'. unfold catch.
  destruct (m σ) as [[[a|e] σ1]|] eqn:E; [| |done].
  - intros [= <- <-]. by eapply Hm.
  - intros He. transitivity σ1; [by eapply Hm|by eapply Hh].
Qed.

Lemma preserves_finally {A} (m : M A) (f : M unit) :
  preserves R m → preserves R f → preserves R (finally m f).
Proof.
  intros Hm Hf σ r σ'. unfold finally.
  destruct (m σ) as [[r1 σ1]|] eqn:E; [|done].
  destruct (f σ1) as [[[[]|e] σ2]|] eqn:E2; [| |done].
  - intros [= <- <-]. transitivity σ1; [by eapply Hm|by eapply Hf].
  - intros [= <- <-]. transitivity σ1; [by eapply Hm|by eapply Hf].
Qed.

Lemma preserves_forEach {A} (f : A → M unit) (l : list A) :
  (∀ x, preserves R (f x)) → preserves R (forEach f l).
Proof.
  intros Hf. induction l as [|x l IH]; simpl.
  - apply preserves_ret.
  - apply preserves_bind; [apply Hf|]. intros _. apply IH.
Qed.

Lemma preserves_readState r : preserves R (readState r).
Proof. intros σ x σ'. unfold readState. destruct (_ !! _); intros [= <- <-]; reflexivity. Qed.

Lemma preserves_readEntity e : preserves R (readEntity e).
Proof. intros σ x σ'. unfold readEntity. destruct (_ !! _); intros [= <- <-]; reflexivity. Qed.

Lemma preserves_readFrame f : preserves R (readFrame f).
Proof. intros σ x σ'. unfold readFrame. destruct (_ !! _); intros [= <- <-]; reflexivity. Qed.

Lemma preserves_updState r f :
  (∀ σ s, states σ !! r = Some s → R σ (set_states (alter f r (states σ)) σ)) →
  preserves R (updState r f).
Proof.
  intros H σ x σ'. unfold updState, bind, readState, modify.
  destruct (states σ !! r) eqn:E; intros [= <- <-]; [by eapply H|reflexivity].
Qed.

Lemma preserves_updEntity e f :
  (∀ σ eo, entities σ !! e = Some eo →
           R σ (set_entities (alter f e (entities σ)) σ)) →
  preserves R (updEntity e f).
Proof.
  intros H σ x σ'. unfold updEntity, bind, readEntity, modify.
  destruct (entities σ !! e) eqn:E; intros [= <- <-]; [by eapply H|reflexivity].
Qed.

Lemma preserves_updFrame fr f :
  (∀ σ fo, frames σ !! fr = Some fo →
           R σ (set_frames (alter f fr (frames σ)) σ)) →
  preserves R (updFrame fr f).
Proof.
  intros H σ x σ'. unfold updFrame, bind, readFrame, modify.
  destruct (frames σ !! fr) eqn:E; intros [= <- <-]; [by eapply H|reflexivity].
Qed.

Lemma preserves_allocState s :
  (∀ σ, R σ (set_states (states σ ++ [s]) σ)) → preserves R (allocState s).
Proof. intros H σ x σ' [= <- <-]. apply H. Qed.

Lemma preserves_allocEntity eo :
  (∀ σ, R σ (set_entities (entities σ ++ [eo]) σ)) → preserves R (allocEntity eo).
Proof. intros H σ x σ' [= <- <-]. apply H. Qed.

Lemma preserves_allocFrame fo :
  (∀ σ, R σ (set_frames (frames σ ++ [fo]) σ)) → preserves R (allocFrame fo).
Proof. intros H σ x σ' [= <- <-]. apply H. Qed.

Lemma preserves_run fuel cs :
  (∀ c, preserves R (exec fuel c)) →
  ∀ σ rs σ', run fuel cs σ = Some (rs, σ') → R σ σ'.
Proof.
  intros Hc. induction cs as [|c cs IH]; simpl; intros σ rs σ'.
  - intros [= <- <-]. reflexivity.
  - destruct (exec fuel c σ) as [[r σ1]|] eqn:E; [|done].
    destruct (run fuel cs σ1) as [[rs1 σ2]|] eqn:E2; [|done].
    intros [= <- <-]. transitivity σ1; [by eapply Hc|by eapply IH].
Qed.
End preserves.

Global Instance keeps_preorder I : PreOrder (keeps I).
Proof. split; unfold keeps; [intros ?|intros ???]; auto. Qed.

(** Breaks a call into its writes; [tac] closes the goal left by each
    write, [special] is tried first on every part. *)
Ltac preserves_with special tac :=
  repeat first
    [ special
    | apply preserves_ret; apply _ | apply preserves_throw; apply _
    | apply preserves_get; apply _ | apply preserves_liftP; apply _
    | apply preserves_readState; apply _
    | apply preserves_readEntity; apply _
    | apply preserves_readFrame; apply _
    | apply preserves_modify; intros ?; tac
    | apply preserves_updState; [apply _|intros ? ? ?; tac]
    | apply preserves_updEntity; [apply _|intros ? ? ?; tac]
    | apply preserves_updFrame; [apply _|intros ? ? ?; tac]
    | apply preserves_allocState; intros ?; tac
    | apply preserves_allocEntity; intros ?; tac
    | apply preserves_allocFrame; intros ?; tac
    | apply preserves_bind; [apply _| |intros ?]
    | apply preserves_catch; [apply _| |intros ?]
    | apply preserves_finally; [apply _| |]
    | apply preserves_forEach; [apply _|intros ?]
    | progress unfold assert, validateInTransaction, validateNotInTransaction,
        assertInTransaction, assertNotInTransaction, theTransaction,
        scheduleCleanup, pushMutated, setPrevious, checkCollision, makeReadable,
        ensureReadable, makeWritable, ensureWritable, bindState,
        beginTransaction, pauseTransaction, restoreTransaction,
        abortTransaction, advanceWatermark, commitTransaction, exec
    | progress cbv zeta
    | match goal with
      | |- preserves _ (match ?x with _ => _ end) => destruct x
      end ].

(** *** The watermark under one call *)
Global Instance watermark_le_preorder : PreOrder watermark_le.
Proof. split; unfold watermark_le; [intros ?|intros ???]; lia. Qed.

Lemma advanceWatermark_le : preserves watermark_le advanceWatermark.
Proof.
  intros σ r σ'. unfold advanceWatermark, bind, get, modify.
  destruct (Z.gtb_spec (currentTransactionNumber σ) (highestCommittedTransaction σ));
    intros [= <- <-]; unfold watermark_le; simpl; lia.
Qed.

Lemma exec_watermark_le fuel c : preserves watermark_le (exec fuel c).
Proof.
  preserves_with ltac:(apply advanceWatermark_le)
                 ltac:(unfold watermark_le; simpl; lia).
Qed.

(** ** Running a call symbolically *)
Ltac munfold :=
  unfold exec, commitTransaction, advanceWatermark, abortTransaction,
    restoreTransaction, pauseTransaction, beginTransaction, scheduleCleanup,
    bindState, pushMutated, setPrevious, theTransaction,
    assertNotInTransaction, assertInTransaction, validateNotInTransaction,
    validateInTransaction, assert, updFrame, updEntity, updState,
    allocFrame, allocEntity, allocState,
    readFrame, readEntity, readState, finally, catch, liftP, modify, get, bind,
    throw, ret, inTransaction in *.

Ltac mclean :=
  repeat match goal with
  | H : context [alter ?f ?i ?l !! ?i] |- _ =>
      rewrite (list_lookup_alter_eq f l i) in H
  | H1 : ?l !! ?i = Some _, H : context [?l !! ?i] |- _ =>
      lazymatch type of H with
      | ?l !! ?i = Some _ => fail
      | _ => rewrite H1 in H
      end
  | H : context [(?l ++ [?x]) !! length ?l] |- _ =>
      rewrite (list_lookup_middle l [] x (length l) eq_refl) in H
  end.

Ltac mrun :=
  munfold; simpl in *; simplify_eq/=;
  repeat (first [progress mclean | case_match]; simplify_eq/=).

(** ** The transaction manager *)
Lemma abortTransaction_result σ r σ' :
  abortTransaction σ = Some (r, σ') →
  match currentTransaction σ with
  | None => r = Throw NoOpenTransaction ∧ σ' = σ
  | Some t =>
      openTransactions σ' = <[currentTransactionNumber σ := FsAborted]> (openTransactions σ) ∧
      states σ' = states σ ∧ entities σ' = entities σ ∧
      notified σ' = notified σ ∧
      pausedTransactions σ' = pausedTransactions σ ∧
      highestCommittedTransaction σ' = highestCommittedTransaction σ ∧
      highestTransaction σ' = highestTransaction σ ∧
      match frames σ !! t_frame t with
      | None => r = Throw TypeError
      | Some fo =>
          r = Ret tt ∧ currentTransaction σ' = None ∧
          currentTransactionNumber σ' = highestCommittedTransaction σ ∧
          frames σ' = alter (with_frame_state FsAborted) (t_frame t) (frames σ)
      end
  end.
Proof. intros H. mrun; done. Qed.

Global Instance same_manager_preorder : PreOrder same_manager.
Proof.
  split.
  - intros σ. by repeat split.
  - intros σ1 σ2 σ3 H1 H2. unfold same_manager in *.
    destruct H1 as (?&?&?&?&?&?&?&?&?&?), H2 as (?&?&?&?&?&?&?&?&?&?).
    repeat split; congruence.
Qed.

Lemma pushMutated_same_manager r : preserves same_manager (pushMutated r).
Proof.
  intros σ x σ' H. mrun; [|reflexivity].
  unfold same_manager; simpl. rewrite H. by repeat split.
Qed.

Lemma ensureReadable_same_manager fuel e :
  preserves same_manager (ensureReadable fuel e).
Proof.
  preserves_with ltac:(apply pushMutated_same_manager)
                 ltac:(by repeat split).
Qed.

Lemma ensureWritable_same_manager fuel e :
  preserves same_manager (ensureWritable fuel e).
Proof.
  preserves_with ltac:(apply pushMutated_same_manager)
                 ltac:(by repeat split).
Qed.

Lemma bindState_same_manager o s : preserves same_manager (bindState o s).
Proof.
  preserves_with ltac:(apply pushMutated_same_manager)
                 ltac:(by repeat split).
Qed.

Lemma exec_same_manager fuel c :
  entity_call c → preserves same_manager (exec fuel c).
Proof.
  destruct c; intros []; simpl.
  all: preserves_with ltac:(apply pushMutated_same_manager)
                      ltac:(by repeat split).
Qed.

Lemma same_manager_wf σ σ' : same_manager σ σ' → wf_manager σ → wf_manager σ'.
Proof.
  intros (_&_&Hc&_&Hp&Hf&_&Hn&_&Hfr) [Hi1 Hi2]. split.
  - intros t Ht. rewrite Ht in Hn, Hfr. rewrite Hc, Hf.
    destruct (currentTransaction σ) as [t0|] eqn:E; simpl in *; [|done].
    injection Hn as Hn. injection Hfr as Hfr. rewrite Hn, Hfr. by apply Hi1.
  - intros i t. rewrite Hp, Hf. apply Hi2.
Qed.

Ltac wf_absurd :=
  match goal with
  | Hi : wf_manager ?σ, Hc : currentTransaction ?σ = Some ?t,
    Hn : frames ?σ !! t_frame ?t = None |- _ =>
      apply lookup_ge_None in Hn; destruct Hi as [Hi _];
      destruct (Hi _ Hc) as [_ ?]; lia
  | Hi : wf_manager ?σ, Hc : pausedTransactions ?σ !! _ = Some (Some ?t),
    Hn : frames ?σ !! t_frame ?t = None |- _ =>
      apply lookup_ge_None in Hn; destruct Hi as [_ Hi];
      specialize (Hi _ _ Hc); lia
  end.

(** *** Commit *)
Lemma checkCollision_readonly fuel b bi i x :
  preserves eq (checkCollision fuel b bi i x).
Proof. preserves_with fail fail. Qed.

Lemma forEach_checkCollision_readonly fuel b bi i l :
  preserves eq (forEach (checkCollision fuel b bi i) l).
Proof. apply preserves_forEach; [apply _|]. intros x. apply checkCollision_readonly. Qed.

Lemma commitTransaction_result fuel σ r σ' :
  commitTransaction fuel σ = Some (r, σ') →
  match currentTransaction σ with
  | None => r = Throw NoOpenTransaction ∧ σ' = σ
  | Some t =>
      ∃ rc, forEach (checkCollision fuel (currentTransactionNumber σ - 1)
                       (t_invalid t) (currentInvalid σ)) (t_mutated t) σ
            = Some (rc, σ) ∧
        match rc with
        | Throw e =>
            match frames σ !! t_frame t with
            | Some fo => r = Throw e ∧ abortTransaction σ = Some (Ret tt, σ')
            | None => r = Throw InvalidInternalState
            end
        | Ret _ =>
            match frames σ !! t_frame t with
            | Some fo => r = Ret (t_mutated t) ∧ σ' = committed σ t fo
            | None => r = Throw InvalidInternalState
            end
        end
  end.
Proof.
  intros H. unfold commitTransaction in H.
  unfold bind at 1, get at 1 in H.
  destruct (currentTransaction σ) as [t|] eqn:Ht.
  - pose proof (forEach_checkCollision_readonly fuel (currentTransactionNumber σ - 1)
                  (t_invalid t) (currentInvalid σ) (t_mutated t) σ) as Hro.
    destruct (forEach _ (t_mutated t) σ) as [[rc σ1]|] eqn:Hfe.
    + specialize (Hro _ _ eq_refl). subst σ1. exists rc. split; [done|].
      destruct rc as [[]|e].
      * mrun; try done.
        all: split; [done|]; unfold committed; simpl; rewrite H; try rewrite H2;
          by rewrite ?app_nil_r.
      * mrun; done.
    + mrun.
  - mrun; done.
Qed.

Lemma commitTransaction_total fuel σ t rc :
  currentTransaction σ = Some t →
  forEach (checkCollision fuel (currentTransactionNumber σ - 1)
             (t_invalid t) (currentInvalid σ)) (t_mutated t) σ = Some (rc, σ) →
  is_Some (commitTransaction fuel σ).
Proof.
  intros Ht Hfe. destruct (commitTransaction fuel σ) as [x|] eqn:H; [by eexists|].
  exfalso. unfold commitTransaction in H.
  unfold bind at 1, get at 1 in H. rewrite Ht in H. simpl in H.
  mrun.
Qed.

Lemma exec_wf_manager fuel c σ r σ' :
  exec fuel c σ = Some (r, σ') → wf_manager σ → wf_manager σ'.
Proof.
  destruct c.
  - intros H Hi. mrun; try done. destruct Hi as [Hi1 Hi2].
    split; simpl.
    + intros t [= <-]. simpl. rewrite length_app. simpl. split; [done|lia].
    + intros i t Ht. rewrite length_app. specialize (Hi2 _ _ Ht). lia.
  - intros H Hi. mrun; try done; try wf_absurd.
    destruct Hi as [Hi1 Hi2]. split; simpl; [done|].
    intros i t. rewrite length_alter. intros [Ht|[_ Ht]]%lookup_app_Some.
    + by eapply Hi2.
    + destruct (i - length (pausedTransactions e))%nat as [|[|]]; simpl in Ht; try done.
      injection Ht as <-. by apply Hi1.
  - intros H Hi. mrun; try done; try wf_absurd.
    destruct Hi as [Hi1 Hi2]. split; simpl.
    + intros t' [= <-]. rewrite length_alter. split; [done|]. by eapply Hi2.
    + intros i t'. rewrite length_alter.
      intros [(_&?&_)|[_ Ht]]%list_lookup_insert_Some; [done|]. by eapply Hi2.
  - intros H Hi. mrun; try done; try wf_absurd.
    all: destruct Hi as [Hi1 Hi2]; split; simpl; [done|].
    all: intros i t; rewrite length_alter; apply Hi2.
  - intros H Hi.
    assert (∃ r0, commitTransaction fuel σ = Some (r0, σ')) as [r0 Hc].
    { unfold exec, bind, ret in H.
      destruct (commitTransaction fuel σ) as [[[] ?]|]; simplify_eq; eauto. }
    clear H. apply commitTransaction_result in Hc.
    destruct (currentTransaction σ) as [t|] eqn:Ht; [|by destruct Hc as [_ ->]].
    destruct Hc as (rc & _ & Hc).
    destruct (proj1 Hi _ Ht) as [_ [fo Hfo]%lookup_lt_is_Some].
    rewrite Hfo in Hc. destruct rc as [[]|e].
    + destruct Hc as [_ ->]. destruct Hi as [Hi1 Hi2]. split; simpl; [done|].
      intros i t'. rewrite length_alter. apply Hi2.
    + destruct Hc as [_ Hab]. apply abortTransaction_result in Hab.
      rewrite Ht, Hfo in Hab.
      destruct Hab as (_ & _ & _ & _ & Hp & _ & _ & _ & Hcur & _ & Hf).
      destruct Hi as [Hi1 Hi2]. split; [by rewrite Hcur|].
      intros i t'. rewrite Hp, Hf, length_alter. apply Hi2.
  - intros H. eapply same_manager_wf. revert H. apply exec_same_manager. simpl; auto.
  - intros H. eapply same_manager_wf. revert H. apply exec_same_manager. simpl; auto.
  - intros H. eapply same_manager_wf. revert H. apply exec_same_manager. simpl; auto.
Qed.

Lemma run_wf_manager fuel cs σ rs σ' :
  run fuel cs σ = Some (rs, σ') → wf_manager σ → wf_manager σ'.
Proof.
  apply (preserves_run (keeps wf_manager)).
  intros c σ1 r σ2 H. unfold keeps. by eapply exec_wf_manager.
Qed.

Lemma initial_wf_manager : wf_manager initial.
Proof. split; [done|]. intros i t. simpl. by rewrite lookup_nil. Qed.

Lemma checkCollision_spec fuel σ t state base now :
  resolves fuel σ t state base now →
  checkCollision fuel (t_number t - 1) (t_invalid t) (currentInvalid σ) state σ
  = Some (if bool_decide (base ≠ now) then Throw MergeError else Ret tt, σ).
Proof.
  unfold resolves, visibleFor, checkCollision. intros [Hb Hn]. mrun; done.
Qed.


Lemma forEach_checkCollision_differ fuel σ t l :
  Forall (λ state, ∃ base now, resolves fuel σ t state base now) l →
  Exists (λ state, ∃ base now, resolves fuel σ t state base now ∧ base ≠ now) l →
  forEach (checkCollision fuel (t_number t - 1) (t_invalid t) (currentInvalid σ)) l σ
  = Some (Throw MergeError, σ).
Proof.
  induction 1 as [|state l (base & now & Hr) Hl IH]; simpl.
  - by intros ?%Exists_nil.
  - intros Hex. unfold bind. rewrite (checkCollision_spec _ _ _ _ _ _ Hr).
    destruct (decide (base = now)) as [->|Hne].
    + rewrite (bool_decide_eq_false_2 (now ≠ now)) by naive_solver.
      apply IH. apply Exists_cons in Hex as [(b & n & [Hb Hn] & Hne)|?]; [|done].
      destruct Hr as [Hb' Hn']. congruence.
    + by rewrite (bool_decide_eq_true_2 (base ≠ now)) by done.
Qed.


(** ** The commit watermark *)
Lemma run_watermark_le fuel cs σ rs σ' :
  run fuel cs σ = Some (rs, σ') →
  highestCommittedTransaction σ ≤ highestCommittedTransaction σ'.
Proof.
  apply (preserves_run watermark_le). intros c. apply exec_watermark_le.
Qed.

(** C4.  Over every sequence of calls the commit watermark never
    decreases; a [commitTransaction] that returns leaves it at the number
    of the committing transaction when that number is strictly greater
    than the watermark and at its old value otherwise, and one that throws
    leaves it unchanged. *)
Theorem watermark_monotone :
  (∀ fuel cs σ rs σ',
     run fuel cs σ = Some (rs, σ') →
     highestCommittedTransaction σ ≤ highestCommittedTransaction σ') ∧
  (∀ fuel σ r σ',
     wf_manager σ →
     commitTransaction fuel σ = Some (r, σ') →
     match r with
     | Ret _ =>
         ∃ t, currentTransaction σ = Some t ∧
              highestCommittedTransaction σ' =
                if t_number t >? highestCommittedTransaction σ
                then t_number t
                else highestCommittedTransaction σ
     | Throw _ =>
         highestCommittedTransaction σ' = highestCommittedTransaction σ
     end).
Proof.
  split; [apply run_watermark_le|].
  intros fuel σ r σ' Hi Hc. apply commitTransaction_result in Hc.
  destruct (currentTransaction σ) as [t|] eqn:Ht; [|by destruct Hc as [-> ->]].
  destruct Hc as (rc & _ & Hc).
  destruct (proj1 Hi _ Ht) as [Hn [fo Hfo]%lookup_lt_is_Some].
  rewrite Hfo in Hc. destruct rc as [[]|e].
  - destruct Hc as [-> ->]. exists t. split; [done|]. simpl. by rewrite Hn.
  - destruct Hc as [-> Hab]. apply abortTransaction_result in Hab.
    rewrite Ht in Hab. by destruct Hab as (_ & _ & _ & _ & _ & Hw & _).
Qed.

(** ** Pause and restore *)
Global Instance slots_le_preorder : PreOrder slots_le.
Proof.
  split.
  - intros σ. by split.
  - intros σ1 σ2 σ3 [H1 H1'] [H2 H2']. split; [lia|auto].
Qed.

Ltac slots_leaf :=
  unfold slots_le; simpl; rewrite ?length_app, ?length_insert;
  split; [lia|]; intros ? Hhole; try done;
  first
    [ rewrite lookup_app_l by (by eapply lookup_lt_Some); done
    | match goal with
      | |- <[?i:=_]> _ !! ?j = _ =>
          destruct (decide (i = j)) as [->|];
          [ rewrite list_lookup_insert_eq by (by eapply lookup_lt_Some)
          | rewrite list_lookup_insert_ne by done ]; done
      end ].

Lemma exec_slots_le fuel c : preserves slots_le (exec fuel c).
Proof. preserves_with fail slots_leaf. Qed.

Lemma run_slots_le fuel cs σ rs σ' :
  run fuel cs σ = Some (rs, σ') → slots_le σ σ'.
Proof. apply (preserves_run slots_le). intros c. apply exec_slots_le. Qed.

Lemma pauseTransaction_id σ id σ' :
  pauseTransaction σ = Some (Ret id, σ') →
  id = length (pausedTransactions σ) ∧
  length (pausedTransactions σ') = S id.
Proof. intros H. mrun; rewrite length_app; simpl; split; lia. Qed.

Lemma restoreTransaction_frees id σ σ' :
  restoreTransaction id σ = Some (Ret tt, σ') →
  pausedTransactions σ' !! id = Some None.
Proof.
  intros H. mrun. apply list_lookup_insert_eq. by eapply lookup_lt_Some.
Qed.

Lemma restoreTransaction_hole id σ :
  pausedTransactions σ !! id = Some None →
  restoreTransaction id σ =
    Some (Throw (if inTransaction σ then InvalidInternalState
                 else InvalidPausedTransaction), σ).
Proof.
  intros H. munfold. destruct (currentTransaction σ); simpl; [done|].
  by rewrite H.
Qed.

(** C10, as the code has it.  The id a [pauseTransaction] returns is the
    length of the registry, so it is strictly greater than every id
    returned before it, whatever calls came in between; and once
    [restoreTransaction id] has returned, every later
    [restoreTransaction id] throws and changes nothing: the
    invalid-paused-transaction error when no transaction is active, the
    internal-state error of the leading assertion when one is. *)
Theorem pause_ids_fresh_and_stale_restore_fails :
  (∀ fuel σ id1 σ1 cs rs σ2 id2 σ3,
     pauseTransaction σ = Some (Ret id1, σ1) →
     run fuel cs σ1 = Some (rs, σ2) →
     pauseTransaction σ2 = Some (Ret id2, σ3) →
     (id1 < id2)%nat) ∧
  (∀ fuel σ id σ1 cs rs σ2,
     restoreTransaction id σ = Some (Ret tt, σ1) →
     run fuel cs σ1 = Some (rs, σ2) →
     restoreTransaction id σ2 =
       Some (Throw (if inTransaction σ2 then InvalidInternalState
                    else InvalidPausedTransaction), σ2)).
Proof.
  split.
  - intros fuel σ id1 σ1 cs rs σ2 id2 σ3 H1 Hr H2.
    apply pauseTransaction_id in H1 as [-> H1], H2 as [-> _].
    apply run_slots_le in Hr as [Hr _]. lia.
  - intros fuel σ id σ1 cs rs σ2 H1 Hr.
    apply restoreTransaction_frees in H1.
    apply run_slots_le in Hr as [_ Hr]. by apply restoreTransaction_hole, Hr.
Qed.

(** A restored transaction is active, so an immediate second
    [restoreTransaction] with the same id stops at the assertion and not
    at the lookup of the slot. *)
Lemma second_restore_internal_error :
  ¬ (∀ σ id σ1,
       restoreTransaction id σ = Some (Ret tt, σ1) →
       ∃ σ2, restoreTransaction id σ1 = Some (Throw InvalidPausedTransaction, σ2)).
Proof.
  intros H.
  pose (σ := default initial
               (snd <$> run 0 [BeginTransaction None None; PauseTransaction] initial)).
  pose (σ1 := default initial
                (snd <$> run 0 [BeginTransaction None None; PauseTransaction;
                                RestoreTransaction 0%nat] initial)).
  destruct (H σ 0%nat σ1) as [σ2 H2]; [by vm_compute|].
  vm_compute in H2. discriminate.
Qed.

(** ** Notification hooks *)
Lemma abortTransaction_notifies_nothing σ r σ' :
  abortTransaction σ = Some (r, σ') → notified σ' = notified σ.
Proof.
  intros H%abortTransaction_result.
  destruct (currentTransaction σ); [by destruct H as (_&_&_&?&_)|by destruct H as [_ ->]].
Qed.

(** C8, at a failing input.  A transaction begun with the abort hook [7]
    is aborted: [abortTransaction] returns, the frame is [aborted] and still
    holds the hook, and no hook was called.  The commit path calls its
    hook: the same run with the commit hook [5] and [commitTransaction]
    records the call with the (empty) list of changes. *)
Theorem abort_hook_not_called :
  (∃ σ', run 0 [BeginTransaction None (Some 7%nat); AbortTransaction] initial
         = Some ([Ret (VFrame 0%nat); Ret VUndefined], σ') ∧
         frames σ' !! 0%nat = Some (mkFrame FsAborted (Some 7%nat) None) ∧
         notified σ' = []) ∧
  (∃ σ', run 0 [BeginTransaction (Some 5%nat) None; CommitTransaction] initial
         = Some ([Ret (VFrame 0%nat); Ret (VChanged [])], σ') ∧
         notified σ' = [CommitNotified 5%nat []]).
Proof. split; eexists; by vm_compute. Qed.

(** ** A read that finds no visible snapshot *)
(** C9.  Transaction 1 creates an entity and is paused; for transaction 2
    the creator of the only snapshot is in the invalid set.  In that
    reachable state [findVisible] leaves the chain and returns [undefined],
    and [ensureReadable] returns normally with the entity's [_state] set to
    [undefined]. *)
Theorem read_of_invisible_entity :
  ∃ rs σ eo σ',
    run 1 [BeginTransaction None None; BindState []; PauseTransaction;
           BeginTransaction None None] initial = Some (rs, σ) ∧
    invalidOf (currentTransaction σ) !! 1 = Some true ∧
    entities σ !! 0%nat = Some eo ∧
    e_previous eo = Some 0%nat ∧
    s_min <$> states σ !! 0%nat = Some (Some 1) ∧
    s_previous <$> states σ !! 0%nat = Some None ∧
    findVisible 1 (states σ) (e_previous eo) (currentTransactionNumber σ)
      (invalidOf (currentTransaction σ)) = Some (Ret None) ∧
    ensureReadable 1 0%nat σ = Some (Ret tt, σ') ∧
    e_state <$> entities σ' !! 0%nat = Some None.
Proof. do 4 eexists. split_and!; by vm_compute. Qed.

(** ** Version chains and the splice *)
Lemma chain_segment h l : ∀ o, chain h o l ↔ segment h o l None.
Proof.
  induction l as [|r l IH]; intros o; simpl; [done|].
  destruct (h !! r); [|done]. by rewrite IH.
Qed.

Lemma segment_app h l1 l2 o' : ∀ o,
  segment h o (l1 ++ l2) o' ↔ ∃ m, segment h o l1 m ∧ segment h m l2 o'.
Proof.
  induction l1 as [|r l1 IH]; intros o; simpl.
  - split; [eauto|]. by intros (m & -> & ?).
  - destruct (h !! r) as [s|].
    + rewrite IH. split.
      * intros [-> (m & ? & ?)]. eauto.
      * intros (m & [-> ?] & ?). eauto.
    + split; [by intros [_ []]|by intros (m & [_ []] & _)].
Qed.

Lemma segment_functional h l1 : ∀ l2 o,
  segment h o l1 None → segment h o l2 None → l1 = l2.
Proof.
  induction l1 as [|r l1 IH]; intros [|r2 l2] o; simpl.
  - done.
  - by intros -> [? _].
  - by intros [-> _] ?.
  - intros [-> H1] [[= <-] H2]. destruct (h !! r); [|done].
    f_equal. by eapply IH.
Qed.

Lemma segment_lookup h l o o' r :
  segment h o l o' → r ∈ l → is_Some (h !! r).
Proof.
  revert o. induction l as [|x l IH]; intros o; simpl; [by intros _ ?%elem_of_nil|].
  intros [-> H] [->|Hin]%elem_of_cons; destruct (h !! x) eqn:E; try done; eauto.
Qed.

Lemma chain_NoDup h l : ∀ o, chain h o l → NoDup l.
Proof.
  induction l as [|r l IH]; intros o; simpl; [constructor|].
  intros [-> H]. destruct (h !! r) as [s|] eqn:Hr; [|done].
  constructor; [|by eapply IH].
  intros (l1 & l2 & ->)%list_elem_of_split.
  apply chain_segment in H. pose proof H as H'.
  apply segment_app in H' as (m & _ & H'). simpl in H'.
  destruct H' as [-> H']. rewrite Hr in H'.
  pose proof (segment_functional _ _ _ _ H H') as Heq.
  apply (f_equal length) in Heq. rewrite length_app in Heq. simpl in Heq. lia.
Qed.

(** A segment only depends on the links of its own snapshots. *)
Lemma segment_ext h h' l o' : ∀ o,
  (∀ r, r ∈ l → s_previous <$> h' !! r = s_previous <$> h !! r) →
  segment h o l o' → segment h' o l o'.
Proof.
  induction l as [|r l IH]; intros o Hext; simpl; [done|].
  intros [-> H]. split; [done|].
  pose proof (Hext r ltac:(left)) as Hr.
  destruct (h !! r) as [s|]; [|done]. destruct (h' !! r) as [s'|]; [|done].
  simpl in Hr. injection Hr as ->. apply IH; [|done].
  intros x Hx. apply Hext. by right.
Qed.


Global Instance same_chains_preorder : PreOrder same_chains.
Proof.
  split.
  - intros σ. by split.
  - intros σ1 σ2 σ3 [H1 H1'] [H2 H2']. split; [congruence|].
    intros e. by rewrite H2'.
Qed.

Lemma ensureReadable_same_chains fuel e :
  preserves same_chains (ensureReadable fuel e).
Proof.
  preserves_with fail ltac:(
    split; [done|]; intros e'; simpl; rewrite list_lookup_alter;
    case_decide; [subst; by destruct (_ !! _)|done]).
Qed.

Lemma alter_snoc {A} (f : A → A) (l : list A) (x : A) :
  alter f (length l) (l ++ [x]) = l ++ [f x].
Proof. rewrite alter_app_r_alt by lia. by rewrite Nat.sub_diag. Qed.

Lemma makeWritable_result fuel e σ σ' :
  makeWritable fuel e σ = Some (Ret tt, σ') →
  ∃ σ1 eo st s previous next t,
    ensureReadable fuel e σ = Some (Ret tt, σ1) ∧
    currentTransaction σ1 = Some t ∧
    entities σ1 !! e = Some eo ∧ e_state eo = Some st ∧
    states σ1 !! st = Some s ∧
    spliceWalk fuel
      (states σ1 ++ [newSnapshot (currentTransactionNumber σ1) e None s])
      (e_previous eo) (OfEntity e) (currentTransactionNumber σ1)
      = Some (Ret (previous, next)) ∧
    states σ' =
      alter (with_max (Some (currentTransactionNumber σ1))) st
        (linkState next (length (states σ1))
           (states σ1 ++ [newSnapshot (currentTransactionNumber σ1) e previous s])) ∧
    entities σ' =
      alter (with_e_state (Some (length (states σ1)))) e
        (linkEntity next (length (states σ1)) (entities σ1)) ∧
    currentTransaction σ' =
      Some (mkTransaction (t_number t) (t_mutated t ++ [length (states σ1)])
              (t_invalid t) (t_frame t)) ∧
    same_manager σ1 σ'.
Proof.
  intros H. unfold makeWritable in H.
  unfold bind at 1 in H.
  destruct (validateInTransaction σ) as [[[[]|?] σa]|] eqn:Hv; try done.
  assert (σa = σ) as -> by (by mrun).
  unfold bind at 1 in H.
  destruct (ensureReadable fuel e σ) as [[[[]|?] σ1]|] eqn:Hr; try done.
  exists σ1. clear Hv Hr.
  mrun.
  all: destruct a1 as [previous next]; simpl in *; subst.
  all: rewrite !alter_snoc in *.
  all: eexists _, _, _, previous, _, _.
  all: split_and!; try done; try eassumption.
  all: unfold same_manager; simpl; rewrite H8; by split_and!.
Qed.

Lemma chain_ext h h' l o :
  (∀ r, r ∈ l → s_previous <$> h' !! r = s_previous <$> h !! r) →
  chain h o l → chain h' o l.
Proof. rewrite !chain_segment. apply segment_ext. Qed.

Lemma chain_lookup h l o r : chain h o l → r ∈ l → is_Some (h !! r).
Proof. rewrite chain_segment. apply segment_lookup. Qed.

Lemma chain_alloc h l o x : chain h o l → chain (h ++ [x]) o l.
Proof.
  intros Hc. eapply chain_ext; [|done].
  intros r Hr. destruct (chain_lookup _ _ _ _ Hc Hr) as [s Hs].
  by rewrite (lookup_app_l_Some _ _ _ _ Hs), Hs.
Qed.

Lemma ensureReadable_total fuel e σ eo l :
  entities σ !! e = Some eo →
  chain (states σ) (e_previous eo) l → (length l ≤ fuel)%nat →
  is_Some (ensureReadable fuel e σ).
Proof.
  intros He Hc Hf.
  destruct (ensureReadable fuel e σ) as [x|] eqn:H; [by eexists|]. exfalso.
  unfold ensureReadable, makeReadable in H. mrun.
  destruct (e_previous eo) as [r|] eqn:Hp; [|done].
  destruct (findVisible_spec _ (currentTransactionNumber σ)
              (invalidOf (currentTransaction σ)) _ _ _ Hc Hf) as (res & Hres & _).
  congruence.
Qed.

Lemma ensureWritable_cases fuel e σ r σ' :
  ensureWritable fuel e σ = Some (r, σ') →
  σ' = σ ∨ makeWritable fuel e σ = Some (r, σ').
Proof.
  intros H. unfold ensureWritable in H.
  unfold bind at 1, readEntity at 1 in H.
  destruct (entities σ !! e) as [eo|]; [|left; congruence].
  unfold bind at 1, get at 1 in H. case_match; [by right|].
  destruct (e_state eo) as [st|]; [|left; by mrun].
  unfold bind at 1, readState at 1 in H.
  destruct (states σ !! st) as [s|]; [|left; congruence].
  case_match; [by right|]. left. by mrun.
Qed.




Lemma previous_linkState_ne next n h r :
  next ≠ OfState r →
  s_previous <$> linkState next n h !! r = s_previous <$> h !! r.
Proof.
  destruct next as [e|x]; [done|]. intros Hne. simpl.
  rewrite list_lookup_alter_ne; [done|congruence].
Qed.

(** The chain after the splice: the new snapshot [n] sits between the
    snapshots the walk went past and the rest. *)
Lemma splice_chain h o l1 l2 previous ns e st f :
  segment h o l1 previous → chain h previous l2 → NoDup (l1 ++ l2) →
  s_previous ns = previous →
  (∀ s, s_previous (f s) = s_previous s) →
  chain (alter f st (linkState (lastOr (OfEntity e) l1) (length h) (h ++ [ns])))
        (match l1 with [] => Some (length h) | _ => o end)
        (l1 ++ length h :: l2).
Proof.
  intros Hs Hc Hnd Hns Hf.
  set (n := length h).
  set (h2 := linkState (lastOr (OfEntity e) l1) n (h ++ [ns])).
  assert (Hlt : ∀ r, r ∈ l1 ++ l2 → (r < n)%nat).
  { intros r [Hr|Hr]%elem_of_app.
    - destruct (segment_lookup _ _ _ _ _ Hs Hr) as [? ?]. by eapply lookup_lt_Some.
    - destruct (chain_lookup _ _ _ _ Hc Hr) as [? ?]. by eapply lookup_lt_Some. }
  apply (chain_ext h2).
  { intros r _. rewrite list_lookup_alter. case_decide; [subst|done].
    destruct (h2 !! r); simpl; [by rewrite Hf|done]. }
  assert (Hn : (h ++ [ns]) !! n = Some ns) by by apply list_lookup_middle.
  destruct (last l1) as [nx|] eqn:Hlast.
  - apply last_Some in Hlast as [l1' ->].
    assert (Hnx : (nx < n)%nat) by (apply Hlt; set_solver).
    subst h2. unfold lastOr. rewrite last_snoc. simpl.
    apply segment_app in Hs as (m & Hs1 & Hs2). simpl in Hs2.
    destruct Hs2 as [-> Hs2]. destruct (h !! nx) as [sx|] eqn:Hsx; [|done].
    rewrite <- !(assoc_L (++)) in *. simpl in *.
    assert (Ho : match l1' ++ [nx] with [] => Some n | _ => o end = o).
    { by destruct l1'. }
    rewrite Ho. apply chain_segment, segment_app. exists (Some nx). split.
    + eapply segment_ext; [|done]. intros r Hr.
      rewrite list_lookup_alter_ne.
      * rewrite lookup_app_l; [done|]. apply Hlt. set_solver.
      * intros ->. apply NoDup_app in Hnd as (_ & Hd & _).
        apply (Hd r); set_solver.
    + simpl. split; [done|]. rewrite list_lookup_alter_eq, lookup_app_l, Hsx by done.
      simpl. split; [done|].
      rewrite list_lookup_alter_ne, Hn by lia. rewrite Hns.
      apply chain_segment. eapply chain_ext; [|done]. intros r Hr.
      rewrite list_lookup_alter_ne.
      * rewrite lookup_app_l; [done|]. apply Hlt. set_solver.
      * intros ->. by apply NoDup_app in Hnd as (_ & _ & [Hd _]%NoDup_cons).
  - apply last_None in Hlast as ->. subst h2. simpl in *. subst o.
    split; [done|]. rewrite Hn, Hns. by apply chain_alloc.
Qed.

Lemma descending_splice h h' l1 l2 n current :
  descending h (l1 ++ l2) →
  (∀ r, r ∈ l1 ++ l2 → key h' r = key h r) →
  key h' n = current →
  Forall (λ r, current < key h r) l1 →
  (∀ r, head l2 = Some r → key h r ≤ current) →
  descending h' (l1 ++ n :: l2).
Proof.
  unfold descending. intros Hd Hk Hn H1 H2.
  assert (Hk1 : key h' <$> l1 = key h <$> l1).
  { apply list_fmap_ext. intros i r Hr. apply Hk, elem_of_app. left.
    by eapply list_elem_of_lookup_2. }
  assert (Hk2 : key h' <$> l2 = key h <$> l2).
  { apply list_fmap_ext. intros i r Hr. apply Hk, elem_of_app. right.
    by eapply list_elem_of_lookup_2. }
  rewrite fmap_app in Hd. rewrite fmap_app, fmap_cons, Hk1, Hk2, Hn.
  apply StronglySorted_app in Hd as (Hx & Hs1 & Hs2).
  assert (Hall2 : Forall (λ b, b ≤ current) (key h <$> l2)).
  { destruct l2 as [|x l2]; [constructor|]. simpl in *.
    specialize (H2 x eq_refl).
    apply StronglySorted_cons in Hs2 as [Hs2 _].
    constructor; [done|]. eapply Forall_impl; [done|]. simpl. intros; lia. }
  apply StronglySorted_app. split_and!; [|done|].
  - intros a b Ha [->|Hb]%elem_of_cons.
    + apply list_elem_of_fmap in Ha as (r & -> & Hr).
      rewrite Forall_forall in H1. specialize (H1 _ Hr). lia.
    + by apply Hx.
  - by apply StronglySorted_cons.
Qed.

Lemma spliceWalk_alloc h x current l : ∀ o next fuel,
  chain h o l →
  spliceWalk fuel (h ++ [x]) o next current = spliceWalk fuel h o next current.
Proof.
  induction l as [|r l IH]; intros o next fuel Hc; simpl in Hc.
  - subst o. by destruct fuel.
  - destruct Hc as [-> Hc]. destruct fuel as [|fuel]; [done|]. simpl.
    destruct (h !! r) as [s|] eqn:Hr; [|done].
    rewrite (lookup_app_l_Some _ _ _ _ Hr).
    case_match; [|done]. by apply IH.
Qed.

(** Whatever the fuel, a walk that finishes on a chain has not thrown and
    has stopped after the leading snapshots with a greater [_min]. *)
Lemma spliceWalk_sound h current l : ∀ o next fuel res,
  chain h o l →
  spliceWalk fuel h o next current = Some res →
  ∃ l1 l2 previous,
    l = l1 ++ l2 ∧ res = Ret (previous, lastOr next l1) ∧
    segment h o l1 previous ∧ chain h previous l2 ∧
    Forall (λ r, current < key h r) l1 ∧
    (∀ r, head l2 = Some r → key h r ≤ current).
Proof.
  induction l as [|r l IH]; intros o next fuel res Hc Hw; simpl in Hc.
  - subst o. destruct fuel; [done|]. simpl in Hw. injection Hw as <-.
    exists [], [], None. by split_and!.
  - destruct Hc as [-> Hc]. destruct fuel as [|fuel]; [done|]. simpl in Hw.
    destruct (h !! r) as [s|] eqn:Hr; [|done].
    assert (Hk : key h r = default 0 (s_min s)) by (unfold key; by rewrite Hr).
    destruct (Z.gtb_spec (default 0 (s_min s)) current) as [Hgt|Hle].
    + destruct (IH (s_previous s) (OfState r) fuel res Hc Hw) as
        (l1 & l2 & previous & -> & -> & Hs & Hc2 & Hall & Hhd).
      exists (r :: l1), l2, previous. split; [done|]. split.
      { do 2 f_equal. unfold lastOr.
        destruct l1 as [|x l1]; [reflexivity|]. rewrite last_cons_cons.
        destruct (last (x :: l1)) eqn:El; [done|]. by apply last_None in El. }
      split; [simpl; by rewrite Hr|]. split; [done|].
      split; [constructor; [lia|done]|done].
    + injection Hw as <-.
      exists [], (r :: l), (Some r). split; [done|]. split; [done|].
      split; [done|]. split; [simpl; by rewrite Hr|]. split; [done|].
      intros r' [= <-]. lia.
Qed.


(** What a [makeWritable] that returns has done to the chain [l] of its
    entity: the new snapshot, at address [length (states σ)], stands after
    the snapshots [l1] the walk went past. *)
Lemma makeWritable_splice fuel e σ eo l σ' :
  entities σ !! e = Some eo →
  chain (states σ) (e_previous eo) l →
  makeWritable fuel e σ = Some (Ret tt, σ') →
  ∃ σ1 eo1 st s l1 l2 previous,
    ensureReadable fuel e σ = Some (Ret tt, σ1) ∧
    entities σ1 !! e = Some eo1 ∧ e_state eo1 = Some st ∧
    states σ !! st = Some s ∧
    l = l1 ++ l2 ∧
    states σ' =
      alter (with_max (Some (currentTransactionNumber σ))) st
        (linkState (lastOr (OfEntity e) l1) (length (states σ))
           (states σ ++ [newSnapshot (currentTransactionNumber σ) e previous s])) ∧
    entities σ' =
      alter (with_e_state (Some (length (states σ)))) e
        (linkEntity (lastOr (OfEntity e) l1) (length (states σ)) (entities σ1)) ∧
    entities σ' !! e =
      Some (mkEntity (e_transaction eo1)
              (match l1 with [] => Some (length (states σ)) | _ => e_previous eo end)
              (Some (length (states σ)))) ∧
    chain (states σ')
      (match l1 with [] => Some (length (states σ)) | _ => e_previous eo end)
      (l1 ++ length (states σ) :: l2) ∧
    Forall (λ r, currentTransactionNumber σ < key (states σ) r) l1 ∧
    (∀ r, head l2 = Some r → key (states σ) r ≤ currentTransactionNumber σ) ∧
    same_manager σ1 σ' ∧
    states σ' !! length (states σ)
      = Some (newSnapshot (currentTransactionNumber σ) e previous s).
Proof.
  intros He Hc H.
  apply makeWritable_result in H as
    (σ1 & eo1 & st & s & previous & next & t & Hr & Ht & He1 & Hst1 & Hs & Hw
        & Hstates & Hents & _ & Hsm).
  pose proof (ensureReadable_same_chains _ _ _ _ _ Hr) as [Hst Hpr].
  pose proof (ensureReadable_same_manager _ _ _ _ _ Hr) as (_ & _ & Hcur & _).
  specialize (Hpr e). rewrite He1, He in Hpr. simpl in Hpr. injection Hpr as Hpr.
  rewrite Hpr, Hst, Hcur in *.
  erewrite spliceWalk_alloc in Hw by done.
  destruct (spliceWalk_sound _ _ _ _ _ _ _ Hc Hw)
    as (l1 & l2 & previous' & -> & [= -> ->] & Hseg & Hc2 & Hall & Hhd).
  pose proof (chain_NoDup _ _ _ Hc) as Hnd.
  pose proof (splice_chain (states σ) (e_previous eo) l1 l2 previous'
    (newSnapshot (currentTransactionNumber σ) e previous' s) e st
    (with_max (Some (currentTransactionNumber σ))) Hseg Hc2 Hnd eq_refl
    ltac:(done)) as Hchain.
  rewrite <- Hstates in Hchain.
  exists σ1, eo1, st, s, l1, l2, previous'.
  split_and!; try done.
  - rewrite Hents, list_lookup_alter_eq. unfold lastOr.
    destruct (last l1) as [nx|] eqn:Hl; simpl.
    + rewrite He1. simpl. apply last_Some in Hl as [l1' ->].
      unfold with_e_state. rewrite Hpr. by destruct l1'.
    + rewrite list_lookup_alter_eq, He1. simpl.
      by apply last_None in Hl as ->.
  - rewrite Hstates, list_lookup_alter_ne.
    2:{ apply lookup_lt_Some in Hs. lia. }
    assert (Hnx : ∀ nx, lastOr (OfEntity e) l1 = OfState nx →
                        (nx < length (states σ))%nat).
    { unfold lastOr. intros nx Hnx. destruct (last l1) as [y|] eqn:Hl; [|done].
      injection Hnx as ->. apply last_Some in Hl as [l1' ->].
      destruct (chain_lookup _ _ _ nx Hc) as [? ?]; [set_solver|].
      by eapply lookup_lt_Some. }
    destruct (lastOr (OfEntity e) l1) as [|nx]; simpl.
    + by rewrite list_lookup_middle.
    + specialize (Hnx nx eq_refl).
      rewrite list_lookup_alter_ne by lia. by rewrite list_lookup_middle.
Qed.


(** ** Retirement points *)
Global Instance max_same_preorder : PreOrder max_same.
Proof.
  split.
  - intros σ r s Hs. eauto.
  - intros σ1 σ2 σ3 H1 H2 r s Hs.
    destruct (H1 _ _ Hs) as (s2 & Hs2 & E2).
    destruct (H2 _ _ Hs2) as (s3 & Hs3 & E3). exists s3. split; [done|congruence].
Qed.

Global Instance max_kept_preorder : PreOrder max_kept.
Proof.
  split.
  - intros σ r s Hs. eauto.
  - intros σ1 σ2 σ3 H1 H2 r s Hs.
    destruct (H1 _ _ Hs) as (s2 & Hs2 & E2).
    destruct (H2 _ _ Hs2) as (s3 & Hs3 & E3). exists s3. split; [done|auto].
Qed.

Ltac max_leaf :=
  let r := fresh "r" in let s := fresh "s" in let Hs := fresh "Hs" in
  intros r s Hs; simpl;
  first
    [ by eauto
    | rewrite (lookup_app_l_Some _ _ _ _ Hs); by eauto
    | rewrite list_lookup_alter; case_decide; subst;
      rewrite Hs; simpl; by eauto ].

Lemma exec_max_kept fuel c : preserves max_kept (exec fuel c).
Proof. preserves_with fail ltac:(idtac; max_leaf). Qed.

Lemma exec_max_same fuel c :
  (∀ e, c ≠ EnsureWritable e) → preserves max_same (exec fuel c).
Proof.
  destruct c; intros Hc; try (by preserves_with fail ltac:(idtac; max_leaf)).
  by destruct (Hc entity).
Qed.

Lemma ensureWritable_max fuel e σ σ' r s :
  ensureWritable fuel e σ = Some (Ret tt, σ') →
  states σ !! r = Some s →
  ∃ s', states σ' !! r = Some s' ∧
        (s_max s' = s_max s ∨ s_max s' = Some (currentTransactionNumber σ)).
Proof.
  intros [->|H]%ensureWritable_cases Hs; [by eauto|].
  apply makeWritable_result in H as
    (σ1 & eo1 & st & s0 & previous & next & t & Hr & _ & _ & _ & _ & _
        & Hstates & _).
  pose proof (ensureReadable_same_chains _ _ _ _ _ Hr) as [Hst _].
  pose proof (ensureReadable_same_manager _ _ _ _ _ Hr) as (_ & _ & Hcur & _).
  rewrite Hst, Hcur in Hstates. rewrite Hstates.
  assert (Hl : ∃ s1, linkState next (length (states σ))
                 (states σ ++ [newSnapshot (currentTransactionNumber σ) e previous s0])
                 !! r = Some s1 ∧ s_max s1 = s_max s).
  { destruct next as [|nx]; simpl.
    - rewrite (lookup_app_l_Some _ _ _ _ Hs). eauto.
    - rewrite list_lookup_alter. case_decide; subst;
        rewrite (lookup_app_l_Some _ _ _ _ Hs); simpl; eauto. }
  destruct Hl as (s1 & Hs1 & Hm1).
  rewrite list_lookup_alter. case_decide; subst; rewrite Hs1; simpl; eauto.
Qed.

(** C5, as the code has it.  A [_max] that is set is never unset by any
    sequence of calls; no call other than [ensureWritable] changes the
    [_max] of a snapshot; an [ensureWritable] that returns leaves each
    [_max] as it was or sets it to the current transaction number (it does
    so for the snapshot it clones, whether or not that [_max] was set). *)
Theorem retirement_point_only_overwritten_by_a_write :
  (∀ fuel cs σ rs σ' r s,
     run fuel cs σ = Some (rs, σ') →
     states σ !! r = Some s → is_Some (s_max s) →
     ∃ s', states σ' !! r = Some s' ∧ is_Some (s_max s')) ∧
  (∀ fuel c σ res σ' r s,
     (∀ e, c ≠ EnsureWritable e) →
     exec fuel c σ = Some (res, σ') →
     states σ !! r = Some s →
     ∃ s', states σ' !! r = Some s' ∧ s_max s' = s_max s) ∧
  (∀ fuel e σ σ' r s,
     ensureWritable fuel e σ = Some (Ret tt, σ') →
     states σ !! r = Some s →
     ∃ s', states σ' !! r = Some s' ∧
           (s_max s' = s_max s ∨ s_max s' = Some (currentTransactionNumber σ))).
Proof.
  split_and!.
  - intros fuel cs σ rs σ' r s Hrun Hs Hm.
    pose proof (preserves_run max_kept fuel cs (exec_max_kept fuel) _ _ _ Hrun) as Hk.
    destruct (Hk _ _ Hs) as (s' & Hs' & Hm'). eauto.
  - intros fuel c σ res σ' r s Hc Hx Hs. by eapply exec_max_same.
  - intros fuel e σ σ' r s. apply ensureWritable_max.
Qed.

(** Transaction 2 does not see the retirement by the paused transaction 1,
    clones snapshot 0 again and overwrites its [_max] with 2. *)
Lemma retirement_point_overwritten :
  ¬ (∀ fuel c σ res σ' r s s' x,
       exec fuel c σ = Some (res, σ') →
       states σ !! r = Some s → s_max s = Some x →
       states σ' !! r = Some s' → s_max s' = Some x).
Proof.
  intros H.
  pose (σ' := default initial (snd <$> exec 2 (EnsureWritable 0%nat) second_writer)).
  pose (s := default (clone (mkState None None None None None []))
               (states second_writer !! 0%nat)).
  pose (s' := default (clone (mkState None None None None None []))
                (states σ' !! 0%nat)).
  assert (s_max s' = Some 1) as Hx.
  { apply (H 2%nat (EnsureWritable 0%nat) second_writer (Ret VUndefined) σ' 0%nat s s' 1);
      by vm_compute. }
  vm_compute in Hx. discriminate.
Qed.

(** ** The lifecycle table *)
Lemma same_manager_lifecycle σ σ' :
  same_manager σ σ' → wf_lifecycle σ → wf_lifecycle σ' ∧ aborted_kept σ σ'.
Proof.
  intros Hsm (Hwf & Ho & Hh). pose proof (same_manager_wf _ _ Hsm Hwf) as Hwf'.
  destruct Hsm as (HhT&_&_&Hop&_&_&_&Hn&_&_).
  split; [split_and!; [done| |]|].
  - intros t Ht. rewrite Ht in Hn. rewrite Hop.
    destruct (currentTransaction σ) as [t0|] eqn:E; simpl in Hn; [|done].
    injection Hn as Hn. rewrite Hn. by apply Ho.
  - intros n. rewrite Hop, HhT. apply Hh.
  - intros n. by rewrite Hop.
Qed.

Lemma lifecycle_refl σ : wf_lifecycle σ → wf_lifecycle σ ∧ aborted_kept σ σ.
Proof. intros H. split; [done|]. by intros n. Qed.

Lemma exec_lifecycle fuel c σ r σ' :
  exec fuel c σ = Some (r, σ') →
  wf_lifecycle σ → wf_lifecycle σ' ∧ aborted_kept σ σ'.
Proof.
  intros H Hl.
  assert (Hwf' : wf_manager σ') by (eapply exec_wf_manager; [done|apply Hl]).
  destruct c.
  - pose proof Hl as ([Hw1 Hw2] & Ho & Hh). mrun; try (by apply lifecycle_refl).
    split; [split_and!; [done| |]|]; simpl.
    + intros t [= <-]. simpl. by rewrite lookup_insert_eq.
    + intros n [x Hx]. destruct (decide (highestTransaction e + 1 = n)) as [<-|Hne]; [lia|].
      rewrite lookup_insert_ne in Hx by done. specialize (Hh n ltac:(eauto)). lia.
    + intros n Hn. simpl. rewrite lookup_insert_ne; [done|].
      intros <-. specialize (Hh _ ltac:(eauto)). lia.
  - pose proof Hl as (Hw & Ho & Hh).
    mrun; try (by apply lifecycle_refl); try wf_absurd.
    split; [by split_and!|by intros n].
  - pose proof Hl as (Hw & Ho & Hh).
    mrun; try (by apply lifecycle_refl); try wf_absurd.
    split; [split_and!; [done| |done]|by intros n]; simpl.
    intros t' [= <-]. by apply bool_decide_eq_false, dec_stable in H2.
  - pose proof Hl as (Hw & Ho & Hh).
    mrun; try (by apply lifecycle_refl); try wf_absurd.
    all: match goal with
         | Hc : currentTransaction _ = Some ?t |- _ =>
             destruct (proj1 Hw _ Hc) as [Hcur _];
             pose proof (Ho _ eq_refl) as Hopen
         end.
    all: split; [split_and!; [done|done|]|]; simpl.
    all: try (intros k [x Hx];
              destruct (decide (currentTransactionNumber e = k)) as [<-|Hne];
              [rewrite Hcur; apply Hh; rewrite Hopen; eauto
              |rewrite lookup_insert_ne in Hx by done; apply Hh; eauto]).
    all: intros k Hk; simpl;
         destruct (decide (currentTransactionNumber e = k)) as [<-|Hne];
         [by rewrite lookup_insert_eq|by rewrite lookup_insert_ne].
  - assert (∃ r0, commitTransaction fuel σ = Some (r0, σ')) as [r0 Hc].
    { unfold exec, bind, ret in H.
      destruct (commitTransaction fuel σ) as [[[] ?]|]; simplify_eq; eauto. }
    clear H. apply commitTransaction_result in Hc.
    pose proof Hl as (Hw & Ho & Hh).
    destruct (currentTransaction σ) as [t|] eqn:Ht;
      [|destruct Hc as [_ ->]; by apply lifecycle_refl].
    destruct Hc as (rc & _ & Hc).
    destruct (proj1 Hw _ Ht) as [Hcur [fo Hfo]%lookup_lt_is_Some].
    specialize (Ho _ eq_refl).
    rewrite Hfo in Hc. destruct rc as [[]|e].
    + destruct Hc as [_ ->]. split; [split_and!; [done|done|]|]; simpl.
      * intros n [x Hx]. apply Hh.
        destruct (decide (currentTransactionNumber σ = n)) as [<-|Hne].
        -- by rewrite lookup_delete_eq in Hx.
        -- rewrite lookup_delete_ne in Hx by done. eauto.
      * intros n Hn. simpl. rewrite lookup_delete_ne; [done|].
        intros <-. rewrite Hcur in Hn. congruence.
    + destruct Hc as [_ Hab]. apply abortTransaction_result in Hab.
      rewrite Ht, Hfo in Hab.
      destruct Hab as (Hop & _ & _ & _ & _ & _ & HhT & _ & Hcur' & _).
      split; [split_and!; [done|by rewrite Hcur'|]|].
      * intros n. rewrite Hop, HhT. intros [x Hx].
        destruct (decide (currentTransactionNumber σ = n)) as [<-|Hne].
        -- rewrite Hcur. apply Hh. eauto.
        -- rewrite lookup_insert_ne in Hx by done. apply Hh. eauto.
      * intros n Hn. simpl. rewrite Hop.
        destruct (decide (currentTransactionNumber σ = n)) as [<-|Hne];
          [by rewrite lookup_insert_eq|by rewrite lookup_insert_ne].
  - eapply same_manager_lifecycle; [|done]. revert H. by apply exec_same_manager.
  - eapply same_manager_lifecycle; [|done]. revert H. by apply exec_same_manager.
  - eapply same_manager_lifecycle; [|done]. revert H. by apply exec_same_manager.
Qed.




Lemma findVisible_loop_chain h asOf invalid l : ∀ o fuel,
  chain h o l → (length l < fuel)%nat →
  findVisible_loop fuel h o asOf invalid
  = Some (Ret (firstVisible h asOf invalid l)).
Proof.
  induction l as [|r l IH]; intros o fuel Hc Hf; simpl in *.
  - subst o. by destruct fuel; [lia|].
  - destruct Hc as [-> Hc]. destruct fuel as [|fuel]; [lia|]. simpl.
    unfold skippedAt. destruct (h !! r) as [s|] eqn:Hr; [|done].
    destruct (skipped s asOf invalid); [|done]. apply IH; [done|lia].
Qed.

Lemma findVisible_chain h asOf invalid l r fuel :
  chain h (Some r) l → (length l ≤ fuel)%nat →
  findVisible fuel h (Some r) asOf invalid
  = Some (Ret (firstVisible h asOf invalid l)).
Proof.
  intros Hc Hf. destruct l as [|r' l]; [done|].
  simpl in Hc. destruct Hc as [[= <-] Hc]. unfold findVisible. simpl.
  unfold skippedAt. destruct (h !! r) as [s|] eqn:Hr; [|done].
  destruct (skipped s asOf invalid); [|done].
  apply findVisible_loop_chain; [done|simpl in Hf; lia].
Qed.








Lemma initial_wf_lifecycle : wf_lifecycle initial.
Proof.
  split_and!; [apply initial_wf_manager|done|].
  intros n [x Hx]. simpl in Hx. by rewrite lookup_empty in Hx.
Qed.

Lemma findVisible_first_visible_witness :
  chain three_snapshots (Some 2%nat) [2; 1; 0]%nat ∧
  ∃ res, findVisible 3 three_snapshots (Some 2%nat) 3 {[2 := true]} = Some (Ret res) ∧
    match res with
    | Some v =>
        ∃ l1 l2, [2; 1; 0]%nat = l1 ++ v :: l2 ∧
                 visibleAt three_snapshots 3 {[2 := true]} v ∧
                 Forall (λ x, ¬ visibleAt three_snapshots 3 {[2 := true]} x) l1
    | None => Forall (λ x, ¬ visibleAt three_snapshots 3 {[2 := true]} x) [2; 1; 0]%nat
    end.
Proof.
  assert (Hc : chain three_snapshots (Some 2%nat) [2; 1; 0]%nat).
  { vm_compute. repeat split. }
  split; [exact Hc|].
  apply (findVisible_first_visible three_snapshots 2%nat 3 {[2 := true]}
           [2; 1; 0]%nat 3%nat Hc).
  simpl. lia.
Defined.

Lemma watermark_monotone_witness :
  (highestCommittedTransaction initial
   ≤ highestCommittedTransaction
       (engine_after 2 [BeginTransaction None None; CommitTransaction])) ∧
  (∃ t, currentTransaction (engine_after 2 [BeginTransaction None None]) = Some t ∧
        highestCommittedTransaction
          (engine_after 2 [BeginTransaction None None; CommitTransaction]) =
        if t_number t >? highestCommittedTransaction
                           (engine_after 2 [BeginTransaction None None])
        then t_number t
        else highestCommittedTransaction
               (engine_after 2 [BeginTransaction None None])).
Proof.
  split.
  - apply (proj1 watermark_monotone 2%nat
             [BeginTransaction None None; CommitTransaction] initial
             [Ret (VFrame 0%nat); Ret (VChanged [])]).
    by vm_compute.
  - apply (proj2 watermark_monotone 2%nat
             (engine_after 2 [BeginTransaction None None]) (Ret [])
             (engine_after 2 [BeginTransaction None None; CommitTransaction])).
    + apply (run_wf_manager 2 [BeginTransaction None None] initial
               [Ret (VFrame 0%nat)]); [by vm_compute|apply initial_wf_manager].
    + by vm_compute.
Defined.

Lemma pause_ids_fresh_and_stale_restore_fails_witness :
  (0 < 1)%nat ∧
  restoreTransaction 0%nat
    (engine_after 2 [BeginTransaction None None; PauseTransaction;
                     RestoreTransaction 0%nat; PauseTransaction])
  = Some (Throw InvalidPausedTransaction,
          engine_after 2 [BeginTransaction None None; PauseTransaction;
                          RestoreTransaction 0%nat; PauseTransaction]).
Proof.
  split.
  - apply (proj1 pause_ids_fresh_and_stale_restore_fails 2%nat
             (engine_after 2 [BeginTransaction None None]) 0%nat
             (engine_after 2 [BeginTransaction None None; PauseTransaction])
             [RestoreTransaction 0%nat] [Ret VUndefined]
             (engine_after 2 [BeginTransaction None None; PauseTransaction;
                              RestoreTransaction 0%nat])
             1%nat
             (engine_after 2 [BeginTransaction None None; PauseTransaction;
                              RestoreTransaction 0%nat; PauseTransaction]));
      by vm_compute.
  - apply (proj2 pause_ids_fresh_and_stale_restore_fails 2%nat
             (engine_after 2 [BeginTransaction None None; PauseTransaction]) 0%nat
             (engine_after 2 [BeginTransaction None None; PauseTransaction;
                              RestoreTransaction 0%nat])
             [PauseTransaction] [Ret (VPauseId 1%nat)]
             (engine_after 2 [BeginTransaction None None; PauseTransaction;
                              RestoreTransaction 0%nat; PauseTransaction]));
      by vm_compute.
Defined.

Lemma retirement_point_only_overwritten_by_a_write_witness :
  ∃ s', states (default initial (snd <$> ensureWritable 2 0%nat second_writer))
          !! 0%nat = Some s' ∧
        (s_max s' = Some 1 ∨
         s_max s' = Some (currentTransactionNumber second_writer)).
Proof.
  apply (proj2 (proj2 retirement_point_only_overwritten_by_a_write) 2%nat 0%nat
           second_writer
           (default initial (snd <$> ensureWritable 2 0%nat second_writer)) 0%nat
           (mkState (Some 0) (Some 1) None None (Some 0%nat) [(0%nat, 499)]));
    by vm_compute.
Defined.




(** ** Snapshots without a retirement point *)
Global Instance same_objects_preorder : PreOrder same_objects.
Proof.
  split.
  - intros σ. by split.
  - intros σ1 σ2 σ3 [H1 H1'] [H2 H2']. split; congruence.
Qed.

Lemma exec_same_objects fuel c :
  ¬ entity_call c → preserves same_objects (exec fuel c).
Proof.
  destruct c; simpl; intros Hc; try (by destruct Hc).
  all: preserves_with fail ltac:(by split).
Qed.

Lemma same_objects_chain_inv σ σ' : same_objects σ σ' → chain_inv σ → chain_inv σ'.
Proof. intros [Hs He] Hi e eo. rewrite Hs, He. apply Hi. Qed.

Lemma findVisible_loop_elem h asOf invalid l v : ∀ o fuel,
  chain h o l →
  findVisible_loop fuel h o asOf invalid = Some (Ret (Some v)) → v ∈ l.
Proof.
  induction l as [|r l IH]; intros o fuel Hc H; simpl in Hc.
  - subst o. by destruct fuel.
  - destruct Hc as [-> Hc]. destruct fuel as [|fuel]; [done|]. simpl in H.
    destruct (h !! r) as [s|] eqn:Hr; [|done].
    destruct (skipped s asOf invalid).
    + right. by eapply IH.
    + injection H as <-. by left.
Qed.

Lemma findVisible_elem h asOf invalid l v o fuel :
  chain h o l →
  findVisible fuel h o asOf invalid = Some (Ret (Some v)) → v ∈ l.
Proof.
  intros Hc H. destruct o as [r|]; [|done].
  destruct l as [|r' l]; [done|]. simpl in Hc. destruct Hc as [[= <-] Hc].
  unfold findVisible in H. destruct (h !! r) as [s|] eqn:Hr; [|done].
  destruct (skipped s asOf invalid).
  - right. by eapply findVisible_loop_elem.
  - injection H as <-. by left.
Qed.

Lemma ensureReadable_result fuel e σ r σ' :
  ensureReadable fuel e σ = Some (r, σ') →
  states σ' = states σ ∧
  (σ' = σ ∨
   ∃ eo res,
     entities σ !! e = Some eo ∧
     findVisible fuel (states σ) (e_previous eo) (currentTransactionNumber σ)
       (invalidOf (currentTransaction σ)) = Some (Ret res) ∧
     entities σ' =
       alter (with_e_transaction (Some (currentTransactionNumber σ))) e
         (alter (with_e_state res) e (entities σ))).
Proof.
  intros H. unfold ensureReadable, makeReadable in H. mrun; try (split; [done|by left]).
  split; [done|]. right. eexists _, _. by split_and!.
Qed.

Lemma ensureReadable_chain_inv fuel e σ r σ' :
  ensureReadable fuel e σ = Some (r, σ') → chain_inv σ → chain_inv σ'.
Proof.
  intros [Hst [->|(eo & res & He & Hfv & Hen)]]%ensureReadable_result Hi; [done|].
  intros e' eo' He'. rewrite Hen in He'.
  destruct (decide (e = e')) as [<-|Hne].
  - rewrite !list_lookup_alter_eq, He in He'. simpl in He'. injection He' as <-.
    destruct (Hi _ _ He) as (l & Hc & Hs & Hw & Ho).
    exists l. rewrite Hst. split_and!; try done. simpl. intros st ->.
    by eapply findVisible_elem.
  - rewrite !list_lookup_alter_ne in He' by done. rewrite Hst. by apply Hi.
Qed.

Lemma bindState_result fuel fields σ r σ' :
  exec fuel (BindState fields) σ = Some (r, σ') →
  r = Ret (VEntity (length (entities σ))) ∧
  states σ' =
    states σ ++ [mkState (Some (currentTransactionNumber σ)) None None None
                   (Some (length (entities σ))) fields] ∧
  entities σ' =
    entities σ ++ [mkEntity (Some (currentTransactionNumber σ))
                     (Some (length (states σ))) (Some (length (states σ)))].
Proof.
  intros H. unfold exec in H. mrun. all: rewrite ?alter_snoc in *; try done.
Qed.

Lemma chain_inv_lt σ e eo l r :
  entities σ !! e = Some eo → chain (states σ) (e_previous eo) l → r ∈ l →
  (r < length (states σ))%nat.
Proof.
  intros _ Hc Hr. destruct (chain_lookup _ _ _ _ Hc Hr) as [s Hs].
  by eapply lookup_lt_Some.
Qed.

Lemma bindState_chain_inv fuel fields σ r σ' :
  exec fuel (BindState fields) σ = Some (r, σ') → chain_inv σ → chain_inv σ'.
Proof.
  intros (_ & Hst & Hen)%bindState_result Hi e eo. rewrite Hst, Hen.
  intros [He|[Hle He]]%lookup_app_Some.
  - destruct (Hi _ _ He) as (l & Hc & Hs & (r0 & s0 & Hr0 & Hs0 & Hm0) & Ho).
    exists l. split_and!; [by apply chain_alloc|done| |].
    + exists r0, s0. split_and!; [done| |done]. by apply lookup_app_l_Some.
    + intros r1 s1 Hr1 Hs1. apply (Ho r1 s1 Hr1).
      rewrite lookup_app_l in Hs1; [done|]. by eapply chain_inv_lt.
  - destruct (e - length (entities σ))%nat as [|n] eqn:Hn; simpl in He; [|by destruct n].
    injection He as <-. simpl.
    assert (e = length (entities σ)) as -> by lia.
    exists [length (states σ)]. split_and!.
    + simpl. split; [done|]. by rewrite list_lookup_middle.
    + intros st [= <-]. set_solver.
    + exists (length (states σ)). eexists.
      split_and!; [set_solver|by apply list_lookup_middle|done].
    + intros r1 s1 ->%list_elem_of_singleton. rewrite list_lookup_middle by done.
      by intros [= <-].
Qed.

Lemma lookup_alter_None {A} (f : A → A) (l : list A) i j :
  alter f i l !! j = None → l !! j = None.
Proof. rewrite !lookup_ge_None, length_alter. done. Qed.

Lemma lookup_snoc_None {A} (l : list A) x j :
  (l ++ [x]) !! j = None → l !! j = None.
Proof. rewrite !lookup_ge_None, length_app. simpl. lia. Qed.

Ltac norm_none :=
  repeat match goal with
  | H : alter _ _ _ !! _ = None |- _ => apply lookup_alter_None in H
  | H : (_ ++ [_]) !! _ = None |- _ => apply lookup_snoc_None in H
  end.

Lemma lastOr_entity e e' l : lastOr (OfEntity e) l = OfEntity e' → e' = e.
Proof. unfold lastOr. destruct (last l); [done|]. by intros [= ->]. Qed.

Lemma lastOr_state e r l : lastOr (OfEntity e) l = OfState r → r ∈ l.
Proof.
  unfold lastOr. destruct (last l) as [x|] eqn:Hl; [|done].
  intros [= ->]. apply last_Some in Hl as [l' ->]. set_solver.
Qed.

(** A [makeWritable] that throws has written nothing to a snapshot. *)
Lemma makeWritable_throws_early fuel e σ err σ' :
  chain_inv σ →
  makeWritable fuel e σ = Some (Throw err, σ') →
  σ' = σ ∨ ∃ r1, ensureReadable fuel e σ = Some (r1, σ').
Proof.
  intros Hi H. unfold makeWritable in H. unfold bind at 1 in H.
  destruct (validateInTransaction σ) as [[[[]|?] σa]|] eqn:Hv; try done.
  2:{ left. by mrun. }
  assert (σa = σ ∧ ∃ t, currentTransaction σ = Some t) as [-> [t Ht]].
  { clear H. mrun. eauto. }
  unfold bind at 1 in H.
  destruct (ensureReadable fuel e σ) as [[[[]|?] σ1]|] eqn:Hr; try done.
  2:{ right. injection H as <- <-. eauto. }
  pose proof (ensureReadable_chain_inv _ _ _ _ _ Hr Hi) as Hi1.
  pose proof (ensureReadable_same_manager _ _ _ _ _ Hr) as Hsm.
  assert (Ht1 : ∃ t1, currentTransaction σ1 = Some t1).
  { destruct Hsm as (_&_&_&_&_&_&_&Hn&_). rewrite Ht in Hn.
    destruct (currentTransaction σ1); [eauto|done]. }
  destruct Ht1 as [t1 Ht1].
  right. exists (Ret tt). do 2 f_equal.
  unfold bind at 1, readEntity at 1 in H.
  destruct (entities σ1 !! e) as [eo1|] eqn:He1; [|congruence].
  destruct (e_state eo1) as [st|] eqn:Hst; [|by mrun].
  unfold bind at 1, readState at 1 in H.
  destruct (states σ1 !! st) as [s|] eqn:Hs; [|congruence].
  exfalso.
  destruct (Hi1 _ _ He1) as (l & Hc & _ & _ & _).
  assert (Hwalk : ∀ res,
    spliceWalk fuel
      (states σ1 ++ [with_entity (Some e)
                       (with_min (Some (currentTransactionNumber σ1)) (clone s))])
      (e_previous eo1) (OfEntity e) (currentTransactionNumber σ1) = Some res →
    ∃ l1 l2 previous, l = l1 ++ l2 ∧ res = Ret (previous, lastOr (OfEntity e) l1)).
  { intros res Hw. erewrite spliceWalk_alloc in Hw by done.
    destruct (spliceWalk_sound _ _ _ _ _ _ _ Hc Hw) as (l1 & l2 & p & ? & ? & _).
    eauto. }
  clear Hv Hr Hi Hi1 Hsm Ht.
  mrun.
  all: rewrite ?alter_snoc in *.
  all: norm_none.
  all: try congruence.
  all: match goal with
       | Hw : spliceWalk _ _ _ _ _ = Some ?res |- _ =>
           destruct (Hwalk _ Hw) as (l1 & l2 & p & -> & Heq); try discriminate;
           injection Heq as ->
       end.
  all: simpl in *.
  all: try match goal with
       | Hn : lastOr (OfEntity _) _ = OfEntity _ |- _ =>
           apply lastOr_entity in Hn; subst; congruence
       | Hn : lastOr (OfEntity _) _ = OfState ?r |- _ =>
           apply lastOr_state in Hn;
           destruct (chain_lookup _ _ _ r Hc) as [? ?]; [set_solver|congruence]
       end.
Qed.

Lemma written_owner h current st next n ns r sr :
  h !! r = Some sr →
  ∃ sr', alter (with_max (Some current)) st (linkState next n (h ++ [ns])) !! r
           = Some sr' ∧
         owner sr' = owner sr.
Proof.
  intros Hr.
  assert (∃ s1, linkState next n (h ++ [ns]) !! r = Some s1 ∧ owner s1 = owner sr)
    as (s1 & Hs1 & Ho).
  { destruct next as [|nx]; simpl.
    - rewrite (lookup_app_l_Some _ _ _ _ Hr). eauto.
    - rewrite list_lookup_alter. case_decide; subst;
        rewrite (lookup_app_l_Some _ _ _ _ Hr); simpl; eauto. }
  rewrite list_lookup_alter. case_decide; subst; rewrite Hs1; simpl; eauto.
Qed.

Lemma unwritten_lookup h current st next n ns r :
  r ≠ st → next ≠ OfState r → (r < length h)%nat →
  alter (with_max (Some current)) st (linkState next n (h ++ [ns])) !! r = h !! r.
Proof.
  intros Hst Hnx Hr. rewrite list_lookup_alter_ne by done.
  destruct next as [|nx]; simpl.
  - by rewrite lookup_app_l.
  - rewrite list_lookup_alter_ne by congruence. by rewrite lookup_app_l.
Qed.

Lemma chain_functional h o l1 l2 : chain h o l1 → chain h o l2 → l1 = l2.
Proof. rewrite !chain_segment. apply segment_functional. Qed.

Lemma makeWritable_chain_inv fuel e σ σ' :
  chain_inv σ → makeWritable fuel e σ = Some (Ret tt, σ') → chain_inv σ'.
Proof.
  intros Hi H.
  assert (∃ eo, entities σ !! e = Some eo) as [eo He].
  { apply makeWritable_result in H as (σ1 & eo1 & _ & _ & _ & _ & _ & Hr & _ & He1 & _).
    destruct (ensureReadable_same_chains _ _ _ _ _ Hr) as [_ Hp].
    specialize (Hp e). rewrite He1 in Hp. destruct (entities σ !! e); [eauto|done]. }
  destruct (Hi _ _ He) as (l & Hc & _ & _ & Ho).
  destruct (makeWritable_splice _ _ _ _ _ _ He Hc H) as
    (σ1 & eo1 & st & s & l1 & l2 & previous & Hr & He1 & Hst1 & Hs & -> & Hstates
        & Hents & He' & Hchain & _ & _ & _ & Hn).
  pose proof (ensureReadable_chain_inv _ _ _ _ _ Hr Hi) as Hi1.
  destruct (ensureReadable_same_chains _ _ _ _ _ Hr) as [Hst Hpr].
  assert (Hstl : st ∈ l1 ++ l2).
  { destruct (Hi1 _ _ He1) as (l' & Hc' & Hs' & _).
    specialize (Hpr e). rewrite He1, He in Hpr. simpl in Hpr. injection Hpr as Hpr.
    rewrite Hst, Hpr in Hc'. rewrite (chain_functional _ _ _ _ Hc Hc'). by apply Hs'. }
  intros e' eo' He2. destruct (decide (e' = e)) as [->|Hne].
  - rewrite He' in He2. injection He2 as <-. simpl.
    exists (l1 ++ length (states σ) :: l2). split_and!; [done| | |].
    + intros st' [= <-]. set_solver.
    + eexists (length (states σ)), _. split_and!; [set_solver|exact Hn|done].
    + intros r sr Hr' Hsr.
      destruct (decide (r = length (states σ))) as [->|Hrn].
      * rewrite Hn in Hsr. by injection Hsr as <-.
      * assert (Hrl : r ∈ l1 ++ l2) by set_solver.
        destruct (chain_lookup _ _ _ _ Hc Hrl) as [s0 Hs0].
        destruct (written_owner (states σ) (currentTransactionNumber σ) st
                    (lastOr (OfEntity e) l1) (length (states σ))
                    (newSnapshot (currentTransactionNumber σ) e previous s) r s0 Hs0)
          as (s0' & Hs0' & Hown).
        rewrite Hstates, Hs0' in Hsr. injection Hsr as <-. rewrite Hown.
        by eapply Ho.
  - assert (He1' : entities σ1 !! e' = Some eo').
    { rewrite Hents, list_lookup_alter_ne in He2 by done.
      unfold linkEntity in He2. destruct (lastOr (OfEntity e) l1) eqn:Hlast; [|done].
      apply lastOr_entity in Hlast as ->.
      by rewrite list_lookup_alter_ne in He2. }
    destruct (Hi1 _ _ He1') as (l' & Hc' & Hs' & (r0 & s0 & Hr0 & Hs0 & Hm0) & Ho').
    rewrite Hst in Hc', Hs0, Ho'.
    assert (Hsame : ∀ r, r ∈ l' → states σ' !! r = states σ !! r).
    { intros r Hr'. destruct (chain_lookup _ _ _ _ Hc' Hr') as [sr Hsr].
      pose proof (Ho' _ _ Hr' Hsr) as Hor.
      rewrite Hstates. apply unwritten_lookup.
      - intros ->. destruct (chain_lookup _ _ _ _ Hc Hstl) as [s1 Hs1].
        pose proof (Ho _ _ Hstl Hs1). congruence.
      - intros Hnx%lastOr_state.
        assert (Hrl : r ∈ l1 ++ l2) by set_solver.
        pose proof (Ho _ _ Hrl Hsr). congruence.
      - by eapply lookup_lt_Some. }
    exists l'. split_and!; [|done| |].
    + eapply chain_ext; [|done]. intros r Hr'. by rewrite Hsame.
    + exists r0, s0. split_and!; [done| |done]. by rewrite Hsame.
    + intros r sr Hr' Hsr. rewrite Hsame in Hsr by done. by eapply Ho'.
Qed.

Lemma exec_chain_inv fuel c σ r σ' :
  exec fuel c σ = Some (r, σ') → chain_inv σ → chain_inv σ'.
Proof.
  intros H Hi. destruct c.
  1-5: eapply same_objects_chain_inv; [|exact Hi];
       revert H; apply exec_same_objects; simpl; tauto.
  - unfold exec, bind, ret in H.
    destruct (ensureReadable fuel entity σ) as [[r1 σ1]|] eqn:Hr; [|done].
    assert (σ' = σ1) as -> by (destruct r1; by simplify_eq/=).
    by eapply ensureReadable_chain_inv.
  - unfold exec, bind, ret in H.
    destruct (ensureWritable fuel entity σ) as [[r1 σ1]|] eqn:Hw; [|done].
    assert (σ' = σ1) as -> by (destruct r1; by simplify_eq/=).
    apply ensureWritable_cases in Hw as [->|Hw]; [done|].
    destruct r1 as [[]|err].
    + by eapply makeWritable_chain_inv.
    + destruct (makeWritable_throws_early _ _ _ _ _ Hi Hw) as [->|[r2 Hr]]; [done|].
      by eapply ensureReadable_chain_inv.
  - by eapply bindState_chain_inv.
Qed.

Lemma initial_chain_inv : chain_inv initial.
Proof. intros e eo He. simpl in He. by rewrite lookup_nil in He. Qed.



(** * Further properties *)

(** ** The transaction manager, call by call *)
Lemma beginTransaction_eq oncommit onabort σ :
  beginTransaction oncommit onabort σ =
  Some (if inTransaction σ then (Throw AlreadyInTransaction, σ)
        else (Ret (length (frames σ)), begun oncommit onabort σ)).
Proof.
  munfold; simpl. by destruct (currentTransaction σ) eqn:E.
Qed.

Lemma pauseTransaction_eq σ :
  pauseTransaction σ =
  Some (match currentTransaction σ with
        | None => (Throw NoOpenTransaction, σ)
        | Some t =>
            match frames σ !! t_frame t with
            | Some _ => (Ret (length (pausedTransactions σ)), suspended t σ)
            | None =>
                (Throw TypeError,
                 set_pausedTransactions (pausedTransactions σ ++ [Some t]) σ)
            end
        end).
Proof.
  munfold; simpl. destruct (currentTransaction σ) as [t|] eqn:E; simpl; [|done].
  rewrite ?E; simpl. destruct (frames σ !! t_frame t) eqn:Ef; simpl; by rewrite ?E.
Qed.

Lemma restoreTransaction_eq id σ :
  restoreTransaction id σ =
  Some (if inTransaction σ then (Throw InvalidInternalState, σ)
        else match pausedTransactions σ !! id with
             | Some (Some t) =>
                 if bool_decide (openTransactions σ !! t_number t ≠ Some FsOpen)
                 then (Throw InvalidPausedTransaction, σ)
                 else match frames σ !! t_frame t with
                      | Some _ => (Ret tt, resumed id t σ)
                      | None => (Throw TypeError, set_currentTransaction (Some t) σ)
                      end
             | _ => (Throw InvalidPausedTransaction, σ)
             end).
Proof.
  munfold; simpl. destruct (currentTransaction σ) as [t|] eqn:E; simpl; [done|].
  destruct (pausedTransactions σ !! id) as [[t|]|] eqn:Ep; simpl; try done.
  case_bool_decide; simpl; [done|].
  destruct (frames σ !! t_frame t) eqn:Ef; simpl; done.
Qed.

Lemma abortTransaction_eq σ :
  abortTransaction σ =
  Some (match currentTransaction σ with
        | None => (Throw NoOpenTransaction, σ)
        | Some t =>
            match frames σ !! t_frame t with
            | Some _ => (Ret tt, aborted t σ)
            | None =>
                (Throw TypeError,
                 set_openTransactions
                   (<[currentTransactionNumber σ := FsAborted]> (openTransactions σ)) σ)
            end
        end).
Proof.
  munfold; simpl. destruct (currentTransaction σ) as [t|] eqn:E; simpl; [|done].
  rewrite ?E; simpl. destruct (frames σ !! t_frame t) eqn:Ef; simpl; [|done].
  rewrite ?list_lookup_alter_eq, ?Ef; simpl. by destruct (f_onabort _).
Qed.

Lemma exec_manager_step fuel c σ r σ' :
  wf_manager σ → ¬ entity_call c →
  exec fuel c σ = Some (r, σ') → manager_step σ c σ'.
Proof.
  intros Hwf Hc H. destruct c; simpl in Hc; try (by destruct Hc); clear Hc.
  - unfold exec, bind, ret in H. rewrite beginTransaction_eq in H.
    unfold inTransaction in H.
    destruct (currentTransaction σ) eqn:E; simplify_eq/=; [constructor|].
    by constructor.
  - unfold exec, bind, ret in H. rewrite pauseTransaction_eq in H.
    destruct (currentTransaction σ) as [t|] eqn:E; simplify_eq/=; [|constructor].
    destruct (proj1 Hwf _ E) as [_ [fo Hfo]%lookup_lt_is_Some].
    rewrite Hfo in H. simplify_eq/=. by constructor.
  - unfold exec, bind, ret in H. rewrite restoreTransaction_eq in H.
    unfold inTransaction in H.
    destruct (currentTransaction σ) as [t|] eqn:E; simplify_eq/=; [constructor|].
    destruct (pausedTransactions σ !! pausedId) as [[t|]|] eqn:Ep;
      simplify_eq/=; try constructor.
    case_bool_decide as Hd; simplify_eq/=; [constructor|].
    destruct (lookup_lt_is_Some_2 _ _ (proj2 Hwf _ _ Ep)) as [fo Hfo].
    rewrite Hfo in H. simplify_eq/=. by constructor.
  - unfold exec, bind, ret in H. rewrite abortTransaction_eq in H.
    destruct (currentTransaction σ) as [t|] eqn:E; simplify_eq/=; [|constructor].
    destruct (proj1 Hwf _ E) as [_ [fo Hfo]%lookup_lt_is_Some].
    rewrite Hfo in H. simplify_eq/=. constructor; auto.
  - assert (∃ r0, commitTransaction fuel σ = Some (r0, σ')) as [r0 Hc].
    { unfold exec, bind, ret in H.
      destruct (commitTransaction fuel σ) as [[[] ?]|]; simplify_eq; eauto. }
    clear H. apply commitTransaction_result in Hc.
    destruct (currentTransaction σ) as [t|] eqn:Ht;
      [|destruct Hc as [_ ->]; constructor].
    destruct Hc as (rc & _ & Hc).
    destruct (proj1 Hwf _ Ht) as [_ [fo Hfo]%lookup_lt_is_Some].
    rewrite Hfo in Hc. destruct rc as [[]|e].
    + destruct Hc as [_ ->]. by econstructor.
    + destruct Hc as [_ Hab]. rewrite abortTransaction_eq, Ht, Hfo in Hab.
      simplify_eq/=. constructor; auto.
Qed.

(** ** The invariant of the transaction manager *)
Lemma currentInvalid_lookup σ m :
  table_inv σ →
  currentInvalid σ !! m = (λ _, true) <$> openTransactions σ !! m.
Proof.
  intros Ht. unfold currentInvalid. rewrite lookup_fmap.
  destruct (openTransactions σ !! m) as [st|] eqn:E; simpl.
  - erewrite map_lookup_filter_Some_2; [done|exact E|]. simpl. by eapply Ht.
  - by rewrite map_lookup_filter_None_2 by auto.
Qed.

Lemma live_number_le σ t :
  wf_lifecycle σ → paused_inv σ → live σ t → t_number t ≤ highestTransaction σ.
Proof.
  intros (_ & Ho & Hh) (_ & Hp & _) [Hc|[id Hid]]; apply Hh.
  - rewrite (Ho _ Hc). eauto.
  - destruct (Hp _ _ Hid) as [-> _]. eauto.
Qed.

Lemma fstate_lookup (fs : list Frame) i st :
  f_state <$> fs !! i = Some st → ∃ fo, fs !! i = Some fo ∧ f_state fo = st.
Proof. destruct (fs !! i); simpl; intros [= <-]; eauto. Qed.

Lemma fstate_alter_eq (fs : list Frame) i st st' :
  f_state <$> fs !! i = Some st →
  f_state <$> alter (with_frame_state st') i fs !! i = Some st'.
Proof.
  intros (fo & Hfo & _)%fstate_lookup. by rewrite list_lookup_alter_eq, Hfo.
Qed.

Lemma fstate_alter_ne (fs : list Frame) i j st st' x :
  f_state <$> fs !! i = Some st → f_state <$> fs !! j = Some st' → st ≠ st' →
  f_state <$> alter (with_frame_state x) i fs !! j = Some st'.
Proof.
  intros Hi Hj Hne. rewrite list_lookup_alter_ne; [done|]. intros ->. congruence.
Qed.

Lemma manager_step_inv σ c σ' :
  manager_step σ c σ' → manager_inv σ →
  table_inv σ' ∧ numbers_inv σ' ∧ paused_inv σ' ∧ invalid_inv σ'.
Proof.
  intros Hstep (Hl & Htab & (Hn0 & Hn1 & Hn2) & Hp & Hinv).
  pose proof Hl as ((Hw1 & Hw2) & Ho & Hh).
  pose proof Hp as (Hp1 & Hp2 & Hp3).
  destruct Hstep as [c|oc oa Hidle|t Ht|id t Hidle Hid Hopen|c t _ Ht|t fo Ht Hfo].
  - done.
  - (* begin *)
    assert (Hfresh : ∀ t, live σ t → t_number t ≠ highestTransaction σ + 1).
    { intros t Hlive. pose proof (live_number_le _ _ Hl Hp Hlive). lia. }
    split_and!.
    + intros m st. simpl. intros [[_ <-]|[_ Hm]]%lookup_insert_Some; [auto|].
      by eapply Htab.
    + split_and!; simpl; [done|lia|done].
    + split_and!; simpl.
      * intros t [= <-]. simpl. by rewrite list_lookup_middle.
      * intros id t Hid. destruct (Hp2 _ _ Hid) as (Hopen & Hfr & _).
        split_and!.
        -- rewrite lookup_insert_ne; [done|].
           intros Heq. eapply (Hfresh t); [right; eauto|done].
        -- destruct (fstate_lookup _ _ _ Hfr) as (fo & Hfo & <-).
           by rewrite (lookup_app_l_Some _ _ _ _ Hfo).
        -- intros t' [= <-]. simpl. intros Heq.
           eapply (Hfresh t); [right; eauto|done].
      * apply Hp3.
    + intros t [Hc|[id Hid]]; simpl in *.
      * injection Hc as <-. simpl. split.
        -- intros m b. rewrite currentInvalid_lookup by done.
           destruct (openTransactions σ !! m) eqn:E; simpl; [|done].
           intros [= <-]. split; [done|].
           specialize (Hh m ltac:(eauto)). lia.
        -- intros m Hm. rewrite lookup_insert_ne by lia.
           rewrite currentInvalid_lookup by done.
           by intros [x ->].
      * destruct (Hinv t) as [Hi1 Hi2]; [right; eauto|]. split; [done|].
        intros m Hm. rewrite lookup_insert_ne; [by apply Hi2|].
        pose proof (live_number_le _ t Hl Hp ltac:(right; eauto)). lia.
  - (* pause *)
    split_and!; [done|by split_and!| |].
    + split_and!; simpl; [done| |].
      * intros id t' [Hid|[_ Hid]]%lookup_app_Some.
        -- destruct (Hp2 _ _ Hid) as (Hopen & Hfr & _). split_and!; [done| |done].
           eapply fstate_alter_ne; [by apply Hp1|done|done].
        -- destruct (id - length (pausedTransactions σ))%nat as [|[|]];
             simpl in Hid; try done.
           injection Hid as <-. split_and!; [by apply Ho| |done].
           eapply fstate_alter_eq. by apply Hp1.
      * intros i j ti tj [Hi|[Hil Hi]]%lookup_app_Some [Hj|[Hjl Hj]]%lookup_app_Some.
        -- by apply Hp3.
        -- destruct (j - length (pausedTransactions σ))%nat as [|[|]] eqn:Ej;
             simpl in Hj; try done.
           injection Hj as <-. destruct (Hp2 _ _ Hi) as (_ & Hfr & Hne).
           specialize (Hne _ Ht). specialize (Hp1 _ Ht).
           intros [?|Heq]; [done|]. rewrite Heq in Hfr. congruence.
        -- destruct (i - length (pausedTransactions σ))%nat as [|[|]] eqn:Ei;
             simpl in Hi; try done.
           injection Hi as <-. destruct (Hp2 _ _ Hj) as (_ & Hfr & Hne).
           specialize (Hne _ Ht). specialize (Hp1 _ Ht).
           intros [?|Heq]; [done|]. rewrite <- Heq in Hfr. congruence.
        -- destruct (i - length (pausedTransactions σ))%nat as [|[|]] eqn:Ei;
             simpl in Hi; try done.
           destruct (j - length (pausedTransactions σ))%nat as [|[|]] eqn:Ej;
             simpl in Hj; try done.
           intros _. lia.
    + intros t' [Hc|[id Hid]]; simpl in *; [done|].
      apply Hinv. apply lookup_app_Some in Hid as [Hid|[_ Hid]].
      * right; eauto.
      * destruct (id - length (pausedTransactions σ))%nat as [|[|]];
          simpl in Hid; try done.
        injection Hid as <-. by left.
  - (* restore *)
    destruct (Hp2 _ _ Hid) as (_ & Hfr & _).
    split_and!; [done|by split_and!| |].
    + split_and!; simpl.
      * intros t' [= <-]. by eapply fstate_alter_eq.
      * intros j tj [(_&?&_)|[Hne Hj]]%list_lookup_insert_Some; [done|].
        destruct (Hp2 _ _ Hj) as (Hopenj & Hfrj & _).
        assert (t_number t ≠ t_number tj ∧ t_frame t ≠ t_frame tj) as [Hn Hf].
        { split; intros Heq; apply Hne; eapply Hp3; eauto. }
        split_and!; [done| |by intros t' [= <-]].
        by rewrite list_lookup_alter_ne.
      * intros i j ti tj [(_&?&_)|[_ Hi]]%list_lookup_insert_Some; [done|].
        intros [(_&?&_)|[_ Hj]]%list_lookup_insert_Some; [done|].
        by apply Hp3.
    + intros t' [Hc|[j Hj]]; simpl in *.
      * injection Hc as <-. apply Hinv. right; eauto.
      * apply list_lookup_insert_Some in Hj as [(_&?&_)|[_ Hj]]; [done|].
        apply Hinv. right; eauto.
  - (* abort *)
    destruct (Hw1 _ Ht) as [Hcur _]. pose proof (Ho _ Ht) as Hopen.
    split_and!.
    + intros m st. simpl. intros [[_ <-]|[_ Hm]]%lookup_insert_Some; [auto|].
      by eapply Htab.
    + by split_and!.
    + split_and!; simpl; [done| |done].
      intros id t' Hid. destruct (Hp2 _ _ Hid) as (Hopen' & Hfr & Hne).
      specialize (Hne _ Ht). split_and!; [|by eapply fstate_alter_ne; eauto|done].
      rewrite lookup_insert_ne; [done|]. by rewrite Hcur.
    + intros t' [Hc|[id Hid]]; simpl in *; [done|].
      destruct (Hinv t') as [Hi1 Hi2]; [right; eauto|]. split; [done|].
      intros m Hm Hs. apply Hi2; [done|].
      destruct (decide (currentTransactionNumber σ = m)) as [<-|Hne].
      * rewrite Hcur, Hopen. eauto.
      * by rewrite lookup_insert_ne in Hs.
  - (* commit *)
    destruct (Hw1 _ Ht) as [Hcur _]. pose proof (Ho _ Ht) as Hopen.
    assert (t_number t ≤ highestTransaction σ) by (apply Hh; rewrite Hopen; eauto).
    unfold committed.
    destruct (Z.gtb_spec (currentTransactionNumber σ) (highestCommittedTransaction σ)).
    all: split_and!.
    all: try (intros m st; simpl; intros [_ Hm]%lookup_delete_Some; by eapply Htab).
    all: try (split_and!; simpl; [lia|lia|done]).
    all: try (split_and!; simpl; [done| |done];
      intros id t' Hid; destruct (Hp2 _ _ Hid) as (Hopen' & Hfr & Hne);
      specialize (Hne _ Ht);
      split_and!; [|by eapply fstate_alter_ne; eauto|done];
      rewrite lookup_delete_ne; [done|]; by rewrite Hcur).
    all: intros t' [Hc|[id Hid]]; simpl in *; [done|];
      destruct (Hinv t') as [Hi1 Hi2]; [right; eauto|]; split; [done|];
      intros m Hm [x [_ Hs]%lookup_delete_Some]; apply Hi2; eauto.
Qed.

Lemma same_manager_live σ σ' t' :
  same_manager σ σ' → live σ' t' →
  ∃ t, live σ t ∧ t_number t = t_number t' ∧ t_invalid t = t_invalid t' ∧
       t_frame t = t_frame t'.
Proof.
  intros (_&_&_&_&Hps&_&_&Hn&Hi&Hf) [Hc|[id Hid]].
  - rewrite Hc in Hn, Hi, Hf.
    destruct (currentTransaction σ) as [t|] eqn:E; simplify_eq/=.
    exists t. split; [by left|done].
  - exists t'. split; [right; exists id; by rewrite <- Hps|done].
Qed.

Lemma same_manager_inv σ σ' :
  same_manager σ σ' → manager_inv σ → manager_inv σ'.
Proof.
  intros Hsm (Hl & Htab & (Hn0 & Hn1 & Hn2) & (Hp1 & Hp2 & Hp3) & Hinv).
  pose proof Hsm as (HhT&HhC&Hcur&Hop&Hps&Hfr&_&Hn&Hi&Hf).
  split_and!.
  - by eapply same_manager_lifecycle.
  - intros m st. rewrite Hop. apply Htab.
  - unfold numbers_inv. rewrite HhT, HhC, Hcur. split_and!; [done|done|].
    intros Hc. apply Hn2. rewrite Hc in Hn.
    by destruct (currentTransaction σ).
  - split_and!.
    + intros t' Hc. rewrite Hfr. rewrite Hc in Hf.
      destruct (currentTransaction σ) as [t|] eqn:E; simplify_eq/=.
      rewrite Hf. by apply Hp1.
    + intros id t'. rewrite Hps, Hop, Hfr. intros Hid.
      destruct (Hp2 _ _ Hid) as (?&?&Hne). split_and!; [done|done|].
      intros t'' Hc. rewrite Hc in Hn.
      destruct (currentTransaction σ) as [t|] eqn:E; simplify_eq/=.
      rewrite Hn. by apply Hne.
    + intros i j ti tj. rewrite Hps. apply Hp3.
  - intros t' Hlive.
    destruct (same_manager_live _ _ _ Hsm Hlive) as (t & Hl0 & En & Ei & _).
    rewrite <- En, <- Ei, Hop. by apply Hinv.
Qed.

Lemma exec_manager_inv fuel c σ r σ' :
  exec fuel c σ = Some (r, σ') → manager_inv σ → manager_inv σ'.
Proof.
  intros H Hi.
  assert (entity_call c ∨ ¬ entity_call c) as [Hc|Hc]
    by (destruct c; simpl; auto).
  - eapply same_manager_inv; [|done]. revert H. by apply exec_same_manager.
  - split.
    + eapply exec_lifecycle; [done|apply Hi].
    + eapply manager_step_inv; [|done].
      eapply exec_manager_step; [apply Hi|done|done].
Qed.

Lemma run_manager_inv fuel cs σ rs σ' :
  run fuel cs σ = Some (rs, σ') → manager_inv σ → manager_inv σ'.
Proof.
  apply (preserves_run (keeps manager_inv)).
  intros c σ1 r σ2 H. unfold keeps. by eapply exec_manager_inv.
Qed.

Lemma initial_manager_inv : manager_inv initial.
Proof.
  split_and!.
  - apply initial_wf_lifecycle.
  - intros m st. simpl. by rewrite lookup_empty.
  - by split_and!.
  - split_and!; simpl; try done.
    all: intros *; by rewrite lookup_nil.
  - intros t [Hc|[id Hid]]; simpl in *; [done|]. by rewrite lookup_nil in Hid.
Qed.

(** ** Frames *)
Lemma manager_step_final_frame σ c σ' fr fo :
  manager_step σ c σ' → manager_inv σ →
  frames σ !! fr = Some fo →
  f_state fo = FsCommitted ∨ f_state fo = FsAborted →
  frames σ' !! fr = Some fo.
Proof.
  intros Hstep (Hl & _ & _ & (Hp1 & Hp2 & _) & _) Hfo Hfinal.
  assert (Hne : ∀ i st, f_state <$> frames σ !! i = Some st →
                        st = FsOpen ∨ st = FsPaused → i ≠ fr).
  { intros i st Hi Hst ->. rewrite Hfo in Hi. simpl in Hi.
    destruct Hst, Hfinal; congruence. }
  destruct Hstep as [c|oc oa Hidle|t Ht|id t Hidle Hid Hopen|c t _ Ht|t fo' Ht Hfo'];
    simpl; try done.
  - by apply lookup_app_l_Some.
  - rewrite list_lookup_alter_ne; [done|]. eapply Hne; [by apply Hp1|auto].
  - rewrite list_lookup_alter_ne; [done|].
    destruct (Hp2 _ _ Hid) as (_ & Hfr & _). eapply Hne; [done|auto].
  - rewrite list_lookup_alter_ne; [done|]. eapply Hne; [by apply Hp1|auto].
  - rewrite list_lookup_alter_ne; [done|]. eapply Hne; [by apply Hp1|auto].
Qed.

Lemma exec_final_frame fuel c σ r σ' fr fo :
  exec fuel c σ = Some (r, σ') → manager_inv σ →
  frames σ !! fr = Some fo →
  f_state fo = FsCommitted ∨ f_state fo = FsAborted →
  frames σ' !! fr = Some fo.
Proof.
  intros H Hi Hfo Hfinal.
  assert (entity_call c ∨ ¬ entity_call c) as [Hc|Hc]
    by (destruct c; simpl; auto).
  - apply exec_same_manager in H; [|done].
    destruct H as (_&_&_&_&_&Hfr&_). by rewrite Hfr.
  - eapply manager_step_final_frame; [|done..].
    eapply exec_manager_step; [apply Hi|done|done].
Qed.

Lemma run_final_frame fuel cs : ∀ σ rs σ' fr fo,
  run fuel cs σ = Some (rs, σ') → manager_inv σ →
  frames σ !! fr = Some fo →
  f_state fo = FsCommitted ∨ f_state fo = FsAborted →
  frames σ' !! fr = Some fo.
Proof.
  induction cs as [|c cs IH]; simpl; intros σ rs σ' fr fo.
  - by intros [= <- <-].
  - destruct (exec fuel c σ) as [[r σ1]|] eqn:E; [|done].
    destruct (run fuel cs σ1) as [[rs1 σ2]|] eqn:E2; [|done].
    intros [= <- <-] Hi Hfo Hfinal.
    eapply IH; [done|by eapply exec_manager_inv| |done].
    by eapply exec_final_frame.
Qed.

(** ** Paused slots *)
Lemma exec_slot_kept fuel c σ r σ' id t :
  c ≠ RestoreTransaction id → wf_manager σ →
  exec fuel c σ = Some (r, σ') →
  pausedTransactions σ !! id = Some (Some t) →
  pausedTransactions σ' !! id = Some (Some t).
Proof.
  intros Hc Hwf H Hid.
  assert (entity_call c ∨ ¬ entity_call c) as [Hec|Hec]
    by (destruct c; simpl; auto).
  { apply exec_same_manager in H; [|done].
    destruct H as (_&_&_&_&Hps&_). by rewrite Hps. }
  destruct c; try (by destruct Hec).
  all: pose proof (exec_manager_step _ _ _ _ _ Hwf Hec H) as Hstep.
  all: inversion Hstep; subst; simpl; try done.
  - by apply lookup_app_l_Some.
  - rewrite list_lookup_insert_ne; [done|]. congruence.
Qed.

Lemma run_slot_kept fuel cs id t : ∀ σ rs σ',
  RestoreTransaction id ∉ cs → wf_manager σ →
  run fuel cs σ = Some (rs, σ') →
  pausedTransactions σ !! id = Some (Some t) →
  pausedTransactions σ' !! id = Some (Some t).
Proof.
  induction cs as [|c cs IH]; simpl; intros σ rs σ' Hnot Hwf.
  - by intros [= <- <-].
  - destruct (exec fuel c σ) as [[r σ1]|] eqn:E; [|done].
    destruct (run fuel cs σ1) as [[rs1 σ2]|] eqn:E2; [|done].
    intros [= <- <-] Hid.
    apply not_elem_of_cons in Hnot as [Hne Hnot].
    eapply IH; [done|by eapply exec_wf_manager|done|].
    by eapply exec_slot_kept.
Qed.

Lemma resumed_suspended σ t :
  currentTransaction σ = Some t →
  currentTransactionNumber σ = t_number t →
  f_state <$> frames σ !! t_frame t = Some FsOpen →
  resumed (length (pausedTransactions σ)) t (suspended t σ)
  = set_pausedTransactions (pausedTransactions σ ++ [None]) σ.
Proof.
  intros Ht Hn (fo & Hfo & Hst)%fstate_lookup.
  unfold resumed, suspended, set_pausedTransactions; simpl.
  destruct σ; simpl in *. f_equal; try done.
  - rewrite insert_app_r_alt by done. by rewrite Nat.sub_diag.
  - rewrite list_alter_alter_eq. apply list_eq. intros i.
    destruct (decide (i = t_frame t)) as [->|Hne].
    + rewrite list_lookup_alter_eq, Hfo. simpl.
      destruct fo; simpl in *; by subst.
    + by rewrite list_lookup_alter_ne.
Qed.

(** ** Properties of the transaction manager *)

(** X1.  In every engine a sequence of calls can reach, the commit
    watermark lies between 0 and the highest number handed out; outside a
    transaction [currentTransactionNumber] is the watermark, inside one it
    is the number of the active transaction, which is [open] in the
    lifecycle table; and the table holds numbers that were handed out,
    marked [open] or [aborted], nothing else. *)
Theorem numbers_of_reachable_engines (fuel : nat) (cs : list call)
    (rs : list (outcome value)) (σ : Engine) :
  run fuel cs initial = Some (rs, σ) →
  0 ≤ highestCommittedTransaction σ ≤ highestTransaction σ ∧
  match currentTransaction σ with
  | None => currentTransactionNumber σ = highestCommittedTransaction σ
  | Some t =>
      currentTransactionNumber σ = t_number t ∧
      t_number t ≤ highestTransaction σ ∧
      openTransactions σ !! t_number t = Some FsOpen
  end ∧
  (∀ m st, openTransactions σ !! m = Some st →
           m ≤ highestTransaction σ ∧ (st = FsOpen ∨ st = FsAborted)).
Proof.
  intros Hrun.
  pose proof (run_manager_inv _ _ _ _ _ Hrun initial_manager_inv)
    as (((Hw1 & _) & Ho & Hh) & Htab & (Hn0 & Hn1 & Hn2) & _ & _).
  split_and!; [done|done| |].
  - destruct (currentTransaction σ) as [t|] eqn:Ht; [|by apply Hn2].
    split_and!; [by apply Hw1|apply Hh; rewrite (Ho _ eq_refl); eauto|by apply Ho].
  - intros m st Hm. split; [apply Hh; eauto|by eapply Htab].
Qed.

Lemma numbers_of_reachable_engines_witness :
  0 ≤ 2 ≤ 3 ∧
  (3 = 3 ∧ 3 ≤ 3 ∧
   openTransactions
     (engine_after 0 [BeginTransaction None None; AbortTransaction;
                      BeginTransaction None None; CommitTransaction;
                      BeginTransaction None None]) !! 3 = Some FsOpen) ∧
  (∀ m st,
     openTransactions
       (engine_after 0 [BeginTransaction None None; AbortTransaction;
                        BeginTransaction None None; CommitTransaction;
                        BeginTransaction None None]) !! m = Some st →
     m ≤ 3 ∧ (st = FsOpen ∨ st = FsAborted)).
Proof.
  apply (numbers_of_reachable_engines 0
           [BeginTransaction None None; AbortTransaction;
            BeginTransaction None None; CommitTransaction;
            BeginTransaction None None]
           [Ret (VFrame 0%nat); Ret VUndefined; Ret (VFrame 1%nat);
            Ret (VChanged []); Ret (VFrame 2%nat)]
           (engine_after 0 [BeginTransaction None None; AbortTransaction;
                            BeginTransaction None None; CommitTransaction;
                            BeginTransaction None None])).
  by vm_compute.
Defined.

(** X2.  In every reachable engine the frame of the active transaction
    reads [open], and every paused transaction is [open] in the lifecycle
    table while its frame reads [paused]; no two paused transactions share
    a number or a frame. *)
Theorem frames_follow_their_transactions (fuel : nat) (cs : list call)
    (rs : list (outcome value)) (σ : Engine) :
  run fuel cs initial = Some (rs, σ) →
  (∀ t, currentTransaction σ = Some t →
        f_state <$> frames σ !! t_frame t = Some FsOpen) ∧
  (∀ id t, pausedTransactions σ !! id = Some (Some t) →
        f_state <$> frames σ !! t_frame t = Some FsPaused ∧
        openTransactions σ !! t_number t = Some FsOpen) ∧
  (∀ i j ti tj,
        pausedTransactions σ !! i = Some (Some ti) →
        pausedTransactions σ !! j = Some (Some tj) →
        t_number ti = t_number tj ∨ t_frame ti = t_frame tj → i = j).
Proof.
  intros Hrun.
  pose proof (run_manager_inv _ _ _ _ _ Hrun initial_manager_inv)
    as (_ & _ & _ & (Hp1 & Hp2 & Hp3) & _).
  split_and!; [done| |done].
  intros id t Hid. destruct (Hp2 _ _ Hid) as (? & ? & _). done.
Qed.

Lemma frames_follow_their_transactions_witness :
  f_state <$> frames (engine_after 0 [BeginTransaction None None; PauseTransaction;
                                      BeginTransaction None None]) !! 1%nat
  = Some FsOpen ∧
  f_state <$> frames (engine_after 0 [BeginTransaction None None; PauseTransaction;
                                      BeginTransaction None None]) !! 0%nat
  = Some FsPaused.
Proof.
  pose proof (frames_follow_their_transactions 0
           [BeginTransaction None None; PauseTransaction; BeginTransaction None None]
           [Ret (VFrame 0%nat); Ret (VPauseId 0%nat); Ret (VFrame 1%nat)]
           (engine_after 0 [BeginTransaction None None; PauseTransaction;
                            BeginTransaction None None])
           ltac:(by vm_compute)) as (H1 & H2 & _).
  split.
  - apply (H1 (mkTransaction 2 [] {[1 := true]} 1%nat)). by vm_compute.
  - apply (H2 0%nat (mkTransaction 1 [] ∅ 0%nat)). by vm_compute.
Defined.

(** X3.  A frame that reads [committed] or [aborted] in a reachable engine
    is never written again: after any further sequence of calls it holds
    the same state and the same hooks. *)
Theorem finished_frames_never_change (fuel : nat) (cs0 cs : list call)
    (rs0 rs : list (outcome value)) (σ σ' : Engine) (fr : fref) (fo : Frame) :
  run fuel cs0 initial = Some (rs0, σ) →
  run fuel cs σ = Some (rs, σ') →
  frames σ !! fr = Some fo →
  f_state fo = FsCommitted ∨ f_state fo = FsAborted →
  frames σ' !! fr = Some fo.
Proof.
  intros Hrun0 Hrun. eapply run_final_frame; [done|].
  by eapply run_manager_inv; [|apply initial_manager_inv].
Qed.

Lemma finished_frames_never_change_witness :
  frames (engine_after 0 [BeginTransaction None (Some 7%nat); AbortTransaction;
                          BeginTransaction None None; PauseTransaction;
                          RestoreTransaction 0%nat; CommitTransaction]) !! 0%nat
  = Some (mkFrame FsAborted (Some 7%nat) None).
Proof.
  apply (finished_frames_never_change 0
           [BeginTransaction None (Some 7%nat); AbortTransaction]
           [BeginTransaction None None; PauseTransaction;
            RestoreTransaction 0%nat; CommitTransaction]
           [Ret (VFrame 0%nat); Ret VUndefined]
           [Ret (VFrame 1%nat); Ret (VPauseId 0%nat); Ret VUndefined;
            Ret (VChanged [])]
           (engine_after 0 [BeginTransaction None (Some 7%nat); AbortTransaction]));
    try by vm_compute.
  right. by vm_compute.
Defined.

(** X4.  A transaction that was paused can be restored whatever the other
    calls did in the meantime: when [pauseTransaction] returned [id] in a
    reachable engine and the calls since then did not restore [id], a
    [restoreTransaction id] made outside a transaction returns, and the
    active transaction is again the paused one, with its number, its
    mutation log, its invalid set and its frame, which reads [open]. *)
Theorem paused_transaction_can_be_restored (fuel : nat) (cs0 cs : list call)
    (rs0 rs : list (outcome value)) (σ σ1 σ2 : Engine) (id : PauseId) :
  run fuel cs0 initial = Some (rs0, σ) →
  pauseTransaction σ = Some (Ret id, σ1) →
  run fuel cs σ1 = Some (rs, σ2) →
  RestoreTransaction id ∉ cs →
  currentTransaction σ2 = None →
  ∃ σ3 t,
    restoreTransaction id σ2 = Some (Ret tt, σ3) ∧
    currentTransaction σ = Some t ∧
    currentTransaction σ3 = Some t ∧
    currentTransactionNumber σ3 = currentTransactionNumber σ ∧
    f_state <$> frames σ3 !! t_frame t = Some FsOpen.
Proof.
  intros Hrun0 Hpause Hrun Hnot Hidle.
  pose proof (run_manager_inv _ _ _ _ _ Hrun0 initial_manager_inv) as Hi.
  pose proof Hi as (((Hw1 & Hw2) & _) & _).
  rewrite pauseTransaction_eq in Hpause.
  destruct (currentTransaction σ) as [t|] eqn:Ht; [|done].
  destruct (Hw1 _ eq_refl) as [Hcur [fo Hfo]%lookup_lt_is_Some].
  rewrite Hfo in Hpause. injection Hpause as <- <-.
  assert (Hi1 : manager_inv (suspended t σ)).
  { apply (exec_manager_inv fuel PauseTransaction σ
             (Ret (VPauseId (length (pausedTransactions σ))))); [|done].
    unfold exec, bind, ret. by rewrite pauseTransaction_eq, Ht, Hfo. }
  pose proof (run_manager_inv _ _ _ _ _ Hrun Hi1) as Hi2.
  assert (Hslot : pausedTransactions σ2 !! length (pausedTransactions σ) = Some (Some t)).
  { eapply run_slot_kept; [done|apply Hi1|done|]. simpl.
    by rewrite list_lookup_middle. }
  destruct Hi2 as (((_ & Hw2') & _) & _ & _ & (_ & Hp2 & _) & _).
  destruct (Hp2 _ _ Hslot) as (Hopen & Hfr & _).
  destruct (fstate_lookup _ _ _ Hfr) as (fo2 & Hfo2 & _).
  exists (resumed (length (pausedTransactions σ)) t σ2), t.
  split_and!; try done.
  - rewrite restoreTransaction_eq. unfold inTransaction.
    rewrite Hidle, Hslot, Hfo2.
    by rewrite bool_decide_eq_false_2 by (by intros ?).
  - simpl. by eapply fstate_alter_eq.
Qed.

Lemma paused_transaction_can_be_restored_witness :
  ∃ σ3 t,
    restoreTransaction 0%nat
      (engine_after 0 [BeginTransaction None None; PauseTransaction;
                       BeginTransaction None None; CommitTransaction])
    = Some (Ret tt, σ3) ∧
    currentTransaction (engine_after 0 [BeginTransaction None None]) = Some t ∧
    currentTransaction σ3 = Some t ∧
    currentTransactionNumber σ3
    = currentTransactionNumber (engine_after 0 [BeginTransaction None None]) ∧
    f_state <$> frames σ3 !! t_frame t = Some FsOpen.
Proof.
  apply (paused_transaction_can_be_restored 0
           [BeginTransaction None None]
           [BeginTransaction None None; CommitTransaction]
           [Ret (VFrame 0%nat)] [Ret (VFrame 1%nat); Ret (VChanged [])]
           (engine_after 0 [BeginTransaction None None])
           (engine_after 0 [BeginTransaction None None; PauseTransaction]));
    try by vm_compute.
  intros H. by repeat (apply elem_of_cons in H as [H|H]; [done|]);
    apply elem_of_nil in H.
Defined.

(** X5.  Pausing the active transaction of a reachable engine and
    restoring it at once brings back the engine as it was, except for one
    more freed slot at the end of the registry of paused transactions. *)
Theorem pause_then_restore_round_trip (fuel : nat) (cs : list call)
    (rs : list (outcome value)) (σ : Engine) (t : Transaction) :
  run fuel cs initial = Some (rs, σ) →
  currentTransaction σ = Some t →
  ∃ σ1,
    pauseTransaction σ = Some (Ret (length (pausedTransactions σ)), σ1) ∧
    restoreTransaction (length (pausedTransactions σ)) σ1
    = Some (Ret tt, set_pausedTransactions (pausedTransactions σ ++ [None]) σ).
Proof.
  intros Hrun Ht.
  pose proof (run_manager_inv _ _ _ _ _ Hrun initial_manager_inv)
    as (((Hw1 & _) & Ho & _) & _ & _ & (Hp1 & _) & _).
  destruct (Hw1 _ Ht) as [Hcur _]. pose proof (Hp1 _ Ht) as Hfr.
  destruct (fstate_lookup _ _ _ Hfr) as (fo & Hfo & Hst).
  exists (suspended t σ). split.
  - by rewrite pauseTransaction_eq, Ht, Hfo.
  - rewrite restoreTransaction_eq. unfold inTransaction. simpl.
    rewrite list_lookup_middle by done.
    rewrite bool_decide_eq_false_2 by (intros Hne; apply Hne; by apply Ho).
    rewrite list_lookup_alter_eq, Hfo. simpl.
    by rewrite <- (resumed_suspended σ t).
Qed.

Lemma pause_then_restore_round_trip_witness :
  ∃ σ1,
    pauseTransaction (engine_after 0 [BeginTransaction None None])
    = Some (Ret 0%nat, σ1) ∧
    restoreTransaction 0%nat σ1
    = Some (Ret tt, set_pausedTransactions [None]
                      (engine_after 0 [BeginTransaction None None])).
Proof.
  apply (pause_then_restore_round_trip 0 [BeginTransaction None None]
           [Ret (VFrame 0%nat)] (engine_after 0 [BeginTransaction None None])
           (mkTransaction 1 [] ∅ 0%nat)); by vm_compute.
Defined.

(** ** The entity calls, call by call *)
Lemma ensureReadable_eq fuel e σ r σ' :
  ensureReadable fuel e σ = Some (r, σ') →
  match entities σ !! e with
  | None => r = Throw TypeError ∧ σ' = σ
  | Some eo =>
      if bool_decide (e_transaction eo ≠ Some (currentTransactionNumber σ))
      then ∃ x, findVisible fuel (states σ) (e_previous eo)
                  (currentTransactionNumber σ) (invalidOf (currentTransaction σ))
                = Some x ∧
                match x with
                | Ret res => r = Ret tt ∧ σ' = refreshed e res σ
                | Throw err => r = Throw err ∧ σ' = σ
                end
      else r = Ret tt ∧ σ' = σ
  end.
Proof.
  intros H. unfold ensureReadable in H.
  unfold bind at 1, readEntity at 1 in H.
  destruct (entities σ !! e) as [eo|] eqn:He; [|by simplify_eq].
  unfold bind at 1, get at 1 in H.
  case_bool_decide as Hd; [|by unfold ret in H; simplify_eq].
  unfold makeReadable in H.
  unfold bind at 1, readEntity at 1 in H. rewrite He in H.
  unfold bind at 1, get at 1 in H. unfold bind at 1, liftP at 1 in H.
  destruct (findVisible _ _ _ _ _) as [[res|err]|] eqn:Hf; [| |done].
  - eexists. split; [done|]. unfold refreshed. clear Hf. mrun. done.
  - eexists. split; [done|]. by simplify_eq.
Qed.

Lemma bindState_eq fuel fields σ :
  exec fuel (BindState fields) σ
  = Some (Ret (VEntity (length (entities σ))), bound fields σ).
Proof.
  unfold bound. munfold; simpl.
  repeat (first [rewrite list_lookup_middle by done | rewrite alter_snoc]; simpl).
  done.
Qed.

Lemma written_lookup_all h current st next n ns r sr :
  h !! r = Some sr →
  ∃ sr', alter (with_max (Some current)) st (linkState next n (h ++ [ns])) !! r
           = Some sr' ∧
         s_fields sr' = s_fields sr ∧ s_min sr' = s_min sr ∧
         s_entity sr' = s_entity sr ∧ s_object sr' = s_object sr ∧
         s_max sr' = (if decide (st = r) then Some current else s_max sr).
Proof.
  intros Hr.
  assert (∃ s1, linkState next n (h ++ [ns]) !! r = Some s1 ∧
                s_fields s1 = s_fields sr ∧ s_min s1 = s_min sr ∧
                s_entity s1 = s_entity sr ∧ s_object s1 = s_object sr ∧
                s_max s1 = s_max sr)
    as (s1 & Hs1 & ? & ? & ? & ? & ?).
  { destruct next as [|nx]; simpl.
    - rewrite (lookup_app_l_Some _ _ _ _ Hr). eauto 10.
    - rewrite list_lookup_alter. case_decide; subst;
        rewrite (lookup_app_l_Some _ _ _ _ Hr); simpl; eauto 10. }
  rewrite list_lookup_alter. case_decide; subst; rewrite Hs1; simpl;
    eexists; split_and!; try done.
Qed.

(** Everything a [makeWritable] that returns has done. *)
Lemma makeWritable_effect fuel e σ σ' :
  chain_inv σ →
  makeWritable fuel e σ = Some (Ret tt, σ') →
  ∃ t eo l1 l2 st s previous,
    let cur := currentTransactionNumber σ in
    let n := length (states σ) in
    let hd := match l1 with [] => Some n | _ => e_previous eo end in
    currentTransaction σ = Some t ∧
    entities σ !! e = Some eo ∧
    chain (states σ) (e_previous eo) (l1 ++ l2) ∧
    st ∈ l1 ++ l2 ∧ states σ !! st = Some s ∧
    (e_transaction eo = Some cur ∧ e_state eo = Some st ∨
     e_transaction eo ≠ Some cur ∧
     findVisible fuel (states σ) (e_previous eo) cur (t_invalid t)
     = Some (Ret (Some st))) ∧
    Forall (λ r, cur < key (states σ) r) l1 ∧
    (∀ r, head l2 = Some r → key (states σ) r ≤ cur) ∧
    length (states σ') = S n ∧
    length (entities σ') = length (entities σ) ∧
    states σ' !! n = Some (newSnapshot cur e previous s) ∧
    (∀ r sr, states σ !! r = Some sr →
       ∃ sr', states σ' !! r = Some sr' ∧
              s_fields sr' = s_fields sr ∧ s_min sr' = s_min sr ∧
              s_entity sr' = s_entity sr ∧ s_object sr' = s_object sr ∧
              s_max sr' = (if decide (st = r) then Some cur else s_max sr)) ∧
    entities σ' !! e = Some (mkEntity (Some cur) hd (Some n)) ∧
    chain (states σ') hd (l1 ++ n :: l2) ∧
    (∀ e' eo', e' ≠ e → entities σ' !! e' = Some eo' →
       entities σ !! e' = Some eo' ∧
       ∃ l', chain (states σ) (e_previous eo') l' ∧
             chain (states σ') (e_previous eo') l' ∧
             ∀ r, r ∈ l' → states σ' !! r = states σ !! r) ∧
    currentTransaction σ' =
      Some (mkTransaction (t_number t) (t_mutated t ++ [n])
              (t_invalid t) (t_frame t)) ∧
    same_manager σ σ'.
Proof.
  intros Hi H.
  assert (∃ eo, entities σ !! e = Some eo) as [eo He].
  { apply makeWritable_result in H as (σ1 & eo1 & _ & _ & _ & _ & _ & Hr & _ & He1 & _).
    destruct (ensureReadable_same_chains _ _ _ _ _ Hr) as [_ Hp].
    specialize (Hp e). rewrite He1 in Hp. destruct (entities σ !! e); [eauto|done]. }
  destruct (Hi _ _ He) as (l & Hc & _ & _ & Ho).
  pose proof H as Hres.
  apply makeWritable_result in Hres
    as (σ1' & _ & _ & _ & _ & _ & t & Hr' & Ht1 & _ & _ & _ & _ & _ & _ & Ht' & _).
  destruct (makeWritable_splice _ _ _ _ _ _ He Hc H) as
    (σ1 & eo1 & st & s & l1 & l2 & previous & Hr & He1 & Hst1 & Hs & -> & Hstates
        & Hents & He' & Hchain & Hall & Hhd & Hsm1 & Hn).
  assert (σ1' = σ1) as -> by congruence. clear Hr'.
  pose proof (ensureReadable_chain_inv _ _ _ _ _ Hr Hi) as Hi1.
  pose proof (ensureReadable_same_manager _ _ _ _ _ Hr) as Hsm0.
  destruct (ensureReadable_same_chains _ _ _ _ _ Hr) as [Hst Hpr].
  assert (Hstl : st ∈ l1 ++ l2).
  { destruct (Hi1 _ _ He1) as (l' & Hc' & Hs' & _).
    specialize (Hpr e). rewrite He1, He in Hpr. simpl in Hpr. injection Hpr as Hpr.
    rewrite Hst, Hpr in Hc'. rewrite (chain_functional _ _ _ _ Hc Hc'). by apply Hs'. }
  pose proof (ensureReadable_eq _ _ _ _ _ Hr) as Heq. rewrite He in Heq.
  assert (currentTransaction σ1 = currentTransaction σ ∧
                  e_transaction eo1 = Some (currentTransactionNumber σ) ∧
                  (e_transaction eo = Some (currentTransactionNumber σ) ∧
                   e_state eo = Some st ∨
                   e_transaction eo ≠ Some (currentTransactionNumber σ) ∧
                   findVisible fuel (states σ) (e_previous eo)
                     (currentTransactionNumber σ) (invalidOf (currentTransaction σ))
                   = Some (Ret (Some st)))) as (Hct & Hetr & Hcase).
  { case_bool_decide as Hd.
    - destruct Heq as ([res|err] & Hf & Hx); [|by destruct Hx].
      destruct Hx as [_ ->]. split; [done|].
      unfold refreshed in He1. simpl in He1.
      rewrite list_lookup_alter_eq, list_lookup_alter_eq, He in He1.
      simpl in He1. injection He1 as <-. simpl in *. subst res.
      split; [done|]. by right.
    - destruct Heq as [_ ->].
      rewrite He in He1. injection He1 as <-. split_and!; [done|done|]. by left. }
  rewrite Hct in Ht1. rewrite Ht1 in Hcase. simpl in Hcase.
  exists t, eo, l1, l2, st, s, previous. cbv zeta.
  split_and!; try done.
  - rewrite Hstates, length_alter.
    destruct (lastOr (OfEntity e) l1); simpl; rewrite ?length_alter, length_app; simpl; lia.
  - rewrite Hents, length_alter.
    assert (length (entities σ1) = length (entities σ)) as <-.
    { clear Hcase. case_bool_decide as Hd.
      - destruct Heq as ([res|err] & Hf & Hx); [|by destruct Hx].
        destruct Hx as [_ ->]. unfold refreshed. simpl. by rewrite !length_alter.
      - by destruct Heq as [_ ->]. }
    destruct (lastOr (OfEntity e) l1); simpl; by rewrite ?length_alter.
  - intros r sr Hsr. rewrite Hstates. by apply written_lookup_all.
  - by rewrite He', Hetr.
  - intros e' eo' Hne He2.
    assert (He1' : entities σ1 !! e' = Some eo').
    { rewrite Hents, list_lookup_alter_ne in He2 by done.
      unfold linkEntity in He2. destruct (lastOr (OfEntity e) l1) eqn:Hlast; [|done].
      apply lastOr_entity in Hlast as ->.
      by rewrite list_lookup_alter_ne in He2. }
    assert (He0 : entities σ !! e' = Some eo').
    { clear Hcase. case_bool_decide as Hd.
      - destruct Heq as ([res|err] & Hf & Hx); [|by destruct Hx].
        destruct Hx as [_ ->]. unfold refreshed in He1'. simpl in He1'.
        by rewrite !list_lookup_alter_ne in He1' by done.
      - by destruct Heq as [_ ->]. }
    split; [done|].
    destruct (Hi1 _ _ He1') as (l' & Hc' & Hs' & _ & Ho').
    rewrite Hst in Hc', Ho'.
    assert (Hsame : ∀ r, r ∈ l' → states σ' !! r = states σ !! r).
    { intros r Hr'. destruct (chain_lookup _ _ _ _ Hc' Hr') as [sr Hsr].
      pose proof (Ho' _ _ Hr' Hsr) as Hor.
      rewrite Hstates. apply unwritten_lookup.
      - intros ->. destruct (chain_lookup _ _ _ _ Hc Hstl) as [s1 Hs1].
        pose proof (Ho _ _ Hstl Hs1). congruence.
      - intros Hnx%lastOr_state.
        assert (Hrl : r ∈ l1 ++ l2) by set_solver.
        pose proof (Ho _ _ Hrl Hsr). congruence.
      - by eapply lookup_lt_Some. }
    exists l'. split_and!; [done| |done].
    eapply chain_ext; [|done]. intros r Hr'. by rewrite Hsame.
  - by rewrite Ht', Hst.
  - by transitivity σ1.
Qed.

Lemma ensureReadable_entity_step fuel e σ r σ' :
  ensureReadable fuel e σ = Some (r, σ') → entity_step fuel σ σ'.
Proof.
  intros H. apply ensureReadable_eq in H.
  destruct (entities σ !! e) as [eo|] eqn:He; [|destruct H as [_ ->]; constructor].
  case_bool_decide; [|destruct H as [_ ->]; constructor].
  destruct H as ([res|err] & Hf & _ & ->); [|constructor].
  by econstructor.
Qed.

Lemma exec_entity_step fuel c σ r σ' :
  chain_inv σ → entity_call c →
  exec fuel c σ = Some (r, σ') → entity_step fuel σ σ'.
Proof.
  intros Hi Hc H. destruct c; try (by destruct Hc).
  - unfold exec, bind, ret in H.
    destruct (ensureReadable fuel entity σ) as [[r1 σ1]|] eqn:Hr; [|done].
    assert (σ' = σ1) as -> by (destruct r1; by simplify_eq/=).
    by eapply ensureReadable_entity_step.
  - unfold exec, bind, ret in H.
    destruct (ensureWritable fuel entity σ) as [[r1 σ1]|] eqn:Hw; [|done].
    assert (σ' = σ1) as -> by (destruct r1; by simplify_eq/=).
    apply ensureWritable_cases in Hw as [->|Hw]; [constructor|].
    destruct r1 as [[]|err].
    + by econstructor.
    + destruct (makeWritable_throws_early _ _ _ _ _ Hi Hw) as [->|[r2 Hr]];
        [constructor|].
      by eapply ensureReadable_entity_step.
  - rewrite bindState_eq in H. injection H as _ <-. constructor.
Qed.

(** ** Mutation logs and stamps *)
Lemma manager_step_objects σ c σ' :
  manager_step σ c σ' → states σ' = states σ ∧ entities σ' = entities σ.
Proof. by destruct 1. Qed.

Lemma manager_step_live σ c σ' t' :
  manager_step σ c σ' → live σ' t' → live σ t' ∨ t_mutated t' = [].
Proof.
  destruct 1 as [c|oc oa Hidle|t Ht|id t Hidle Hid Hopen|c t _ Ht|t fo Ht Hfo].
  - auto.
  - intros [Hc|[j Hj]]; simpl in *.
    + injection Hc as <-. by right.
    + left; right; eauto.
  - intros [Hc|[j Hj]]; simpl in *; [done|].
    apply lookup_app_Some in Hj as [Hj|[_ Hj]]; [left; right; eauto|].
    destruct (j - length (pausedTransactions σ))%nat as [|[|]]; simplify_eq/=.
    left. by left.
  - intros [Hc|[j Hj]]; simpl in *.
    + injection Hc as <-. left; right; eauto.
    + apply list_lookup_insert_Some in Hj as [(_&?&_)|[_ Hj]]; [done|].
      left; right; eauto.
  - intros [Hc|[j Hj]]; simpl in *; [done|]. left; right; eauto.
  - intros [Hc|[j Hj]]; simpl in *; [done|]. left; right; eauto.
Qed.

Lemma manager_step_mutated σ c σ' :
  manager_step σ c σ' → mutated_inv σ → mutated_inv σ'.
Proof.
  intros Hstep Hm t' Hlive r Hr.
  destruct (manager_step_objects _ _ _ Hstep) as [-> ->].
  destruct (manager_step_live _ _ _ _ Hstep Hlive) as [Hl|Hnil].
  - by apply Hm.
  - rewrite Hnil in Hr. by apply elem_of_nil in Hr.
Qed.

Lemma manager_step_stamps σ c σ' :
  manager_step σ c σ' → wf_manager σ → stamps_inv σ → stamps_inv σ'.
Proof.
  intros Hstep [Hw1 _] Hs r s m.
  destruct (manager_step_objects _ _ _ Hstep) as [-> _].
  intros Hr Hm. specialize (Hs _ _ _ Hr Hm).
  destruct Hstep as [c|oc oa Hidle|t Ht|id t Hidle Hid Hopen|c t _ Ht|t fo Ht Hfo];
    simpl; try done.
  - destruct Hs as [?|Hs]; [by left|right].
    destruct (decide (highestTransaction σ + 1 = m)) as [<-|Hne].
    + rewrite lookup_insert_eq. eauto.
    + by rewrite lookup_insert_ne.
  - destruct Hs as [?|Hs]; [by left|right].
    destruct (decide (currentTransactionNumber σ = m)) as [<-|Hne].
    + rewrite lookup_insert_eq. eauto.
    + by rewrite lookup_insert_ne.
  - destruct (Z.gtb_spec (currentTransactionNumber σ) (highestCommittedTransaction σ));
      (destruct Hs as [?|Hs]; [left; lia|]);
      (destruct (decide (currentTransactionNumber σ = m)) as [<-|Hne];
       [left; lia|right; by rewrite lookup_delete_ne]).
Qed.

Lemma refreshed_live e res σ t : live (refreshed e res σ) t ↔ live σ t.
Proof. done. Qed.

Lemma bound_live fields σ t : live (bound fields σ) t ↔ live σ t.
Proof. done. Qed.

Lemma current_number_stamp σ :
  manager_inv σ →
  currentTransactionNumber σ ≤ highestCommittedTransaction σ ∨
  is_Some (openTransactions σ !! currentTransactionNumber σ).
Proof.
  intros (((Hw1 & _) & Ho & _) & _ & (_ & _ & Hn2) & _).
  destruct (currentTransaction σ) as [t|] eqn:Ht.
  - right. destruct (Hw1 _ eq_refl) as [-> _]. rewrite (Ho _ eq_refl). eauto.
  - left. rewrite Hn2 by done. lia.
Qed.

Lemma entity_step_mutated fuel σ σ' :
  entity_step fuel σ σ' → wf_manager σ → chain_inv σ →
  mutated_inv σ → mutated_inv σ'.
Proof.
  intros Hstep [Hw1 _] Hi Hm.
  destruct Hstep as [|e eo res He Hf|e σ' Hw|fields].
  - done.
  - intros t Hlive r Hr. destruct (Hm t Hlive r Hr) as (s & e' & Hs & He' & Hmin & Hent).
    exists s, e'. split_and!; try done. simpl.
    apply lookup_lt_is_Some. rewrite !length_alter. by apply lookup_lt_is_Some.
  - destruct (makeWritable_effect _ _ _ _ Hi Hw)
      as (t & eo & l1 & l2 & st & s & previous & Ht & He & Hc & Hstl & Hs & _ & _ & _
          & Hlen & Hlene & Hn & Hold & He' & _ & _ & Ht' & Hsm).
    cbv zeta in *.
    assert (Hent : ∀ e', is_Some (entities σ !! e') → is_Some (entities σ' !! e')).
    { intros e'. rewrite !lookup_lt_is_Some. by rewrite Hlene. }
    assert (Holdm : ∀ t0 r, live σ t0 → r ∈ t_mutated t0 →
              ∃ s e, states σ' !! r = Some s ∧ s_entity s = Some e ∧
                     s_min s = Some (t_number t0) ∧ is_Some (entities σ' !! e)).
    { intros t0 r Hl0 Hr0. destruct (Hm _ Hl0 _ Hr0) as (s0 & e0 & Hs0 & He0 & Hm0 & Hx).
      destruct (Hold _ _ Hs0) as (s0' & Hs0' & _ & Hmin' & Hent' & _).
      exists s0', e0. split_and!; [done|congruence|congruence|by apply Hent]. }
    intros t' [Hc'|[j Hj]] r Hr.
    + rewrite Ht' in Hc'. injection Hc' as <-. simpl in *.
      apply elem_of_app in Hr as [Hr|Hr%list_elem_of_singleton].
      * apply (Holdm t); [by left|done].
      * subst r. eexists _, e. split_and!; [exact Hn|done| |by rewrite He'].
        simpl. f_equal. by apply Hw1.
    + destruct Hsm as (_&_&_&_&Hps&_). rewrite Hps in Hj.
      apply (Holdm t'); [right; eauto|done].
  - intros t Hlive r Hr. destruct (Hm t Hlive r Hr) as (s & e' & Hs & He' & Hmin & Hent).
    exists s, e'. split_and!; try done; simpl.
    + by apply lookup_app_l_Some.
    + apply lookup_lt_is_Some. rewrite length_app.
      apply lookup_lt_is_Some in Hent. lia.
Qed.

Lemma entity_step_stamps fuel σ σ' :
  entity_step fuel σ σ' → manager_inv σ → chain_inv σ →
  stamps_inv σ → stamps_inv σ'.
Proof.
  intros Hstep Hmi Hi Hs.
  pose proof (current_number_stamp _ Hmi) as Hcur.
  destruct Hstep as [|e eo res He Hf|e σ' Hw|fields].
  - done.
  - done.
  - destruct (makeWritable_effect _ _ _ _ Hi Hw)
      as (t & eo & l1 & l2 & st & s & previous & Ht & He & Hc & Hstl & Hst & _ & _ & _
          & Hlen & Hlene & Hn & Hold & He' & _ & _ & Ht' & Hsm).
    cbv zeta in *.
    destruct Hsm as (_&HhC&_&Hop&_).
    intros r sr m Hr Hm. rewrite HhC, Hop.
    destruct (decide (r < length (states σ))%nat) as [Hlt|Hge].
    + destruct (lookup_lt_is_Some_2 _ _ Hlt) as [s0 Hs0].
      destruct (Hold _ _ Hs0) as (s0' & Hs0' & _ & Hmin' & _ & _ & Hmax').
      rewrite Hs0' in Hr. injection Hr as <-.
      destruct Hm as [Hm|Hm].
      * eapply Hs; [done|]. left. congruence.
      * rewrite Hmax' in Hm. case_decide; [by injection Hm as <-|].
        eapply Hs; [done|]. by right.
    + assert (r = length (states σ)) as ->.
      { apply lookup_lt_Some in Hr. lia. }
      rewrite Hn in Hr. injection Hr as <-. simpl in Hm.
      destruct Hm as [[= <-]|?]; done.
  - intros r sr m. simpl. intros [Hr|[_ Hr]]%lookup_app_Some Hm.
    + by eapply Hs.
    + destruct (r - length (states σ))%nat as [|[|]]; simplify_eq/=.
      destruct Hm as [[= <-]|?]; done.
Qed.

(** ** The invariant of the engine *)
Lemma exec_engine_inv fuel c σ r σ' :
  exec fuel c σ = Some (r, σ') → engine_inv σ → engine_inv σ'.
Proof.
  intros H (Hm & Hc & Hmu & Hs).
  pose proof (exec_manager_inv _ _ _ _ _ H Hm) as Hm'.
  pose proof (exec_chain_inv _ _ _ _ _ H Hc) as Hc'.
  assert (entity_call c ∨ ¬ entity_call c) as [Hec|Hec]
    by (destruct c; simpl; auto).
  - pose proof (exec_entity_step _ _ _ _ _ Hc Hec H) as Hstep.
    split_and!; [done|done| |].
    + eapply entity_step_mutated; [done|apply Hm|done|done].
    + by eapply entity_step_stamps.
  - pose proof (exec_manager_step _ _ _ _ _ (proj1 (proj1 Hm)) Hec H) as Hstep.
    split_and!; [done|done| |].
    + by eapply manager_step_mutated.
    + eapply manager_step_stamps; [done|apply Hm|done].
Qed.


Lemma initial_engine_inv : engine_inv initial.
Proof.
  split_and!.
  - apply initial_manager_inv.
  - apply initial_chain_inv.
  - intros t [Hc|[id Hid]]; simpl in *; [done|]. by rewrite lookup_nil in Hid.
  - intros r s m. simpl. by rewrite lookup_nil.
Qed.


(** ** Chains are short *)
Lemma NoDup_bounded_length (l : list nat) n :
  NoDup l → (∀ r, r ∈ l → (r < n)%nat) → (length l ≤ n)%nat.
Proof.
  intros Hnd Hlt.
  assert (l ⊆+ seq 0 n) as Hsub.
  { apply NoDup_submseteq; [done|]. intros r Hr. apply elem_of_seq.
    specialize (Hlt _ Hr). lia. }
  apply submseteq_length in Hsub. by rewrite length_seq in Hsub.
Qed.

Lemma chain_length h o l : chain h o l → (length l ≤ length h)%nat.
Proof.
  intros Hc. apply NoDup_bounded_length; [by eapply chain_NoDup|].
  intros r Hr. destruct (chain_lookup _ _ _ _ Hc Hr) as [s Hs].
  by eapply lookup_lt_Some.
Qed.

Lemma chain_inv_head σ e eo :
  chain_inv σ → entities σ !! e = Some eo →
  ∃ r l, e_previous eo = Some r ∧ chain (states σ) (Some r) (r :: l).
Proof.
  intros Hi He. destruct (Hi _ _ He) as (l & Hc & _ & (r & s & Hr & _) & _).
  destruct l as [|r0 l]; [by apply elem_of_nil in Hr|].
  pose proof Hc as Hc'. destruct Hc' as [Hp _]. exists r0, l. by rewrite <- Hp.
Qed.

(** ** Resolution from two viewpoints *)
Lemma findVisible_loop_ext fuel h a I a' I' : ∀ o,
  (∀ r s, h !! r = Some s → skipped s a I = skipped s a' I') →
  findVisible_loop fuel h o a I = findVisible_loop fuel h o a' I'.
Proof.
  intros o Hsk. revert o. induction fuel as [|fuel IH]; intros o; simpl; [done|].
  destruct o as [r|]; [|done]. destruct (h !! r) as [s|] eqn:Hs; [|done].
  rewrite (Hsk _ _ Hs). by rewrite IH.
Qed.

Lemma findVisible_ext fuel h a I a' I' o :
  (∀ r s, h !! r = Some s → skipped s a I = skipped s a' I') →
  findVisible fuel h o a I = findVisible fuel h o a' I'.
Proof.
  intros Hsk. unfold findVisible. destruct o as [r|]; [|done].
  destruct (h !! r) as [s|] eqn:Hs; [|done].
  rewrite (Hsk _ _ Hs). by rewrite (findVisible_loop_ext _ _ _ _ _ _ _ Hsk).
Qed.

(** The baseline viewpoint of the active transaction and the viewpoint of
    the commit check judge a stamp alike when no transaction that was
    pending at its start has left the lifecycle table and the watermark is
    below its number. *)
Lemma viewpoints_agree σ t m :
  manager_inv σ → currentTransaction σ = Some t →
  highestCommittedTransaction σ < t_number t →
  (∀ k, t_invalid t !! k = Some true → is_Some (openTransactions σ !! k)) →
  m ≤ highestCommittedTransaction σ ∨ is_Some (openTransactions σ !! m) →
  isValid (Some m) (t_number t - 1) (t_invalid t)
  = isValid (Some m) (highestCommittedTransaction σ) (currentInvalid σ).
Proof.
  intros (Hl & Htab & _ & _ & Hinv) Ht Hhc Hkept Hm.
  destruct (Hinv t (or_introl Ht)) as [Hi1 Hi2].
  unfold isValid. rewrite (currentInvalid_lookup _ _ Htab).
  destruct (openTransactions σ !! m) as [st|] eqn:Hst; simpl.
  - destruct (Z.leb_spec m (t_number t - 1)).
    + rewrite (Hi2 m) by (by eauto || lia). simpl. by destruct (m <=? _).
    + by destruct (m <=? _).
  - destruct Hm as [Hm|[? ?]]; [|done].
    rewrite (proj2 (Z.leb_le m (t_number t - 1))) by lia.
    rewrite (proj2 (Z.leb_le m _)) by lia.
    destruct (t_invalid t !! m) as [b|] eqn:Hb; [|done].
    destruct (Hi1 _ _ Hb) as [-> _]. destruct (Hkept _ Hb) as [? ?]. congruence.
Qed.

Lemma skipped_agree σ t r s :
  engine_inv σ → currentTransaction σ = Some t →
  highestCommittedTransaction σ < t_number t →
  (∀ k, t_invalid t !! k = Some true → is_Some (openTransactions σ !! k)) →
  states σ !! r = Some s →
  skipped s (t_number t - 1) (t_invalid t)
  = skipped s (highestCommittedTransaction σ) (currentInvalid σ).
Proof.
  intros (Hm & _ & _ & Hs) Ht Hhc Hkept Hr. unfold skipped.
  assert (Hv : ∀ o, (o = s_min s ∨ o = s_max s) →
    isValid o (t_number t - 1) (t_invalid t)
    = isValid o (highestCommittedTransaction σ) (currentInvalid σ)).
  { intros [m|] Ho; [|done]. eapply viewpoints_agree; try done.
    eapply Hs; [done|]. destruct Ho as [->| ->]; auto. }
  by rewrite !Hv by auto.
Qed.



Lemma manager_step_live_number σ c σ' t' :
  manager_step σ c σ' → live σ' t' →
  live σ t' ∨ t_number t' = highestTransaction σ + 1.
Proof.
  destruct 1 as [c|oc oa Hidle|t Ht|id t Hidle Hid Hopen|c t _ Ht|t fo Ht Hfo].
  - auto.
  - intros [Hc|[j Hj]]; simpl in *.
    + injection Hc as <-. by right.
    + left; right; eauto.
  - intros [Hc|[j Hj]]; simpl in *; [done|].
    apply lookup_app_Some in Hj as [Hj|[_ Hj]]; [left; right; eauto|].
    destruct (j - length (pausedTransactions σ))%nat as [|[|]]; simplify_eq/=.
    left. by left.
  - intros [Hc|[j Hj]]; simpl in *.
    + injection Hc as <-. left; right; eauto.
    + apply list_lookup_insert_Some in Hj as [(_&?&_)|[_ Hj]]; [done|].
      left; right; eauto.
  - intros [Hc|[j Hj]]; simpl in *; [done|]. left; right; eauto.
  - intros [Hc|[j Hj]]; simpl in *; [done|]. left; right; eauto.
Qed.

(** The invalid set of a live transaction is the one it was given. *)
Lemma exec_live_invalid fuel c σ r σ' t' :
  exec fuel c σ = Some (r, σ') → wf_manager σ → live σ' t' →
  (∃ t, live σ t ∧ t_number t = t_number t' ∧ t_invalid t = t_invalid t') ∨
  t_number t' = highestTransaction σ + 1.
Proof.
  intros H Hwf Hlive.
  assert (entity_call c ∨ ¬ entity_call c) as [Hec|Hec]
    by (destruct c; simpl; auto).
  - apply exec_same_manager in H; [|done].
    destruct (same_manager_live _ _ _ H Hlive) as (t & ? & ? & ? & _). eauto.
  - pose proof (exec_manager_step _ _ _ _ _ Hwf Hec H) as Hstep.
    destruct (manager_step_live_number _ _ _ _ Hstep Hlive); eauto.
Qed.

Lemma exec_highest_le fuel c σ r σ' :
  exec fuel c σ = Some (r, σ') → wf_manager σ →
  highestTransaction σ ≤ highestTransaction σ'.
Proof.
  intros H Hwf.
  assert (entity_call c ∨ ¬ entity_call c) as [Hec|Hec]
    by (destruct c; simpl; auto).
  - apply exec_same_manager in H; [|done]. destruct H as (->&_). lia.
  - pose proof (exec_manager_step _ _ _ _ _ Hwf Hec H) as Hstep.
    destruct Hstep; simpl; lia.
Qed.


(** ** Commit without a conflict *)



(** ** What [findVisible] returns *)
Lemma findVisible_loop_sound h a I : ∀ l o fuel x,
  chain h o l → findVisible_loop fuel h o a I = Some x →
  x = Ret (firstVisible h a I l).
Proof.
  induction l as [|r l IH]; intros o fuel x Hc Hf; simpl in *.
  - subst o. destruct fuel; simpl in Hf; by simplify_eq.
  - destruct Hc as [-> Hc]. destruct fuel as [|fuel]; [done|]. simpl in Hf.
    unfold skippedAt. destruct (h !! r) as [s|] eqn:Hr; [|done].
    destruct (skipped s a I); [by eapply IH|by simplify_eq].
Qed.

Lemma findVisible_sound h a I l r fuel x :
  chain h (Some r) l → findVisible fuel h (Some r) a I = Some x →
  x = Ret (firstVisible h a I l).
Proof.
  intros Hc Hf. destruct l as [|r' l]; [done|].
  simpl in Hc. destruct Hc as [[= <-] Hc]. unfold findVisible in Hf. simpl.
  unfold skippedAt. destruct (h !! r) as [s|] eqn:Hr; [|done].
  destruct (skipped s a I); [by eapply findVisible_loop_sound|by simplify_eq].
Qed.

Lemma firstVisible_unskipped h a I l v :
  firstVisible h a I l = Some v →
  v ∈ l ∧ ∃ s, h !! v = Some s ∧ skipped s a I = false.
Proof.
  induction l as [|r l IH]; simpl; [done|].
  unfold skippedAt. destruct (h !! r) as [s|] eqn:Hr.
  - destruct (skipped s a I) eqn:Hs.
    + intros [? ?]%IH. split; [by right|done].
    + intros [= <-]. split; [by left|eauto].
  - intros [? ?]%IH. split; [by right|done].
Qed.

Lemma skipped_false_min s a I :
  skipped s a I = false → ∃ m, s_min s = Some m ∧ m ≤ a.
Proof.
  unfold skipped. intros [Hmin _]%orb_false_iff.
  apply negb_false_iff in Hmin. unfold isValid in Hmin.
  destruct (s_min s) as [m|]; [|done]. exists m. split; [done|].
  destruct (Z.leb_spec m a); [done|discriminate].
Qed.

(** ** Order and retirement are kept *)
Lemma descending_ext h h' l :
  (∀ r, r ∈ l → key h' r = key h r) → descending h l → descending h' l.
Proof.
  intros Hk. unfold descending.
  assert (key h' <$> l = key h <$> l) as ->; [|done].
  apply list_fmap_ext. intros i r Hr. apply Hk. by eapply list_elem_of_lookup_2.
Qed.

Lemma lookup_spliced {A} (l1 l2 : list A) n i y :
  (l1 ++ l2) !! i = Some y →
  (l1 ++ n :: l2) !! (if decide (i < length l1)%nat then i else S i) = Some y.
Proof.
  intros Hi. case_decide as Hlt.
  - rewrite lookup_app_l in Hi |- * by done. done.
  - rewrite lookup_app_r in Hi |- * by lia.
    replace (S i - length l1)%nat with (S (i - length l1)) by lia. done.
Qed.

Lemma lookup_unspliced {A} (l1 l2 : list A) n j x :
  (l1 ++ n :: l2) !! j = Some x → j ≠ length l1 →
  ∃ j0, (l1 ++ l2) !! j0 = Some x ∧
        j = (if decide (j0 < length l1)%nat then j0 else S j0).
Proof.
  intros Hj Hne. destruct (decide (j < length l1)%nat) as [Hlt|Hge].
  - exists j. rewrite lookup_app_l in Hj |- * by done.
    split; [done|]. by rewrite decide_True.
  - exists (j - 1)%nat. rewrite lookup_app_r in Hj |- * by lia.
    split.
    + replace (j - length l1)%nat with (S (j - 1 - length l1)) in Hj by lia. done.
    + rewrite decide_False by lia. lia.
Qed.

Lemma key_min h r s m : h !! r = Some s → s_min s = Some m → key h r = m.
Proof. intros Hr Hm. unfold key. by rewrite Hr; simpl; rewrite Hm. Qed.

Lemma findVisible_unskipped fuel σ e eo a I st :
  chain_inv σ → entities σ !! e = Some eo →
  findVisible fuel (states σ) (e_previous eo) a I = Some (Ret (Some st)) →
  ∃ s, states σ !! st = Some s ∧ skipped s a I = false.
Proof.
  intros Hi He Hf.
  destruct (chain_inv_head _ _ _ Hi He) as (p & l0 & Hp & Hch).
  rewrite Hp in Hf. apply (findVisible_sound _ _ _ _ _ _ _ Hch) in Hf.
  assert (Hfv : firstVisible (states σ) a I (p :: l0) = Some st) by congruence.
  by apply firstVisible_unskipped in Hfv as (_ & Hx).
Qed.

Lemma manager_step_order σ c σ' :
  manager_step σ c σ' → order_inv σ → order_inv σ'.
Proof.
  intros Hstep Ho e eo l.
  destruct (manager_step_objects _ _ _ Hstep) as [-> ->]. apply Ho.
Qed.

Lemma entity_step_order fuel σ σ' :
  entity_step fuel σ σ' → chain_inv σ → order_inv σ → order_inv σ'.
Proof.
  intros Hstep Hi Ho.
  destruct Hstep as [|e eo res He Hf|e σ' Hw|fields].
  - done.
  - (* the cache is refreshed *)
    intros e' eo' l. simpl. destruct (decide (e' = e)) as [->|Hne].
    + rewrite !list_lookup_alter_eq, He. simpl. intros [= <-]. simpl. intros Hc.
      destruct (Ho _ _ _ He Hc) as (Hd & Hmin & Hret & _).
      split_and!; try done.
      intros c st s [= <-] -> Hs.
      destruct (findVisible_unskipped _ _ _ _ _ _ _ Hi He Hf) as (s' & Hs' & Hsk).
      rewrite Hs in Hs'. injection Hs' as <-. by eapply skipped_false_min.
    + rewrite !list_lookup_alter_ne by done. apply Ho.
  - (* a snapshot is written *)
    destruct (makeWritable_effect _ _ _ _ Hi Hw)
      as (t & eo & l1 & l2 & st & s & previous & Ht & He & Hc & Hstl & Hs & Hcase
          & Hall & Hhd & Hlen & Hlene & Hn & Hold & He' & Hchain & Hoth & Ht' & Hsm).
    cbv zeta in *.
    destruct (Ho _ _ _ He Hc) as (Hd & Hmin & Hret & Hcache).
    assert (Hkst : key (states σ) st ≤ currentTransactionNumber σ).
    { destruct Hcase as [[Htr Hst]|[_ Hf]].
      - destruct (Hcache _ _ _ Htr Hst Hs) as (m & Hm & Hle).
        by rewrite (key_min _ _ _ _ Hs Hm).
      - destruct (findVisible_unskipped _ _ _ _ _ _ _ Hi He Hf) as (s' & Hs' & Hsk).
        rewrite Hs in Hs'. injection Hs' as <-.
        destruct (skipped_false_min _ _ _ Hsk) as (m & Hm & Hle).
        by rewrite (key_min _ _ _ _ Hs Hm). }
    assert (Hst2 : st ∈ l2).
    { apply elem_of_app in Hstl as [Hst1|?]; [|done].
      rewrite Forall_forall in Hall. specialize (Hall _ Hst1). lia. }
    assert (Hkey : ∀ r, r ∈ l1 ++ l2 → key (states σ') r = key (states σ) r).
    { intros r Hr. destruct (chain_lookup _ _ _ _ Hc Hr) as [sr Hsr].
      destruct (Hold _ _ Hsr) as (sr' & Hsr' & _ & Hm & _).
      unfold key. by rewrite Hsr, Hsr'; simpl; rewrite Hm. }
    assert (Hnl : length (states σ) ∉ l1 ++ l2).
    { intros Hin. destruct (chain_lookup _ _ _ _ Hc Hin) as [sr Hsr].
      apply lookup_lt_Some in Hsr. lia. }
    intros e' eo' l He2 Hc2. destruct (decide (e' = e)) as [->|Hne].
    + rewrite He' in He2. injection He2 as <-. simpl in *.
      assert (l = l1 ++ length (states σ) :: l2) as ->
        by (by eapply chain_functional).
      split_and!.
      * eapply descending_splice; [exact Hd|exact Hkey| |done|done].
        unfold key. by rewrite Hn.
      * intros r [Hr|[->|Hr]%elem_of_cons]%elem_of_app.
        -- destruct (Hmin r) as (sr & m & Hsr & Hm); [set_solver|].
           destruct (Hold _ _ Hsr) as (sr' & Hsr' & _ & Hm' & _).
           exists sr', m. split; [done|congruence].
        -- eexists _, _. split; [exact Hn|done].
        -- destruct (Hmin r) as (sr & m & Hsr & Hm); [set_solver|].
           destruct (Hold _ _ Hsr) as (sr' & Hsr' & _ & Hm' & _).
           exists sr', m. split; [done|congruence].
      * intros j x sx k Hj Hsx Hk.
        destruct (decide (j = length l1)) as [->|Hjne].
        { rewrite list_lookup_middle in Hj by done. injection Hj as <-.
          rewrite Hn in Hsx. by injection Hsx as <-. }
        destruct (lookup_unspliced _ _ _ _ _ Hj Hjne) as (j0 & Hj0 & Hjj).
        assert (Hx : x ∈ l1 ++ l2) by (by eapply list_elem_of_lookup_2).
        destruct (chain_lookup _ _ _ _ Hc Hx) as [sx0 Hsx0].
        destruct (Hold _ _ Hsx0) as (sx' & Hsx' & _ & _ & _ & _ & Hmax').
        rewrite Hsx in Hsx'. injection Hsx' as <-. rewrite Hmax' in Hk.
        case_decide as Hstx.
        -- injection Hk as <-. subst x.
           exists (length l1), (length (states σ)). eexists.
           split_and!; [|by rewrite list_lookup_middle|exact Hn|done].
           assert (¬ (j0 < length l1)%nat).
           { intros Hlt. rewrite lookup_app_l in Hj0 by done.
             apply list_elem_of_lookup_2 in Hj0.
             rewrite Forall_forall in Hall. specialize (Hall _ Hj0). lia. }
           rewrite decide_False in Hjj by done. lia.
        -- destruct (Hret _ _ _ _ Hj0 Hsx0 Hk) as (i0 & y & sy & Hlt & Hi0 & Hsy & Hmy).
           destruct (Hold _ _ Hsy) as (sy' & Hsy' & _ & Hmy' & _).
           eexists _, y, sy'. split_and!; [|by apply lookup_spliced|done|congruence].
           repeat case_decide; lia.
      * intros c st' s' [= <-] [= <-] Hs'. rewrite Hn in Hs'.
        injection Hs' as <-. simpl. eexists. split; [done|]. lia.
    + destruct (Hoth _ _ Hne He2) as (He0 & l' & Hc0 & Hc' & Hsame).
      assert (l = l') as -> by (by eapply chain_functional).
      destruct (Ho _ _ _ He0 Hc0) as (Hd' & Hmin' & Hret' & Hcache').
      split_and!.
      * eapply descending_ext; [|done]. intros r Hr. unfold key.
        by rewrite Hsame.
      * intros r Hr. rewrite Hsame by done. by apply Hmin'.
      * intros j x sx k Hj Hsx Hk.
        rewrite Hsame in Hsx by (by eapply list_elem_of_lookup_2).
        destruct (Hret' _ _ _ _ Hj Hsx Hk) as (i & y & sy & Hlt & Hi' & Hsy & Hmy).
        exists i, y, sy. split_and!; try done.
        rewrite Hsame; [done|]. by eapply list_elem_of_lookup_2.
      * intros c st' s' Hc1 Hst' Hs'.
        destruct (Hi _ _ He0) as (l0 & Hc00 & Hin & _).
        assert (l0 = l') as -> by (by eapply chain_functional).
        rewrite Hsame in Hs' by (by apply Hin). by eapply Hcache'.
  - (* a new entity is bound *)
    intros e' eo' l. simpl.
    intros [He'|[Hlen He']]%lookup_app_Some Hc.
    + destruct (Hi _ _ He') as (l0 & Hc0 & Hin & _).
      pose proof (chain_alloc _ _ _
        (mkState (Some (currentTransactionNumber σ)) None None None
           (Some (length (entities σ))) fields) Hc0) as Hc1.
      assert (l = l0) as -> by (by eapply chain_functional).
      destruct (Ho _ _ _ He' Hc0) as (Hd & Hmin & Hret & Hcache).
      assert (Hlk : ∀ r, r ∈ l0 →
        (states σ ++ [mkState (Some (currentTransactionNumber σ)) None None None
                        (Some (length (entities σ))) fields]) !! r = states σ !! r).
      { intros r Hr. destruct (chain_lookup _ _ _ _ Hc0 Hr) as [sr Hsr].
        by rewrite (lookup_app_l_Some _ _ _ _ Hsr). }
      split_and!.
      * eapply descending_ext; [|done]. intros r Hr. unfold key. by rewrite Hlk.
      * intros r Hr. rewrite Hlk by done. by apply Hmin.
      * intros j x sx k Hj Hsx Hk.
        rewrite Hlk in Hsx by (by eapply list_elem_of_lookup_2).
        destruct (Hret _ _ _ _ Hj Hsx Hk) as (i & y & sy & Hlt & Hi' & Hsy & Hmy).
        exists i, y, sy. split_and!; try done.
        rewrite Hlk; [done|]. by eapply list_elem_of_lookup_2.
      * intros c st' s' Hc' Hst' Hs'.
        rewrite Hlk in Hs' by (by apply Hin). by eapply Hcache.
    + destruct (e' - length (entities σ))%nat as [|[|]]; simplify_eq/=.
      destruct l as [|r l]; [done|]. simpl in Hc. destruct Hc as [[= <-] Hc].
      rewrite list_lookup_middle in Hc by done. simpl in Hc.
      destruct l as [|r' l]; [|by destruct Hc].
      split_and!.
      * unfold descending. simpl. repeat constructor.
      * intros r ->%list_elem_of_singleton.
        rewrite list_lookup_middle by done. eauto.
      * intros [|j] x sx k Hj Hsx Hk; [|done]. injection Hj as <-.
        rewrite list_lookup_middle in Hsx by done. by injection Hsx as <-.
      * intros c st s [= <-] [= <-] Hs.
        rewrite list_lookup_middle in Hs by done. injection Hs as <-.
        simpl. eexists. split; [done|]. lia.
Qed.

(** ** Resolution by creation stamps alone *)
Lemma firstVisible_firstValid h a I : ∀ l pre,
  (∀ y, y ∈ pre → isValid (h !! y ≫= s_min) a I = false) →
  (∀ j x s k, (pre ++ l) !! j = Some x → h !! x = Some s → s_max s = Some k →
     ∃ i y sy, (i < j)%nat ∧ (pre ++ l) !! i = Some y ∧
               h !! y = Some sy ∧ s_min sy = Some k) →
  (∀ r, r ∈ l → is_Some (h !! r)) →
  firstVisible h a I l = firstValid h a I l.
Proof.
  induction l as [|x l IH]; intros pre Hpre Hret Hin; simpl; [done|].
  destruct (Hin x) as [s Hs]; [by left|].
  unfold skippedAt. rewrite Hs. simpl. unfold skipped.
  destruct (isValid (s_min s) a I) eqn:Hmin; simpl.
  - destruct (isValid (s_max s) a I) eqn:Hmax; [|done]. exfalso.
    destruct (s_max s) as [k|] eqn:Hk; [|done].
    destruct (Hret (length pre) x s k) as (i & y & sy & Hlt & Hi & Hsy & Hmy);
      [by rewrite list_lookup_middle|done|done|].
    rewrite lookup_app_l in Hi by done.
    apply list_elem_of_lookup_2 in Hi. specialize (Hpre _ Hi).
    rewrite Hsy in Hpre. simpl in Hpre. congruence.
  - apply (IH (pre ++ [x])).
    + intros y [Hy|Hy%list_elem_of_singleton]%elem_of_app; [by apply Hpre|].
      subst y. by rewrite Hs.
    + rewrite <- app_assoc. apply Hret.
    + intros r Hr. apply Hin. by right.
Qed.

Lemma chain_firstVisible σ e eo l a I :
  order_inv σ → entities σ !! e = Some eo →
  chain (states σ) (e_previous eo) l →
  firstVisible (states σ) a I l = firstValid (states σ) a I l.
Proof.
  intros Ho He Hc. destruct (Ho _ _ _ He Hc) as (_ & _ & Hret & _).
  apply (firstVisible_firstValid _ _ _ _ []); [by intros y ?%elem_of_nil|done|].
  intros r Hr. by eapply chain_lookup.
Qed.

(** What [findVisible] returns on the chain of an entity, if it returns. *)
Lemma resolution_sound fuel σ e eo l a I x :
  chain_inv σ → order_inv σ → entities σ !! e = Some eo →
  chain (states σ) (e_previous eo) l →
  findVisible fuel (states σ) (e_previous eo) a I = Some x →
  x = Ret (firstValid (states σ) a I l).
Proof.
  intros Hi Ho He Hc Hf.
  destruct (chain_inv_head _ _ _ Hi He) as (p & l0 & Hp & Hch).
  rewrite Hp in Hc, Hf.
  assert (l = p :: l0) as -> by (by eapply chain_functional).
  rewrite (findVisible_sound _ _ _ _ _ _ _ Hch Hf). f_equal.
  rewrite <- Hp in Hch. by eapply chain_firstVisible.
Qed.

(** ** Reachable engines are sound *)
Lemma current_number_le σ :
  manager_inv σ → currentTransactionNumber σ ≤ highestTransaction σ.
Proof.
  intros (((Hw1 & _) & Ho & Hh) & _ & (_ & Hn1 & Hn2) & _).
  destruct (currentTransaction σ) as [t|] eqn:Ht.
  - destruct (Hw1 _ eq_refl) as [-> _]. apply Hh. rewrite (Ho _ eq_refl). eauto.
  - rewrite Hn2 by done. lia.
Qed.

Lemma manager_step_cache σ c σ' :
  manager_step σ c σ' → cache_inv σ → cache_inv σ'.
Proof.
  intros Hstep Hc e eo x.
  destruct (manager_step_objects _ _ _ Hstep) as [_ ->].
  intros He Hx. specialize (Hc _ _ _ He Hx).
  destruct Hstep; simpl; lia.
Qed.

Lemma entity_step_cache fuel σ σ' :
  entity_step fuel σ σ' → manager_inv σ → chain_inv σ →
  cache_inv σ → cache_inv σ'.
Proof.
  intros Hstep Hm Hi Hc. pose proof (current_number_le _ Hm) as Hle.
  destruct Hstep as [|e eo res He Hf|e σ' Hw|fields].
  - done.
  - intros e' eo' x. simpl. destruct (decide (e' = e)) as [->|Hne].
    + rewrite !list_lookup_alter_eq, He. simpl. by intros [= <-] [= <-].
    + rewrite !list_lookup_alter_ne by done. apply Hc.
  - destruct (makeWritable_effect _ _ _ _ Hi Hw)
      as (t & eo & l1 & l2 & st & s & previous & _ & _ & _ & _ & _ & _ & _ & _
          & _ & _ & _ & _ & He' & _ & Hoth & _ & Hsm).
    cbv zeta in *. destruct Hsm as (HhT & _).
    intros e' eo' x He2 Hx. rewrite HhT.
    destruct (decide (e' = e)) as [->|Hne].
    + rewrite He' in He2. injection He2 as <-. simpl in Hx. by injection Hx as <-.
    + destruct (Hoth _ _ Hne He2) as [He0 _]. by eapply Hc.
  - intros e' eo' x. simpl. intros [He'|[_ He']]%lookup_app_Some.
    + intros Hx. by eapply Hc.
    + destruct (e' - length (entities σ))%nat as [|[|]]; simplify_eq/=.
      by intros [= <-].
Qed.

Lemma manager_step_watermark_free σ c σ' :
  manager_step σ c σ' → manager_inv σ → watermark_free σ → watermark_free σ'.
Proof.
  intros Hstep (((Hw1 & _) & Ho & _) & _ & (_ & Hn1 & _) & _) Hwm.
  unfold watermark_free in *.
  destruct Hstep as [c|oc oa Hidle|t Ht|id t Hidle Hid Hopen|c t _ Ht|t fo Ht Hfo];
    simpl; try done.
  - rewrite lookup_insert_ne by lia. done.
  - rewrite lookup_insert_ne; [done|]. intros Heq.
    destruct (Hw1 _ Ht) as [Hcur _]. specialize (Ho _ Ht). congruence.
  - destruct (Z.gtb_spec (currentTransactionNumber σ) (highestCommittedTransaction σ)).
    + by rewrite lookup_delete_eq.
    + destruct (decide (currentTransactionNumber σ = highestCommittedTransaction σ))
        as [->|Hne]; [by rewrite lookup_delete_eq|by rewrite lookup_delete_ne].
Qed.

(** The live transaction with the current number is the active one. *)
Lemma live_current σ t :
  manager_inv σ → watermark_free σ → live σ t →
  t_number t = currentTransactionNumber σ →
  currentTransaction σ = Some t.
Proof.
  intros (((Hw1 & _) & _) & _ & (_ & _ & Hn2) & (_ & Hp2 & _) & _) Hwm
    [Hc|[id Hid]] Hn; [done|].
  destruct (Hp2 _ _ Hid) as (Hopen & _ & Hne).
  destruct (currentTransaction σ) as [t0|] eqn:Ht0.
  - destruct (Hw1 _ eq_refl) as [Hcur _]. specialize (Hne _ eq_refl). congruence.
  - rewrite Hn, Hn2 in Hopen by done. unfold watermark_free in Hwm. congruence.
Qed.

Lemma own_number_valid σ t :
  invalid_inv σ → live σ t →
  isValid (Some (t_number t)) (t_number t) (t_invalid t) = true.
Proof.
  intros Hinv Hl. destruct (Hinv t Hl) as [Hi1 _]. unfold isValid.
  rewrite (proj2 (Z.leb_le _ _)) by lia.
  destruct (t_invalid t !! t_number t) as [b|] eqn:Hb; [|done].
  destruct (Hi1 _ _ Hb). lia.
Qed.

Lemma manager_step_coherent σ c σ' :
  manager_step σ c σ' → manager_inv σ → cache_inv σ →
  coherent σ → coherent σ'.
Proof.
  intros Hstep Hm Hca Hco t e eo l Hl.
  destruct (manager_step_objects _ _ _ Hstep) as [-> ->].
  intros He Htr Hc.
  destruct (manager_step_live_number _ _ _ _ Hstep Hl) as [Hl0|Hnew].
  - by eapply Hco.
  - specialize (Hca _ _ _ He Htr). lia.
Qed.

Lemma firstValid_ext h h' a I l :
  (∀ r, r ∈ l → h' !! r ≫= s_min = h !! r ≫= s_min) →
  firstValid h' a I l = firstValid h a I l.
Proof.
  induction l as [|x l IH]; intros Hl; simpl; [done|].
  rewrite Hl by (by left). rewrite IH; [done|]. intros r Hr. apply Hl. by right.
Qed.

Lemma firstValid_splice h h' a I l1 l2 n :
  (∀ r, r ∈ l1 ++ l2 → h' !! r ≫= s_min = h !! r ≫= s_min) →
  isValid (h' !! n ≫= s_min) a I = false →
  firstValid h' a I (l1 ++ n :: l2) = firstValid h a I (l1 ++ l2).
Proof.
  intros Hl Hn. induction l1 as [|x l1 IH]; simpl.
  - rewrite Hn. by apply firstValid_ext.
  - rewrite Hl by (by left). rewrite IH; [done|].
    intros r Hr. apply Hl. by right.
Qed.

(** The snapshot a transaction has just written is the one it sees. *)
Lemma firstValid_written h a I l1 l2 n :
  (∀ r, r ∈ l1 → isValid (h !! r ≫= s_min) a I = false) →
  isValid (h !! n ≫= s_min) a I = true →
  firstValid h a I (l1 ++ n :: l2) = Some n.
Proof.
  intros Hl Hn. induction l1 as [|x l1 IH]; simpl.
  - by rewrite Hn.
  - rewrite Hl by (by left). apply IH. intros r Hr. apply Hl. by right.
Qed.

Lemma entity_step_coherent fuel σ σ' :
  entity_step fuel σ σ' → manager_inv σ → chain_inv σ → order_inv σ →
  watermark_free σ → coherent σ → coherent σ'.
Proof.
  intros Hstep Hm Hi Ho Hwm Hco.
  pose proof Hm as (((Hw1 & _) & _) & _ & _ & _ & Hinv).
  destruct Hstep as [|e eo res He Hf|e σ' Hw|fields].
  - done.
  - (* the cache is refreshed *)
    intros t e' eo' l Hl. simpl. destruct (decide (e' = e)) as [->|Hne].
    + rewrite !list_lookup_alter_eq, He. simpl. intros [= <-]. simpl.
      intros [= Hn] Hc.
      pose proof (live_current _ _ Hm Hwm Hl (eq_sym Hn)) as Ht.
      rewrite Ht in Hf. simpl in Hf. rewrite Hn in Hf.
      pose proof (resolution_sound _ _ _ _ _ _ _ _ Hi Ho He Hc Hf) as Hx.
      by injection Hx.
    + rewrite !list_lookup_alter_ne by done. by apply Hco.
  - (* a snapshot is written *)
    destruct (makeWritable_effect _ _ _ _ Hi Hw)
      as (t0 & eo0 & l1 & l2 & st & s & previous & Ht0 & He0 & Hc0 & Hstl & Hs & _
          & Hall & Hhd & Hlen & Hlene & Hn & Hold & He' & Hchain & Hoth & Ht' & Hsm).
    cbv zeta in *.
    destruct (Hw1 _ Ht0) as [Hcur _].
    destruct (Ho _ _ _ He0 Hc0) as (_ & Hmin & _ & _).
    assert (Hlive : ∀ t, live σ' t →
              ∃ t1, live σ t1 ∧ t_number t1 = t_number t ∧ t_invalid t1 = t_invalid t).
    { intros t [Hc|[j Hj]].
      - rewrite Ht' in Hc. injection Hc as <-. exists t0. split; [by left|done].
      - destruct Hsm as (_&_&_&_&Hps&_). rewrite Hps in Hj.
        exists t. split; [right; eauto|done]. }
    intros t e' eo' l Hl He2 Htr Hc2.
    destruct (Hlive _ Hl) as (t1 & Hl1 & Hn1 & Hi1). rewrite <- Hn1, <- Hi1.
    destruct (decide (e' = e)) as [->|Hne].
    + rewrite He' in He2. injection He2 as <-. simpl in *.
      assert (l = l1 ++ length (states σ) :: l2) as ->
        by (by eapply chain_functional).
      injection Htr as Htr. rewrite <- Hn1 in Htr.
      symmetry. apply firstValid_written.
      * intros r Hr. destruct (Hmin r) as (sr & m & Hsr & Hm'); [set_solver|].
        destruct (Hold _ _ Hsr) as (sr' & Hsr' & _ & Hm'' & _).
        rewrite Hsr'. simpl. rewrite Hm'', Hm'.
        rewrite Forall_forall in Hall. specialize (Hall _ Hr).
        rewrite (key_min _ _ _ _ Hsr Hm') in Hall.
        unfold isValid. destruct (Z.leb_spec m (t_number t1)); [lia|done].
      * rewrite Hn. simpl. rewrite Htr. by apply (own_number_valid σ).
    + destruct (Hoth _ _ Hne He2) as (He1 & l' & Hc1 & Hc1' & Hsame).
      assert (l = l') as -> by (by eapply chain_functional).
      rewrite (firstValid_ext (states σ) (states σ')).
      * eapply Hco; [done|done|congruence|done].
      * intros r Hr. by rewrite Hsame.
  - (* a new entity is bound *)
    intros t e' eo' l Hl. simpl.
    intros [He'|[Hlen He']]%lookup_app_Some Htr Hc.
    + destruct (Hi _ _ He') as (l0 & Hc0 & _).
      pose proof (chain_alloc _ _ _
        (mkState (Some (currentTransactionNumber σ)) None None None
           (Some (length (entities σ))) fields) Hc0) as Hc1.
      assert (l = l0) as -> by (by eapply chain_functional).
      rewrite (firstValid_ext (states σ)).
      * by eapply Hco.
      * intros r Hr. destruct (chain_lookup _ _ _ _ Hc0 Hr) as [sr Hsr].
        by rewrite (lookup_app_l_Some _ _ _ _ Hsr), Hsr.
    + destruct (e' - length (entities σ))%nat as [|[|]]; simplify_eq/=.
      destruct l as [|r l]; [done|]. simpl in Hc. destruct Hc as [[= <-] Hc].
      rewrite list_lookup_middle in Hc by done. simpl in Hc.
      destruct l as [|r' l]; [|by destruct Hc].
      simpl. rewrite list_lookup_middle by done. simpl.
      rewrite Htr.
      change (Some (length (states σ)) =
              if isValid (Some (t_number t)) (t_number t) (t_invalid t)
              then Some (length (states σ)) else None).
      by rewrite (own_number_valid σ t).
Qed.

Lemma exec_sound fuel c σ r σ' :
  exec fuel c σ = Some (r, σ') → sound σ → sound σ'.
Proof.
  intros H (Hinv & Ho & Hca & Hwm & Hco). split; [by eapply exec_engine_inv|].
  pose proof Hinv as (Hm & Hc & _).
  assert (entity_call c ∨ ¬ entity_call c) as [Hec|Hec]
    by (destruct c; simpl; auto).
  - pose proof (exec_entity_step _ _ _ _ _ Hc Hec H) as Hstep. split_and!.
    + by eapply entity_step_order.
    + by eapply entity_step_cache.
    + apply exec_same_manager in H; [|done].
      destruct H as (_ & HhC & _ & Hop & _). unfold watermark_free.
      by rewrite HhC, Hop.
    + by eapply entity_step_coherent.
  - pose proof (exec_manager_step _ _ _ _ _ (proj1 (proj1 Hm)) Hec H) as Hstep.
    split_and!.
    + by eapply manager_step_order.
    + by eapply manager_step_cache.
    + by eapply manager_step_watermark_free.
    + by eapply manager_step_coherent.
Qed.

Lemma run_sound fuel cs σ rs σ' :
  run fuel cs σ = Some (rs, σ') → sound σ → sound σ'.
Proof.
  apply (preserves_run (keeps sound)).
  intros c σ1 r σ2 H. unfold keeps. by eapply exec_sound.
Qed.

Lemma initial_sound : sound initial.
Proof.
  split; [apply initial_engine_inv|]. split_and!.
  - intros e eo l He. simpl in He. by rewrite lookup_nil in He.
  - intros e eo c He. simpl in He. by rewrite lookup_nil in He.
  - done.
  - intros t e eo l _ He. simpl in He. by rewrite lookup_nil in He.
Qed.

Lemma reachable_sound fuel cs rs σ :
  run fuel cs initial = Some (rs, σ) → sound σ.
Proof. intros H. eapply run_sound; [done|apply initial_sound]. Qed.

Lemma resolution_by_min fuel σ e eo l a I :
  sound σ → entities σ !! e = Some eo →
  chain (states σ) (e_previous eo) l →
  (length (states σ) ≤ fuel)%nat →
  findVisible fuel (states σ) (e_previous eo) a I
  = Some (Ret (firstValid (states σ) a I l)).
Proof.
  intros ((_ & Hi & _) & Ho & _) He Hc Hfuel.
  destruct (chain_inv_head _ _ _ Hi He) as (p & l0 & Hp & Hch).
  rewrite Hp in Hc |- *.
  assert (l = p :: l0) as -> by (by eapply chain_functional).
  pose proof (chain_length _ _ _ Hch) as Hlen.
  rewrite (findVisible_chain _ _ _ _ _ _ Hch) by lia.
  do 2 f_equal. rewrite <- Hp in Hch. by eapply chain_firstVisible.
Qed.

(** ** Snapshots are never rewritten *)
Global Instance snapshots_kept_preorder : PreOrder snapshots_kept.
Proof.
  split.
  - intros σ. split; [|done]. intros r s Hs. eauto 10.
  - intros σ1 σ2 σ3 [H1 H1'] [H2 H2']. split; [|by auto].
    intros r s Hs. destruct (H1 _ _ Hs) as (s' & Hs' & ? & ? & ? & ?).
    destruct (H2 _ _ Hs') as (s'' & Hs'' & ? & ? & ? & ?).
    exists s''. split_and!; [done|congruence..].
Qed.

Lemma manager_step_snapshots_kept σ c σ' :
  manager_step σ c σ' → snapshots_kept σ σ'.
Proof.
  intros Hstep. destruct (manager_step_objects _ _ _ Hstep) as [Hs He].
  split.
  - intros r s. rewrite Hs. eauto 10.
  - intros e. by rewrite He.
Qed.

Lemma entity_step_snapshots_kept fuel σ σ' :
  entity_step fuel σ σ' → chain_inv σ → snapshots_kept σ σ'.
Proof.
  intros Hstep Hi. destruct Hstep as [|e eo res He Hf|e σ' Hw|fields].
  - reflexivity.
  - split; [intros r s Hs; simpl; eauto 10|].
    intros e'. simpl. rewrite !lookup_lt_is_Some. by rewrite !length_alter.
  - destruct (makeWritable_effect _ _ _ _ Hi Hw)
      as (t & eo & l1 & l2 & st & s & previous & _ & _ & _ & _ & _ & _ & _ & _
          & _ & Hlene & _ & Hold & _).
    split.
    + intros r sr Hsr. destruct (Hold _ _ Hsr) as (sr' & ? & ? & ? & ? & ? & _).
      exists sr'. by split_and!.
    + intros e'. rewrite !lookup_lt_is_Some. by rewrite Hlene.
  - split.
    + intros r s Hs. simpl. rewrite (lookup_app_l_Some _ _ _ _ Hs). eauto 10.
    + intros e' [eo He']. simpl. rewrite (lookup_app_l_Some _ _ _ _ He'). eauto.
Qed.

Lemma exec_snapshots_kept fuel c σ r σ' :
  exec fuel c σ = Some (r, σ') → sound σ → snapshots_kept σ σ'.
Proof.
  intros H ((Hm & Hc & _) & _).
  assert (entity_call c ∨ ¬ entity_call c) as [Hec|Hec]
    by (destruct c; simpl; auto).
  - eapply entity_step_snapshots_kept; [|done]. by eapply exec_entity_step.
  - eapply manager_step_snapshots_kept.
    eapply exec_manager_step; [apply Hm|done|done].
Qed.

Lemma run_snapshots_kept fuel cs : ∀ σ rs σ',
  run fuel cs σ = Some (rs, σ') → sound σ → snapshots_kept σ σ'.
Proof.
  induction cs as [|c cs IH]; simpl; intros σ rs σ'.
  - intros [= <- <-] _. reflexivity.
  - destruct (exec fuel c σ) as [[r σ1]|] eqn:E; [|done].
    destruct (run fuel cs σ1) as [[rs1 σ2]|] eqn:E2; [|done].
    intros [= <- <-] Hs. transitivity σ1.
    + by eapply exec_snapshots_kept.
    + eapply IH; [done|]. by eapply exec_sound.
Qed.

(** ** A viewpoint under the writes of others *)
Global Instance view_kept_preorder a I e : PreOrder (view_kept a I e).
Proof.
  split.
  - intros σ eo l He Hc. by exists eo, l.
  - intros σ1 σ2 σ3 H1 H2 eo l He Hc.
    destruct (H1 _ _ He Hc) as (eo2 & l2 & He2 & Hc2 & Hf2).
    destruct (H2 _ _ He2 Hc2) as (eo3 & l3 & He3 & Hc3 & Hf3).
    exists eo3, l3. split_and!; [done|done|congruence].
Qed.


Lemma entity_step_view_kept fuel σ σ' a I e :
  entity_step fuel σ σ' → chain_inv σ →
  (is_Some (currentTransaction σ) →
   isValid (Some (currentTransactionNumber σ)) a I = false) →
  view_kept a I e σ σ'.
Proof.
  intros Hstep Hi Hcur. destruct Hstep as [|e0 eo0 res He0 Hf|e0 σ' Hw|fields].
  - reflexivity.
  - intros eo l He Hc. simpl. destruct (decide (e = e0)) as [->|Hne].
    + rewrite !list_lookup_alter_eq, He. simpl. eexists _, l. split; [done|].
      simpl. by split.
    + rewrite !list_lookup_alter_ne by done. by exists eo, l.
  - destruct (makeWritable_effect _ _ _ _ Hi Hw)
      as (t & eo0 & l1 & l2 & st & s & previous & Ht & He0 & Hc0 & _ & _ & _
          & _ & _ & _ & Hlene & Hn & Hold & He' & Hchain & Hoth & _).
    cbv zeta in *. intros eo l He Hc.
    destruct (decide (e = e0)) as [->|Hne].
    + rewrite He0 in He. injection He as <-.
      assert (l = l1 ++ l2) as -> by (by eapply chain_functional).
      eexists _, _. split; [exact He'|]. split; [exact Hchain|].
      apply firstValid_splice.
      * intros r Hr. destruct (chain_lookup _ _ _ _ Hc0 Hr) as [sr Hsr].
        destruct (Hold _ _ Hsr) as (sr' & Hsr' & _ & Hm & _).
        rewrite Hsr, Hsr'. simpl. done.
      * rewrite Hn. simpl. apply Hcur. rewrite Ht. eauto.
    + assert (is_Some (entities σ' !! e)) as [eo' He2].
      { apply lookup_lt_is_Some. rewrite Hlene. apply lookup_lt_is_Some. eauto. }
      destruct (Hoth _ _ Hne He2) as (He1 & l' & Hc1 & Hc2 & Hsame).
      rewrite He in He1. injection He1 as <-.
      assert (l = l') as -> by (by eapply chain_functional).
      exists eo, l'. split; [done|]. split; [done|].
      apply firstValid_ext. intros r Hr. by rewrite Hsame.
  - intros eo l He Hc. simpl. rewrite (lookup_app_l_Some _ _ _ _ He).
    exists eo, l. split_and!; [done|by apply chain_alloc|].
    apply firstValid_ext. intros r Hr.
    destruct (chain_lookup _ _ _ _ Hc Hr) as [sr Hsr].
    by rewrite (lookup_app_l_Some _ _ _ _ Hsr), Hsr.
Qed.




(** ** Properties of the version chains *)

(** X7.  In every reachable engine the chain of every entity is ordered by
    [_min], newest first, every snapshot on it has a [_min], and a
    snapshot whose [_max] is [k] stands behind a snapshot whose [_min] is
    [k] (the one that replaced it). *)
Theorem chains_are_ordered (fuel : nat) (cs : list call)
    (rs : list (outcome value)) (σ : Engine) (e : eref) (eo : EntityObj)
    (l : list ref) :
  run fuel cs initial = Some (rs, σ) →
  entities σ !! e = Some eo →
  chain (states σ) (e_previous eo) l →
  descending (states σ) l ∧
  (∀ r, r ∈ l → ∃ s m, states σ !! r = Some s ∧ s_min s = Some m) ∧
  (∀ j x s k, l !! j = Some x → states σ !! x = Some s → s_max s = Some k →
     ∃ i y sy, (i < j)%nat ∧ l !! i = Some y ∧
               states σ !! y = Some sy ∧ s_min sy = Some k).
Proof.
  intros Hrun He Hc. destruct (reachable_sound _ _ _ _ Hrun) as (_ & Ho & _).
  destruct (Ho _ _ _ He Hc) as (? & ? & ? & _). done.
Qed.

Lemma chains_are_ordered_witness :
  descending (states late_writer) [1; 0]%nat ∧
  (∀ r, r ∈ [1; 0]%nat →
        ∃ s m, states late_writer !! r = Some s ∧ s_min s = Some m) ∧
  (∀ j x s k, [1; 0]%nat !! j = Some x → states late_writer !! x = Some s →
     s_max s = Some k →
     ∃ i y sy, (i < j)%nat ∧ [1; 0]%nat !! i = Some y ∧
               states late_writer !! y = Some sy ∧ s_min sy = Some k).
Proof.
  apply (chains_are_ordered 3
           [BindState [(0%nat, 499)];
            BeginTransaction None None; PauseTransaction;
            BeginTransaction None None; EnsureWritable 0%nat;
            CommitTransaction; RestoreTransaction 0%nat]
           [Ret (VEntity 0%nat); Ret (VFrame 0%nat); Ret (VPauseId 0%nat);
            Ret (VFrame 1%nat); Ret VUndefined; Ret (VChanged [1%nat]);
            Ret VUndefined]
           late_writer 0%nat (mkEntity (Some 2) (Some 1%nat) (Some 1%nat)));
    by vm_compute.
Defined.

(** X8.  In every reachable engine, for every entity and every viewpoint,
    [findVisible] on the chain of the entity returns, given fuel for the
    snapshots in the store, the first snapshot whose [_min] the viewpoint
    accepts: the test of [_max] never changes the result. *)
Theorem resolution_is_by_creation_stamp (fuel0 fuel : nat) (cs : list call)
    (rs : list (outcome value)) (σ : Engine) (e : eref) (eo : EntityObj)
    (l : list ref) (asOf : Z) (invalid : gmap Z bool) :
  run fuel0 cs initial = Some (rs, σ) →
  entities σ !! e = Some eo →
  chain (states σ) (e_previous eo) l →
  (length (states σ) ≤ fuel)%nat →
  findVisible fuel (states σ) (e_previous eo) asOf invalid
  = Some (Ret (firstValid (states σ) asOf invalid l)).
Proof.
  intros Hrun He Hc Hfuel. apply (resolution_by_min fuel σ e eo l); try done.
  by eapply reachable_sound.
Qed.

Lemma resolution_is_by_creation_stamp_witness :
  findVisible 3 (states two_writers) (Some 2%nat) 3 {[2 := true]}
  = Some (Ret (firstValid (states two_writers) 3 {[2 := true]} [2; 1; 0]%nat)).
Proof.
  apply (resolution_is_by_creation_stamp 2 3
           [BindState [(0%nat, 499)];
            BeginTransaction None None; EnsureWritable 0%nat;
            PauseTransaction;
            BeginTransaction None None; EnsureWritable 0%nat;
            PauseTransaction]
           [Ret (VEntity 0%nat); Ret (VFrame 0%nat); Ret VUndefined;
            Ret (VPauseId 0%nat); Ret (VFrame 1%nat); Ret VUndefined;
            Ret (VPauseId 1%nat)]
           two_writers 0%nat (mkEntity (Some 2) (Some 2%nat) (Some 2%nat)));
    by vm_compute.
Defined.

(** X9.  No call rewrites a snapshot: over any sequence of calls from a
    reachable engine every snapshot stays in the store with the same
    [_min], the same fields and the same back-references, and every
    entity stays an entity. *)
Theorem snapshots_are_never_rewritten (fuel0 fuel : nat) (cs0 cs : list call)
    (rs0 rs : list (outcome value)) (σ σ' : Engine) :
  run fuel0 cs0 initial = Some (rs0, σ) →
  run fuel cs σ = Some (rs, σ') →
  (∀ r s, states σ !! r = Some s →
     ∃ s', states σ' !! r = Some s' ∧
           s_min s' = s_min s ∧ s_fields s' = s_fields s ∧
           s_entity s' = s_entity s ∧ s_object s' = s_object s) ∧
  (∀ e, is_Some (entities σ !! e) → is_Some (entities σ' !! e)).
Proof.
  intros Hrun0 Hrun. eapply run_snapshots_kept; [done|].
  by eapply reachable_sound.
Qed.

Lemma snapshots_are_never_rewritten_witness :
  ∃ s', states two_writers !! 0%nat = Some s' ∧
        s_min s' = Some 0 ∧ s_fields s' = [(0%nat, 499)] ∧
        s_entity s' = None ∧ s_object s' = Some 0%nat.
Proof.
  apply (proj1 (snapshots_are_never_rewritten 2 2
           [BindState [(0%nat, 499)]]
           [BeginTransaction None None; EnsureWritable 0%nat;
            PauseTransaction;
            BeginTransaction None None; EnsureWritable 0%nat;
            PauseTransaction]
           [Ret (VEntity 0%nat)]
           [Ret (VFrame 0%nat); Ret VUndefined;
            Ret (VPauseId 0%nat); Ret (VFrame 1%nat); Ret VUndefined;
            Ret (VPauseId 1%nat)]
           (engine_after 2 [BindState [(0%nat, 499)]]) two_writers
           ltac:(by vm_compute) ltac:(by vm_compute))
         0%nat (mkState (Some 0) None None None (Some 0%nat) [(0%nat, 499)])).
  by vm_compute.
Defined.



Import Callers.

(** ** Writing a field keeps the engine sound *)
Lemma same_shape_sym h h' : same_shape h h' → same_shape h' h.
Proof.
  intros H. apply Forall2_flip. eapply Forall2_impl; [exact H|].
  simpl. intros s s' (?&?&?&?&?). by split_and!.
Qed.

Lemma same_shape_lookup h h' r s :
  same_shape h h' → h !! r = Some s →
  ∃ s', h' !! r = Some s' ∧
        s_min s' = s_min s ∧ s_max s' = s_max s ∧
        s_previous s' = s_previous s ∧ s_entity s' = s_entity s ∧
        s_object s' = s_object s.
Proof.
  intros H Hr. destruct (Forall2_lookup_l _ _ _ _ _ H Hr) as (s' & Hs' & Hx).
  eauto.
Qed.

Lemma same_shape_alter h r g : same_shape h (alter (with_fields g) r h).
Proof.
  apply Forall2_same_length_lookup_2; [by rewrite length_alter|].
  intros i s s' Hs Hs'. destruct (decide (r = i)) as [->|Hne].
  - rewrite list_lookup_alter_eq, Hs in Hs'. injection Hs' as <-. done.
  - rewrite list_lookup_alter_ne, Hs in Hs' by done. injection Hs' as <-. done.
Qed.

Lemma same_shape_chain h h' o l : same_shape h h' → chain h o l → chain h' o l.
Proof.
  intros H. apply chain_ext. intros r _.
  destruct (h !! r) as [s|] eqn:Hs.
  - destruct (same_shape_lookup _ _ _ _ H Hs) as (s' & -> & _ & _ & Hp & _).
    simpl. by rewrite Hp.
  - apply lookup_ge_None in Hs. rewrite (Forall2_length _ _ _ H) in Hs.
    apply lookup_ge_None in Hs. by rewrite Hs.
Qed.

Lemma same_shape_key h h' r : same_shape h h' → key h' r = key h r.
Proof.
  intros H. unfold key. destruct (h !! r) as [s|] eqn:Hs.
  - destruct (same_shape_lookup _ _ _ _ H Hs) as (s' & -> & Hm & _).
    simpl. by rewrite Hm.
  - apply lookup_ge_None in Hs. rewrite (Forall2_length _ _ _ H) in Hs.
    apply lookup_ge_None in Hs. by rewrite Hs.
Qed.

Lemma sound_same_shape σ h' :
  same_shape (states σ) h' → sound σ → sound (set_states h' σ).
Proof.
  intros Hsh ((Hm & Hc & Hmu & Hst) & Ho & Hca & Hwm & Hco).
  pose proof (same_shape_sym _ _ Hsh) as Hsh'.
  assert (Hmins : ∀ r, h' !! r ≫= s_min = states σ !! r ≫= s_min).
  { intros r. destruct (states σ !! r) as [s|] eqn:Hs.
    - destruct (same_shape_lookup _ _ _ _ Hsh Hs) as (s' & -> & Hm' & _).
      simpl. done.
    - apply lookup_ge_None in Hs. rewrite (Forall2_length _ _ _ Hsh) in Hs.
      apply lookup_ge_None in Hs. by rewrite Hs. }
  assert (Hcoh : coherent (set_states h' σ)).
  { intros t e eo l Hl He Htr Hch. simpl in *.
    pose proof (same_shape_chain _ _ _ _ Hsh' Hch) as Hch0.
    rewrite (firstValid_ext (states σ) h') by (intros r _; apply Hmins).
    by eapply Hco. }
  split; [split_and!|split; [|by split_and!]].
  - exact Hm.
  - intros e eo He. simpl in *.
    destruct (Hc _ _ He) as (l & Hch & Hin & (r & s & Hr & Hs & Hmax) & Hown).
    exists l. split_and!; [by eapply same_shape_chain|done| |].
    + destruct (same_shape_lookup _ _ _ _ Hsh Hs) as (s' & Hs' & _ & Hmx & _).
      exists r, s'. split_and!; [done|done|congruence].
    + intros r' s' Hr' Hs'.
      destruct (same_shape_lookup _ _ _ _ Hsh' Hs') as (s0 & Hs0 & _ & _ & _ & He' & Ho').
      specialize (Hown _ _ Hr' Hs0). unfold owner in *. by rewrite <- He', <- Ho'.
  - intros t Hl r Hr. destruct (Hmu t Hl r Hr) as (s & e & Hs & He & Hmin & Hent).
    destruct (same_shape_lookup _ _ _ _ Hsh Hs) as (s' & Hs' & Hm' & _ & _ & He' & _).
    exists s', e. split_and!; [done|congruence|congruence|done].
  - intros r s' m Hs' Hx. simpl in *.
    destruct (same_shape_lookup _ _ _ _ Hsh' Hs') as (s0 & Hs0 & Hm0 & Hx0 & _).
    eapply Hst; [exact Hs0|]. rewrite Hm0, Hx0. done.
  - intros e eo l He Hch. simpl in *.
    pose proof (same_shape_chain _ _ _ _ Hsh' Hch) as Hch0.
    destruct (Ho _ _ _ He Hch0) as (Hd & Hmin & Hret & Hcache).
    split_and!.
    + eapply descending_ext; [|done]. intros r _. by apply same_shape_key.
    + intros r Hr. destruct (Hmin r Hr) as (s & m & Hs & Hm').
      destruct (same_shape_lookup _ _ _ _ Hsh Hs) as (s' & Hs' & Hm'' & _).
      exists s', m. split; [done|congruence].
    + intros j x s' k Hj Hs' Hk.
      destruct (same_shape_lookup _ _ _ _ Hsh' Hs') as (s0 & Hs0 & _ & Hx0 & _).
      destruct (Hret j x s0 k Hj Hs0 ltac:(congruence)) as (i & y & sy & Hlt & Hi & Hsy & Hmy).
      destruct (same_shape_lookup _ _ _ _ Hsh Hsy) as (sy' & Hsy' & Hm'' & _).
      exists i, y, sy'. split_and!; [done|done|done|congruence].
    + intros c st s' Hc1 Hst1 Hs'.
      destruct (same_shape_lookup _ _ _ _ Hsh' Hs') as (s0 & Hs0 & Hm0 & _).
      destruct (Hcache _ _ _ Hc1 Hst1 Hs0) as (m & Hm' & Hle).
      exists m. split; [congruence|done].
Qed.

(** ** The callbacks keep the engine sound *)
Lemma entity_safe_ret {A} (a : A) : entity_safe (ret a).
Proof. intros σ r σ' [= <- <-] Hs. split; [done|reflexivity]. Qed.

Lemma entity_safe_throw {A} err : entity_safe (@throw A err).
Proof. intros σ r σ' [= <- <-] Hs. split; [done|reflexivity]. Qed.

Lemma entity_safe_bind {A B} (m : M A) (k : A → M B) :
  entity_safe m → (∀ a, entity_safe (k a)) → entity_safe (bind m k).
Proof.
  intros Hm Hk σ r σ'. unfold bind.
  destruct (m σ) as [[[a|e] σ1]|] eqn:E; [| |done].
  - intros Hka Hs. destruct (Hm _ _ _ E Hs) as [Hs1 Hsm1].
    destruct (Hk _ _ _ _ Hka Hs1) as [Hs2 Hsm2].
    split; [done|by transitivity σ1].
  - intros [= <- <-] Hs. by eapply Hm.
Qed.

Lemma entity_safe_forEach {A} (f : A → M unit) l :
  (∀ x, entity_safe (f x)) → entity_safe (forEach f l).
Proof.
  intros Hf. induction l as [|x l IH]; simpl.
  - apply entity_safe_ret.
  - apply entity_safe_bind; [apply Hf|]. intros _. apply IH.
Qed.

Lemma entity_safe_exec fuel c :
  entity_call c → entity_safe (exec fuel c).
Proof.
  intros Hc σ r σ' H Hs. split; [by eapply exec_sound|].
  revert H. by apply exec_same_manager.
Qed.

Lemma entity_safe_ensureReadable fuel e : entity_safe (ensureReadable fuel e).
Proof.
  intros σ r σ' H. apply (entity_safe_exec fuel (EnsureReadable e) I σ
    (match r with Ret _ => Ret VUndefined | Throw err => Throw err end)).
  unfold exec, bind, ret. rewrite H. by destruct r.
Qed.

Lemma entity_safe_ensureWritable fuel e : entity_safe (ensureWritable fuel e).
Proof.
  intros σ r σ' H. apply (entity_safe_exec fuel (EnsureWritable e) I σ
    (match r with Ret _ => Ret VUndefined | Throw err => Throw err end)).
  unfold exec, bind, ret. rewrite H. by destruct r.
Qed.

Lemma entity_safe_readEntity e : entity_safe (readEntity e).
Proof.
  intros σ r σ'. unfold readEntity.
  destruct (_ !! _); intros [= <- <-] Hs; (split; [done|reflexivity]).
Qed.

Lemma entity_safe_readState r : entity_safe (readState r).
Proof.
  intros σ x σ'. unfold readState.
  destruct (_ !! _); intros [= <- <-] Hs; (split; [done|reflexivity]).
Qed.

Lemma entity_safe_write_fields r g : entity_safe (updState r (with_fields g)).
Proof.
  intros σ x σ'. unfold updState, bind, readState, modify.
  destruct (states σ !! r) eqn:E; intros [= <- <-] Hs; [|split; [done|reflexivity]].
  split; [|by repeat split].
  apply sound_same_shape; [|done]. apply same_shape_alter.
Qed.

Lemma fresh_bound σ :
  (m <- allocEntity (mkEntity None None None) ;;
   s <- allocState (mkState None None None None None []) ;;
   bindState m s ;; ret m) σ
  = Some (Ret (length (entities σ)), bound [] σ).
Proof.
  unfold bound. munfold; simpl.
  repeat (first [rewrite list_lookup_middle by done | rewrite alter_snoc]; simpl).
  done.
Qed.

Lemma entity_safe_model object : entity_safe (model object).
Proof.
  intros σ r σ' H Hs.
  assert (Hb : sound (bound [] σ) ∧ same_manager σ (bound [] σ)).
  { apply (entity_safe_exec 0 (BindState []) I σ
             (Ret (VEntity (length (entities σ))))); [|done].
    apply bindState_eq. }
  destruct Hb as [Hs1 Hsm1].
  assert (Hm : (s <- allocState (mkState None None None None None []) ;;
                m <- allocEntity (mkEntity None None None) ;;
                bindState m s ;; ret (m, s)) σ
               = Some (Ret (length (entities σ), length (states σ)), bound [] σ)).
  { unfold bound. munfold; simpl.
    repeat (first [rewrite list_lookup_middle by done | rewrite alter_snoc]; simpl).
    done. }
  unfold model in H. unfold bind, ret in Hm, H.
  destruct (allocState _ σ) as [[[s|] σa]|]; try done.
  destruct (allocEntity _ σa) as [[[m|] σb]|]; try done.
  destruct (bindState m s σb) as [[[[]|] σc]|]; try done.
  injection Hm as -> -> ->.
  destruct (forEach _ object (bound [] σ)) as [[rf σd]|] eqn:Hf; [|done].
  assert (sound σd ∧ same_manager (bound [] σ) σd) as [Hs2 Hsm2].
  { eapply (entity_safe_forEach _ object); [|exact Hf|done].
    intros kv. apply entity_safe_write_fields. }
  assert (σ' = σd) as -> by (destruct rf; by simplify_eq).
  split; [done|by transitivity (bound [] σ)].
Qed.

Lemma entity_code_safe fuel A (m : M A) : entity_code fuel A m → entity_safe m.
Proof.
  induction 1 as [A a|A err|A B m k Hm IHm Hk IHk|this name|this name value
                  |object|target Ht IHt].
  - apply entity_safe_ret.
  - apply entity_safe_throw.
  - by apply entity_safe_bind.
  - unfold property_get.
    apply entity_safe_bind; [apply entity_safe_ensureReadable|]. intros _.
    apply entity_safe_bind; [apply entity_safe_readEntity|]. intros eo.
    destruct (e_state eo); [|apply entity_safe_throw].
    apply entity_safe_bind; [apply entity_safe_readState|]. intros s.
    apply entity_safe_ret.
  - unfold property_set.
    apply entity_safe_bind; [apply entity_safe_ensureWritable|]. intros _.
    apply entity_safe_bind; [apply entity_safe_readEntity|]. intros eo.
    destruct (e_state eo); [|apply entity_safe_throw].
    apply entity_safe_write_fields.
  - apply entity_safe_model.
  - intros σ r σ' H Hs. unfold entity in H.
    pose proof (fresh_bound σ) as Hb.
    assert (Hb2 : sound (bound [] σ) ∧ same_manager σ (bound [] σ)).
    { apply (entity_safe_exec 0 (BindState []) I σ
               (Ret (VEntity (length (entities σ))))); [|done].
      apply bindState_eq. }
    destruct Hb2 as [Hs1 Hsm1].
    unfold bind, ret in Hb, H.
    destruct (allocEntity _ σ) as [[[m|] σa]|]; try done.
    destruct (allocState _ σa) as [[[s|] σb]|]; try done.
    destruct (bindState m s σb) as [[[[]|] σc]|]; try done.
    injection Hb as -> ->.
    destruct (target _ (bound [] σ)) as [[rf σd]|] eqn:Hf; [|done].
    destruct (IHt _ _ _ _ Hf Hs1) as [Hs2 Hsm2].
    assert (σ' = σd) as -> by (destruct rf; by simplify_eq).
    split; [done|by transitivity (bound [] σ)].
Qed.

(** ** Sessions *)
Lemma perform_sound fuel a σ r σ' :
  perform fuel a σ = Some (r, σ') → sound σ → sound σ'.
Proof.
  destruct a as [c|this name|this name value|object]; simpl; intros H Hs.
  - unfold bind, ret in H. destruct (exec fuel c σ) as [[[v|err] σ1]|] eqn:E;
      simplify_eq; by eapply exec_sound.
  - unfold bind at 1 in H.
    destruct (property_get fuel this name σ) as [[[v|err] σ1]|] eqn:E;
      unfold ret in H; simplify_eq;
      by eapply (entity_code_safe fuel _ _ (ec_get fuel this name)).
  - by eapply (entity_code_safe fuel _ _ (ec_set fuel this name value)).
  - unfold bind at 1 in H.
    destruct (model object σ) as [[[v|err] σ1]|] eqn:E;
      unfold ret in H; simplify_eq;
      by eapply (entity_safe_model object).
Qed.

Lemma session_sound fuel l : ∀ σ σ',
  session fuel l σ = Some σ' → sound σ → sound σ'.
Proof.
  induction l as [|a l IH]; simpl; intros σ σ'.
  - by intros [= <-].
  - destruct (perform fuel a σ) as [[r σ1]|] eqn:E; [|done].
    intros H Hs. eapply IH; [done|]. by eapply perform_sound.
Qed.

Lemma session_reachable_sound fuel l σ :
  session fuel l initial = Some σ → sound σ.
Proof. intros H. eapply session_sound; [done|apply initial_sound]. Qed.

(** ** A commit that returns, without fuel *)
Lemma checkCollision_unopposed fuel σ t r x σ' :
  engine_inv σ → currentTransaction σ = Some t →
  highestCommittedTransaction σ < t_number t →
  (∀ k, t_invalid t !! k = Some true → is_Some (openTransactions σ !! k)) →
  r ∈ t_mutated t →
  checkCollision fuel (t_number t - 1) (t_invalid t) (currentInvalid σ) r σ
  = Some (x, σ') →
  x = Ret tt.
Proof.
  intros Hinv Ht Hhc Hkept Hr H.
  pose proof Hinv as (Hm & Hc & Hmu & Hs).
  destruct (Hmu t (or_introl Ht) r Hr) as (s & e & Hsr & He & _ & [eo Heo]).
  destruct (chain_inv_head _ _ _ Hc Heo) as (p & l & Hp & Hch).
  unfold checkCollision in H. unfold bind at 1, readState at 1 in H.
  rewrite Hsr, He in H. unfold bind at 1, readEntity at 1 in H. rewrite Heo in H.
  unfold bind at 1, get at 1 in H. rewrite Hp in H.
  unfold bind at 1, liftP at 1 in H.
  destruct (findVisible fuel (states σ) (Some p) (t_number t - 1) (t_invalid t))
    as [y|] eqn:Hf; [|done].
  pose proof (findVisible_sound _ _ _ _ _ _ _ Hch Hf) as ->.
  unfold bind at 1, liftP at 1 in H.
  rewrite <- (findVisible_ext fuel (states σ) (t_number t - 1) (t_invalid t)) in H
    by (intros r' s' Hs'; by eapply skipped_agree).
  rewrite Hf in H.
  rewrite bool_decide_eq_false_2 in H by (by intros ?).
  unfold ret in H. by simplify_eq.
Qed.

Lemma forEach_checkCollision_unopposed fuel σ t l x σ' :
  engine_inv σ → currentTransaction σ = Some t →
  highestCommittedTransaction σ < t_number t →
  (∀ k, t_invalid t !! k = Some true → is_Some (openTransactions σ !! k)) →
  (∀ r, r ∈ l → r ∈ t_mutated t) →
  forEach (checkCollision fuel (t_number t - 1) (t_invalid t) (currentInvalid σ)) l σ
  = Some (x, σ') →
  x = Ret tt.
Proof.
  intros Hinv Ht Hhc Hkept. induction l as [|r l IH]; simpl; intros Hl H.
  - unfold ret in H. by simplify_eq.
  - unfold bind in H.
    destruct (checkCollision _ _ _ _ r σ) as [[y σ1]|] eqn:Hc; [|done].
    pose proof (checkCollision_readonly _ _ _ _ _ _ _ _ Hc) as <-.
    rewrite (checkCollision_unopposed _ _ _ _ _ _ Hinv Ht Hhc Hkept
               (Hl r ltac:(by left)) Hc) in H.
    apply IH; [|done]. intros r' Hr'. apply Hl. by right.
Qed.

Lemma commit_unopposed_sound fuel σ t r σ' :
  engine_inv σ → currentTransaction σ = Some t →
  highestCommittedTransaction σ < t_number t →
  (∀ k, t_invalid t !! k = Some true → is_Some (openTransactions σ !! k)) →
  commitTransaction fuel σ = Some (r, σ') →
  ∃ fo, frames σ !! t_frame t = Some fo ∧
        r = Ret (t_mutated t) ∧ σ' = committed σ t fo.
Proof.
  intros Hinv Ht Hhc Hkept H.
  pose proof Hinv as ((((Hw1 & _) & _) & _) & _).
  destruct (Hw1 _ Ht) as [Hcur [fo Hfo]%lookup_lt_is_Some].
  apply commitTransaction_result in H. rewrite Ht in H.
  destruct H as (rc & Hrc & H). rewrite Hcur in Hrc.
  rewrite (forEach_checkCollision_unopposed _ _ _ _ _ _ Hinv Ht Hhc Hkept
             (λ r Hr, Hr) Hrc) in H.
  rewrite Hfo in H. exists fo. by destruct H.
Qed.

(** The engine after [beginTransaction] on a sound engine. *)
Lemma begun_sound oncommit onabort σ :
  sound σ → currentTransaction σ = None → sound (begun oncommit onabort σ).
Proof.
  intros Hs Hidle.
  apply (exec_sound 0 (BeginTransaction oncommit onabort) σ
           (Ret (VFrame (length (frames σ))))); [|done].
  unfold exec, bind, ret. rewrite beginTransaction_eq. unfold inTransaction.
  by rewrite Hidle.
Qed.

(** After a callback the transaction that was begun is unopposed. *)
Lemma begun_then_code σ σ2 :
  sound σ → currentTransaction σ = None →
  sound σ2 → same_manager (begun None None σ) σ2 →
  ∃ t, currentTransaction σ2 = Some t ∧
       t_number t = highestTransaction σ + 1 ∧
       currentTransactionNumber σ2 = highestTransaction σ + 1 ∧
       highestCommittedTransaction σ2 = highestCommittedTransaction σ ∧
       openTransactions σ2 = <[highestTransaction σ + 1 := FsOpen]> (openTransactions σ) ∧
       highestCommittedTransaction σ2 < t_number t ∧
       (∀ k, t_invalid t !! k = Some true → is_Some (openTransactions σ2 !! k)).
Proof.
  intros Hs Hidle Hs2 (HhT & HhC & Hcur & Hop & _ & _ & _ & Hn & Hi & _).
  simpl in *. destruct (currentTransaction σ2) as [t|] eqn:Ht; [|done].
  simpl in *. injection Hn as Hn. injection Hi as Hi.
  pose proof Hs as (((_ & Htab & (_ & Hle & _) & _) & _) & _).
  exists t. split_and!; try done; [lia|].
  intros k. rewrite Hi, Hop, (currentInvalid_lookup _ _ Htab).
  destruct (openTransactions σ !! k) eqn:Hk; [|done]. intros _.
  destruct (decide (highestTransaction σ + 1 = k)) as [->|Hne].
  - rewrite lookup_insert_eq. eauto.
  - rewrite lookup_insert_ne by done. eauto.
Qed.

(** ** A callback run in a new transaction *)
Lemma guarded_callback fuel σ f r σ' :
  sound σ → currentTransaction σ = None → entity_code fuel unit f →
  (beginTransaction None None ;; catch f (λ e, abortTransaction ;; throw e)) σ
  = Some (r, σ') →
  ∃ rf σ2 t,
    f (begun None None σ) = Some (rf, σ2) ∧
    sound σ2 ∧ same_manager (begun None None σ) σ2 ∧
    currentTransaction σ2 = Some t ∧
    match rf with
    | Ret _ => r = Ret tt ∧ σ' = σ2
    | Throw err => r = Throw err ∧ σ' = aborted t σ2
    end.
Proof.
  intros Hs Hidle Hf H. unfold bind at 1 in H.
  rewrite beginTransaction_eq in H. unfold inTransaction in H. rewrite Hidle in H.
  unfold catch in H.
  destruct (f (begun None None σ)) as [[rf σ2]|] eqn:Hrun; [|done].
  pose proof (begun_sound None None σ Hs Hidle) as Hs1.
  destruct (entity_code_safe _ _ _ Hf _ _ _ Hrun Hs1) as [Hs2 Hsm].
  destruct (begun_then_code _ _ Hs Hidle Hs2 Hsm) as (t & Ht & _).
  exists rf, σ2, t. split_and!; try done.
  destruct rf as [[]|err]; [by simplify_eq|].
  unfold bind in H. rewrite abortTransaction_eq, Ht in H.
  pose proof Hs2 as (((((Hw1 & _) & _) & _) & _) & _).
  destruct (Hw1 _ Ht) as [_ [fo Hfo]%lookup_lt_is_Some]. rewrite Hfo in H.
  unfold throw in H. by simplify_eq.
Qed.

(** ** Properties of the callers *)



(** ** Property reads and writes *)
Lemma getProp_setProp name value fields :
  getProp name (setProp name value fields) = Some value.
Proof.
  induction fields as [|[n v] fs IH]; simpl.
  - by rewrite decide_True.
  - destruct (decide (n = name)) as [->|Hne]; simpl.
    + by rewrite decide_True.
    + by rewrite decide_False.
Qed.

Lemma getProp_setProp_ne name name' value fields :
  name ≠ name' →
  getProp name (setProp name' value fields) = getProp name fields.
Proof.
  intros Hne. induction fields as [|[n v] fs IH]; simpl.
  - by rewrite decide_False.
  - destruct (decide (n = name')) as [->|Hne']; simpl.
    + by rewrite !decide_False.
    + destruct (decide (n = name)); [done|apply IH].
Qed.

Lemma property_get_eq fuel e k σ :
  property_get fuel e k σ =
  match ensureReadable fuel e σ with
  | None => None
  | Some (Throw err, σ1) => Some (Throw err, σ1)
  | Some (Ret _, σ1) =>
      Some (reads (states σ1) (entities σ1 !! e ≫= e_state) k, σ1)
  end.
Proof.
  unfold property_get, bind at 1.
  destruct (ensureReadable fuel e σ) as [[[[]|err] σ1]|]; [|done..].
  unfold bind, readEntity, readState, ret, throw, reads.
  destruct (entities σ1 !! e) as [eo|]; simpl; [|done].
  destruct (e_state eo) as [r|]; [|done].
  by destruct (states σ1 !! r).
Qed.

Lemma ensureWritable_eq fuel e σ :
  ensureWritable fuel e σ =
  match entities σ !! e with
  | None => Some (Throw TypeError, σ)
  | Some eo =>
      if bool_decide (e_transaction eo ≠ Some (currentTransactionNumber σ))
      then makeWritable fuel e σ
      else match e_state eo with
           | None => Some (Throw TypeError, σ)
           | Some r =>
               match states σ !! r with
               | None => Some (Throw TypeError, σ)
               | Some s =>
                   if bool_decide (s_min s ≠ Some (currentTransactionNumber σ))
                   then makeWritable fuel e σ
                   else Some (Ret tt, σ)
               end
           end
  end.
Proof.
  unfold ensureWritable, bind at 1, readEntity at 1.
  destruct (entities σ !! e) as [eo|]; [|done].
  unfold bind at 1, get at 1. case_bool_decide; [done|].
  destruct (e_state eo) as [r|]; [|done].
  unfold bind, readState. destruct (states σ !! r) as [s|]; [|done].
  by case_bool_decide.
Qed.

(** After an [ensureWritable] that returns, the entity points to a
    snapshot stamped with the current number, for the current number. *)
Lemma ensureWritable_cache fuel e σ σ1 :
  chain_inv σ → ensureWritable fuel e σ = Some (Ret tt, σ1) →
  ∃ eo1 r s,
    entities σ1 !! e = Some eo1 ∧
    e_transaction eo1 = Some (currentTransactionNumber σ1) ∧
    e_state eo1 = Some r ∧ states σ1 !! r = Some s ∧
    s_min s = Some (currentTransactionNumber σ1).
Proof.
  intros Hi H. rewrite ensureWritable_eq in H.
  assert (Hw : makeWritable fuel e σ = Some (Ret tt, σ1) →
    ∃ eo1 r s,
      entities σ1 !! e = Some eo1 ∧
      e_transaction eo1 = Some (currentTransactionNumber σ1) ∧
      e_state eo1 = Some r ∧ states σ1 !! r = Some s ∧
      s_min s = Some (currentTransactionNumber σ1)).
  { intros Hw. destruct (makeWritable_effect _ _ _ _ Hi Hw)
      as (t & eo & l1 & l2 & st & s & previous & _ & _ & _ & _ & _ & _ & _ & _
          & _ & _ & Hn & _ & He' & _ & _ & _ & Hsm).
    cbv zeta in *. destruct Hsm as (_ & _ & Hcur & _). rewrite Hcur.
    eexists _, _, _. split_and!; [exact He'|done|done|exact Hn|done]. }
  destruct (entities σ !! e) as [eo|] eqn:He; [|done].
  case_bool_decide as Hd; [by apply Hw|].
  destruct (e_state eo) as [r|] eqn:Hst; [|done].
  destruct (states σ !! r) as [s|] eqn:Hs; [|done].
  case_bool_decide as Hd2; [by apply Hw|].
  injection H as <-. exists eo, r, s. by split_and!.
Qed.

Lemma property_set_effect fuel e k v σ σ' :
  chain_inv σ → property_set fuel e k v σ = Some (Ret tt, σ') →
  ∃ σ1 eo1 r s,
    ensureWritable fuel e σ = Some (Ret tt, σ1) ∧
    entities σ1 !! e = Some eo1 ∧
    e_transaction eo1 = Some (currentTransactionNumber σ1) ∧
    e_state eo1 = Some r ∧ states σ1 !! r = Some s ∧
    s_min s = Some (currentTransactionNumber σ1) ∧
    σ' = set_states (alter (with_fields (setProp k v)) r (states σ1)) σ1.
Proof.
  intros Hi H. unfold property_set in H. unfold bind at 1 in H.
  destruct (ensureWritable fuel e σ) as [[[[]|err] σ1]|] eqn:Hw; [|done..].
  destruct (ensureWritable_cache _ _ _ _ Hi Hw) as (eo1 & r & s & He & Htr & Hst & Hs & Hm).
  exists σ1, eo1, r, s. split_and!; try done.
  unfold bind, readEntity in H. rewrite He, Hst in H.
  unfold updState, bind, readState, modify in H. rewrite Hs in H.
  by injection H as <-.
Qed.

(** ** A callback and the viewpoints of the others *)
Lemma others_kept_refl a I σ : others_kept a I σ σ.
Proof. split; [intros e; reflexivity|]. intros r s Hs _. eauto. Qed.

Lemma others_kept_trans a I σ1 σ2 σ3 :
  currentTransactionNumber σ2 = currentTransactionNumber σ1 →
  others_kept a I σ1 σ2 → others_kept a I σ2 σ3 → others_kept a I σ1 σ3.
Proof.
  intros Hcur [Hv1 Hf1] [Hv2 Hf2]. split.
  - intros e. by transitivity σ2.
  - intros r s Hs Hm. destruct (Hf1 _ _ Hs Hm) as (s' & Hs' & Hfl & Hm').
    destruct (Hf2 _ _ Hs') as (s'' & Hs'' & Hfl' & Hm''); [congruence|].
    exists s''. split_and!; [done|congruence|congruence].
Qed.

Lemma entity_step_others_kept fuel σ σ' a I :
  entity_step fuel σ σ' → chain_inv σ →
  isValid (Some (currentTransactionNumber σ)) a I = false →
  others_kept a I σ σ'.
Proof.
  intros Hstep Hi Hcur. split.
  - intros e. by eapply entity_step_view_kept.
  - intros r s Hs _.
    destruct (entity_step_snapshots_kept _ _ _ Hstep Hi) as [Hk _].
    destruct (Hk _ _ Hs) as (s' & ? & ? & ? & _). eauto.
Qed.

Lemma write_fields_others_kept σ r s g a I :
  states σ !! r = Some s → s_min s = Some (currentTransactionNumber σ) →
  others_kept a I σ (set_states (alter (with_fields g) r (states σ)) σ).
Proof.
  intros Hs Hm.
  pose proof (same_shape_alter (states σ) r g) as Hsh. split.
  - intros e eo l He Hc. simpl. exists eo, l. split_and!; [done| |].
    + by eapply same_shape_chain.
    + apply firstValid_ext. intros r' _.
      destruct (decide (r = r')) as [->|Hne].
      * by rewrite list_lookup_alter_eq, Hs.
      * by rewrite list_lookup_alter_ne.
  - intros r' s' Hs' Hm'. simpl.
    rewrite list_lookup_alter_ne; [eauto|]. intros ->. congruence.
Qed.

Lemma write_fields_step_others_kept σ r g a I x σ' :
  (∀ s, states σ !! r = Some s → s_min s = Some (currentTransactionNumber σ)) →
  updState r (with_fields g) σ = Some (x, σ') →
  others_kept a I σ σ' ∧ currentTransactionNumber σ' = currentTransactionNumber σ ∧
  (∀ s', states σ' !! r = Some s' →
         s_min s' = Some (currentTransactionNumber σ')).
Proof.
  intros Hm. unfold updState, bind, readState, modify.
  destruct (states σ !! r) as [s|] eqn:Hs; intros [= <- <-].
  - split_and!; [by eapply write_fields_others_kept; eauto|done|].
    simpl. rewrite list_lookup_alter_eq, Hs. simpl. intros s' [= <-]. simpl.
    by apply Hm.
  - split_and!; [apply others_kept_refl|done|]. by rewrite Hs.
Qed.

Lemma forEach_write_fields_others_kept (object : Fields) r a I : ∀ σ x σ',
  (∀ s, states σ !! r = Some s → s_min s = Some (currentTransactionNumber σ)) →
  forEach (λ kv : nat * Z, updState r (with_fields (setProp kv.1 kv.2))) object σ
  = Some (x, σ') →
  others_kept a I σ σ'.
Proof.
  induction object as [|kv object IH]; simpl; intros σ x σ' Hm.
  - intros [= <- <-]. apply others_kept_refl.
  - unfold bind.
    destruct (updState r _ σ) as [[[[]|err] σ1]|] eqn:E; [| |done].
    + destruct (write_fields_step_others_kept _ _ _ a I _ _ Hm E) as (Hk & Hc & Hm1).
      intros H. eapply others_kept_trans; [done|done|]. by eapply IH.
    + destruct (write_fields_step_others_kept _ _ _ a I _ _ Hm E) as (Hk & _).
      by intros [= <- <-].
Qed.

Lemma bound_others_kept fields σ a I :
  chain_inv σ → others_kept a I σ (bound fields σ).
Proof.
  intros Hi. split.
  - intros e eo l He Hc. simpl. rewrite (lookup_app_l_Some _ _ _ _ He).
    exists eo, l. split_and!; [done|by apply chain_alloc|].
    apply firstValid_ext. intros r Hr.
    destruct (chain_lookup _ _ _ _ Hc Hr) as [sr Hsr].
    by rewrite (lookup_app_l_Some _ _ _ _ Hsr), Hsr.
  - intros r s Hs _. simpl. rewrite (lookup_app_l_Some _ _ _ _ Hs). eauto.
Qed.

Lemma entity_code_others_kept fuel A (f : M A) a I :
  entity_code fuel A f →
  ∀ σ r σ', f σ = Some (r, σ') → sound σ →
    isValid (Some (currentTransactionNumber σ)) a I = false →
    others_kept a I σ σ'.
Proof.
  induction 1 as [A x|A err|A B m k Hm IHm Hk IHk|this name|this name value
                  |object|target Ht IHt]; intros σ r σ' H Hs Hcur.
  - injection H as <- <-. apply others_kept_refl.
  - injection H as <- <-. apply others_kept_refl.
  - unfold bind in H. destruct (m σ) as [[[x|err] σ1]|] eqn:E; [| |done].
    + destruct (entity_code_safe _ _ _ Hm _ _ _ E Hs) as [Hs1 Hsm].
      pose proof Hsm as (_ & _ & Hc & _).
      eapply others_kept_trans; [exact Hc|by eapply IHm|].
      eapply IHk; [done|done|by rewrite Hc].
    + injection H as <- <-. by eapply IHm.
  - rewrite property_get_eq in H.
    destruct (ensureReadable fuel this σ) as [[r1 σ1]|] eqn:E; [|done].
    assert (σ' = σ1) as -> by (destruct r1; by simplify_eq).
    eapply entity_step_others_kept; [|apply Hs|done].
    by eapply ensureReadable_entity_step.
  - pose proof Hs as ((_ & Hi & _) & _).
    unfold property_set in H. unfold bind at 1 in H.
    destruct (ensureWritable fuel this σ) as [[r1 σ1]|] eqn:E; [|done].
    assert (Hstep : entity_step fuel σ σ1).
    { apply (exec_entity_step fuel (EnsureWritable this) σ
               (match r1 with Ret _ => Ret VUndefined | Throw err => Throw err end));
        [done|done|].
      unfold exec, bind, ret. rewrite E. by destruct r1. }
    pose proof (entity_step_others_kept _ _ _ a I Hstep Hi Hcur) as Hk1.
    destruct r1 as [[]|err]; [|by injection H as <- <-].
    destruct (ensureWritable_cache _ _ _ _ Hi E) as (eo1 & r0 & s & He & Htr & Hst & Hs0 & Hm0).
    unfold bind, readEntity in H. rewrite He, Hst in H.
    assert (Hc : currentTransactionNumber σ1 = currentTransactionNumber σ).
    { pose proof (ensureWritable_same_manager _ _ _ _ _ E) as (_ & _ & Hc & _). done. }
    destruct (write_fields_step_others_kept σ1 r0 _ a I _ _
                ltac:(intros s'; rewrite Hs0; by intros [= <-]) H) as (Hk2 & _).
    by eapply others_kept_trans.
  - pose proof Hs as ((_ & Hi & _) & _).
    assert (Hm : (s <- allocState (mkState None None None None None []) ;;
                  m <- allocEntity (mkEntity None None None) ;;
                  bindState m s ;; ret (m, s)) σ
                 = Some (Ret (length (entities σ), length (states σ)), bound [] σ)).
    { unfold bound. munfold; simpl.
      repeat (first [rewrite list_lookup_middle by done | rewrite alter_snoc]; simpl).
      done. }
    unfold model in H. unfold bind, ret in Hm, H.
    destruct (allocState _ σ) as [[[s|] σa]|]; try done.
    destruct (allocEntity _ σa) as [[[m|] σb]|]; try done.
    destruct (bindState m s σb) as [[[[]|] σc]|]; try done.
    injection Hm as -> -> ->.
    destruct (forEach _ object (bound [] σ)) as [[rf σd]|] eqn:Hf; [|done].
    assert (σ' = σd) as -> by (destruct rf; by simplify_eq).
    eapply (others_kept_trans _ _ _ (bound [] σ)); [done|by apply bound_others_kept|].
    eapply forEach_write_fields_others_kept; [|exact Hf].
    intros s0. simpl. rewrite list_lookup_middle by done. by intros [= <-].
  - pose proof Hs as ((_ & Hi & _) & _).
    unfold entity in H. pose proof (fresh_bound σ) as Hb.
    unfold bind, ret in Hb, H.
    destruct (allocEntity _ σ) as [[[m|] σa]|]; try done.
    destruct (allocState _ σa) as [[[s|] σb]|]; try done.
    destruct (bindState m s σb) as [[[[]|] σc]|]; try done.
    injection Hb as -> ->.
    destruct (target _ (bound [] σ)) as [[rf σd]|] eqn:Hf; [|done].
    assert (σ' = σd) as -> by (destruct rf; by simplify_eq).
    assert (Hb2 : sound (bound [] σ)).
    { apply (exec_sound 0 (BindState []) σ
               (Ret (VEntity (length (entities σ))))); [|done].
      apply bindState_eq. }
    eapply (others_kept_trans _ _ _ (bound [] σ)); [done|by apply bound_others_kept|].
    by eapply IHt.
Qed.

(** ** What a transaction reads *)
Lemma stamp_le σ r s m :
  sound σ → states σ !! r = Some s → s_min s = Some m →
  m ≤ highestTransaction σ.
Proof.
  intros ((((_ & _ & Hh) & _ & (_ & Hn1 & _) & _) & _ & _ & Hst) & _) Hs Hm.
  destruct (Hst _ _ m Hs (or_introl Hm)) as [?|Hx]; [lia|by apply Hh].
Qed.

Lemma firstValid_views h l a I a' I' :
  (∀ r s m, r ∈ l → h !! r = Some s → s_min s = Some m →
            isValid (Some m) a I = isValid (Some m) a' I') →
  firstValid h a I l = firstValid h a' I' l.
Proof.
  induction l as [|x l IH]; intros Hl; simpl; [done|].
  assert (isValid (h !! x ≫= s_min) a I = isValid (h !! x ≫= s_min) a' I') as ->.
  { destruct (h !! x) as [s|] eqn:Hs; simpl; [|done].
    destruct (s_min s) as [m|] eqn:Hm; [|done].
    eapply Hl; [by left|done|done]. }
  rewrite IH; [done|]. intros r s m Hr. apply Hl. by right.
Qed.

Lemma firstValid_Some h a I l v :
  firstValid h a I l = Some v →
  v ∈ l ∧ ∃ s m, h !! v = Some s ∧ s_min s = Some m ∧
                 isValid (Some m) a I = true.
Proof.
  induction l as [|x l IH]; simpl; [done|].
  destruct (isValid (h !! x ≫= s_min) a I) eqn:Hx.
  - intros [= <-]. split; [by left|].
    destruct (h !! x) as [s|]; simpl in Hx; [|done].
    destruct (s_min s) as [m|] eqn:Hm; [|done]. eauto.
  - intros [? ?]%IH. split; [by right|done].
Qed.

Lemma property_get_in_transaction fuel e k σ t eo l r σ' :
  sound σ → currentTransaction σ = Some t →
  entities σ !! e = Some eo → chain (states σ) (e_previous eo) l →
  property_get fuel e k σ = Some (r, σ') →
  r = reads (states σ) (firstValid (states σ) (t_number t) (t_invalid t) l) k ∧
  states σ' = states σ.
Proof.
  intros Hs Ht He Hc H.
  pose proof Hs as (((((Hw1 & _) & _) & _) & Hi & _) & Ho & _ & _ & Hco).
  destruct (Hw1 _ Ht) as [Hcur _].
  rewrite property_get_eq in H.
  destruct (ensureReadable fuel e σ) as [[r1 σ1]|] eqn:E; [|done].
  apply ensureReadable_eq in E. rewrite He in E.
  case_bool_decide as Hd.
  - destruct E as (x & Hf & E). rewrite Ht, Hcur in Hf. simpl in Hf.
    pose proof (resolution_sound _ _ _ _ _ _ _ _ Hi Ho He Hc Hf) as ->.
    destruct E as [-> ->]. injection H as <- <-. split; [|done].
    simpl. by rewrite !list_lookup_alter_eq, He.
  - destruct E as [-> ->]. injection H as <- <-. split; [|done].
    rewrite He. simpl.
    rewrite (Hco t e eo l); [done|by left|done|congruence|done].
Qed.

Lemma property_get_total fuel e k σ eo :
  sound σ → entities σ !! e = Some eo →
  (length (states σ) ≤ fuel)%nat →
  is_Some (property_get fuel e k σ).
Proof.
  intros ((_ & Hi & _) & _) He Hfuel. rewrite property_get_eq.
  destruct (Hi _ _ He) as (l & Hc & _).
  pose proof (chain_length _ _ _ Hc) as Hlen.
  destruct (ensureReadable_total fuel e σ eo l He Hc ltac:(lia)) as [[[[]|err] σ1] ->];
    eauto.
Qed.

(** What a transaction begun now reads in the property [k] of [e]. *)
Lemma fresh_read fuel e k σ eo l :
  sound σ → currentTransaction σ = None →
  entities σ !! e = Some eo → chain (states σ) (e_previous eo) l →
  (length (states σ) ≤ fuel)%nat →
  fst <$> (beginTransaction None None ;; property_get fuel e k) σ
  = Some (reads (states σ)
            (firstValid (states σ) (highestTransaction σ + 1) (currentInvalid σ) l) k).
Proof.
  intros Hs Hidle He Hc Hfuel.
  pose proof (begun_sound None None σ Hs Hidle) as Hs1.
  unfold bind. rewrite beginTransaction_eq. unfold inTransaction. rewrite Hidle.
  destruct (property_get_total fuel e k (begun None None σ) eo Hs1 He Hfuel)
    as [[r σ'] Hg].
  rewrite Hg. simpl.
  destruct (property_get_in_transaction fuel e k (begun None None σ) _ eo l r σ'
              Hs1 eq_refl He Hc Hg) as [-> _].
  done.
Qed.

(** ** A callback seen from the next transaction *)
Lemma property_get_cached fuel e k σ eo :
  entities σ !! e = Some eo →
  e_transaction eo = Some (currentTransactionNumber σ) →
  property_get fuel e k σ = Some (reads (states σ) (e_state eo) k, σ).
Proof.
  intros He Htr. rewrite property_get_eq.
  unfold ensureReadable, bind, readEntity, get. rewrite He.
  rewrite bool_decide_eq_false_2 by (intros Hne; by apply Hne).
  unfold ret. by rewrite He.
Qed.

Lemma own_write_read fuel fuel' e k v σ σ1 :
  chain_inv σ → property_set fuel e k v σ = Some (Ret tt, σ1) →
  property_get fuel' e k σ1 = Some (Ret (Some v), σ1).
Proof.
  intros Hi H.
  destruct (property_set_effect _ _ _ _ _ _ Hi H)
    as (σ0 & eo1 & r & s & _ & He & Htr & Hst & Hs & _ & ->).
  rewrite (property_get_cached fuel' e k _ eo1); [|done|done].
  rewrite Hst. simpl. rewrite list_lookup_alter_eq, Hs. simpl.
  by rewrite getProp_setProp.
Qed.

(** The callback of a transaction that was then aborted or paused cannot
    be seen from a transaction begun afterwards. *)
Lemma callback_hidden fuel1 fuel f σ σ2 σ' rf e eo k :
  sound σ → currentTransaction σ = None →
  entity_code fuel1 unit f →
  f (begun None None σ) = Some (rf, σ2) →
  sound σ' → currentTransaction σ' = None →
  states σ' = states σ2 → entities σ' = entities σ2 →
  highestTransaction σ' = highestTransaction σ + 1 →
  is_Some (openTransactions σ' !! (highestTransaction σ + 1)) →
  (∀ m, m ≠ highestTransaction σ + 1 →
        openTransactions σ' !! m = openTransactions σ !! m) →
  entities σ !! e = Some eo →
  (length (states σ') ≤ fuel)%nat →
  fst <$> (beginTransaction None None ;; property_get fuel e k) σ'
  = fst <$> (beginTransaction None None ;; property_get fuel e k) σ.
Proof.
  intros Hs Hidle Hf Hrun Hs' Hidle' Hst' Hen' HhT Hn Hoth He Hfuel.
  pose proof (begun_sound None None σ Hs Hidle) as Hs1.
  pose proof Hs as ((Hm & Hi & _) & _).
  pose proof Hs' as ((Hm' & Hi' & _) & _).
  destruct (Hi _ _ He) as (l & Hc & _).
  set (n := highestTransaction σ + 1) in *.
  assert (Hinval : isValid (Some n) (n + 1) (currentInvalid σ') = false).
  { unfold isValid. rewrite (currentInvalid_lookup _ _ (proj1 (proj2 Hm'))).
    destruct Hn as [x ->]. simpl. by destruct (n <=? n + 1). }
  destruct (entity_code_others_kept _ _ _ (n + 1) (currentInvalid σ') Hf _ _ _
              Hrun Hs1 Hinval) as [Hview Hfields].
  destruct (Hview e eo l He Hc) as (eo2 & l2 & He2 & Hc2 & Hfv).
  rewrite <- Hst' in Hc2, Hfv, Hfields. rewrite <- Hen' in He2.
  assert (Hall : ∀ r s, states σ !! r = Some s →
            ∃ s', states σ' !! r = Some s' ∧ s_fields s' = s_fields s).
  { intros r s Hr. destruct (Hfields r s Hr) as (s' & ? & ? & _); [|eauto].
    simpl. intros Hmin. pose proof (stamp_le _ _ _ _ Hs Hr Hmin). lia. }
  assert (Hlen : (length (states σ) ≤ length (states σ'))%nat).
  { destruct (states σ) as [|s0 h] eqn:Eh using rev_ind; [simpl; lia|].
    destruct (Hall (length h) s0) as (s' & Hs0 & _).
    { by rewrite list_lookup_middle. }
    apply lookup_lt_Some in Hs0. rewrite length_app. simpl. lia. }
  rewrite (fresh_read fuel e k σ' eo2 l2), (fresh_read fuel e k σ eo l);
    try done; [|lia].
  rewrite HhT. fold n. simpl in Hfv. rewrite Hfv. f_equal.
  rewrite (firstValid_views (states σ) l (n + 1) (currentInvalid σ')
             n (currentInvalid σ)).
  - destruct (firstValid (states σ) n (currentInvalid σ) l) as [v|] eqn:Hv; [|done].
    apply firstValid_Some in Hv as (_ & s & m & Hsv & _).
    destruct (Hall _ _ Hsv) as (s' & Hs'v & Hfl). simpl.
    by rewrite Hs'v, Hsv, Hfl.
  - intros r s m _ Hr Hmin. pose proof (stamp_le _ _ _ _ Hs Hr Hmin) as Hle.
    unfold isValid.
    rewrite (currentInvalid_lookup _ _ (proj1 (proj2 Hm'))),
            (currentInvalid_lookup _ _ (proj1 (proj2 Hm))).
    rewrite Hoth by lia.
    rewrite (proj2 (Z.leb_le m (n + 1))), (proj2 (Z.leb_le m n)) by lia. done.
Qed.

(** What the transaction of [transaction(f)] sees at its end is what the
    next transaction sees. *)
Lemma committed_view σ2 t fo m :
  sound σ2 → currentTransaction σ2 = Some t →
  (∀ k, t_invalid t !! k = Some true → is_Some (openTransactions σ2 !! k)) →
  t_number t = highestTransaction σ2 →
  m ≤ highestTransaction σ2 →
  isValid (Some m) (highestTransaction (committed σ2 t fo) + 1)
    (currentInvalid (committed σ2 t fo))
  = isValid (Some m) (t_number t) (t_invalid t).
Proof.
  intros Hs Ht Hkept Hn Hle.
  pose proof Hs as ((Hm & _) & _).
  pose proof Hm as (((Hw1 & _) & _) & Htab & _ & _ & Hinv).
  destruct (Hw1 _ Ht) as [Hcur _].
  destruct (Hinv t (or_introl Ht)) as [Hi1 Hi2].
  unfold isValid, currentInvalid, committed. simpl.
  rewrite (proj2 (Z.leb_le m _)) by lia.
  rewrite (proj2 (Z.leb_le m _)) by lia.
  rewrite lookup_fmap.
  destruct (decide (m = t_number t)) as [->|Hne].
  - rewrite map_lookup_filter_None_2.
    2:{ left. rewrite Hcur. apply lookup_delete_eq. }
    simpl. destruct (t_invalid t !! t_number t) as [b|] eqn:Hb; [|done].
    destruct (Hi1 _ _ Hb). lia.
  - destruct (openTransactions σ2 !! m) as [st|] eqn:Hst.
    + erewrite map_lookup_filter_Some_2.
      2:{ rewrite lookup_delete_ne by congruence. exact Hst. }
      2:{ simpl. by eapply Htab. }
      simpl. rewrite (Hi2 m); [done|lia|eauto].
    + rewrite map_lookup_filter_None_2.
      2:{ left. rewrite lookup_delete_ne by congruence. done. }
      simpl. destruct (t_invalid t !! m) as [b|] eqn:Hb; [|done].
      destruct (Hi1 _ _ Hb) as [-> _]. destruct (Hkept _ Hb) as [? ?]. congruence.
Qed.

Lemma committed_sound fuel σ2 t fo :
  sound σ2 → currentTransaction σ2 = Some t →
  commitTransaction fuel σ2 = Some (Ret (t_mutated t), committed σ2 t fo) →
  sound (committed σ2 t fo).
Proof.
  intros Hs Ht Hc.
  apply (exec_sound fuel CommitTransaction σ2 (Ret (VChanged (t_mutated t))));
    [|done].
  unfold exec, bind, ret. by rewrite Hc.
Qed.

Lemma callback_committed fuel1 fuel fuel2 f σ σ' log :
  sound σ → currentTransaction σ = None →
  entity_code fuel1 unit f →
  transaction fuel f σ = Some (Ret log, σ') →
  ∃ σ2, f (begun None None σ) = Some (Ret tt, σ2) ∧ sound σ2 ∧
    ∀ e eo2 k, entities σ2 !! e = Some eo2 →
      (length (states σ2) ≤ fuel2)%nat →
      fst <$> (beginTransaction None None ;; property_get fuel2 e k) σ'
      = fst <$> property_get fuel2 e k σ2.
Proof.
  intros Hs Hidle Hf H. unfold transaction in H.
  assert (Hg : ∃ rg σg,
    (beginTransaction None None ;; catch f (λ e, abortTransaction ;; throw e)) σ
    = Some (rg, σg) ∧
    match rg with
    | Ret _ => commitTransaction fuel σg = Some (Ret log, σ')
    | Throw err => False
    end).
  { unfold bind in H |- *.
    destruct (beginTransaction None None σ) as [[[fr|err] σa]|]; [| |done].
    - destruct (catch f _ σa) as [[[[]|err] σb]|]; [| |done].
      + eexists _, _. split; [done|]. done.
      + done.
    - done. }
  destruct Hg as (rg & σg & Hg & Hrest).
  destruct (guarded_callback _ _ _ _ _ Hs Hidle Hf Hg)
    as (rf & σ2 & t & Hrun2 & Hs2 & Hsm & Ht & Hcase).
  destruct (begun_then_code _ _ Hs Hidle Hs2 Hsm)
    as (t' & Ht' & Hn & Hcur & HhC & Hop & Hlt & Hkept).
  rewrite Ht in Ht'. injection Ht' as <-.
  destruct rf as [[]|err]; [|by destruct Hcase as [-> _]].
  destruct Hcase as [-> ->].
  destruct (commit_unopposed_sound _ _ _ _ _ (proj1 Hs2) Ht Hlt Hkept Hrest)
    as (fo & Hfo & Hlog & ->).
  exists σ2. split_and!; [done|done|].
  intros e eo2 k He2 Hfuel.
  assert (Hs' : sound (committed σ2 t fo)).
  { eapply committed_sound; [done|done|]. by rewrite <- Hlog. }
  pose proof Hs2 as ((_ & Hi2 & _) & _).
  destruct (Hi2 _ _ He2) as (l2 & Hc2 & _).
  rewrite (fresh_read fuel2 e k (committed σ2 t fo) eo2 l2); try done.
  destruct (property_get_total fuel2 e k σ2 eo2 Hs2 He2 Hfuel) as [[r σ3] Hget].
  destruct (property_get_in_transaction _ _ _ _ _ _ _ _ _ Hs2 Ht He2 Hc2 Hget)
    as [-> _].
  rewrite Hget. simpl. f_equal.
  assert (HhT2 : highestTransaction σ2 = t_number t).
  { destruct Hsm as (-> & _). simpl. lia. }
  rewrite (firstValid_views (states σ2) l2 _ _ (t_number t) (t_invalid t)); [done|].
  intros r s m _ Hr Hmin. apply committed_view; try done.
  by eapply stamp_le.
Qed.

(** X12.  In an engine that calls, property reads and writes and new
    models have reached, the state an entity caches for a transaction
    that is active or paused is the state [findVisible] resolves the
    entity to from that transaction's viewpoint: [makeReadable] would
    change nothing. *)
Theorem cached_state_is_the_resolved_state (fuel0 fuel : nat)
    (acts : list action) (σ : Engine) (t : Transaction) (e : eref) (eo : EntityObj) :
  session fuel0 acts initial = Some σ →
  live σ t →
  entities σ !! e = Some eo →
  e_transaction eo = Some (t_number t) →
  (length (states σ) ≤ fuel)%nat →
  findVisible fuel (states σ) (e_previous eo) (t_number t) (t_invalid t)
  = Some (Ret (e_state eo)).
Proof.
  intros Hrun Hl He Htr Hfuel.
  pose proof (session_reachable_sound _ _ _ Hrun) as Hs.
  pose proof Hs as ((_ & Hi & _) & _ & _ & _ & Hco).
  destruct (Hi _ _ He) as (l & Hc & _).
  rewrite (resolution_by_min fuel σ e eo l _ _ Hs He Hc Hfuel).
  by rewrite (Hco t e eo l Hl He Htr Hc).
Qed.

Lemma cached_state_is_the_resolved_state_witness :
  findVisible 3 (states (session_after 3
      [Model [(0%nat, 499)]; Call (BeginTransaction None None);
       Write 0%nat 0%nat 500; Call PauseTransaction;
       Call (BeginTransaction None None); Read 0%nat 0%nat]))
    (Some 1%nat) 2 (currentInvalid (session_after 3
      [Model [(0%nat, 499)]; Call (BeginTransaction None None);
       Write 0%nat 0%nat 500; Call PauseTransaction]))
  = Some (Ret (Some 0%nat)).
Proof.
  apply (cached_state_is_the_resolved_state 3 3
    [Model [(0%nat, 499)]; Call (BeginTransaction None None);
     Write 0%nat 0%nat 500; Call PauseTransaction;
     Call (BeginTransaction None None); Read 0%nat 0%nat]
    (session_after 3
      [Model [(0%nat, 499)]; Call (BeginTransaction None None);
       Write 0%nat 0%nat 500; Call PauseTransaction;
       Call (BeginTransaction None None); Read 0%nat 0%nat])
    (mkTransaction 2 [] (currentInvalid (session_after 3
      [Model [(0%nat, 499)]; Call (BeginTransaction None None);
       Write 0%nat 0%nat 500; Call PauseTransaction])) 1%nat)
    0%nat (mkEntity (Some 2) (Some 1%nat) (Some 0%nat))).
  all: try by vm_compute.
  - left. by vm_compute.
  - vm_compute. lia.
Defined.

(** X13.  A property written through the setter of a [@state] property
    reads back through its getter: after [e.k = v] returns, [e.k] is [v]
    and the read changes nothing. *)
Theorem written_property_reads_back (fuel0 fuel fuel' : nat)
    (acts : list action) (σ σ1 : Engine) (e : eref) (k : nat) (v : Z) :
  session fuel0 acts initial = Some σ →
  property_set fuel e k v σ = Some (Ret tt, σ1) →
  property_get fuel' e k σ1 = Some (Ret (Some v), σ1).
Proof.
  intros Hrun H.
  pose proof (session_reachable_sound _ _ _ Hrun) as ((_ & Hi & _) & _).
  by eapply own_write_read.
Qed.

Lemma written_property_reads_back_witness :
  property_get 0 0%nat 0%nat
    (session_after 2 [Model [(0%nat, 499)]; Call (BeginTransaction None None);
                      Write 0%nat 0%nat 500])
  = Some (Ret (Some 500),
          session_after 2 [Model [(0%nat, 499)]; Call (BeginTransaction None None);
                           Write 0%nat 0%nat 500]).
Proof.
  apply (written_property_reads_back 2 2 0
    [Model [(0%nat, 499)]; Call (BeginTransaction None None)]
    (session_after 2 [Model [(0%nat, 499)]; Call (BeginTransaction None None)])
    (session_after 2 [Model [(0%nat, 499)]; Call (BeginTransaction None None);
                      Write 0%nat 0%nat 500])
    0%nat 0%nat 500).
  all: by vm_compute.
Defined.

(** X14.  What the callback of [transaction(f)] wrote before it threw is
    invisible afterwards: a transaction begun after the failed
    [transaction(f)] reads in every property of every entity that was
    there what a transaction begun in its place would have read. *)
Theorem aborted_callback_is_invisible (fuel0 fuel1 fuel fuel2 : nat)
    (acts : list action) (σ σ' : Engine) (f : M unit) (err : error)
    (e : eref) (k : nat) :
  session fuel0 acts initial = Some σ →
  currentTransaction σ = None →
  entity_code fuel1 unit f →
  transaction fuel f σ = Some (Throw err, σ') →
  is_Some (entities σ !! e) →
  (length (states σ') ≤ fuel2)%nat →
  fst <$> (beginTransaction None None ;; property_get fuel2 e k) σ'
  = fst <$> (beginTransaction None None ;; property_get fuel2 e k) σ.
Proof.
  intros Hrun Hidle Hf H [eo He] Hfuel.
  pose proof (session_reachable_sound _ _ _ Hrun) as Hs.
  unfold transaction in H.
  assert (Hg : ∃ rg σg,
    (beginTransaction None None ;; catch f (λ e, abortTransaction ;; throw e)) σ
    = Some (rg, σg) ∧
    match rg with
    | Ret _ => commitTransaction fuel σg = Some (Throw err, σ')
    | Throw err' => σ' = σg
    end).
  { unfold bind in H |- *.
    destruct (beginTransaction None None σ) as [[[fr|err'] σa]|]; [| |done].
    - destruct (catch f _ σa) as [[[[]|err'] σb]|]; [| |done].
      + eexists _, _. split; [done|]. done.
      + eexists _, _. split; [done|]. by simplify_eq.
    - eexists _, _. split; [done|]. by simplify_eq. }
  destruct Hg as (rg & σg & Hg & Hrest).
  destruct (guarded_callback _ _ _ _ _ Hs Hidle Hf Hg)
    as (rf & σ2 & t & Hrun2 & Hs2 & Hsm & Ht & Hcase).
  destruct (begun_then_code _ _ Hs Hidle Hs2 Hsm)
    as (t' & Ht' & Hn & Hcur & HhC & Hop & Hlt & Hkept).
  rewrite Ht in Ht'. injection Ht' as <-.
  destruct rf as [[]|err'].
  { destruct Hcase as [-> ->].
    destruct (commit_unopposed_sound _ _ _ _ _ (proj1 Hs2) Ht Hlt Hkept Hrest)
      as (fo & _ & ? & _). done. }
  destruct Hcase as [-> ->]. subst σ'.
  assert (Hs' : sound (aborted t σ2)).
  { apply (exec_sound 0 AbortTransaction σ2 (Ret VUndefined)); [|done].
    unfold exec, bind, ret. rewrite abortTransaction_eq, Ht.
    pose proof Hs2 as (((((Hw1 & _) & _) & _) & _) & _).
    destruct (Hw1 _ Ht) as [_ [fo Hfo]%lookup_lt_is_Some]. by rewrite Hfo. }
  apply (callback_hidden fuel1 fuel2 f σ σ2 (aborted t σ2) (Throw err') e eo k);
    try done.
  - simpl. by destruct Hsm as (-> & _).
  - simpl. rewrite Hcur, lookup_insert_eq. eauto.
  - intros m Hm. simpl. rewrite Hcur, lookup_insert_ne by done.
    rewrite Hop. by rewrite lookup_insert_ne.
Qed.

Lemma aborted_callback_is_invisible_witness :
  fst <$> (beginTransaction None None ;; property_get 2 0%nat 0%nat)
    (default initial
       (snd <$> transaction 2 (property_set 2 0%nat 0%nat 500 ;; throw TypeError)
                  (session_after 2 [Model [(0%nat, 499)]])))
  = fst <$> (beginTransaction None None ;; property_get 2 0%nat 0%nat)
      (session_after 2 [Model [(0%nat, 499)]]).
Proof.
  apply (aborted_callback_is_invisible 2 2 2 2 [Model [(0%nat, 499)]]
    (session_after 2 [Model [(0%nat, 499)]])
    (default initial
       (snd <$> transaction 2 (property_set 2 0%nat 0%nat 500 ;; throw TypeError)
                  (session_after 2 [Model [(0%nat, 499)]])))
    (property_set 2 0%nat 0%nat 500 ;; throw TypeError) TypeError 0%nat 0%nat).
  all: try by vm_compute.
  all: try (vm_compute; lia).
  all: try (vm_compute; by eauto).
  apply ec_bind; [apply ec_set|intros; apply ec_throw].
Defined.

(** X15.  What the callback of [paused(f)] wrote is invisible to others
    while the transaction stays paused: a transaction begun after
    [paused(f)] returned reads in every property of every entity that was
    there what a transaction begun in its place would have read. *)
Theorem paused_callback_is_invisible (fuel0 fuel1 fuel2 : nat)
    (acts : list action) (σ σ' : Engine) (f : M unit) (id : PauseId)
    (e : eref) (k : nat) :
  session fuel0 acts initial = Some σ →
  currentTransaction σ = None →
  entity_code fuel1 unit f →
  paused f σ = Some (Ret id, σ') →
  is_Some (entities σ !! e) →
  (length (states σ') ≤ fuel2)%nat →
  fst <$> (beginTransaction None None ;; property_get fuel2 e k) σ'
  = fst <$> (beginTransaction None None ;; property_get fuel2 e k) σ.
Proof.
  intros Hrun Hidle Hf H [eo He] Hfuel.
  pose proof (session_reachable_sound _ _ _ Hrun) as Hs.
  unfold paused in H.
  assert (Hg : ∃ σg,
    (beginTransaction None None ;; catch f (λ e, abortTransaction ;; throw e)) σ
    = Some (Ret tt, σg) ∧ pauseTransaction σg = Some (Ret id, σ')).
  { unfold bind in H |- *.
    destruct (beginTransaction None None σ) as [[[fr|err'] σa]|]; [| |done].
    - destruct (catch f _ σa) as [[[[]|err'] σb]|]; [| |done].
      + eexists. split; [done|]. done.
      + done.
    - done. }
  destruct Hg as (σg & Hg & Hrest).
  destruct (guarded_callback _ _ _ _ _ Hs Hidle Hf Hg)
    as (rf & σ2 & t & Hrun2 & Hs2 & Hsm & Ht & Hcase).
  destruct (begun_then_code _ _ Hs Hidle Hs2 Hsm)
    as (t' & Ht' & Hn & Hcur & HhC & Hop & Hlt & Hkept).
  rewrite Ht in Ht'. injection Ht' as <-.
  destruct rf as [[]|err']; [|by destruct Hcase].
  destruct Hcase as [_ ->].
  pose proof Hs2 as (((((Hw1 & _) & _) & _) & _) & _).
  destruct (Hw1 _ Ht) as [_ [fo Hfo]%lookup_lt_is_Some].
  rewrite pauseTransaction_eq, Ht, Hfo in Hrest.
  assert (σ' = suspended t σ2) as -> by congruence.
  assert (Hs' : sound (suspended t σ2)).
  { apply (exec_sound 0 PauseTransaction σ2
             (Ret (VPauseId (length (pausedTransactions σ2))))); [|done].
    unfold exec, bind, ret. by rewrite pauseTransaction_eq, Ht, Hfo. }
  apply (callback_hidden fuel1 fuel2 f σ σ2 (suspended t σ2) (Ret tt) e eo k);
    try done.
  - simpl. by destruct Hsm as (-> & _).
  - simpl. rewrite Hop, lookup_insert_eq. eauto.
  - intros m Hm. simpl. rewrite Hop. by rewrite lookup_insert_ne.
Qed.

Lemma paused_callback_is_invisible_witness :
  fst <$> (beginTransaction None None ;; property_get 2 0%nat 0%nat)
    (default initial
       (snd <$> paused (property_set 2 0%nat 0%nat 500)
                  (session_after 2 [Model [(0%nat, 499)]])))
  = fst <$> (beginTransaction None None ;; property_get 2 0%nat 0%nat)
      (session_after 2 [Model [(0%nat, 499)]]).
Proof.
  apply (paused_callback_is_invisible 2 2 2 [Model [(0%nat, 499)]]
    (session_after 2 [Model [(0%nat, 499)]])
    (default initial
       (snd <$> paused (property_set 2 0%nat 0%nat 500)
                  (session_after 2 [Model [(0%nat, 499)]])))
    (property_set 2 0%nat 0%nat 500) 0%nat 0%nat 0%nat).
  all: try by vm_compute.
  all: try (vm_compute; lia).
  all: try (vm_compute; by eauto).
  apply ec_set.
Defined.

(** X16.  What the transaction of [transaction(f)] read at its end is what
    the next transaction reads: when [transaction(f)] returns, a
    transaction begun afterwards reads in every property of every entity
    what a read at the end of [f] gave. *)
Theorem committed_callback_is_visible (fuel0 fuel1 fuel fuel2 : nat)
    (acts : list action) (σ σ' : Engine) (f : M unit) (log : list ref) :
  session fuel0 acts initial = Some σ →
  currentTransaction σ = None →
  entity_code fuel1 unit f →
  transaction fuel f σ = Some (Ret log, σ') →
  ∃ σ2, f (begun None None σ) = Some (Ret tt, σ2) ∧
    ∀ e k, is_Some (entities σ2 !! e) →
      (length (states σ2) ≤ fuel2)%nat →
      fst <$> (beginTransaction None None ;; property_get fuel2 e k) σ'
      = fst <$> property_get fuel2 e k σ2.
Proof.
  intros Hrun Hidle Hf H.
  pose proof (session_reachable_sound _ _ _ Hrun) as Hs.
  destruct (callback_committed fuel1 fuel fuel2 f σ σ' log Hs Hidle Hf H)
    as (σ2 & Hrun2 & _ & Hread).
  exists σ2. split; [done|]. intros e k [eo2 He2]. by eapply Hread.
Qed.

Lemma committed_callback_is_visible_witness :
  ∃ σ2, property_set 2 0%nat 0%nat 500
          (begun None None (session_after 2 [Model [(0%nat, 499)]]))
        = Some (Ret tt, σ2) ∧
    ∀ e k, is_Some (entities σ2 !! e) →
      (length (states σ2) ≤ 2)%nat →
      fst <$> (beginTransaction None None ;; property_get 2 e k)
        (default initial
           (snd <$> transaction 2 (property_set 2 0%nat 0%nat 500)
                      (session_after 2 [Model [(0%nat, 499)]])))
      = fst <$> property_get 2 e k σ2.
Proof.
  apply (committed_callback_is_visible 2 2 2 2 [Model [(0%nat, 499)]]
    (session_after 2 [Model [(0%nat, 499)]])
    (default initial
       (snd <$> transaction 2 (property_set 2 0%nat 0%nat 500)
                  (session_after 2 [Model [(0%nat, 499)]])))
    (property_set 2 0%nat 0%nat 500) [1%nat]).
  all: try by vm_compute.
  apply ec_set.
Defined.

(** X17.  A committed write lasts: when [transaction(() => e.k = v)]
    returns, a transaction begun afterwards reads [v] in [e.k]. *)
Theorem committed_write_is_read_by_the_next_transaction
    (fuel0 fuel1 fuel fuel2 : nat)
    (acts : list action) (σ σ' : Engine) (e : eref) (k : nat) (v : Z)
    (log : list ref) :
  session fuel0 acts initial = Some σ →
  currentTransaction σ = None →
  transaction fuel (property_set fuel1 e k v) σ = Some (Ret log, σ') →
  (length (states σ') ≤ fuel2)%nat →
  fst <$> (beginTransaction None None ;; property_get fuel2 e k) σ'
  = Some (Ret (Some v)).
Proof.
  intros Hrun Hidle H Hfuel.
  pose proof (session_reachable_sound _ _ _ Hrun) as Hs.
  assert (Hf : entity_code fuel1 unit (property_set fuel1 e k v)) by apply ec_set.
  destruct (callback_committed fuel1 fuel fuel2 _ σ σ' log Hs Hidle Hf H)
    as (σ2 & Hrun2 & Hs2 & Hread).
  pose proof (begun_sound None None σ Hs Hidle) as Hs1.
  pose proof (own_write_read fuel1 fuel2 e k v _ σ2
                (proj1 (proj2 (proj1 Hs1))) Hrun2) as Hget.
  assert (He2 : is_Some (entities σ2 !! e)).
  { destruct (property_set_effect _ _ _ _ _ _ (proj1 (proj2 (proj1 Hs1))) Hrun2)
      as (σ0 & eo1 & r & s & _ & He & _ & _ & _ & _ & ->). simpl. eauto. }
  destruct He2 as [eo2 He2].
  rewrite (Hread e eo2 k He2), Hget; [done|].
  unfold transaction in H.
  assert (states σ' = states σ2) as <-; [|done].
  destruct (guarded_callback fuel1 σ (property_set fuel1 e k v) (Ret tt) σ2 Hs Hidle Hf)
    as (rf & σ2' & t & Hrun2' & _ & Hsm & Ht & Hcase).
  { unfold bind at 1. rewrite beginTransaction_eq. unfold inTransaction.
    rewrite Hidle. unfold catch. by rewrite Hrun2. }
  rewrite Hrun2 in Hrun2'. injection Hrun2' as <- <-.
  destruct (begun_then_code _ _ Hs Hidle Hs2 Hsm)
    as (t' & Ht' & Hn & Hcur & HhC & Hop & Hlt & Hkept).
  rewrite Ht in Ht'. injection Ht' as <-.
  assert (Hc : commitTransaction fuel σ2 = Some (Ret log, σ')).
  { unfold bind at 1 in H. rewrite beginTransaction_eq in H.
    unfold inTransaction in H. rewrite Hidle in H.
    unfold bind at 1 in H. unfold catch in H. rewrite Hrun2 in H. done. }
  destruct (commit_unopposed_sound _ _ _ _ _ (proj1 Hs2) Ht Hlt Hkept Hc)
    as (fo & _ & _ & ->). done.
Qed.

Lemma committed_write_is_read_by_the_next_transaction_witness :
  fst <$> (beginTransaction None None ;; property_get 2 0%nat 0%nat)
    (default initial
       (snd <$> transaction 2 (property_set 2 0%nat 0%nat 500)
                  (session_after 2 [Model [(0%nat, 499)]])))
  = Some (Ret (Some 500)).
Proof.
  apply (committed_write_is_read_by_the_next_transaction 2 2 2 2
    [Model [(0%nat, 499)]]
    (session_after 2 [Model [(0%nat, 499)]])
    (default initial
       (snd <$> transaction 2 (property_set 2 0%nat 0%nat 500)
                  (session_after 2 [Model [(0%nat, 499)]])))
    0%nat 0%nat 500 [1%nat]).
  all: by vm_compute.
Defined.

(** ** The first committer wins *)
(** A viewpoint that accepts a snapshot of the chain resolves to that
    snapshot or to a newer one. *)
Lemma firstValid_ge h a I l rb sb b :
  descending h l →
  rb ∈ l → h !! rb = Some sb → s_min sb = Some b →
  isValid (Some b) a I = true →
  ∃ y sy my, firstValid h a I l = Some y ∧ y ∈ l ∧ h !! y = Some sy ∧
             s_min sy = Some my ∧ b ≤ my ∧ isValid (Some my) a I = true.
Proof.
  intros Hd Hin Hsb Hb Hv. induction l as [|x l IH]; [by apply elem_of_nil in Hin|].
  unfold descending in Hd. simpl in Hd. apply StronglySorted_inv in Hd as [Hd Hx].
  simpl. destruct (isValid (h !! x ≫= s_min) a I) eqn:Hvx.
  - destruct (h !! x) as [sx|] eqn:Hsx; [|done]. simpl in Hvx.
    destruct (s_min sx) as [mx|] eqn:Hmx; [|done].
    exists x, sx, mx. split_and!; try done; [by left|].
    apply elem_of_cons in Hin as [->|Hin].
    { assert (mx = b) by congruence. lia. }
    rewrite Forall_forall in Hx.
    specialize (Hx (key h rb) ltac:(by apply list_elem_of_fmap_2)).
    by rewrite (key_min _ _ _ _ Hsb Hb), (key_min _ _ _ _ Hsx Hmx) in Hx.
  - apply elem_of_cons in Hin as [->|Hin].
    { rewrite Hsb in Hvx. simpl in Hvx. rewrite Hb in Hvx. congruence. }
    destruct (IH Hd Hin) as (y & sy & my & ? & ? & ? & ? & ? & ?).
    exists y, sy, my. split_and!; try done. by right.
Qed.

Lemma elem_of_spliced {A} (l1 l2 : list A) n x :
  x ∈ l1 ++ n :: l2 → x ≠ n → x ∈ l1 ++ l2.
Proof. rewrite !elem_of_app, elem_of_cons. naive_solver. Qed.

Lemma forEach_returned {A} (f : A → M unit) l σ σ' :
  (∀ x, preserves eq (f x)) →
  forEach f l σ = Some (Ret tt, σ') →
  ∀ x, x ∈ l → f x σ = Some (Ret tt, σ).
Proof.
  intros Hf. induction l as [|y l IH]; simpl; intros H x Hx;
    [by apply elem_of_nil in Hx|].
  unfold bind in H. destruct (f y σ) as [[[[]|err] σ1]|] eqn:E; [|done..].
  pose proof (Hf _ _ _ _ E) as <-.
  apply elem_of_cons in Hx as [->|Hx]; [done|]. by apply IH.
Qed.

(** A commit that returns passed its check. *)
Lemma commit_returned fuel σ t x σ' :
  sound σ → currentTransaction σ = Some t →
  commitTransaction fuel σ = Some (Ret x, σ') → unopposed σ t.
Proof.
  intros Hs Ht H.
  pose proof Hs as (((((Hw1 & _) & _) & _) & Hi & _) & Ho & _).
  destruct (Hw1 _ Ht) as [Hcur _].
  apply commitTransaction_result in H. rewrite Ht in H.
  destruct H as (rc & Hrc & H). rewrite Hcur in Hrc.
  destruct rc as [[]|err]; [|by destruct (frames σ !! t_frame t); [destruct H|]].
  intros r s e eo l Hr Hsr He Heo Hc.
  pose proof (forEach_returned _ _ _ _ (checkCollision_readonly _ _ _ _) Hrc r Hr)
    as Hck.
  unfold checkCollision in Hck. unfold bind at 1, readState at 1 in Hck.
  rewrite Hsr, He in Hck. unfold bind at 1, readEntity at 1 in Hck.
  rewrite Heo in Hck. unfold bind at 1, get at 1 in Hck.
  unfold bind at 1, liftP at 1 in Hck.
  destruct (findVisible fuel (states σ) (e_previous eo) (t_number t - 1) (t_invalid t))
    as [yb|] eqn:Hfb; [|done].
  pose proof (resolution_sound _ _ _ _ _ _ _ _ Hi Ho Heo Hc Hfb) as ->.
  unfold bind at 1, liftP at 1 in Hck.
  destruct (findVisible fuel (states σ) (e_previous eo)
              (highestCommittedTransaction σ) (currentInvalid σ))
    as [yn|] eqn:Hfn; [|done].
  pose proof (resolution_sound _ _ _ _ _ _ _ _ Hi Ho Heo Hc Hfn) as ->.
  case_bool_decide as Hd; [done|]. by destruct (decide
    (firstValid (states σ) (t_number t - 1) (t_invalid t) l
     = firstValid (states σ) (highestCommittedTransaction σ) (currentInvalid σ) l)).
Qed.

Lemma manager_step_logged σ c σ' :
  manager_step σ c σ' → sound σ → logged_inv σ → logged_inv σ'.
Proof.
  intros Hstep Hs Hlg t r s e Hl.
  destruct (manager_step_objects _ _ _ Hstep) as [-> _].
  intros Hr He Hm.
  destruct (manager_step_live_number _ _ _ _ Hstep Hl) as [Hl0|Hnew].
  - by eapply Hlg.
  - pose proof (stamp_le _ _ _ _ Hs Hr Hm). lia.
Qed.

Lemma entity_step_logged fuel σ σ' :
  entity_step fuel σ σ' → sound σ → logged_inv σ → logged_inv σ'.
Proof.
  intros Hstep Hs Hlg.
  pose proof Hs as ((Hm & Hi & _) & _).
  pose proof Hm as (((Hw1 & _) & _) & _ & _ & (_ & Hp2 & _) & _).
  destruct Hstep as [|e eo res He Hf|e σ' Hw|fields].
  - done.
  - intros t r s e' Hl. simpl. by apply Hlg.
  - destruct (makeWritable_effect _ _ _ _ Hi Hw)
      as (t0 & eo0 & l1 & l2 & st & s0 & previous & Ht0 & He0 & Hc0 & Hstl & Hs0 & _
          & Hall & Hhd & Hlen & Hlene & Hn & Hold & He' & Hchain & Hoth & Ht' & Hsm).
    cbv zeta in *.
    destruct (Hw1 _ Ht0) as [Hcur _].
    intros t r s e' Hl Hr He Hmin.
    destruct (decide (r = length (states σ))) as [->|Hne].
    + rewrite Hn in Hr. injection Hr as <-. simpl in Hmin. injection Hmin as Hmin.
      destruct Hl as [Hc|[j Hj]].
      * rewrite Ht' in Hc. injection Hc as <-. simpl.
        apply elem_of_app. right. by apply list_elem_of_singleton.
      * destruct Hsm as (_&_&_&_&Hps&_). rewrite Hps in Hj.
        destruct (Hp2 _ _ Hj) as (_ & _ & Hx). destruct (Hx _ Ht0). congruence.
    + assert (Hlt : (r < length (states σ))%nat).
      { apply lookup_lt_Some in Hr. lia. }
      destruct (lookup_lt_is_Some_2 _ _ Hlt) as [sr Hsr].
      destruct (Hold _ _ Hsr) as (sr' & Hsr' & _ & Hm' & He'' & _).
      rewrite Hsr' in Hr. injection Hr as <-.
      destruct Hl as [Hc|[j Hj]].
      * rewrite Ht' in Hc. injection Hc as <-. simpl in *.
        apply elem_of_app. left.
        apply (Hlg t0 r sr e'); [by left|done|congruence|congruence].
      * destruct Hsm as (_&_&_&_&Hps&_). rewrite Hps in Hj.
        apply (Hlg t r sr e'); [right; eauto|done|congruence|congruence].
  - intros t r s e' Hl. simpl.
    intros [Hr|[_ Hr]]%lookup_app_Some; [by apply Hlg|].
    destruct (r - length (states σ))%nat as [|[|]]; by simplify_eq/=.
Qed.

Lemma manager_step_live_cases σ c σ' t' :
  manager_step σ c σ' → live σ' t' →
  live σ t' ∨
  (t_invalid t' = currentInvalid σ ∧
   openTransactions σ' = <[highestTransaction σ + 1 := FsOpen]> (openTransactions σ)).
Proof.
  destruct 1 as [c|oc oa Hidle|t Ht|id t Hidle Hid Hopen|c t _ Ht|t fo Ht Hfo].
  - auto.
  - intros [Hc|[j Hj]]; simpl in *.
    + injection Hc as <-. by right.
    + left; right; eauto.
  - intros [Hc|[j Hj]]; simpl in *; [done|].
    apply lookup_app_Some in Hj as [Hj|[_ Hj]]; [left; right; eauto|].
    destruct (j - length (pausedTransactions σ))%nat as [|[|]]; simplify_eq/=.
    left. by left.
  - intros [Hc|[j Hj]]; simpl in *.
    + injection Hc as <-. left; right; eauto.
    + apply list_lookup_insert_Some in Hj as [(_&?&_)|[_ Hj]]; [done|].
      left; right; eauto.
  - intros [Hc|[j Hj]]; simpl in *; [done|]. left; right; eauto.
  - intros [Hc|[j Hj]]; simpl in *; [done|]. left; right; eauto.
Qed.

Lemma is_Some_insert (T : gmap Z FrameState) k v m :
  is_Some (T !! m) → is_Some (<[k := v]> T !! m).
Proof.
  intros H. destruct (decide (k = m)) as [->|Hne].
  - rewrite lookup_insert_eq. eauto.
  - by rewrite lookup_insert_ne.
Qed.

(** A number leaves the lifecycle table by a commit only. *)
Lemma manager_step_table σ c σ' m :
  manager_step σ c σ' → is_Some (openTransactions σ !! m) →
  is_Some (openTransactions σ' !! m) ∨
  ∃ t fo, currentTransaction σ = Some t ∧ σ' = committed σ t fo ∧
          m = currentTransactionNumber σ.
Proof.
  destruct 1 as [c|oc oa Hidle|t Ht|id t Hidle Hid Hopen|c t _ Ht|t fo Ht Hfo];
    intros Hm; simpl; auto.
  - left. by apply is_Some_insert.
  - left. by apply is_Some_insert.
  - destruct (decide (m = currentTransactionNumber σ)) as [->|Hne].
    + right. eauto.
    + left. by rewrite lookup_delete_ne.
Qed.

Lemma valid_now σ r s m :
  sound σ → states σ !! r = Some s → s_min s = Some m →
  openTransactions σ !! m = None →
  isValid (Some m) (highestCommittedTransaction σ) (currentInvalid σ) = true.
Proof.
  intros (((_ & Htab & _) & _ & _ & Hst) & _) Hr Hm Hn.
  destruct (Hst _ _ m Hr (or_introl Hm)) as [Hle|[? ?]]; [|congruence].
  unfold isValid. rewrite (proj2 (Z.leb_le _ _)) by done.
  by rewrite (currentInvalid_lookup _ _ Htab), Hn.
Qed.

(** A transaction whose check passes wrote no entity on whose chain a
    committed snapshot stands that is newer than its own number. *)
Lemma unopposed_newest σ t e eo l ra sa rb sb b :
  sound σ → logged_inv σ → currentTransaction σ = Some t → unopposed σ t →
  entities σ !! e = Some eo → chain (states σ) (e_previous eo) l →
  ra ∈ l → states σ !! ra = Some sa → s_entity sa = Some e →
  s_min sa = Some (t_number t) →
  rb ∈ l → states σ !! rb = Some sb → s_min sb = Some b →
  t_number t < b → openTransactions σ !! b = None → False.
Proof.
  intros Hs Hlg Ht Hun He Hc Hra Hsa Hea Hma Hrb Hsb Hmb Hlt Hnb.
  pose proof Hs as (_ & Ho & _).
  destruct (Ho _ _ _ He Hc) as (Hd & _).
  pose proof (Hlg t ra sa e (or_introl Ht) Hsa Hea Hma) as Hin.
  specialize (Hun ra sa e eo l Hin Hsa Hea He Hc).
  pose proof (valid_now _ _ _ _ Hs Hsb Hmb Hnb) as Hv.
  destruct (firstValid_ge _ _ _ _ _ _ _ Hd Hrb Hsb Hmb Hv)
    as (y & sy & my & Hfv & _ & Hy & Hmy & Hle & _).
  rewrite <- Hun in Hfv.
  apply firstValid_Some in Hfv as (_ & s' & m' & Hs' & Hm' & Hval).
  assert (m' = my) as -> by congruence.
  unfold isValid in Hval. destruct (Z.leb_spec my (t_number t - 1)); [lia|done].
Qed.

Lemma manager_step_serial σ c σ' :
  manager_step σ c σ' → sound σ → logged_inv σ → serial_inv σ →
  (∀ t fo, currentTransaction σ = Some t → σ' = committed σ t fo →
           unopposed σ t) →
  serial_inv σ'.
Proof.
  intros Hstep Hs Hlg Hser Hun t e eo l ra sa a rb sb b Hl.
  destruct (manager_step_objects _ _ _ Hstep) as [-> ->].
  intros He Hc Hra Hsa Hea Hma Hrb Hsb Hmb Hab Hia Hib.
  pose proof Hs as ((Hm & _) & _).
  pose proof Hm as (((Hw1 & _) & Hopen & _) & Htab & _ & _ & Hinv).
  destruct (manager_step_live_cases _ _ _ _ Hstep Hl) as [Hl0|[HI HT]].
  - destruct (Hser t e eo l ra sa a rb sb b Hl0 He Hc Hra Hsa Hea Hma
                Hrb Hsb Hmb Hab Hia Hib) as [Ha|Hb].
    + destruct (manager_step_table _ _ _ a Hstep Ha)
        as [?|(tc & fo & Htc & -> & ->)]; [by left|].
      destruct (openTransactions σ !! b) as [st|] eqn:Hb.
      * right. simpl. rewrite lookup_delete_ne by lia. by rewrite Hb.
      * exfalso. destruct (Hw1 _ Htc) as [Hcur _]. rewrite Hcur in *.
        eapply (unopposed_newest σ tc e eo l ra sa rb sb b); try done;
          [by eapply Hun|lia].
    + destruct (manager_step_table _ _ _ b Hstep Hb)
        as [?|(tc & fo & Htc & -> & ->)]; [by right|].
      exfalso. destruct (Hinv t Hl0) as [_ Hi2].
      rewrite (Hi2 (currentTransactionNumber σ)) in Hib; [done|lia|done].
  - left. rewrite HT. apply is_Some_insert.
    rewrite HI, (currentInvalid_lookup _ _ Htab) in Hia.
    by destruct (openTransactions σ !! a).
Qed.

Lemma entity_step_serial fuel σ σ' :
  entity_step fuel σ σ' → sound σ → serial_inv σ → serial_inv σ'.
Proof.
  intros Hstep Hs Hser.
  pose proof Hs as ((Hm & Hi & _) & Ho & _).
  pose proof Hm as (((Hw1 & _) & Hopen & _) & _).
  destruct Hstep as [|e eo res He Hf|e σ' Hw|fields].
  - done.
  - intros t e' eo' l ra sa a rb sb b Hl. simpl. intros He'.
    assert (∃ eo0, entities σ !! e' = Some eo0 ∧ e_previous eo0 = e_previous eo')
      as (eo0 & He0 & <-).
    { destruct (decide (e' = e)) as [->|Hne].
      - rewrite !list_lookup_alter_eq, He in He'. simpl in He'.
        injection He' as <-. eauto.
      - rewrite !list_lookup_alter_ne in He' by done. eauto. }
    by apply (Hser t e' eo0).
  - destruct (makeWritable_effect _ _ _ _ Hi Hw)
      as (t0 & eo0 & l1 & l2 & st & s0 & previous & Ht0 & He0 & Hc0 & Hstl & Hs0 & _
          & Hall & Hhd & Hlen & Hlene & Hn & Hold & He' & Hchain & Hoth & Ht' & Hsm).
    cbv zeta in *.
    destruct (Hw1 _ Ht0) as [Hcur _].
    assert (Hlive : ∀ t, live σ' t →
              ∃ t1, live σ t1 ∧ t_number t1 = t_number t ∧ t_invalid t1 = t_invalid t).
    { intros t [Hc|[j Hj]].
      - rewrite Ht' in Hc. injection Hc as <-. exists t0. split; [by left|done].
      - destruct Hsm as (_&_&_&_&Hps&_). rewrite Hps in Hj.
        exists t. split; [right; eauto|done]. }
    assert (HT : openTransactions σ' = openTransactions σ) by apply Hsm.
    assert (Hcin : is_Some (openTransactions σ !! currentTransactionNumber σ)).
    { rewrite Hcur, (Hopen _ Ht0). eauto. }
    assert (Hback : ∀ r sr', r ≠ length (states σ) → states σ' !! r = Some sr' →
              ∃ sr, states σ !! r = Some sr ∧ s_min sr = s_min sr' ∧
                    s_entity sr = s_entity sr').
    { intros r sr' Hne Hr.
      assert (Hlt : (r < length (states σ))%nat).
      { apply lookup_lt_Some in Hr. lia. }
      destruct (lookup_lt_is_Some_2 _ _ Hlt) as [sr Hsr].
      destruct (Hold _ _ Hsr) as (sr2 & Hsr2 & _ & Hm2 & He2 & _).
      rewrite Hsr2 in Hr. injection Hr as <-. eauto. }
    intros t e' eo' l ra sa a rb sb b Hl He2 Hc2 Hra Hsa Hea Hma Hrb Hsb Hmb
      Hab Hia Hib.
    rewrite HT.
    destruct (Hlive _ Hl) as (t1 & Hl1 & Hn1 & Hi1).
    rewrite <- Hn1 in Hab. rewrite <- Hi1 in Hia, Hib.
    destruct (decide (ra = length (states σ))) as [->|Hnea].
    { left. rewrite Hn in Hsa. injection Hsa as <-. simpl in Hma.
      injection Hma as <-. done. }
    destruct (decide (rb = length (states σ))) as [->|Hneb].
    { right. rewrite Hn in Hsb. injection Hsb as <-. simpl in Hmb.
      injection Hmb as <-. done. }
    destruct (Hback _ _ Hnea Hsa) as (sa0 & Hsa0 & Hma0 & Hea0).
    destruct (Hback _ _ Hneb Hsb) as (sb0 & Hsb0 & Hmb0 & _).
    destruct (decide (e' = e)) as [->|Hne].
    + rewrite He' in He2. injection He2 as <-. simpl in *.
      assert (l = l1 ++ length (states σ) :: l2) as ->
        by (by eapply chain_functional).
      apply (Hser t1 e eo0 (l1 ++ l2) ra sa0 a rb sb0 b); try done;
        try congruence.
      * by apply (elem_of_spliced l1 l2 (length (states σ))).
      * by apply (elem_of_spliced l1 l2 (length (states σ))).
    + destruct (Hoth _ _ Hne He2) as (He1 & l' & Hc1 & Hc1' & Hsame).
      assert (l = l') as -> by (by eapply chain_functional).
      apply (Hser t1 e' eo' l' ra sa0 a rb sb0 b); try done; congruence.
  - intros t e' eo' l ra sa a rb sb b Hl. simpl.
    intros [He'|[Hlen He']]%lookup_app_Some Hc Hra Hsa Hea Hma Hrb Hsb Hmb.
    + destruct (Hi _ _ He') as (l0 & Hc0 & _).
      pose proof (chain_alloc _ _ _
        (mkState (Some (currentTransactionNumber σ)) None None None
           (Some (length (entities σ))) fields) Hc0) as Hc1.
      assert (l = l0) as -> by (by eapply chain_functional).
      destruct (chain_lookup _ _ _ _ Hc0 Hra) as [sa0 Hsa0].
      destruct (chain_lookup _ _ _ _ Hc0 Hrb) as [sb0 Hsb0].
      rewrite (lookup_app_l_Some _ _ _ _ Hsa0) in Hsa.
      rewrite (lookup_app_l_Some _ _ _ _ Hsb0) in Hsb.
      apply (Hser t e' eo' l0 ra sa a rb sb b); try done; congruence.
    + destruct (e' - length (entities σ))%nat as [|[|]]; simplify_eq/=.
      destruct l as [|r l]; [done|]. simpl in Hc. destruct Hc as [[= <-] Hc].
      rewrite list_lookup_middle in Hc by done. simpl in Hc.
      destruct l as [|r' l]; [|by destruct Hc].
      apply list_elem_of_singleton in Hra as ->.
      apply list_elem_of_singleton in Hrb as ->.
      intros. assert (a = b) by congruence. lia.
Qed.

Lemma exec_serial fuel c σ r σ' :
  exec fuel c σ = Some (r, σ') → serial σ → serial σ'.
Proof.
  intros H (Hs & Hlg & Hser).
  split; [by eapply exec_sound|].
  pose proof Hs as ((Hm & Hc & _) & _).
  assert (entity_call c ∨ ¬ entity_call c) as [Hec|Hec]
    by (destruct c; simpl; auto).
  - pose proof (exec_entity_step _ _ _ _ _ Hc Hec H) as Hstep. split.
    + by eapply entity_step_logged.
    + by eapply entity_step_serial.
  - pose proof (exec_manager_step _ _ _ _ _ (proj1 (proj1 Hm)) Hec H) as Hstep.
    split; [by eapply manager_step_logged|].
    eapply manager_step_serial; try done.
    intros t fo Ht Heq.
    pose proof Hm as (((Hw1 & _) & Hopen & _) & _).
    destruct (Hw1 _ Ht) as [Hcur [fo' Hfo]%lookup_lt_is_Some].
    assert (Hx : openTransactions σ' !! currentTransactionNumber σ = None)
      by (rewrite Heq; simpl; apply lookup_delete_eq).
    assert (Hy : currentTransaction σ' = None) by (by rewrite Heq).
    assert (Hin : openTransactions σ !! currentTransactionNumber σ = Some FsOpen)
      by (rewrite Hcur; by apply Hopen).
    clear Heq Hstep.
    destruct c; simpl in Hec; try (by destruct Hec); unfold exec, bind, ret in H.
    + rewrite beginTransaction_eq in H. unfold inTransaction in H.
      rewrite Ht in H. simplify_eq.
    + rewrite pauseTransaction_eq, Ht, Hfo in H. simplify_eq/=.
    + rewrite restoreTransaction_eq in H. unfold inTransaction in H.
      rewrite Ht in H. simplify_eq.
    + rewrite abortTransaction_eq, Ht, Hfo in H. simplify_eq/=.
      by rewrite lookup_insert_eq in Hx.
    + destruct (commitTransaction fuel σ) as [[[x|err] σ1]|] eqn:Hcm; [| |done].
      * by eapply commit_returned.
      * exfalso. assert (σ1 = σ') as -> by congruence.
        apply commitTransaction_result in Hcm. rewrite Ht in Hcm.
        destruct Hcm as (rc & _ & Hcase). rewrite Hfo in Hcase.
        destruct rc as [[]|e]; [by destruct Hcase|].
        destruct Hcase as [_ Hab]. rewrite abortTransaction_eq, Ht, Hfo in Hab.
        simplify_eq/=. by rewrite lookup_insert_eq in Hx.
Qed.

Lemma run_serial fuel cs : ∀ σ rs σ',
  run fuel cs σ = Some (rs, σ') → serial σ → serial σ'.
Proof.
  induction cs as [|c cs IH]; simpl; intros σ rs σ'.
  - by intros [= <- <-].
  - destruct (exec fuel c σ) as [[r σ1]|] eqn:E; [|done].
    destruct (run fuel cs σ1) as [[rs1 σ2]|] eqn:E2; [|done].
    intros [= <- <-] Hs. eapply IH; [done|]. by eapply exec_serial.
Qed.

Lemma initial_serial : serial initial.
Proof.
  split; [apply initial_sound|]. split.
  - intros t r s e _. simpl. by rewrite lookup_nil.
  - intros t e eo l ra sa a rb sb b _. simpl. by rewrite lookup_nil.
Qed.

Lemma reachable_serial fuel cs rs σ :
  run fuel cs initial = Some (rs, σ) → serial σ.
Proof. intros H. eapply run_serial; [done|apply initial_serial]. Qed.

(** The commit check finds the snapshot of a committed writer that the
    committing transaction did not see. *)
Lemma conflict_detected fuel σ t r w s sw e eo l u :
  serial σ →
  currentTransaction σ = Some t →
  r ∈ t_mutated t → states σ !! r = Some s → s_entity s = Some e →
  entities σ !! e = Some eo → chain (states σ) (e_previous eo) l →
  w ∈ l → states σ !! w = Some sw → s_entity sw = Some e →
  s_min sw = Some u →
  openTransactions σ !! u = None →
  t_number t < u ∨ t_invalid t !! u = Some true →
  (length (states σ) ≤ fuel)%nat →
  commitTransaction fuel σ = Some (Throw MergeError, aborted t σ).
Proof.
  intros (Hs & Hlg & Hser) Ht Hr Hsr He Heo Hc Hw Hsw Hew Hu Hnu Hunseen Hfuel.
  pose proof Hs as ((Hm & Hi & Hmu & _) & Ho & _).
  pose proof Hm as (((Hw1 & _) & _) & Htab & _ & _ & Hinv).
  destruct (Hw1 _ Ht) as [Hcur [fo Hfo]%lookup_lt_is_Some].
  destruct (Hinv t (or_introl Ht)) as [Hi1 _].
  assert (Hres : ∀ r' s' e' eo' l', states σ !! r' = Some s' →
            s_entity s' = Some e' → entities σ !! e' = Some eo' →
            chain (states σ) (e_previous eo') l' →
            resolves fuel σ t r'
              (firstValid (states σ) (t_number t - 1) (t_invalid t) l')
              (firstValid (states σ) (highestCommittedTransaction σ)
                 (currentInvalid σ) l')).
  { intros r' s' e' eo' l' Hs' He' Heo' Hc'. unfold resolves, visibleFor.
    rewrite Hs', He', Heo'.
    split; by apply (resolution_by_min fuel σ e' eo' l'). }
  assert (Hall : Forall (λ state, ∃ base now, resolves fuel σ t state base now)
                   (t_mutated t)).
  { apply Forall_forall. intros r' Hr'.
    destruct (Hmu t (or_introl Ht) r' Hr') as (s' & e' & Hs' & He' & _ & [eo' Heo']).
    destruct (Hi _ _ Heo') as (l' & Hc' & _). eauto. }
  assert (Hex : Exists (λ state, ∃ base now,
                          resolves fuel σ t state base now ∧ base ≠ now)
                  (t_mutated t)).
  { apply Exists_exists. exists r. split; [done|].
    eexists _, _. split; [by apply (Hres r s e eo l)|].
    destruct (Ho _ _ _ Heo Hc) as (Hd & _).
    pose proof (valid_now _ _ _ _ Hs Hsw Hu Hnu) as Hv.
    destruct (firstValid_ge _ _ _ _ _ _ _ Hd Hw Hsw Hu Hv)
      as (y & sy & my & Hfv & Hy & Hsy & Hmy & Hle & Hvy).
    rewrite Hfv. intros Hb.
    apply firstValid_Some in Hb as (_ & s' & m' & Hs' & Hm' & Hval).
    assert (m' = my) as -> by congruence.
    unfold isValid in Hval, Hvy.
    destruct (Z.leb_spec my (t_number t - 1)); [|done].
    destruct (Z.leb_spec my (highestCommittedTransaction σ)); [|done].
    rewrite (currentInvalid_lookup _ _ Htab) in Hvy.
    destruct (openTransactions σ !! my) as [st|] eqn:Hnmy; [done|].
    destruct (t_invalid t !! my) as [b|] eqn:Himy.
    { destruct (Hi1 _ _ Himy) as [-> _]. done. }
    destruct Hunseen as [Hlt|Hiu]; [lia|].
    assert (u ≠ my) by congruence.
    destruct (Hser t e eo l w sw u y sy my (or_introl Ht) Heo Hc Hw Hsw Hew Hu
                Hy Hsy Hmy ltac:(lia) Hiu Himy) as [[? ?]|[? ?]]; congruence. }
  pose proof (forEach_checkCollision_differ _ _ _ _ Hall Hex) as Hfe.
  rewrite <- Hcur in Hfe.
  destruct (commitTransaction_total _ _ _ _ Ht Hfe) as [[x σ'] Hcm].
  rewrite Hcm.
  apply commitTransaction_result in Hcm. rewrite Ht in Hcm.
  destruct Hcm as (rc & Hrc & Hcase). rewrite Hfe in Hrc. injection Hrc as <-.
  rewrite Hfo in Hcase. destruct Hcase as [-> Hab].
  rewrite abortTransaction_eq, Ht, Hfo in Hab. by simplify_eq.
Qed.

(** X18.  The first committer wins.  In a reachable engine, when the
    active transaction wrote an entity and the chain of that entity holds
    a clone of a transaction that has committed (its number has left the
    lifecycle table) and that the active transaction did not see when it
    began (the number is later than its own, or it is in its invalid
    set), then [commitTransaction] throws the merge error and leaves the
    engine [abortTransaction] leaves, given fuel for the snapshots in
    the store. *)
Theorem first_committer_wins (fuel0 fuel : nat) (cs : list call)
    (rs : list (outcome value)) (σ : Engine) (t : Transaction)
    (r w : ref) (s sw : StateObj) (e : eref) (eo : EntityObj) (l : list ref)
    (u : Z) :
  run fuel0 cs initial = Some (rs, σ) →
  currentTransaction σ = Some t →
  r ∈ t_mutated t → states σ !! r = Some s → s_entity s = Some e →
  entities σ !! e = Some eo → chain (states σ) (e_previous eo) l →
  w ∈ l → states σ !! w = Some sw → s_entity sw = Some e →
  s_min sw = Some u →
  openTransactions σ !! u = None →
  t_number t < u ∨ t_invalid t !! u = Some true →
  (length (states σ) ≤ fuel)%nat →
  commitTransaction fuel σ = Some (Throw MergeError, aborted t σ).
Proof.
  intros Hrun. apply conflict_detected. by eapply reachable_serial.
Qed.

Lemma first_committer_wins_witness :
  commitTransaction 3
    (engine_after 3 [BindState [(0%nat, 499)];
       BeginTransaction None None; EnsureWritable 0%nat; PauseTransaction;
       BeginTransaction None None; EnsureWritable 0%nat; PauseTransaction;
       RestoreTransaction 0%nat; CommitTransaction; RestoreTransaction 1%nat])
  = Some (Throw MergeError,
          aborted (mkTransaction 2 [2%nat] {[1 := true]} 1%nat)
            (engine_after 3 [BindState [(0%nat, 499)];
               BeginTransaction None None; EnsureWritable 0%nat; PauseTransaction;
               BeginTransaction None None; EnsureWritable 0%nat; PauseTransaction;
               RestoreTransaction 0%nat; CommitTransaction;
               RestoreTransaction 1%nat])).
Proof.
  apply (first_committer_wins 3 3
    [BindState [(0%nat, 499)];
     BeginTransaction None None; EnsureWritable 0%nat; PauseTransaction;
     BeginTransaction None None; EnsureWritable 0%nat; PauseTransaction;
     RestoreTransaction 0%nat; CommitTransaction; RestoreTransaction 1%nat]
    (default [] (fst <$> run 3 [BindState [(0%nat, 499)];
       BeginTransaction None None; EnsureWritable 0%nat; PauseTransaction;
       BeginTransaction None None; EnsureWritable 0%nat; PauseTransaction;
       RestoreTransaction 0%nat; CommitTransaction; RestoreTransaction 1%nat]
       initial))
    _ _ 2%nat 1%nat
    (mkState (Some 2) None (Some 1%nat) (Some 0%nat) None [(0%nat, 499)])
    (mkState (Some 1) None (Some 0%nat) (Some 0%nat) None [(0%nat, 499)])
    0%nat (mkEntity (Some 2) (Some 2%nat) (Some 2%nat)) [2; 1; 0]%nat 1).
  all: try by vm_compute.
  - simpl. by apply list_elem_of_singleton.
  - apply elem_of_cons. right. apply elem_of_cons. by left.
  - right. by vm_compute.
Defined.

(** ** What stays of a commit *)
Lemma entity_step_clones fuel σ σ' :
  entity_step fuel σ σ' → chain_inv σ → clones_inv σ → clones_inv σ'.
Proof.
  intros Hstep Hi Hcl.
  destruct Hstep as [|e eo res He Hf|e σ' Hw|fields].
  - done.
  - intros r s e' Hr He'. simpl in *.
    destruct (Hcl _ _ _ Hr He') as (eo0 & l & Heo0 & Hc & Hin).
    destruct (decide (e' = e)) as [->|Hne].
    + rewrite !list_lookup_alter_eq, Heo0. simpl. eauto.
    + rewrite !list_lookup_alter_ne by done. eauto.
  - destruct (makeWritable_effect _ _ _ _ Hi Hw)
      as (t0 & eo0 & l1 & l2 & st & s0 & previous & Ht0 & He0 & Hc0 & Hstl & Hs0 & _
          & Hall & Hhd & Hlen & Hlene & Hn & Hold & He' & Hchain & Hoth & Ht' & Hsm).
    cbv zeta in *.
    intros r s e' Hr He2.
    destruct (decide (r = length (states σ))) as [->|Hne].
    { rewrite Hn in Hr. injection Hr as <-. simpl in He2. injection He2 as <-.
      eexists _, _. split; [exact He'|]. split; [exact Hchain|].
      apply elem_of_app. right. by left. }
    assert (Hlt : (r < length (states σ))%nat).
    { apply lookup_lt_Some in Hr. lia. }
    destruct (lookup_lt_is_Some_2 _ _ Hlt) as [sr Hsr].
    destruct (Hold _ _ Hsr) as (sr2 & Hsr2 & _ & _ & He3 & _).
    rewrite Hsr2 in Hr. injection Hr as <-.
    destruct (Hcl r sr e' Hsr ltac:(congruence)) as (eo1 & l & Heo1 & Hc & Hin).
    destruct (decide (e' = e)) as [->|Hnee].
    + rewrite He0 in Heo1. injection Heo1 as <-.
      assert (l = l1 ++ l2) as -> by (by eapply chain_functional).
      eexists _, _. split; [exact He'|]. split; [exact Hchain|].
      apply elem_of_app in Hin as [?|?]; apply elem_of_app; [by left|].
      right. by right.
    + assert (is_Some (entities σ' !! e')) as [eo2 Heo2].
      { apply lookup_lt_is_Some. rewrite Hlene. by eapply lookup_lt_Some. }
      destruct (Hoth _ _ Hnee Heo2) as (Heo2' & l' & Hc1 & Hc1' & _).
      assert (eo2 = eo1) as -> by congruence.
      assert (l' = l) as -> by (by eapply chain_functional).
      eauto.
  - intros r s e'. simpl.
    intros [Hr|[_ Hr]]%lookup_app_Some He'.
    + destruct (Hcl _ _ _ Hr He') as (eo0 & l & Heo0 & Hc & Hin).
      exists eo0, l. split_and!; [|by apply chain_alloc|done].
      by rewrite (lookup_app_l_Some _ _ _ _ Heo0).
    + destruct (r - length (states σ))%nat as [|[|]]; by simplify_eq/=.
Qed.

Lemma exec_clones fuel c σ r σ' :
  exec fuel c σ = Some (r, σ') → sound σ → clones_inv σ → clones_inv σ'.
Proof.
  intros H ((Hm & Hc & _) & _) Hcl.
  assert (entity_call c ∨ ¬ entity_call c) as [Hec|Hec]
    by (destruct c; simpl; auto).
  - eapply entity_step_clones; [|done|done]. by eapply exec_entity_step.
  - pose proof (exec_manager_step _ _ _ _ _ (proj1 (proj1 Hm)) Hec H) as Hstep.
    destruct (manager_step_objects _ _ _ Hstep) as [Hst Hen].
    intros r' s e. rewrite Hst, Hen. apply Hcl.
Qed.

Lemma run_clones fuel cs : ∀ σ rs σ',
  run fuel cs σ = Some (rs, σ') → sound σ → clones_inv σ → clones_inv σ'.
Proof.
  induction cs as [|c cs IH]; simpl; intros σ rs σ'.
  - by intros [= <- <-].
  - destruct (exec fuel c σ) as [[r σ1]|] eqn:E; [|done].
    destruct (run fuel cs σ1) as [[rs1 σ2]|] eqn:E2; [|done].
    intros [= <- <-] Hs Hcl.
    eapply IH; [done|by eapply exec_sound|by eapply exec_clones].
Qed.

Lemma reachable_clones fuel cs rs σ :
  run fuel cs initial = Some (rs, σ) → clones_inv σ.
Proof.
  intros H. eapply run_clones; [done|apply initial_sound|].
  intros r s e. simpl. by rewrite lookup_nil.
Qed.

(** A number that has left the lifecycle table never comes back. *)
Lemma exec_retired fuel c σ r σ' u :
  exec fuel c σ = Some (r, σ') → manager_inv σ →
  u ≤ highestTransaction σ → openTransactions σ !! u = None →
  openTransactions σ' !! u = None.
Proof.
  intros H Hm Hle Hu.
  pose proof Hm as (((Hw1 & Hw2) & Hopen & _) & _).
  assert (entity_call c ∨ ¬ entity_call c) as [Hec|Hec]
    by (destruct c; simpl; auto).
  - apply exec_same_manager in H; [|done].
    destruct H as (_&_&_&Hop&_). by rewrite Hop.
  - pose proof (exec_manager_step _ _ _ _ _ (conj Hw1 Hw2) Hec H) as Hstep.
    destruct Hstep as [c|oc oa Hidle|t Ht|id t Hidle Hid Hop|c t _ Ht|t fo Ht Hfo];
      simpl; try done.
    + rewrite lookup_insert_ne by lia. done.
    + destruct (Hw1 _ Ht) as [Hcur _]. rewrite lookup_insert_ne; [done|].
      intros <-. rewrite Hcur, (Hopen _ Ht) in Hu. done.
    + destruct (decide (currentTransactionNumber σ = u)) as [->|Hne].
      * apply lookup_delete_eq.
      * by rewrite lookup_delete_ne.
Qed.

Lemma run_retired fuel u cs : ∀ σ rs σ',
  run fuel cs σ = Some (rs, σ') → engine_inv σ →
  u ≤ highestTransaction σ → openTransactions σ !! u = None →
  openTransactions σ' !! u = None.
Proof.
  induction cs as [|c cs IH]; simpl; intros σ rs σ'.
  - by intros [= <- <-].
  - destruct (exec fuel c σ) as [[r σ1]|] eqn:E; [|done].
    destruct (run fuel cs σ1) as [[rs1 σ2]|] eqn:E2; [|done].
    intros [= <- <-] Hinv Hle Hu.
    pose proof (proj1 (proj1 (proj1 Hinv))) as Hwf.
    pose proof (exec_highest_le _ _ _ _ _ E Hwf).
    eapply IH; [done|by eapply exec_engine_inv|lia|].
    eapply exec_retired; [done|apply Hinv|done|done].
Qed.

(** The invalid set of the transaction numbered [n] stays what it is. *)
Lemma run_live_invalid fuel n I cs : ∀ σ rs σ',
  run fuel cs σ = Some (rs, σ') → engine_inv σ →
  n ≤ highestTransaction σ →
  (∀ t, live σ t → t_number t = n → t_invalid t = I) →
  (∀ t, live σ' t → t_number t = n → t_invalid t = I).
Proof.
  induction cs as [|c cs IH]; simpl; intros σ rs σ'.
  - by intros [= <- <-].
  - destruct (exec fuel c σ) as [[r σ1]|] eqn:E; [|done].
    destruct (run fuel cs σ1) as [[rs1 σ2]|] eqn:E2; [|done].
    intros [= <- <-] Hinv Hle Hliv.
    pose proof (proj1 (proj1 (proj1 Hinv))) as Hwf.
    pose proof (exec_highest_le _ _ _ _ _ E Hwf).
    eapply IH; [done|by eapply exec_engine_inv|lia|].
    intros t Hl Hn.
    destruct (exec_live_invalid _ _ _ _ _ _ E Hwf Hl) as [(t0 & Hl0 & Hn0 & Hi0)|Hnew];
      [|lia].
    rewrite <- Hi0. apply Hliv; [done|congruence].
Qed.

(** A transaction that was paused when another one committed a write to
    an entity cannot commit a write to that entity. *)
Lemma loser_cannot_commit fuel1 fuel2 fuel cs rs σ σ1 σ2 id t log w sw e
    t2 r s :
  serial σ → clones_inv σ →
  pausedTransactions σ !! id = Some (Some t) →
  commitTransaction fuel1 σ = Some (Ret log, σ1) →
  w ∈ log → states σ !! w = Some sw → s_entity sw = Some e →
  run fuel2 cs σ1 = Some (rs, σ2) →
  currentTransaction σ2 = Some t2 → t_number t2 = t_number t →
  r ∈ t_mutated t2 → states σ2 !! r = Some s → s_entity s = Some e →
  (length (states σ2) ≤ fuel)%nat →
  commitTransaction fuel σ2 = Some (Throw MergeError, aborted t2 σ2).
Proof.
  intros Hser Hcl Hid Hcm Hw Hsw Hew Hrun Ht2 Hn2 Hr Hsr Her Hfuel.
  pose proof Hser as (Hs & _).
  pose proof Hs as ((Hm & Hi & Hmu & _) & _).
  pose proof Hm as (((Hw1 & _) & Hopen & Hh) & _ & _ & (_ & Hp2 & Hp3) & Hinv).
  assert (Hex : exec fuel1 CommitTransaction σ = Some (Ret (VChanged log), σ1)).
  { unfold exec, bind, ret. by rewrite Hcm. }
  pose proof (exec_serial _ _ _ _ _ Hex Hser) as Hser1.
  pose proof (exec_clones _ _ _ _ _ Hex Hs Hcl) as Hcl1.
  pose proof Hser1 as (Hs1 & _).
  apply commitTransaction_result in Hcm.
  assert (∃ tu, currentTransaction σ = Some tu) as [tu Htu].
  { destruct (currentTransaction σ); [eauto|by destruct Hcm]. }
  rewrite Htu in Hcm.
  destruct Hcm as (rc & _ & Hcase).
  destruct (Hw1 _ Htu) as [Hcur [fo Hfo]%lookup_lt_is_Some].
  rewrite Hfo in Hcase.
  destruct rc as [[]|err]; [|by destruct Hcase].
  destruct Hcase as [[= ->] ->].
  destruct (Hmu tu (or_introl Htu) w Hw) as (sw' & e' & Hsw' & _ & Hu & _).
  assert (sw' = sw) as -> by congruence.
  assert (Hule : t_number tu ≤ highestTransaction σ).
  { apply Hh. rewrite (Hopen _ Htu). eauto. }
  assert (Huo : openTransactions σ !! t_number tu = Some FsOpen) by by apply Hopen.
  set (u := t_number tu) in *.
  assert (Hu1 : openTransactions (committed σ tu fo) !! u = None).
  { simpl. rewrite Hcur. apply lookup_delete_eq. }
  pose proof (run_serial _ _ _ _ _ Hrun Hser1) as Hser2.
  pose proof (run_clones _ _ _ _ _ Hrun Hs1 Hcl1) as Hcl2.
  pose proof (run_retired _ u _ _ _ _ Hrun (proj1 Hs1) Hule Hu1) as Hu2.
  destruct (run_snapshots_kept _ _ _ _ _ Hrun Hs1) as [Hkept _].
  destruct (Hkept w sw Hsw) as (sw2 & Hsw2 & Hmin2 & _ & Hent2 & _).
  destruct (Hcl2 w sw2 e Hsw2 ltac:(congruence)) as (eo & l & Heo & Hc & Hin).
  destruct (Hp2 _ _ Hid) as (Hopt & _ & Hne).
  specialize (Hne tu Htu).
  assert (Hinv2 : t_invalid t2 = t_invalid t).
  { apply (run_live_invalid _ (t_number t) (t_invalid t) _ _ _ _ Hrun (proj1 Hs1));
      [| |by left|done].
    - simpl. apply Hh. rewrite Hopt. eauto.
    - intros t' [Hc'|[j Hj]] Hn'; [done|]. simpl in Hj.
      by rewrite (Hp3 j id t' t Hj Hid (or_introl Hn')) in Hj; simplify_eq. }
  eapply (conflict_detected fuel σ2 t2 r w s sw2 e eo l u); try done;
    [congruence|congruence|].
  rewrite Hn2, Hinv2.
  destruct (Z.lt_trichotomy (t_number t) u) as [?|[?|Hlt]]; [by left|lia|].
  right. destruct (Hinv t (or_intror (ex_intro _ id Hid))) as [_ Hi2].
  apply Hi2; [lia|]. rewrite Huo. eauto.
Qed.

(** X19.  No lost update.  When a transaction commits a write to an
    entity while another transaction is paused, the paused transaction can
    no longer commit a write to that entity: whatever is called after the
    commit, once the paused transaction is active again with a snapshot
    of the entity in its mutation log, its [commitTransaction] throws the
    merge error and leaves the engine [abortTransaction] leaves, given
    fuel for the snapshots in the store. *)
Theorem paused_writer_loses_to_a_committed_write
    (fuel0 fuel1 fuel2 fuel : nat) (cs0 cs : list call)
    (rs0 rs : list (outcome value)) (σ σ1 σ2 : Engine) (id : PauseId)
    (t t2 : Transaction) (log : list ref) (w r : ref) (sw s : StateObj)
    (e : eref) :
  run fuel0 cs0 initial = Some (rs0, σ) →
  pausedTransactions σ !! id = Some (Some t) →
  commitTransaction fuel1 σ = Some (Ret log, σ1) →
  w ∈ log → states σ !! w = Some sw → s_entity sw = Some e →
  run fuel2 cs σ1 = Some (rs, σ2) →
  currentTransaction σ2 = Some t2 → t_number t2 = t_number t →
  r ∈ t_mutated t2 → states σ2 !! r = Some s → s_entity s = Some e →
  (length (states σ2) ≤ fuel)%nat →
  commitTransaction fuel σ2 = Some (Throw MergeError, aborted t2 σ2).
Proof.
  intros Hrun. eapply loser_cannot_commit.
  - by eapply reachable_serial.
  - by eapply reachable_clones.
Qed.

Lemma paused_writer_loses_to_a_committed_write_witness :
  commitTransaction 3
    (engine_after 3 [BindState [(0%nat, 499)];
       BeginTransaction None None; EnsureWritable 0%nat; PauseTransaction;
       BeginTransaction None None; EnsureWritable 0%nat;
       CommitTransaction; RestoreTransaction 0%nat])
  = Some (Throw MergeError,
          aborted (mkTransaction 1 [1%nat] ∅ 0%nat)
            (engine_after 3 [BindState [(0%nat, 499)];
               BeginTransaction None None; EnsureWritable 0%nat; PauseTransaction;
               BeginTransaction None None; EnsureWritable 0%nat;
               CommitTransaction; RestoreTransaction 0%nat])).
Proof.
  apply (paused_writer_loses_to_a_committed_write 3 3 3 3
    [BindState [(0%nat, 499)];
     BeginTransaction None None; EnsureWritable 0%nat; PauseTransaction;
     BeginTransaction None None; EnsureWritable 0%nat]
    [RestoreTransaction 0%nat]
    (default [] (fst <$> run 3 [BindState [(0%nat, 499)];
       BeginTransaction None None; EnsureWritable 0%nat; PauseTransaction;
       BeginTransaction None None; EnsureWritable 0%nat] initial))
    [Ret VUndefined]
    (engine_after 3 [BindState [(0%nat, 499)];
       BeginTransaction None None; EnsureWritable 0%nat; PauseTransaction;
       BeginTransaction None None; EnsureWritable 0%nat])
    (engine_after 3 [BindState [(0%nat, 499)];
       BeginTransaction None None; EnsureWritable 0%nat; PauseTransaction;
       BeginTransaction None None; EnsureWritable 0%nat; CommitTransaction])
    _ 0%nat (mkTransaction 1 [1%nat] ∅ 0%nat) _ [2%nat] 2%nat 1%nat
    (mkState (Some 2) None (Some 1%nat) (Some 0%nat) None [(0%nat, 499)])
    (mkState (Some 1) None (Some 0%nat) (Some 0%nat) None [(0%nat, 499)])
    0%nat).
  all: try by vm_compute.
  - by apply list_elem_of_singleton.
  - simpl. by apply list_elem_of_singleton.
Defined.

(** ** The callers that restore a paused transaction *)
Lemma restoreTransaction_returned id σ σ1 :
  restoreTransaction id σ = Some (Ret tt, σ1) →
  ∃ t, currentTransaction σ = None ∧
       pausedTransactions σ !! id = Some (Some t) ∧
       openTransactions σ !! t_number t = Some FsOpen ∧
       is_Some (frames σ !! t_frame t) ∧
       σ1 = resumed id t σ.
Proof.
  rewrite restoreTransaction_eq. unfold inTransaction.
  destruct (currentTransaction σ) as [t0|]; [done|].
  destruct (pausedTransactions σ !! id) as [[t|]|] eqn:Hid; [|done..].
  case_bool_decide as Hd; [done|].
  destruct (frames σ !! t_frame t) as [fo|] eqn:Hfo; [|done].
  intros [= <-]. exists t. split_and!; eauto.
Qed.

Lemma restoreTransaction_threw id σ err σ1 :
  wf_manager σ →
  restoreTransaction id σ = Some (Throw err, σ1) → σ1 = σ.
Proof.
  intros [_ Hw2]. rewrite restoreTransaction_eq.
  destruct (inTransaction σ); [by intros [= _ <-]|].
  destruct (pausedTransactions σ !! id) as [[t|]|] eqn:Hid;
    try (by intros [= _ <-]).
  case_bool_decide; [by intros [= _ <-]|].
  destruct (lookup_lt_is_Some_2 _ _ (Hw2 _ _ Hid)) as [fo Hfo]. by rewrite Hfo.
Qed.

Lemma resumed_sound id t σ :
  sound σ → currentTransaction σ = None →
  pausedTransactions σ !! id = Some (Some t) →
  openTransactions σ !! t_number t = Some FsOpen →
  sound (resumed id t σ).
Proof.
  intros Hs Hidle Hid Hop.
  pose proof Hs as (((((_ & Hw2) & _) & _) & _) & _).
  destruct (lookup_lt_is_Some_2 _ _ (Hw2 _ _ Hid)) as [fo Hfo].
  apply (exec_sound 0 (RestoreTransaction id) σ (Ret VUndefined)); [|done].
  unfold exec, bind, ret. rewrite restoreTransaction_eq. unfold inTransaction.
  rewrite Hidle, Hid, Hfo.
  by rewrite bool_decide_eq_false_2 by (by intros ?).
Qed.

Lemma aborted_sound t σ :
  sound σ → currentTransaction σ = Some t → sound (aborted t σ).
Proof.
  intros Hs Ht.
  pose proof Hs as (((((Hw1 & _) & _) & _) & _) & _).
  destruct (Hw1 _ Ht) as [_ [fo Hfo]%lookup_lt_is_Some].
  apply (exec_sound 0 AbortTransaction σ (Ret VUndefined)); [|done].
  unfold exec, bind, ret. by rewrite abortTransaction_eq, Ht, Hfo.
Qed.

(** A callback run in the active transaction, aborted when it throws. *)
Lemma guarded_code fuel σ g r σ' t :
  sound σ → currentTransaction σ = Some t → entity_code fuel unit g →
  catch g (λ e, abortTransaction ;; throw e) σ = Some (r, σ') →
  ∃ rf σ2 t2,
    g σ = Some (rf, σ2) ∧ sound σ2 ∧ same_manager σ σ2 ∧
    currentTransaction σ2 = Some t2 ∧
    t_number t2 = t_number t ∧ t_invalid t2 = t_invalid t ∧
    match rf with
    | Ret _ => r = Ret tt ∧ σ' = σ2
    | Throw err => r = Throw err ∧ σ' = aborted t2 σ2
    end.
Proof.
  intros Hs Ht Hg H. unfold catch in H.
  destruct (g σ) as [[rf σ2]|] eqn:Hrun; [|done].
  destruct (entity_code_safe _ _ _ Hg _ _ _ Hrun Hs) as [Hs2 Hsm].
  pose proof Hsm as (_&_&_&_&_&_&_&Hn&Hi&_).
  rewrite Ht in Hn, Hi.
  destruct (currentTransaction σ2) as [t2|] eqn:Ht2; [|done].
  simpl in Hn, Hi. injection Hn as Hn. injection Hi as Hi.
  exists rf, σ2, t2. split_and!; try done.
  destruct rf as [[]|err]; [by simplify_eq|].
  unfold bind in H. rewrite abortTransaction_eq, Ht2 in H.
  pose proof Hs2 as (((((Hw1 & _) & _) & _) & _) & _).
  destruct (Hw1 _ Ht2) as [_ [fo Hfo]%lookup_lt_is_Some]. rewrite Hfo in H.
  unfold throw in H. by simplify_eq.
Qed.

Lemma pauseTransaction_active σ t :
  wf_manager σ → currentTransaction σ = Some t →
  pauseTransaction σ
  = Some (Ret (length (pausedTransactions σ)), suspended t σ).
Proof.
  intros [Hw1 _] Ht. rewrite pauseTransaction_eq, Ht.
  destruct (Hw1 _ Ht) as [_ [fo Hfo]%lookup_lt_is_Some]. by rewrite Hfo.
Qed.

(** The end of [commitTransaction] leaves no transaction active. *)
Lemma commitTransaction_idle fuel σ r σ' t :
  wf_manager σ → currentTransaction σ = Some t →
  commitTransaction fuel σ = Some (r, σ') → currentTransaction σ' = None.
Proof.
  intros [Hw1 _] Ht H. apply commitTransaction_result in H. rewrite Ht in H.
  destruct H as (rc & _ & Hcase).
  destruct (Hw1 _ Ht) as [_ [fo Hfo]%lookup_lt_is_Some]. rewrite Hfo in Hcase.
  destruct rc as [[]|err].
  - by destruct Hcase as [_ ->].
  - destruct Hcase as [_ Hab]. rewrite abortTransaction_eq, Ht, Hfo in Hab.
    by simplify_eq.
Qed.

Lemma guarded_then_pause fuel σ g r σ' t :
  sound σ → currentTransaction σ = Some t → entity_code fuel unit g →
  (catch g (λ e, abortTransaction ;; throw e) ;; pauseTransaction) σ
  = Some (r, σ') →
  currentTransaction σ' = None.
Proof.
  intros Hs Ht Hg H. unfold bind at 1 in H.
  destruct (catch g _ σ) as [[rc σc]|] eqn:Hc; [|done].
  destruct (guarded_code _ _ _ _ _ _ Hs Ht Hg Hc)
    as (rf & σ2 & t2 & _ & Hs2 & _ & Ht2 & _ & _ & Hcase).
  destruct rf as [[]|err]; destruct Hcase as [-> ->].
  - rewrite (pauseTransaction_active σ2 t2) in H; [|apply Hs2|done].
    by simplify_eq.
  - by simplify_eq.
Qed.

Lemma guarded_then_commit fuel fuel' σ og r σ' t :
  sound σ → currentTransaction σ = Some t →
  (∀ g, og = Some g → entity_code fuel unit g) →
  (match og with
   | Some g => catch g (λ e, abortTransaction ;; throw e)
   | None => ret tt
   end ;; commitTransaction fuel') σ = Some (r, σ') →
  currentTransaction σ' = None.
Proof.
  intros Hs Ht Hg H. unfold bind at 1 in H. destruct og as [g|].
  - destruct (catch g _ σ) as [[rc σc]|] eqn:Hc; [|done].
    destruct (guarded_code _ _ _ _ _ _ Hs Ht (Hg g eq_refl) Hc)
      as (rf & σ2 & t2 & _ & Hs2 & _ & Ht2 & _ & _ & Hcase).
    destruct rf as [[]|err]; destruct Hcase as [-> ->].
    + eapply commitTransaction_idle; [apply Hs2|done|done].
    + by simplify_eq.
  - unfold ret in H. eapply commitTransaction_idle; [apply Hs|done|done].
Qed.

(** What [restoreTransaction] leaves when called outside a transaction. *)
Lemma restoreTransaction_idle id σ rr σ1 :
  sound σ → currentTransaction σ = None →
  restoreTransaction id σ = Some (rr, σ1) →
  match rr with
  | Throw _ => σ1 = σ
  | Ret _ => ∃ t, pausedTransactions σ !! id = Some (Some t) ∧
                  openTransactions σ !! t_number t = Some FsOpen ∧
                  σ1 = resumed id t σ ∧ sound σ1
  end.
Proof.
  intros Hs Hidle H. destruct rr as [[]|err].
  - destruct (restoreTransaction_returned _ _ _ H) as (t & _ & Hid & Hop & _ & ->).
    exists t. split_and!; try done. by apply resumed_sound.
  - eapply restoreTransaction_threw; [apply Hs|done].
Qed.

Lemma abortTransaction_active σ t :
  wf_manager σ → currentTransaction σ = Some t →
  abortTransaction σ = Some (Ret tt, aborted t σ).
Proof.
  intros [Hw1 _] Ht. rewrite abortTransaction_eq, Ht.
  destruct (Hw1 _ Ht) as [_ [fo Hfo]%lookup_lt_is_Some]. by rewrite Hfo.
Qed.

(** X20.  [abortPaused(id)] changes no one's view.  When it returns, in an
    engine that calls, property reads and writes and new models have
    reached, the paused transaction is marked [aborted], no transaction is
    active, and a transaction begun afterwards reads in every property of
    every entity what a transaction begun in its place would have read. *)
Theorem abortPaused_changes_no_view (fuel0 : nat) (acts : list action)
    (σ σ' : Engine) (id : PauseId) :
  session fuel0 acts initial = Some σ →
  abortPaused id σ = Some (Ret tt, σ') →
  ∃ t, pausedTransactions σ !! id = Some (Some t) ∧
       openTransactions σ' !! t_number t = Some FsAborted ∧
       currentTransaction σ' = None ∧
       ∀ e k fuel, is_Some (entities σ !! e) →
         (length (states σ) ≤ fuel)%nat →
         fst <$> (beginTransaction None None ;; property_get fuel e k) σ'
         = fst <$> (beginTransaction None None ;; property_get fuel e k) σ.
Proof.
  intros Hrun H.
  pose proof (session_reachable_sound _ _ _ Hrun) as Hs.
  unfold abortPaused, bind in H.
  destruct (restoreTransaction id σ) as [[[[]|err] σ1]|] eqn:Hr; [|done..].
  destruct (restoreTransaction_returned _ _ _ Hr)
    as (t & Hidle & Hid & Hop & [fo Hfo] & ->).
  pose proof (resumed_sound id t σ Hs Hidle Hid Hop) as Hs1.
  pose proof (aborted_sound t _ Hs1 eq_refl) as Hs2.
  rewrite abortTransaction_eq in H. simpl in H.
  rewrite list_lookup_alter_eq, Hfo in H. simpl in H. injection H as <-.
  exists t. split_and!; [done|simpl; by rewrite lookup_insert_eq|done|].
  intros e k fuel [eo He] Hfuel.
  pose proof Hs as ((Hm & Hi & _) & _).
  pose proof Hs2 as ((Hm2 & _) & _).
  destruct (Hi _ _ He) as (l & Hc & _).
  rewrite (fresh_read fuel e k _ eo l Hs2), (fresh_read fuel e k σ eo l Hs);
    try done.
  simpl. f_equal. f_equal.
  apply firstValid_views. intros r s m _ _ _. unfold isValid.
  rewrite (currentInvalid_lookup _ _ (proj1 (proj2 Hm2))),
          (currentInvalid_lookup _ _ (proj1 (proj2 Hm))).
  simpl. destruct (decide (m = t_number t)) as [->|Hne].
  - by rewrite lookup_insert_eq, Hop.
  - by rewrite lookup_insert_ne.
Qed.

Lemma abortPaused_changes_no_view_witness :
  ∃ t, pausedTransactions
         one_paused_writer !! 0%nat = Some (Some t) ∧
       openTransactions
         (default initial (snd <$> abortPaused 0%nat
            one_paused_writer)) !! t_number t = Some FsAborted ∧
       currentTransaction
         (default initial (snd <$> abortPaused 0%nat
            one_paused_writer)) = None ∧
       ∀ e k fuel,
         is_Some (entities
           one_paused_writer !! e) →
         (length (states
            one_paused_writer) ≤ fuel)%nat →
         fst <$> (beginTransaction None None ;; property_get fuel e k)
           (default initial (snd <$> abortPaused 0%nat
              one_paused_writer))
         = fst <$> (beginTransaction None None ;; property_get fuel e k)
             one_paused_writer.
Proof.
  apply (abortPaused_changes_no_view 2
    [Model [(0%nat, 499)]; Call (BeginTransaction None None);
     Write 0%nat 0%nat 500; Call PauseTransaction]);
    by vm_compute.
Defined.

(** X21.  No caller leaks a transaction.  Called outside a transaction in
    an engine that calls, property reads and writes and new models have
    reached, with callbacks made of property reads and writes, new models
    and exceptions, each of [paused], [continued], [unpaused] and
    [abortPaused] leaves no transaction active, whether it returns or
    throws (an id that cannot be restored, a callback that throws, a
    commit that collides). *)
Theorem callers_leave_no_transaction_active (fuel0 fuel1 fuel : nat)
    (acts : list action) (σ : Engine) :
  session fuel0 acts initial = Some σ →
  currentTransaction σ = None →
  (∀ f r σ', entity_code fuel1 unit f →
     paused f σ = Some (r, σ') → currentTransaction σ' = None) ∧
  (∀ id g r σ', entity_code fuel1 unit g →
     continued id g σ = Some (r, σ') → currentTransaction σ' = None) ∧
  (∀ id og r σ', (∀ g, og = Some g → entity_code fuel1 unit g) →
     unpaused fuel id og σ = Some (r, σ') → currentTransaction σ' = None) ∧
  (∀ id r σ', abortPaused id σ = Some (r, σ') → currentTransaction σ' = None).
Proof.
  intros Hrun Hidle.
  pose proof (session_reachable_sound _ _ _ Hrun) as Hs.
  split_and!.
  - intros f r σ' Hf H. unfold paused in H. unfold bind at 1 in H.
    rewrite beginTransaction_eq in H. unfold inTransaction in H.
    rewrite Hidle in H.
    eapply (guarded_then_pause fuel1 (begun None None σ)); [|done|done|done].
    by apply begun_sound.
  - intros id g r σ' Hg H. unfold continued in H. unfold bind at 1 in H.
    destruct (restoreTransaction id σ) as [[rr σ1]|] eqn:Hr; [|done].
    pose proof (restoreTransaction_idle _ _ _ _ Hs Hidle Hr) as Hcase.
    destruct rr as [[]|err].
    + destruct Hcase as (t & _ & _ & -> & Hs1).
      by eapply (guarded_then_pause fuel1 (resumed id t σ)).
    + by simplify_eq.
  - intros id og r σ' Hg H. unfold unpaused in H. unfold bind at 1 in H.
    destruct (restoreTransaction id σ) as [[rr σ1]|] eqn:Hr; [|done].
    pose proof (restoreTransaction_idle _ _ _ _ Hs Hidle Hr) as Hcase.
    destruct rr as [[]|err].
    + destruct Hcase as (t & _ & _ & -> & Hs1).
      by eapply (guarded_then_commit fuel1 fuel (resumed id t σ) og).
    + by simplify_eq.
  - intros id r σ' H. unfold abortPaused, bind in H.
    destruct (restoreTransaction id σ) as [[rr σ1]|] eqn:Hr; [|done].
    pose proof (restoreTransaction_idle _ _ _ _ Hs Hidle Hr) as Hcase.
    destruct rr as [[]|err].
    + destruct Hcase as (t & _ & _ & -> & Hs1).
      rewrite (abortTransaction_active _ t) in H; [|apply Hs1|done].
      by simplify_eq.
    + by simplify_eq.
Qed.

Lemma callers_leave_no_transaction_active_witness :
  (∀ f r σ', entity_code 2 unit f →
     paused f (session_after 2 [Model [(0%nat, 499)]]) = Some (r, σ') →
     currentTransaction σ' = None) ∧
  (∀ id g r σ', entity_code 2 unit g →
     continued id g (session_after 2 [Model [(0%nat, 499)]]) = Some (r, σ') →
     currentTransaction σ' = None) ∧
  (∀ id og r σ', (∀ g, og = Some g → entity_code 2 unit g) →
     unpaused 2 id og (session_after 2 [Model [(0%nat, 499)]]) = Some (r, σ') →
     currentTransaction σ' = None) ∧
  (∀ id r σ',
     abortPaused id (session_after 2 [Model [(0%nat, 499)]]) = Some (r, σ') →
     currentTransaction σ' = None).
Proof.
  apply (callers_leave_no_transaction_active 2 2 2 [Model [(0%nat, 499)]]);
    by vm_compute.
Defined.

(** X22.  [continued(id, f)] moves the transaction to a new pause id.
    When it returns, in an engine that calls, property reads and writes
    and new models have reached, the id it returns is the next free slot
    of the registry, that slot holds the transaction slot [id] held (same
    number, same invalid set), still [open] in the lifecycle table, and
    slot [id] is freed: the id passed in cannot be restored again. *)
Theorem continued_moves_the_transaction_to_a_new_id (fuel0 fuel1 : nat)
    (acts : list action) (σ σ' : Engine) (id id' : PauseId) (g : M unit) :
  session fuel0 acts initial = Some σ →
  entity_code fuel1 unit g →
  continued id g σ = Some (Ret id', σ') →
  ∃ t t',
    pausedTransactions σ !! id = Some (Some t) ∧
    id' = length (pausedTransactions σ) ∧
    pausedTransactions σ' !! id = Some None ∧
    pausedTransactions σ' !! id' = Some (Some t') ∧
    t_number t' = t_number t ∧ t_invalid t' = t_invalid t ∧
    openTransactions σ' !! t_number t = Some FsOpen ∧
    restoreTransaction id σ' = Some (Throw InvalidPausedTransaction, σ').
Proof.
  intros Hrun Hg H.
  pose proof (session_reachable_sound _ _ _ Hrun) as Hs.
  unfold continued in H. unfold bind at 1 in H.
  destruct (restoreTransaction id σ) as [[[[]|err] σ1]|] eqn:Hr; [|done..].
  destruct (restoreTransaction_returned _ _ _ Hr)
    as (t & Hidle & Hid & Hop & _ & ->).
  pose proof (resumed_sound id t σ Hs Hidle Hid Hop) as Hs1.
  unfold bind at 1 in H.
  destruct (catch g _ (resumed id t σ)) as [[rc σc]|] eqn:Hc; [|done].
  destruct (guarded_code _ _ _ _ _ _ Hs1 eq_refl Hg Hc)
    as (rf & σ2 & t2 & _ & Hs2 & Hsm & Ht2 & Hn2 & Hi2 & Hcase).
  destruct rf as [[]|err]; destruct Hcase as [-> ->]; [|done].
  rewrite (pauseTransaction_active σ2 t2) in H; [|apply Hs2|done].
  injection H as <- <-.
  destruct Hsm as (_ & _ & _ & Hop2 & Hps2 & _). simpl in Hop2, Hps2.
  pose proof (lookup_lt_Some _ _ _ Hid) as Hlt.
  exists t, t2. simpl. rewrite Hps2, Hop2, length_insert.
  split_and!; try done.
  - rewrite lookup_app_l by (by rewrite length_insert).
    by apply list_lookup_insert_eq.
  - rewrite lookup_app_r by (by rewrite length_insert).
    by rewrite length_insert, Nat.sub_diag.
  - rewrite restoreTransaction_eq. unfold inTransaction. simpl.
    rewrite Hps2, lookup_app_l by (by rewrite length_insert).
    by rewrite list_lookup_insert_eq.
Qed.

Lemma continued_moves_the_transaction_to_a_new_id_witness :
  ∃ t t',
    pausedTransactions
      one_paused_writer !! 0%nat = Some (Some t) ∧
    1%nat = length (pausedTransactions
      one_paused_writer) ∧
    pausedTransactions
      (default initial (snd <$> continued 0%nat (property_set 2 0%nat 0%nat 501)
         one_paused_writer)) !! 0%nat = Some None ∧
    pausedTransactions
      (default initial (snd <$> continued 0%nat (property_set 2 0%nat 0%nat 501)
         one_paused_writer)) !! 1%nat = Some (Some t') ∧
    t_number t' = t_number t ∧ t_invalid t' = t_invalid t ∧
    openTransactions
      (default initial (snd <$> continued 0%nat (property_set 2 0%nat 0%nat 501)
         one_paused_writer)) !! t_number t = Some FsOpen ∧
    restoreTransaction 0%nat
      (default initial (snd <$> continued 0%nat (property_set 2 0%nat 0%nat 501)
         one_paused_writer))
    = Some (Throw InvalidPausedTransaction,
        default initial (snd <$> continued 0%nat (property_set 2 0%nat 0%nat 501)
         one_paused_writer)).
Proof.
  apply (continued_moves_the_transaction_to_a_new_id 2 2
    [Model [(0%nat, 499)]; Call (BeginTransaction None None);
     Write 0%nat 0%nat 500; Call PauseTransaction]
    _ _ 0%nat 1%nat (property_set 2 0%nat 0%nat 501)).
  - by vm_compute.
  - apply ec_set.
  - by vm_compute.
Defined.

(** ** New models and new entities *)
Lemma getProp_copied k object : ∀ fields,
  NoDup object.*1 →
  getProp k (copied object fields)
  = match getProp k object with Some v => Some v | None => getProp k fields end.
Proof.
  unfold copied. induction object as [|[n v] object IH]; intros fields Hnd;
    simpl; [done|].
  apply NoDup_cons in Hnd as [Hn Hnd]. rewrite IH by done.
  destruct (decide (n = k)) as [->|Hne].
  - assert (getProp k object = None) as ->.
    { clear -Hn. induction object as [|[n' v'] object IH]; simpl; [done|].
      simpl in Hn. apply not_elem_of_cons in Hn as [Hne Hn].
      rewrite decide_False by done. by apply IH. }
    apply getProp_setProp.
  - destruct (getProp k object); [done|]. by apply getProp_setProp_ne.
Qed.

Lemma forEach_write_fields s object : ∀ σ,
  is_Some (states σ !! s) →
  forEach (λ kv : nat * Z, updState s (with_fields (setProp kv.1 kv.2))) object σ
  = Some (Ret tt, set_states (alter (with_fields (copied object)) s (states σ)) σ).
Proof.
  induction object as [|[n v] object IH]; intros σ [st Hst]; simpl.
  - unfold ret. do 2 f_equal. rewrite list_alter_id; [by destruct σ|].
    intros x. by destruct x.
  - unfold bind at 1, updState at 1, bind at 1, readState at 1. rewrite Hst.
    unfold modify. rewrite IH.
    + simpl. rewrite list_alter_alter_eq. do 2 f_equal.
    + simpl. rewrite list_lookup_alter_eq, Hst. eauto.
Qed.

Lemma property_set_own fuel m s k v σ eo st :
  entities σ !! m = Some eo →
  e_transaction eo = Some (currentTransactionNumber σ) →
  e_state eo = Some s → states σ !! s = Some st →
  s_min st = Some (currentTransactionNumber σ) →
  property_set fuel m k v σ
  = Some (Ret tt, set_states (alter (with_fields (setProp k v)) s (states σ)) σ).
Proof.
  intros He Htr Hst Hs Hmin. unfold property_set. unfold bind at 1.
  rewrite ensureWritable_eq, He, Hst, Hs.
  rewrite bool_decide_eq_false_2 by (intros Hx; by apply Hx).
  rewrite bool_decide_eq_false_2 by (intros Hx; by apply Hx).
  unfold bind at 1, readEntity at 1. rewrite He, Hst.
  unfold updState, bind, readState, modify. by rewrite Hs.
Qed.

Lemma forEach_property_set_own fuel m s object : ∀ σ eo st,
  entities σ !! m = Some eo →
  e_transaction eo = Some (currentTransactionNumber σ) →
  e_state eo = Some s → states σ !! s = Some st →
  s_min st = Some (currentTransactionNumber σ) →
  forEach (λ kv : nat * Z, property_set fuel m kv.1 kv.2) object σ
  = Some (Ret tt, set_states (alter (with_fields (copied object)) s (states σ)) σ).
Proof.
  induction object as [|[n v] object IH]; intros σ eo st He Htr Hst Hs Hmin; simpl.
  - unfold ret. do 2 f_equal. rewrite list_alter_id; [by destruct σ|].
    intros x. by destruct x.
  - unfold bind at 1.
    rewrite (property_set_own fuel m s n v σ eo st) by done.
    rewrite (IH _ eo (with_fields (setProp n v) st)); try done.
    + simpl. rewrite list_alter_alter_eq. do 2 f_equal.
    + simpl. by rewrite list_lookup_alter_eq, Hs.
Qed.

Lemma model_eq object σ :
  model object σ = Some (Ret (length (entities σ)), written object σ).
Proof.
  assert (Hm : (s <- allocState (mkState None None None None None []) ;;
                m <- allocEntity (mkEntity None None None) ;;
                bindState m s ;; ret (m, s)) σ
               = Some (Ret (length (entities σ), length (states σ)), bound [] σ)).
  { unfold bound. munfold; simpl.
    repeat (first [rewrite list_lookup_middle by done | rewrite alter_snoc]; simpl).
    done. }
  unfold model. unfold bind, ret in Hm |- *.
  destruct (allocState _ σ) as [[[s|] σa]|]; try done.
  destruct (allocEntity _ σa) as [[[m|] σb]|]; try done.
  destruct (bindState m s σb) as [[[[]|] σc]|]; try done.
  injection Hm as -> -> ->.
  rewrite forEach_write_fields; [done|].
  simpl. rewrite list_lookup_middle by done. eauto.
Qed.

Lemma entity_eq fuel object σ :
  entity (λ this, forEach (λ kv : nat * Z, property_set fuel this kv.1 kv.2) object) σ
  = Some (Ret (length (entities σ)), written object σ).
Proof.
  pose proof (fresh_bound σ) as Hb.
  unfold entity. unfold bind, ret in Hb |- *.
  destruct (allocEntity _ σ) as [[[m|] σa]|]; try done.
  destruct (allocState _ σa) as [[[s|] σb]|]; try done.
  destruct (bindState m s σb) as [[[[]|] σc]|]; try done.
  injection Hb as -> ->.
  rewrite (forEach_property_set_own fuel _ (length (states σ)) object (bound [] σ)
             (mkEntity (Some (currentTransactionNumber σ))
                (Some (length (states σ))) (Some (length (states σ))))
             (mkState (Some (currentTransactionNumber σ)) None None None
                (Some (length (entities σ))) [])); try done.
  - simpl. by rewrite list_lookup_middle.
  - simpl. by rewrite list_lookup_middle.
Qed.

Lemma written_reads fuel object k σ :
  NoDup object.*1 →
  property_get fuel (length (entities σ)) k (written object σ)
  = Some (Ret (getProp k object), written object σ).
Proof.
  intros Hnd.
  rewrite (property_get_cached fuel _ k _
             (mkEntity (Some (currentTransactionNumber σ))
                (Some (length (states σ))) (Some (length (states σ))))).
  - simpl. rewrite list_lookup_alter_eq, list_lookup_middle by done. simpl.
    rewrite getProp_copied by done. by destruct (getProp k object).
  - simpl. by rewrite list_lookup_middle.
  - done.
Qed.

(** X23.  A new model holds its object.  On any engine, in a transaction
    or not, [model(object)] returns a new entity, and every property of
    that entity then reads what [object] holds for it ([undefined] for a
    name [object] does not have); the read changes nothing.  The
    properties of [object] have distinct names. *)
Theorem new_model_holds_its_object (object : Fields) (σ : Engine) :
  NoDup object.*1 →
  ∃ σ1, model object σ = Some (Ret (length (entities σ)), σ1) ∧
        entities σ !! length (entities σ) = None ∧
        ∀ fuel k, property_get fuel (length (entities σ)) k σ1
                  = Some (Ret (getProp k object), σ1).
Proof.
  intros Hnd. exists (written object σ). split_and!.
  - apply model_eq.
  - by apply lookup_ge_None.
  - intros fuel k. by apply written_reads.
Qed.

Lemma new_model_holds_its_object_witness :
  ∃ σ1, model [(0%nat, 499); (1%nat, 7)] one_paused_writer
        = Some (Ret (length (entities one_paused_writer)), σ1) ∧
        entities one_paused_writer !! length (entities one_paused_writer) = None ∧
        ∀ fuel k, property_get fuel (length (entities one_paused_writer)) k σ1
                  = Some (Ret (getProp k [(0%nat, 499); (1%nat, 7)]), σ1).
Proof.
  apply (new_model_holds_its_object [(0%nat, 499); (1%nat, 7)] one_paused_writer).
  simpl. apply NoDup_cons. split; [by intros ?%list_elem_of_singleton|].
  apply NoDup_singleton.
Defined.

(** X24.  The decorators build what [model] builds.  On any engine,
    constructing an [@entity] class whose constructor assigns its [@state]
    properties one after the other returns the same entity and leaves the
    same engine as [model] on an object with those properties: the
    setters write the state [bindState] bound, they never clone it. *)
Theorem entity_constructor_builds_the_model (fuel : nat) (object : Fields)
    (σ : Engine) :
  entity (λ this, forEach (λ kv : nat * Z, property_set fuel this kv.1 kv.2) object) σ
  = model object σ.
Proof. by rewrite entity_eq, model_eq. Qed.
